(** * FairResourceLock and MmCopyVirtualMemory: a shallow embedding

    The first part of this development embeds the fair reader-writer lock
    [ProcessHacker.Common.Threading.FairResourceLock] (C#).  Every method
    is written as a program over the atomic actions the source performs
    (interlocked operations on [_value], field accesses of wait blocks,
    the queue spinlock, the keyed-event system calls).  One program text
    is given two semantics: a sequential one, in which the other threads
    appear as a script of interferences, and an interleaving one, in
    which several programs run under a schedule.

    The second part embeds the dispatch of [MmCopyVirtualMemory] (C,
    KProcessHacker/mm.c). *)

From Stdlib Require Import ZArith List Bool Lia.
From stdpp Require Import gmap.
Import ListNotations.
Local Open Scope Z_scope.

(** ** 32-bit signed integers ([int] of C#, unchecked arithmetic) *)

Module Int32.

Definition min_value : Z := - 2 ^ 31.
Definition max_value : Z := 2 ^ 31 - 1.
Definition in_range (z : Z) : Prop := min_value <= z <= max_value.
Definition wrap (z : Z) : Z := (z + 2 ^ 31) mod 2 ^ 32 - 2 ^ 31.
Definition add (a b : Z) : Z := wrap (a + b).
Definition sub (a b : Z) : Z := wrap (a - b).

End Int32.

(** ** Constants of the lock (region Constants of the source) *)

Definition LockOwned : Z := 0x1.
Definition LockWaiters : Z := 0x2.
Definition LockSharedOwnersShift : Z := 2.
Definition LockSharedOwnersMask : Z := 0x3fffffff.
Definition LockSharedOwnersIncrement : Z := 0x4.

Definition WaiterExclusive : Z := 0x1.
Definition WaiterSpinning : Z := 0x2.

(** [(value & flag) != 0] and [(value & flag) == 0] of the source. *)
Definition has_flag (value flag : Z) : bool := negb (Z.land value flag =? 0).
Definition no_flag (value flag : Z) : bool := Z.land value flag =? 0.

(** [(value >> LockSharedOwnersShift) & LockSharedOwnersMask] *)
Definition shared_count (value : Z) : Z :=
  Z.land (Z.shiftr value LockSharedOwnersShift) LockSharedOwnersMask.

(** [x & ~flag] *)
Definition clear_flag (x flag : Z) : Z := Z.land x (Z.lnot flag).

(** ** Wait blocks and the state of one lock object *)

Record WaitBlock := mkWaitBlock {
  Flink : Z;
  Blink : Z;
  Flags : Z
}.

Definition set_Flink (v : Z) (w : WaitBlock) : WaitBlock :=
  mkWaitBlock v (Blink w) (Flags w).
Definition set_Blink (v : Z) (w : WaitBlock) : WaitBlock :=
  mkWaitBlock (Flink w) v (Flags w).
Definition set_Flags (v : Z) (w : WaitBlock) : WaitBlock :=
  mkWaitBlock (Flink w) (Blink w) v.

(** Methods whose calls the trace records. *)
Inductive Method : Type :=
  | MBlock | MUnblock | MWake | MWakeExclusive | MWakeShared.

(** The atomic actions of the source.  Pointers ([WaitBlock*]) and
    handles ([IntPtr]) are addresses in [Z]; every action returns an
    [int]-like result (0 for [void]). *)
Inductive Act : Type :=
  (* the state word *)
  | AGetValue                              (* value = _value *)
  | ACasValue (newv cmp : Z)               (* Interlocked.CompareExchange(ref _value, newv, cmp) *)
  (* plain fields of the lock object *)
  | AGetSpinCount                          (* _spinCount *)
  | AGetHead                               (* _waitersListHead *)
  | AGetFirstShared                        (* _firstSharedWaiter *)
  | ASetFirstShared (p : Z)                (* _firstSharedWaiter = p *)
  | AGetWakeEvent                          (* _wakeEvent, volatile or plain *)
  | ACasWakeEvent (newv cmp : Z)           (* Interlocked.CompareExchange(ref _wakeEvent, ..) *)
  (* the queue spinlock *)
  | ALockAcquire                           (* _lock.Acquire() *)
  | ALockRelease                           (* _lock.Release() *)
  (* wait blocks *)
  | ALocal (p : Z)                         (* WaitBlock waitBlock;  at address p *)
  | ANew (p : Z)                           (* WaitBlock x = new WaitBlock();  at address p *)
  | ALoadFlink (p : Z)
  | ALoadBlink (p : Z)
  | ALoadFlags (p : Z)                     (* p->Flags, plain or Thread.VolatileRead *)
  | AStoreFlink (p v : Z)
  | AStoreBlink (p v : Z)
  | AStoreFlags (p v : Z)
  | ACasFlags (p newv cmp : Z)             (* Interlocked.CompareExchange(ref p->Flags, ..) *)
  (* the operating system *)
  | ANtCreateKeyedEvent                    (* returns the NTSTATUS; the handle is the out parameter *)
  | AOutHandle                             (* the out parameter of the last NtCreateKeyedEvent *)
  | ACloseHandle (h : Z)
  | AKeyedWaitCall (h key : Z)             (* NtWaitForKeyedEvent is entered *)
  | AKeyedWaitReturn (key : Z)             (* .. and returns, once a release for key is there *)
  | ANtReleaseKeyedEvent (h key : Z)
  | AGetSpinEnabled                        (* NativeMethods.SpinEnabled *)
  | ASpinWait (n : Z)                      (* Thread.SpinWait(n) *)
  | ASleep (n : Z)                         (* Thread.Sleep(n) *)
  | AThrow                                 (* throw new Exception(..) *)
  (* bookkeeping of the model: the method is entered; no effect *)
  | AEnter (m : Method).

Record State := mkState {
  _value : Z;
  _spinCount : Z;
  _wakeEvent : Z;
  _lock : bool;                  (* the SpinLock is held *)
  _waitersListHead : Z;
  _firstSharedWaiter : Z;
  memory : gmap Z WaitBlock;     (* the sentinel and the wait blocks on the threads' stacks *)
  releases : list Z;             (* keys released on the keyed event and not yet consumed *)
  next_handle : Z;               (* the handle the next NtCreateKeyedEvent yields *)
  out_handle : Z;
  create_status : Z;             (* NTSTATUS of NtCreateKeyedEvent *)
  wait_status : Z;               (* NTSTATUS of NtWaitForKeyedEvent *)
  SpinEnabled : bool;
  trace : list (Act * Z)         (* every action performed, with its result, oldest first *)
}.

Definition upd_value (v : Z) (s : State) : State :=
  mkState v (_spinCount s) (_wakeEvent s) (_lock s) (_waitersListHead s)
    (_firstSharedWaiter s) (memory s) (releases s) (next_handle s)
    (out_handle s) (create_status s) (wait_status s) (SpinEnabled s) (trace s).
Definition upd_wakeEvent (v : Z) (s : State) : State :=
  mkState (_value s) (_spinCount s) v (_lock s) (_waitersListHead s)
    (_firstSharedWaiter s) (memory s) (releases s) (next_handle s)
    (out_handle s) (create_status s) (wait_status s) (SpinEnabled s) (trace s).
Definition upd_lock (v : bool) (s : State) : State :=
  mkState (_value s) (_spinCount s) (_wakeEvent s) v (_waitersListHead s)
    (_firstSharedWaiter s) (memory s) (releases s) (next_handle s)
    (out_handle s) (create_status s) (wait_status s) (SpinEnabled s) (trace s).
Definition upd_firstShared (v : Z) (s : State) : State :=
  mkState (_value s) (_spinCount s) (_wakeEvent s) (_lock s) (_waitersListHead s)
    v (memory s) (releases s) (next_handle s)
    (out_handle s) (create_status s) (wait_status s) (SpinEnabled s) (trace s).
Definition upd_memory (v : gmap Z WaitBlock) (s : State) : State :=
  mkState (_value s) (_spinCount s) (_wakeEvent s) (_lock s) (_waitersListHead s)
    (_firstSharedWaiter s) v (releases s) (next_handle s)
    (out_handle s) (create_status s) (wait_status s) (SpinEnabled s) (trace s).
Definition upd_releases (v : list Z) (s : State) : State :=
  mkState (_value s) (_spinCount s) (_wakeEvent s) (_lock s) (_waitersListHead s)
    (_firstSharedWaiter s) (memory s) v (next_handle s)
    (out_handle s) (create_status s) (wait_status s) (SpinEnabled s) (trace s).
Definition upd_handles (nxt out : Z) (s : State) : State :=
  mkState (_value s) (_spinCount s) (_wakeEvent s) (_lock s) (_waitersListHead s)
    (_firstSharedWaiter s) (memory s) (releases s) nxt
    out (create_status s) (wait_status s) (SpinEnabled s) (trace s).
Definition upd_trace (v : list (Act * Z)) (s : State) : State :=
  mkState (_value s) (_spinCount s) (_wakeEvent s) (_lock s) (_waitersListHead s)
    (_firstSharedWaiter s) (memory s) (releases s) (next_handle s)
    (out_handle s) (create_status s) (wait_status s) (SpinEnabled s) v.

(** Modelled from the spec: the queue spinlock ([SpinLock], whose source
    is not part of the files at hand) and the keyed event of the
    operating system.  The spinlock is a flag that [Acquire] sets when it
    is clear and [Release] clears; a wait on the keyed event returns when
    some thread has released the same key, one release per wait.

    Result of one action: it completes with a value, it cannot proceed
    yet (spinlock held, no release to consume), or it faults (a wild
    pointer, a thrown exception). *)
Inductive step_result : Type :=
  | Done (x : Z) (s : State)
  | Wait
  | Crash.

Definition with_block (p : Z) (s : State) (f : WaitBlock -> step_result) : step_result :=
  match memory s !! p with
  | Some w => f w
  | None => Crash
  end.

Definition store_block (p : Z) (w : WaitBlock) (s : State) : State :=
  upd_memory (<[p := w]> (memory s)) s.

(** Removes the first occurrence of [key]; [None] when there is none. *)
Fixpoint take_release (key : Z) (l : list Z) : option (list Z) :=
  match l with
  | [] => None
  | k :: l' =>
      if k =? key then Some l'
      else match take_release key l' with
           | Some r => Some (k :: r)
           | None => None
           end
  end.

(** [WaitBlock waitBlock;] gives the local its place on the stack; what
    the place holds stays. *)
Definition ensure_block (p : Z) (s : State) : State :=
  match memory s !! p with
  | Some _ => s
  | None => store_block p (mkWaitBlock 0 0 0) s
  end.

Definition exec (e : Act) (s : State) : step_result :=
  match e with
  | AGetValue => Done (_value s) s
  | ACasValue newv cmp =>
      if _value s =? cmp then Done (_value s) (upd_value newv s)
      else Done (_value s) s
  | AGetSpinCount => Done (_spinCount s) s
  | AGetHead => Done (_waitersListHead s) s
  | AGetFirstShared => Done (_firstSharedWaiter s) s
  | ASetFirstShared p => Done 0 (upd_firstShared p s)
  | AGetWakeEvent => Done (_wakeEvent s) s
  | ACasWakeEvent newv cmp =>
      if _wakeEvent s =? cmp then Done (_wakeEvent s) (upd_wakeEvent newv s)
      else Done (_wakeEvent s) s
  | ALockAcquire => if _lock s then Wait else Done 0 (upd_lock true s)
  | ALockRelease => Done 0 (upd_lock false s)
  | ALocal p => Done 0 (ensure_block p s)
  | ANew p => Done 0 (store_block p (mkWaitBlock 0 0 0) s)
  | ALoadFlink p => with_block p s (fun w => Done (Flink w) s)
  | ALoadBlink p => with_block p s (fun w => Done (Blink w) s)
  | ALoadFlags p => with_block p s (fun w => Done (Flags w) s)
  | AStoreFlink p v => with_block p s (fun w => Done 0 (store_block p (set_Flink v w) s))
  | AStoreBlink p v => with_block p s (fun w => Done 0 (store_block p (set_Blink v w) s))
  | AStoreFlags p v => with_block p s (fun w => Done 0 (store_block p (set_Flags v w) s))
  | ACasFlags p newv cmp =>
      with_block p s (fun w =>
        if Flags w =? cmp then Done (Flags w) (store_block p (set_Flags newv w) s)
        else Done (Flags w) s)
  | ANtCreateKeyedEvent =>
      if create_status s <? 0 then Done (create_status s) s
      else Done (create_status s) (upd_handles (next_handle s + 4) (next_handle s) s)
  | AOutHandle => Done (out_handle s) s
  | ACloseHandle h => Done 0 s
  | AKeyedWaitCall h key => Done 0 s
  | AKeyedWaitReturn key =>
      match take_release key (releases s) with
      | Some r => Done (wait_status s) (upd_releases r s)
      | None => Wait
      end
  | ANtReleaseKeyedEvent h key => Done 0 (upd_releases (releases s ++ [key]) s)
  | AGetSpinEnabled => Done (if SpinEnabled s then 1 else 0) s
  | ASpinWait n => Done 0 s
  | ASleep n => Done 0 s
  | AThrow => Crash
  | AEnter m => Done 0 s
  end.

Definition log (e : Act) (x : Z) (s : State) : State :=
  upd_trace (trace s ++ [(e, x)]) s.

(** ** Programs *)

(** A method body is a tree of actions.  [Diverge] stands for a loop of
    the source that has used up the iteration bound given to the model
    (the source loops are unbounded: [while (true)], [do .. while]). *)
Inductive Prog (A : Type) : Type :=
  | Ret (a : A)
  | Vis (e : Act) (k : Z -> Prog A)
  | Diverge.

Arguments Ret {A} a.
Arguments Vis {A} e k.
Arguments Diverge {A}.

Fixpoint bind {A B : Type} (m : Prog A) (f : A -> Prog B) : Prog B :=
  match m with
  | Ret a => f a
  | Vis e k => Vis e (fun x => bind (k x) f)
  | Diverge => Diverge
  end.

Declare Scope prog_scope.
Delimit Scope prog_scope with prog.
Bind Scope prog_scope with Prog.
Notation "x <- m ;; k" := (bind m (fun x => k))
  (at level 100, m at next level, k at level 200, right associativity) : prog_scope.
Notation "m ;; k" := (bind m (fun _ => k))
  (at level 100, k at level 200, right associativity) : prog_scope.
Local Open Scope prog_scope.

Definition act (e : Act) : Prog Z := Vis e Ret.
Definition act_ (e : Act) : Prog unit := Vis e (fun _ => Ret tt).

(** ** The other threads, seen from one thread

    What another thread can do to the words this thread reads
    atomically: an interlocked write to [_value], or a whole [Unblock]
    of a wait block (it clears the spinning flag and, when the flag was
    already clear, releases the keyed event for the block). *)
Inductive Interference : Type :=
  | Quiet
  | StoreValue (v : Z)
  | EnvUnblock (p : Z).

Definition interfere (i : Interference) (s : State) : State :=
  match i with
  | Quiet => s
  | StoreValue v => upd_value v s
  | EnvUnblock p =>
      match memory s !! p with
      | Some w =>
          let s' := store_block p (set_Flags (clear_flag (Flags w) WaiterSpinning) w) s in
          if has_flag (Flags w) WaiterSpinning then s'
          else upd_releases (releases s' ++ [p]) s'
      | None => s
      end
  end.

(** The actions at which the thread observes words other threads write. *)
Definition yields (e : Act) : bool :=
  match e with
  | AGetValue | ACasValue _ _ | ALoadFlags _ | ACasFlags _ _ _
  | AGetWakeEvent | ACasWakeEvent _ _ | AKeyedWaitReturn _ => true
  | _ => false
  end.

Definition pop (e : Act) (env : list Interference) (s : State)
  : list Interference * State :=
  if yields e then
    match env with
    | i :: env' => (env', interfere i s)
    | [] => ([], s)
    end
  else (env, s).

(** How a run ends: the program returned, it waits for something no
    scripted interference provides, it faulted, or a loop used up its
    iteration bound. *)
Inductive status (A : Type) : Type :=
  | Returned (a : A)
  | Blocked
  | Fault
  | OutOfFuel.

Arguments Returned {A} a.
Arguments Blocked {A}.
Arguments Fault {A}.
Arguments OutOfFuel {A}.

Record outcome (A : Type) : Type := mkOutcome {
  result : status A;
  rest : list Interference;   (* the interferences not yet consumed *)
  final : State
}.

Arguments mkOutcome {A} result rest final.
Arguments result {A} o.
Arguments rest {A} o.
Arguments final {A} o.

(** Sequential semantics: the thread runs [p]; before each yielding
    action the next scripted interference of the other threads has
    taken place. *)
Fixpoint run {A : Type} (p : Prog A) (env : list Interference) (s : State)
  : outcome A :=
  match p with
  | Ret a => mkOutcome (Returned a) env s
  | Diverge => mkOutcome OutOfFuel env s
  | Vis e k =>
      match exec e (snd (pop e env s)) with
      | Done x s' => run (k x) (fst (pop e env s)) (log e x s')
      | Wait => mkOutcome Blocked (fst (pop e env s)) (snd (pop e env s))
      | Crash => mkOutcome Fault (fst (pop e env s)) (snd (pop e env s))
      end
  end.

(** ** The methods of FairResourceLock

    Each loop of the source takes an iteration bound [fuel]. *)

Inductive ListPosition : Type :=
  | First          (* ahead of all other wait blocks *)
  | LastExclusive  (* behind all exclusive wait blocks, ahead of the first shared one *)
  | Last.          (* behind all other wait blocks *)

Definition InsertHeadList (listHead entry : Z) : Prog unit :=
  flink <- act (ALoadFlink listHead) ;;
  act_ (AStoreFlink entry flink) ;;
  act_ (AStoreBlink entry listHead) ;;
  act_ (AStoreBlink flink entry) ;;
  act_ (AStoreFlink listHead entry).

Definition InsertTailList (listHead entry : Z) : Prog unit :=
  blink <- act (ALoadBlink listHead) ;;
  act_ (AStoreFlink entry listHead) ;;
  act_ (AStoreBlink entry blink) ;;
  act_ (AStoreFlink blink entry) ;;
  act_ (AStoreBlink listHead entry).

Definition RemoveEntryList (entry : Z) : Prog bool :=
  flink <- act (ALoadFlink entry) ;;
  blink <- act (ALoadBlink entry) ;;
  act_ (AStoreFlink blink flink) ;;
  act_ (AStoreBlink flink blink) ;;
  Ret (flink =? blink).

Definition RemoveHeadList (listHead : Z) : Prog Z :=
  entry <- act (ALoadFlink listHead) ;;
  flink <- act (ALoadFlink entry) ;;
  act_ (AStoreFlink listHead flink) ;;
  act_ (AStoreBlink flink listHead) ;;
  Ret entry.

Definition InsertWaitBlock (waitBlock : Z) (position : ListPosition) : Prog unit :=
  match position with
  | First =>
      head <- act AGetHead ;; InsertHeadList head waitBlock
  | LastExclusive =>
      fs <- act AGetFirstShared ;; InsertTailList fs waitBlock
  | Last =>
      head <- act AGetHead ;; InsertTailList head waitBlock
  end.

(** [do { value = _value; } while (Interlocked.CompareExchange(ref _value,
    value & ~LockWaiters, value) != value);]  (in Wake, WakeExclusive and
    WakeShared) *)
Fixpoint ClearWaitersBit (fuel : nat) : Prog unit :=
  match fuel with
  | O => Diverge
  | S fuel' =>
      value <- act AGetValue ;;
      old <- act (ACasValue (clear_flag value LockWaiters) value) ;;
      if old =? value then Ret tt else ClearWaitersBit fuel'
  end.

(** [do { flags = waitBlock->Flags; } while (Interlocked.CompareExchange(
    ref waitBlock->Flags, flags & ~WaiterSpinning, flags) != flags);]
    (in Block and Unblock); the result is [flags]. *)
Fixpoint ClearSpinning (waitBlock : Z) (fuel : nat) : Prog Z :=
  match fuel with
  | O => Diverge
  | S fuel' =>
      flags <- act (ALoadFlags waitBlock) ;;
      old <- act (ACasFlags waitBlock (clear_flag flags WaiterSpinning) flags) ;;
      if old =? flags then Ret flags else ClearSpinning waitBlock fuel'
  end.

Definition CreateWakeEvent : Prog Z :=
  status <- act ANtCreateKeyedEvent ;;
  if status <? 0 then
    _ <- act AThrow ;; Ret 0
  else act AOutHandle.

(** The blocking call, as its entry and its return. *)
Definition NtWaitForKeyedEvent (h key : Z) : Prog Z :=
  act_ (AKeyedWaitCall h key) ;;
  act (AKeyedWaitReturn key).

(** [for (int j = 0; j < _spinCount; j++) { if (.. == 0) break; }] *)
Fixpoint Block_spin (waitBlock : Z) (fuel : nat) (j : Z) : Prog unit :=
  match fuel with
  | O => Diverge
  | S fuel' =>
      n <- act AGetSpinCount ;;
      if j <? n then
        flags <- act (ALoadFlags waitBlock) ;;
        if no_flag flags WaiterSpinning then Ret tt
        else Block_spin waitBlock fuel' (Int32.add j 1)
      else Ret tt
  end.

(** The [else] branch of Block: [while (true) { .. }] *)
Fixpoint Block_busy (waitBlock : Z) (fuel : nat) : Prog unit :=
  match fuel with
  | O => Diverge
  | S fuel' =>
      flags <- act (ALoadFlags waitBlock) ;;
      if no_flag flags WaiterSpinning then Ret tt
      else
        enabled <- act AGetSpinEnabled ;;
        (if negb (enabled =? 0) then
           n <- act AGetSpinCount ;; act_ (ASpinWait n)
         else act_ (ASleep 0)) ;;
        Block_busy waitBlock fuel'
  end.

(** The [if (sleep)] branch of Block after the wake event exists. *)
Definition Block_sleep (waitBlock : Z) (fuel : nat) : Prog unit :=
  flags <- ClearSpinning waitBlock fuel ;;
  if has_flag flags WaiterSpinning then
    h <- act AGetWakeEvent ;;
    status <- NtWaitForKeyedEvent h waitBlock ;;
    if negb (status =? 0) then act_ AThrow else Ret tt
  else Ret tt.

(** [#if DEFER_EVENT_CREATION] part of Block. *)
Definition Block_event : Prog unit :=
  wakeEvent <- act AGetWakeEvent ;;
  if wakeEvent =? 0 then
    wakeEvent <- CreateWakeEvent ;;
    old <- act (ACasWakeEvent wakeEvent 0) ;;
    if negb (old =? 0) then act_ (ACloseHandle wakeEvent) else Ret tt
  else Ret tt.

Definition Block (waitBlock : Z) (sleep : bool) (fuel : nat) : Prog unit :=
  act_ (AEnter MBlock) ;;
  Block_spin waitBlock fuel 0 ;;
  if sleep then
    Block_event ;;
    Block_sleep waitBlock fuel
  else Block_busy waitBlock fuel.

Definition Unblock (waitBlock : Z) (fuel : nat) : Prog unit :=
  act_ (AEnter MUnblock) ;;
  flags <- ClearSpinning waitBlock fuel ;;
  if no_flag flags WaiterSpinning then
    h <- act AGetWakeEvent ;;
    act_ (ANtReleaseKeyedEvent h waitBlock)
  else Ret tt.

(** The loop of Wake; the result is the final [wb]. *)
Fixpoint Wake_loop (wakeList : Z) (fuel : nat) (first : bool) : Prog Z :=
  match fuel with
  | O => Diverge
  | S fuel' =>
      head <- act AGetHead ;;
      wb <- act (ALoadFlink head) ;;
      head <- act AGetHead ;;
      if wb =? head then
        (* No more waiters. Clear the waiters bit. *)
        ClearWaitersBit fuel ;;
        Ret wb
      else
        stop1 <- (if first then
                    flags <- act (ALoadFlags wb) ;; Ret (has_flag flags WaiterExclusive)
                  else Ret false) ;;
        if stop1 : bool then
          head <- act AGetHead ;;
          RemoveHeadList head
        else
          stop2 <- (if negb first then
                      flags <- act (ALoadFlags wb) ;; Ret (has_flag flags WaiterExclusive)
                    else Ret false) ;;
          if stop2 : bool then Ret wb
          else
            head <- act AGetHead ;;
            wb <- RemoveHeadList head ;;
            InsertTailList wakeList wb ;;
            Wake_loop wakeList fuel' false
  end.

(** [while (true) { if (wb == &wakeList) break; flink = wb->Flink;
    this.Unblock(wb); wb = flink; }]  (in Wake and WakeShared) *)
Fixpoint UnblockWakeList (wakeList wb : Z) (fuel : nat) : Prog unit :=
  match fuel with
  | O => Diverge
  | S fuel' =>
      if wb =? wakeList then Ret tt
      else
        flink <- act (ALoadFlink wb) ;;
        Unblock wb fuel ;;
        UnblockWakeList wakeList flink fuel'
  end.

(** [wakeList] is the address of the local [wakeList]. *)
Definition Wake (wakeList : Z) (fuel : nat) : Prog unit :=
  act_ (AEnter MWake) ;;
  act_ (ANew wakeList) ;;
  act_ (AStoreFlink wakeList wakeList) ;;
  act_ (AStoreBlink wakeList wakeList) ;;
  act_ ALockAcquire ;;
  wb <- Wake_loop wakeList fuel true ;;
  flags <- act (ALoadFlags wb) ;;
  (if no_flag flags WaiterExclusive then
     head <- act AGetHead ;;
     act_ (ASetFirstShared head)
   else Ret tt) ;;
  act_ ALockRelease ;;
  (* If we removed one exclusive waiter, unblock it. *)
  flags <- act (ALoadFlags wb) ;;
  if has_flag flags WaiterExclusive then
    Unblock wb fuel
  else
    wb <- act (ALoadFlink wakeList) ;;
    UnblockWakeList wakeList wb fuel.

Definition WakeExclusive (fuel : nat) : Prog unit :=
  act_ (AEnter MWakeExclusive) ;;
  act_ ALockAcquire ;;
  head <- act AGetHead ;;
  wb <- act (ALoadFlink head) ;;
  head <- act AGetHead ;;
  excl <- (if negb (wb =? head) then
             flags <- act (ALoadFlags wb) ;; Ret (has_flag flags WaiterExclusive)
           else Ret false) ;;
  r <- (if excl : bool then
          head <- act AGetHead ;;
          unblockWaitBlock <- RemoveHeadList head ;;
          head <- act AGetHead ;;
          wb <- act (ALoadFlink head) ;;
          Ret (unblockWaitBlock, wb)
        else Ret (0, wb)) ;;
  head <- act AGetHead ;;
  (if snd r =? head then ClearWaitersBit fuel else Ret tt) ;;
  act_ ALockRelease ;;
  if negb (fst r =? 0) then Unblock (fst r) fuel else Ret tt.

(** The loop of WakeShared. *)
Fixpoint WakeShared_loop (wakeList wb : Z) (fuel : nat) : Prog unit :=
  match fuel with
  | O => Diverge
  | S fuel' =>
      head <- act AGetHead ;;
      if wb =? head then
        (* No more waiters. Clear the waiters bit. *)
        ClearWaitersBit fuel
      else
        flink <- act (ALoadFlink wb) ;;
        _ <- RemoveEntryList wb ;;
        InsertTailList wakeList wb ;;
        WakeShared_loop wakeList flink fuel'
  end.

Definition WakeShared (wakeList : Z) (fuel : nat) : Prog unit :=
  act_ (AEnter MWakeShared) ;;
  act_ (ANew wakeList) ;;
  act_ (AStoreFlink wakeList wakeList) ;;
  act_ (AStoreBlink wakeList wakeList) ;;
  act_ ALockAcquire ;;
  wb <- act AGetFirstShared ;;
  WakeShared_loop wakeList wb fuel ;;
  (* Reset the first shared waiter pointer. *)
  head <- act AGetHead ;;
  act_ (ASetFirstShared head) ;;
  act_ ALockRelease ;;
  wb <- act (ALoadFlink wakeList) ;;
  UnblockWakeList wakeList wb fuel.

(** The test of the fast path of a shared acquire:
    [(value & LockOwned) == 0 || ((value & LockWaiters) == 0 &&
     ((value >> LockSharedOwnersShift) & LockSharedOwnersMask) != 0)] *)
Definition shared_fast_path (value : Z) : bool :=
  no_flag value LockOwned
  || (no_flag value LockWaiters && negb (shared_count value =? 0)).

(** The slow path of AcquireExclusive up to the end of its
    [try { .. } finally { _lock.Release(); }] block: [false] when the
    block is left by [continue], [true] when the wait block is queued. *)
Definition AcquireExclusive_wait (waitBlock value : Z) : Prog bool :=
  act_ (ALocal waitBlock) ;;
  act_ (AStoreFlags waitBlock (Z.lor WaiterExclusive WaiterSpinning)) ;;
  (* Obtain the waiters list lock. *)
  act_ ALockAcquire ;;
  (* Try to set the waiters bit. *)
  old <- act (ACasValue (Z.lor value LockWaiters) value) ;;
  if negb (old =? value) then
    act_ ALockRelease ;;
    Ret false
  else
    (* Put our wait block behind other exclusive waiters but in front of
       all shared waiters. *)
    InsertWaitBlock waitBlock LastExclusive ;;
    act_ ALockRelease ;;
    Ret true.

(** [waitBlock] is the address of the local [waitBlock]; [i] is the
    local [i], which the source sets to 0 before the loop. *)
Fixpoint AcquireExclusive_loop (sleep : bool) (waitBlock : Z) (fuel : nat) (i : Z)
  : Prog unit :=
  match fuel with
  | O => Diverge
  | S fuel' =>
      value <- act AGetValue ;;
      (* Try to obtain the lock. *)
      if no_flag value LockOwned then
        old <- act (ACasValue (Int32.add value LockOwned) value) ;;
        if old =? value then Ret tt
        else AcquireExclusive_loop sleep waitBlock fuel' (Int32.add i 1)
      else
        n <- act AGetSpinCount ;;
        if i >=? n then
          (* We need to wait. *)
          queued <- AcquireExclusive_wait waitBlock value ;;
          if queued : bool then
            Block waitBlock sleep fuel ;;
            (* Go back and try again. *)
            AcquireExclusive_loop sleep waitBlock fuel' i
          else
            (* continue *)
            AcquireExclusive_loop sleep waitBlock fuel' i
        else AcquireExclusive_loop sleep waitBlock fuel' (Int32.add i 1)
  end.

Definition AcquireExclusive (sleep : bool) (waitBlock : Z) (fuel : nat) : Prog unit :=
  AcquireExclusive_loop sleep waitBlock fuel 0.

(** The slow path of AcquireShared, as [AcquireExclusive_wait]. *)
Definition AcquireShared_wait (waitBlock value : Z) : Prog bool :=
  act_ (ALocal waitBlock) ;;
  act_ (AStoreFlags waitBlock WaiterSpinning) ;;
  (* Obtain the waiters list lock. *)
  act_ ALockAcquire ;;
  (* Try to set the waiters bit. *)
  old <- act (ACasValue (Z.lor value LockWaiters) value) ;;
  if negb (old =? value) then
    act_ ALockRelease ;;
    Ret false
  else
    (* Put our wait block behind other waiters. *)
    InsertWaitBlock waitBlock Last ;;
    (* Set the first shared waiter pointer. *)
    blink <- act (ALoadBlink waitBlock) ;;
    head <- act AGetHead ;;
    isFirst <- (if blink =? head then Ret true
                else
                  blink <- act (ALoadBlink waitBlock) ;;
                  flags <- act (ALoadFlags blink) ;;
                  Ret (has_flag flags WaiterExclusive)) ;;
    (if isFirst : bool then act_ (ASetFirstShared waitBlock) else Ret tt) ;;
    act_ ALockRelease ;;
    Ret true.

Fixpoint AcquireShared_loop (sleep : bool) (waitBlock : Z) (fuel : nat) (i : Z)
  : Prog unit :=
  match fuel with
  | O => Diverge
  | S fuel' =>
      value <- act AGetValue ;;
      if shared_fast_path value then
        if no_flag value LockOwned then
          old <- act (ACasValue
                        (Int32.add (Int32.add value LockOwned) LockSharedOwnersIncrement)
                        value) ;;
          if old =? value then Ret tt
          else AcquireShared_loop sleep waitBlock fuel' (Int32.add i 1)
        else
          old <- act (ACasValue (Int32.add value LockSharedOwnersIncrement) value) ;;
          if old =? value then Ret tt
          else AcquireShared_loop sleep waitBlock fuel' (Int32.add i 1)
      else
        n <- act AGetSpinCount ;;
        if i >=? n then
          (* We need to wait. *)
          queued <- AcquireShared_wait waitBlock value ;;
          if queued : bool then
            Block waitBlock sleep fuel ;;
            (* Go back and try again. *)
            AcquireShared_loop sleep waitBlock fuel' i
          else
            (* continue *)
            AcquireShared_loop sleep waitBlock fuel' i
        else AcquireShared_loop sleep waitBlock fuel' (Int32.add i 1)
  end.

Definition AcquireShared (sleep : bool) (waitBlock : Z) (fuel : nat) : Prog unit :=
  AcquireShared_loop sleep waitBlock fuel 0.

(** [wakeList] is the address of the local [wakeList] of WakeShared. *)
Fixpoint ConvertExclusiveToShared (wakeList : Z) (fuel : nat) : Prog unit :=
  match fuel with
  | O => Diverge
  | S fuel' =>
      value <- act AGetValue ;;
      old <- act (ACasValue (Int32.add value LockSharedOwnersIncrement) value) ;;
      if old =? value then
        if has_flag value LockWaiters then WakeShared wakeList fuel else Ret tt
      else ConvertExclusiveToShared wakeList fuel'
  end.

(** The slow path of ConvertSharedToExclusive, as [AcquireExclusive_wait]. *)
Definition ConvertSharedToExclusive_wait (waitBlock value : Z) : Prog bool :=
  act_ (ALocal waitBlock) ;;
  act_ (AStoreFlags waitBlock (Z.lor WaiterExclusive WaiterSpinning)) ;;
  (* Obtain the waiters list lock. *)
  act_ ALockAcquire ;;
  (* Try to set the waiters bit. *)
  old <- act (ACasValue (Z.lor value LockWaiters) value) ;;
  if negb (old =? value) then
    act_ ALockRelease ;;
    Ret false
  else
    (* Put our wait block ahead of all other waiters. *)
    InsertWaitBlock waitBlock First ;;
    act_ ALockRelease ;;
    Ret true.

Fixpoint ConvertSharedToExclusive_loop (sleep : bool) (waitBlock : Z) (fuel : nat) (i : Z)
  : Prog unit :=
  match fuel with
  | O => Diverge
  | S fuel' =>
      value <- act AGetValue ;;
      (* Are we the only shared waiter? If so, acquire in exclusive mode,
         otherwise wait. *)
      if shared_count value =? 1 then
        old <- act (ACasValue (Int32.sub value LockSharedOwnersIncrement) value) ;;
        if old =? value then Ret tt
        else ConvertSharedToExclusive_loop sleep waitBlock fuel' (Int32.add i 1)
      else
        n <- act AGetSpinCount ;;
        if i >=? n then
          (* We need to wait. *)
          queued <- ConvertSharedToExclusive_wait waitBlock value ;;
          if queued : bool then
            Block waitBlock sleep fuel ;;
            (* Go back and try again. *)
            ConvertSharedToExclusive_loop sleep waitBlock fuel' i
          else
            (* continue *)
            ConvertSharedToExclusive_loop sleep waitBlock fuel' i
        else ConvertSharedToExclusive_loop sleep waitBlock fuel' (Int32.add i 1)
  end.

Definition ConvertSharedToExclusive (sleep : bool) (waitBlock : Z) (fuel : nat)
  : Prog unit :=
  ConvertSharedToExclusive_loop sleep waitBlock fuel 0.

Fixpoint ReleaseExclusive (wakeList : Z) (fuel : nat) : Prog unit :=
  match fuel with
  | O => Diverge
  | S fuel' =>
      value <- act AGetValue ;;
      old <- act (ACasValue (Int32.sub value LockOwned) value) ;;
      if old =? value then
        if has_flag value LockWaiters then Wake wakeList fuel else Ret tt
      else ReleaseExclusive wakeList fuel'
  end.

(** [newValue] of ReleaseShared. *)
Definition ReleaseShared_newValue (value : Z) : Z :=
  if negb (shared_count value =? 1) then
    Int32.sub value LockSharedOwnersIncrement
  else
    Int32.sub (Int32.sub value LockOwned) LockSharedOwnersIncrement.

Fixpoint ReleaseShared (wakeList : Z) (fuel : nat) : Prog unit :=
  match fuel with
  | O => Diverge
  | S fuel' =>
      value <- act AGetValue ;;
      old <- act (ACasValue (ReleaseShared_newValue value) value) ;;
      if old =? value then
        if has_flag value LockWaiters then Wake wakeList fuel else Ret tt
      else ReleaseShared wakeList fuel'
  end.

Definition TryAcquireExclusive : Prog bool :=
  value <- act AGetValue ;;
  if has_flag value LockOwned then Ret false
  else
    old <- act (ACasValue (Int32.add value LockOwned) value) ;;
    Ret (old =? value).

Definition TryAcquireShared : Prog bool :=
  value <- act AGetValue ;;
  if shared_fast_path value then
    if no_flag value LockOwned then
      old <- act (ACasValue
                    (Int32.add (Int32.add value LockOwned) LockSharedOwnersIncrement)
                    value) ;;
      if old =? value then Ret true else Ret false
    else
      old <- act (ACasValue (Int32.add value LockSharedOwnersIncrement) value) ;;
      if old =? value then Ret true else Ret false
  else Ret false.

(** The constructor [FairResourceLock(int spinCount)]: the sentinel is
    allocated at [head]; [garbage] is what the fresh allocation holds in
    the field the constructor does not write ([Flags]); [processorCount]
    is [Environment.ProcessorCount] and [spinEnabled] is
    [NativeMethods.SpinEnabled]. *)
Definition FairResourceLock_new (spinCount processorCount head garbage : Z)
  (spinEnabled : bool) : State :=
  {| _value := 0;
     _spinCount := if negb (processorCount =? 1) then spinCount else 0;
     _wakeEvent := 0;
     _lock := false;
     _waitersListHead := head;
     _firstSharedWaiter := head;
     memory := {[ head := mkWaitBlock head head garbage ]};
     releases := [];
     next_handle := 4;
     out_handle := 0;
     create_status := 0;
     wait_status := 0;
     SpinEnabled := spinEnabled;
     trace := [] |}.

(** [Owned] and [SharedOwners] properties. *)
Definition Owned (s : State) : bool := has_flag (_value s) LockOwned.
Definition SharedOwners (s : State) : Z := shared_count (_value s).

(** ** Interleaving semantics

    Several threads, each running a program, share one state; a schedule
    names the thread that takes the next action.  A thread whose action
    cannot proceed, or that has faulted or returned, stays as it is. *)

Record Config := mkConfig {
  shared : State;
  threads : list (Prog unit)
}.

Definition step (tid : nat) (c : Config) : Config :=
  match threads c !! tid with
  | Some (Vis e k) =>
      match exec e (shared c) with
      | Done x s' => mkConfig (log e x s') (<[tid := k x]> (threads c))
      | Wait => c
      | Crash => c
      end
  | _ => c
  end.

Definition interleave (sched : list nat) (c : Config) : Config :=
  fold_left (fun c tid => step tid c) sched c.

Definition finished (p : Prog unit) : bool :=
  match p with
  | Ret _ => true
  | _ => false
  end.

(** ** Reading traces *)

Fixpoint count (f : Act * Z -> bool) (t : list (Act * Z)) : nat :=
  match t with
  | [] => O
  | ev :: t' => if f ev then S (count f t') else count f t'
  end.

(** A call of the parking primitive on [key]. *)
Definition is_park (key : Z) (ev : Act * Z) : bool :=
  match fst ev with
  | AKeyedWaitCall _ k => k =? key
  | _ => false
  end.

(** A call of the release of the parking primitive on [key]. *)
Definition is_release (key : Z) (ev : Act * Z) : bool :=
  match fst ev with
  | ANtReleaseKeyedEvent _ k => k =? key
  | _ => false
  end.

(** An interlocked operation on [_value], and one that wrote. *)
Definition is_cas_value (ev : Act * Z) : bool :=
  match fst ev with
  | ACasValue _ _ => true
  | _ => false
  end.

Definition is_write_value (ev : Act * Z) : bool :=
  match fst ev with
  | ACasValue _ cmp => snd ev =? cmp
  | _ => false
  end.

Definition is_enter (m : Method) (ev : Act * Z) : bool :=
  match fst ev, m with
  | AEnter MBlock, MBlock
  | AEnter MUnblock, MUnblock
  | AEnter MWake, MWake
  | AEnter MWakeExclusive, MWakeExclusive
  | AEnter MWakeShared, MWakeShared => true
  | _, _ => false
  end.

(** The state the interferences alone lead to. *)
Definition apply_env (used : list Interference) (s : State) : State :=
  fold_left (fun s i => interfere i s) used s.

(** ** The waiter queue as a list

    The list a waker sees when it follows [Flink] from the sentinel. *)

Definition flink (m : gmap Z WaitBlock) (p : Z) : option Z := Flink <$> m !! p.
Definition blink (m : gmap Z WaitBlock) (p : Z) : option Z := Blink <$> m !! p.
Definition flags (m : gmap Z WaitBlock) (p : Z) : option Z := Flags <$> m !! p.

(** [a] and [b] are neighbours: [a->Flink == b] and [b->Blink == a]. *)
Definition linked (m : gmap Z WaitBlock) (a b : Z) : Prop :=
  flink m a = Some b /\ blink m b = Some a.

Fixpoint chain (m : gmap Z WaitBlock) (a : Z) (l : list Z) (z : Z) : Prop :=
  match l with
  | [] => linked m a z
  | x :: l' => linked m a x /\ chain m x l' z
  end.

(** The circular list at [head] holds exactly the blocks [l], in order. *)
Definition is_list (m : gmap Z WaitBlock) (head : Z) (l : list Z) : Prop :=
  NoDup (head :: l) /\ chain m head l head.

Definition exclusive (m : gmap Z WaitBlock) (p : Z) : bool :=
  match m !! p with
  | Some w => has_flag (Flags w) WaiterExclusive
  | None => false
  end.

(** Exclusive wait blocks precede shared wait blocks. *)
Fixpoint all_shared (m : gmap Z WaitBlock) (l : list Z) : bool :=
  match l with
  | [] => true
  | p :: l' => negb (exclusive m p) && all_shared m l'
  end.

Fixpoint ordered (m : gmap Z WaitBlock) (l : list Z) : bool :=
  match l with
  | [] => true
  | p :: l' => if exclusive m p then ordered m l' else all_shared m l'
  end.

(** The first shared wait block of [l], or [head]. *)
Fixpoint first_shared (m : gmap Z WaitBlock) (head : Z) (l : list Z) : Z :=
  match l with
  | [] => head
  | p :: l' => if exclusive m p then first_shared m head l' else p
  end.

(** The state holds the waiter queue [l], ordered, with its cursor. *)
Definition queue (s : State) (l : list Z) : Prop :=
  is_list (memory s) (_waitersListHead s) l
  /\ ordered (memory s) l = true
  /\ _firstSharedWaiter s = first_shared (memory s) (_waitersListHead s) l.

(** Following [Flink] from [p] up to [head], at most [fuel] blocks. *)
Fixpoint walk (m : gmap Z WaitBlock) (head p : Z) (fuel : nat) : option (list Z) :=
  match fuel with
  | O => None
  | S fuel' =>
      if p =? head then Some []
      else
        match m !! p with
        | Some w =>
            match walk m head (Flink w) fuel' with
            | Some l => Some (p :: l)
            | None => None
            end
        | None => None
        end
  end.

Definition queue_list (s : State) : option (list Z) :=
  match memory s !! _waitersListHead s with
  | Some w => walk (memory s) (_waitersListHead s) (Flink w) (S (size (memory s)))
  | None => None
  end.

(** The wait blocks a run has unblocked, in order. *)
Fixpoint unblocked (t : list (Act * Z)) : list Z :=
  match t with
  | [] => []
  | (AEnter MUnblock, _) :: (ALoadFlags p, _) :: t' => p :: unblocked t'
  | _ :: t' => unblocked t'
  end.

(** The events a run has added to the trace of [s]. *)
Definition trace_since (s s' : State) : list (Act * Z) :=
  skipn (length (trace s)) (trace s').

(** The state and the script after the interference that precedes a
    yielding action. *)
Definition after1 (env : list Interference) (s : State) : State :=
  match env with
  | i :: _ => interfere i s
  | [] => s
  end.


(** Every action of the program satisfies [P]. *)
Inductive all_acts {A : Type} (P : Act -> Prop) : Prog A -> Prop :=
  | all_acts_Ret a : all_acts P (Ret a)
  | all_acts_Diverge : all_acts P Diverge
  | all_acts_Vis e k : P e -> (forall x, all_acts P (k x)) -> all_acts P (Vis e k).

(** The numbers of reads of [_value] that precede each acquisition of
    the queue spinlock in a trace: the polls of the fast path before
    each attempt to queue a wait block. *)
Fixpoint polls_before_waits (t : list (Act * Z)) (n : nat) : list nat :=
  match t with
  | [] => []
  | (AGetValue, _) :: t' => polls_before_waits t' (S n)
  | (ALockAcquire, _) :: t' => n :: polls_before_waits t' O
  | _ :: t' => polls_before_waits t' n
  end.

(** Every attempt to queue comes after a whole spin phase: [spinCount]
    polls that end in a spin and the poll that enters the slow path. *)
Definition spin_budget_intact (spinCount : Z) (t : list (Act * Z)) : Prop :=
  Forall (fun n => Z.of_nat n = spinCount + 1) (polls_before_waits t O).

(** The event of the successful clear of the spinning flag of [wb] whose
    pre-image is [flagsv]. *)
Definition cleared (wb flagsv : Z) : Act * Z :=
  (ACasFlags wb (clear_flag flagsv WaiterSpinning) flagsv, flagsv).

(** What a run [o] from [s] does about parking on [wb]: at most one
    call; one call exactly when the pre-image of its clear had the
    spinning flag; with the flag clear in the pre-image the run returns. *)
Definition parks_as_cleared (wb : Z) (s : State) (o : outcome unit) : Prop :=
  (count (is_park wb) (trace_since s (final o)) <= 1)%nat
  /\ forall flagsv, In (cleared wb flagsv) (trace_since s (final o)) ->
       count (is_park wb) (trace_since s (final o))
       = (if has_flag flagsv WaiterSpinning then 1 else 0)%nat
       /\ (has_flag flagsv WaiterSpinning = false -> result o = Returned tt).

(** ** The rendezvous on the spinning flag, as a protocol

    The phases of the thread that blocks on a wait block and of the
    thread that unblocks it, and the programs that are in each phase.
    An action is calm when it writes no word of a wait block and calls
    neither the wait nor the release of the keyed event. *)

Definition calm_act (e : Act) : bool :=
  match e with
  | ACasFlags _ _ _ | AStoreFlags _ _ | AStoreFlink _ _ | AStoreBlink _ _
  | ALocal _ | ANew _ | AKeyedWaitCall _ _ | ANtReleaseKeyedEvent _ _ => false
  | _ => true
  end.

Inductive waiter_phase : Type :=
  | WSpinning     (* has not cleared the flag yet *)
  | WMustPark     (* its clear found the flag set: the wait is still to be called *)
  | WParked       (* the wait has been called *)
  | WSkipped.     (* its clear found the flag clear: no wait *)

Inductive waker_phase : Type :=
  | USpinning     (* has not cleared the flag yet *)
  | UMustRelease  (* its clear found the flag clear: the release is still to be called *)
  | UReleased     (* the release has been called *)
  | USkipped.     (* its clear found the flag set: no release *)

Inductive Waiter (wb : Z) : waiter_phase -> Prog unit -> Prop :=
  | Waiter_Ret ph : ph = WParked \/ ph = WSkipped -> Waiter wb ph (Ret tt)
  | Waiter_Diverge ph : Waiter wb ph Diverge
  | Waiter_calm ph e k :
      calm_act e = true -> (forall x, Waiter wb ph (k x)) -> Waiter wb ph (Vis e k)
  | Waiter_cas flagsv k :
      (forall old, old <> flagsv -> Waiter wb WSpinning (k old)) ->
      Waiter wb (if has_flag flagsv WaiterSpinning then WMustPark else WSkipped)
        (k flagsv) ->
      Waiter wb WSpinning
        (Vis (ACasFlags wb (clear_flag flagsv WaiterSpinning) flagsv) k)
  | Waiter_park h k :
      (forall x, Waiter wb WParked (k x)) ->
      Waiter wb WMustPark (Vis (AKeyedWaitCall h wb) k).

Inductive Waker (wb : Z) : waker_phase -> Prog unit -> Prop :=
  | Waker_Ret ph : ph = UReleased \/ ph = USkipped -> Waker wb ph (Ret tt)
  | Waker_Diverge ph : Waker wb ph Diverge
  | Waker_calm ph e k :
      calm_act e = true -> (forall x, Waker wb ph (k x)) -> Waker wb ph (Vis e k)
  | Waker_cas flagsv k :
      (forall old, old <> flagsv -> Waker wb USpinning (k old)) ->
      Waker wb (if has_flag flagsv WaiterSpinning then USkipped else UMustRelease)
        (k flagsv) ->
      Waker wb USpinning
        (Vis (ACasFlags wb (clear_flag flagsv WaiterSpinning) flagsv) k)
  | Waker_release h k :
      (forall x, Waker wb UReleased (k x)) ->
      Waker wb UMustRelease (Vis (ANtReleaseKeyedEvent h wb) k).

(** The spinning flag of the wait block [wb]. *)
Definition spinning (wb : Z) (s : State) : bool :=
  match memory s !! wb with
  | Some w => has_flag (Flags w) WaiterSpinning
  | None => false
  end.

(** The phases that go together, with the value of the flag. *)
Definition joint (pw : waiter_phase) (pu : waker_phase) (flag : bool) : Prop :=
  match pw, pu with
  | WSpinning, USpinning => flag = true
  | WSpinning, USkipped => flag = false
  | WMustPark, (USpinning | UMustRelease | UReleased) => flag = false
  | WParked, (USpinning | UMustRelease | UReleased) => flag = false
  | WSkipped, USkipped => flag = false
  | _, _ => False
  end.

Definition parked (pw : waiter_phase) : nat :=
  match pw with WParked => 1 | _ => 0 end.

Definition released (pu : waker_phase) : nat :=
  match pu with UReleased => 1 | _ => 0 end.

(** What a step of thread [tid] logs, with the thread that takes it:
    the event of [step], or nothing when the thread does not move. *)
Definition step_events (tid : nat) (c : Config) : list (nat * (Act * Z)) :=
  match threads c !! tid with
  | Some (Vis e k) =>
      match exec e (shared c) with
      | Done x _ => [(tid, (e, x))]
      | _ => []
      end
  | _ => []
  end.

(** The events of a schedule, each with the thread that logged it. *)
Fixpoint events (sched : list nat) (c : Config) : list (nat * (Act * Z)) :=
  match sched with
  | [] => []
  | tid :: sched' => step_events tid c ++ events sched' (step tid c)
  end.

(** The spinning flag that thread [tid] found in the flags word of [wb]
    at a compare-exchange of its own that succeeded. *)
Definition saw (wb : Z) (tid : nat) (ev : nat * (Act * Z)) : list bool :=
  match ev with
  | (t, (ACasFlags p _ cmp, x)) =>
      if (t =? tid)%nat && (p =? wb) && (x =? cmp)
      then [has_flag x WaiterSpinning] else []
  | _ => []
  end.

Definition observed (wb : Z) (tid : nat) (ev : list (nat * (Act * Z))) : list bool :=
  flat_map (saw wb tid) ev.

(** What a thread in a phase has found at its clear. *)
Definition waiter_seen (pw : waiter_phase) : list bool :=
  match pw with
  | WSpinning => []
  | WMustPark | WParked => [true]
  | WSkipped => [false]
  end.

Definition waker_seen (pu : waker_phase) : list bool :=
  match pu with
  | USpinning => []
  | UMustRelease | UReleased => [false]
  | USkipped => [true]
  end.

(** The invariant of a waiter and a waker that run interleaved from the
    state [s0], with the events [ev] logged so far. *)
Definition rendezvous (wb : Z) (s0 : State) (c : Config)
    (ev : list (nat * (Act * Z))) : Prop :=
  exists pw pu progw progu,
    threads c = [progw; progu]
    /\ Waiter wb pw progw /\ Waker wb pu progu
    /\ joint pw pu (spinning wb (shared c))
    /\ trace (shared c) = trace s0 ++ map snd ev
    /\ count (is_park wb) (map snd ev) = parked pw
    /\ count (is_release wb) (map snd ev) = released pu
    /\ observed wb 0 ev = waiter_seen pw
    /\ observed wb 1 ev = waker_seen pu.

(** Exactly one of the two system calls on [key] is in the trace. *)
Definition exactly_one_call (key : Z) (t : list (Act * Z)) : Prop :=
  (count (is_park key) t + count (is_release key) t = 1)%nat.

(** A link field of the memory, as a function, after one store. *)
Definition upd (f : Z -> option Z) (p v : Z) : Z -> option Z :=
  fun q => if decide (q = p) then Some v else f q.

(** The fields of the lock object other than the memory and the trace. *)
Definition ctx (s : State) :=
  (_value s, _spinCount s, _wakeEvent s, _lock s, _waitersListHead s,
   _firstSharedWaiter s, releases s,
   (next_handle s, out_handle s, create_status s, wait_status s, SpinEnabled s)).


(** The last block of [a :: l]. *)
Fixpoint last_from (a : Z) (l : list Z) : Z :=
  match l with
  | [] => a
  | c :: l' => last_from c l'
  end.

(** An environment that makes no store to [_value]. *)
Definition quiet_value (env : list Interference) : Prop :=
  Forall (fun i => forall v, i <> StoreValue v) env.

(** Two states show the same lock fields, the same links and the same
    classes of wait blocks. *)
Definition same_view (s s' : State) : Prop :=
  _lock s' = _lock s
  /\ _waitersListHead s' = _waitersListHead s
  /\ _firstSharedWaiter s' = _firstSharedWaiter s
  /\ _spinCount s' = _spinCount s
  /\ (forall q, flink (memory s') q = flink (memory s) q)
  /\ (forall q, blink (memory s') q = blink (memory s) q)
  /\ (forall q, exclusive (memory s') q = exclusive (memory s) q).

(** What a run from [env] and [s] keeps: the rest of the script is
    value-quiet and no longer, the view is the same. *)
Definition keeps {A : Type} (env : list Interference) (s : State) (o : outcome A) : Prop :=
  quiet_value (rest o)
  /\ (length (rest o) <= length env)%nat
  /\ same_view s (final o).

(** The exclusive wait blocks at the front of a queue, and what follows
    them. *)
Fixpoint exclusive_run (m : gmap Z WaitBlock) (l : list Z) : list Z :=
  match l with
  | [] => []
  | p :: l' => if exclusive m p then p :: exclusive_run m l' else []
  end.

Fixpoint shared_rest (m : gmap Z WaitBlock) (l : list Z) : list Z :=
  match l with
  | [] => []
  | p :: l' => if exclusive m p then shared_rest m l' else p :: l'
  end.

(** ** Sample states

    A lock of a two-processor machine with its list head at address 100,
    and the states a few calls lead to. *)

Definition held_exclusive : State :=
  final (run TryAcquireExclusive [] (FairResourceLock_new 4000 2 100 0 true)).

(** The lock is held exclusively; the shared acquirer with the wait
    block 200 has queued itself. *)
Definition one_shared_waiter : State :=
  final (run (AcquireShared_wait 200 LockOwned) [] held_exclusive).

(** The lock is held exclusively; an exclusive acquirer (wait block 200)
    and then a shared acquirer (wait block 300) have queued themselves. *)
Definition exclusive_then_shared_waiter : State :=
  final (run (AcquireShared_wait 300 (Z.lor LockOwned LockWaiters)) []
           (final (run (AcquireExclusive_wait 200 LockOwned) [] held_exclusive))).

(** The lock is held by two shared owners. *)
Definition held_shared_twice : State :=
  final (run (TryAcquireShared ;; TryAcquireShared) []
           (FairResourceLock_new 4000 2 100 0 true)).

(** Two shared owners; an exclusive acquirer (wait block 200) has
    queued itself. *)
Definition one_exclusive_waiter : State :=
  final (run (AcquireExclusive_wait 200 (_value held_shared_twice)) [] held_shared_twice).

(** ** A wait block that waits

    An action that writes no flags word of a wait block and neither
    consumes nor adds a release of the keyed event. *)
Definition passive (e : Act) : bool :=
  match e with
  | ALocal _ | ANew _ | AStoreFlags _ _ | ACasFlags _ _ _
  | AKeyedWaitReturn _ | ANtReleaseKeyedEvent _ _ => false
  | _ => true
  end.

(** The actions of Block on the wait block [wb]. *)
Definition block_act (wb : Z) (e : Act) : bool :=
  match e with
  | AEnter MBlock | AGetSpinCount | ALoadFlags _ | AGetSpinEnabled | ASpinWait _
  | ASleep _ | AGetWakeEvent | ANtCreateKeyedEvent | AThrow | AOutHandle
  | ACasWakeEvent _ _ | ACloseHandle _ | AKeyedWaitCall _ _ | AKeyedWaitReturn _ => true
  | ACasFlags p newv cmp => (p =? wb) && (newv =? clear_flag cmp WaiterSpinning)
  | _ => false
  end.

(** An interference that neither writes the state word nor unblocks the
    wait block [wb]. *)
Definition leaves_alone (wb : Z) (i : Interference) : Prop :=
  match i with
  | Quiet => True
  | StoreValue _ => False
  | EnvUnblock p => p <> wb
  end.

Definition undisturbed (wb : Z) (env : list Interference) : Prop :=
  Forall (leaves_alone wb) env.

(** The wait block [wb] has its spinning flag set and no release of the
    keyed event is pending for it. *)
Definition parked_on (wb : Z) (s : State) : Prop :=
  (exists f, flags (memory s) wb = Some f /\ has_flag f WaiterSpinning = true)
  /\ take_release wb (releases s) = None.

(** ** The operations on the waiter queue

    The three slow paths that insert a wait block (InsertWaitBlock at
    LastExclusive, Last and First) and the three routines that remove
    wait blocks.  Each runs under the queue lock. *)
Inductive QueueOp : Type :=
  | QAcquireExclusive (waitBlock : Z)
  | QAcquireShared (waitBlock : Z)
  | QConvertSharedToExclusive (waitBlock : Z)
  | QWake (wakeList : Z)
  | QWakeExclusive
  | QWakeShared (wakeList : Z).

(** The state an operation leaves; a slow path is entered with the
    state word it has just read. *)
Definition queue_op (op : QueueOp) (fuel : nat) (env : list Interference) (s : State)
  : State :=
  match op with
  | QAcquireExclusive wb => final (run (AcquireExclusive_wait wb (_value s)) env s)
  | QAcquireShared wb => final (run (AcquireShared_wait wb (_value s)) env s)
  | QConvertSharedToExclusive wb =>
      final (run (ConvertSharedToExclusive_wait wb (_value s)) env s)
  | QWake wl => final (run (Wake wl fuel) env s)
  | QWakeExclusive => final (run (WakeExclusive fuel) env s)
  | QWakeShared wl => final (run (WakeShared wl fuel) env s)
  end.

Definition inserts (op : QueueOp) : bool :=
  match op with
  | QAcquireExclusive _ | QAcquireShared _ | QConvertSharedToExclusive _ => true
  | _ => false
  end.

(** The wait blocks that are queued after an operation on the queue [l],
    in order. *)
Definition queue_after (op : QueueOp) (m : gmap Z WaitBlock) (l : list Z) : list Z :=
  match op with
  | QAcquireExclusive wb => exclusive_run m l ++ wb :: shared_rest m l
  | QAcquireShared wb => l ++ [wb]
  | QConvertSharedToExclusive wb => wb :: l
  | QWake _ =>
      match l with
      | x :: l' => if exclusive m x then l' else []
      | [] => []
      end
  | QWakeExclusive =>
      match l with
      | x :: l' => if exclusive m x then l' else l
      | [] => []
      end
  | QWakeShared _ => exclusive_run m l
  end.

(** What a run of an operation takes for granted: no other thread writes
    the state word meanwhile; a wait block to insert is not the null
    pointer and is not queued; the wake list is a local of its own; the
    loops have iterations enough. *)
Definition permitted (op : QueueOp) (fuel : nat) (env : list Interference) (s : State)
    (l : list Z) : Prop :=
  quiet_value env
  /\ match op with
     | QAcquireExclusive wb | QAcquireShared wb | QConvertSharedToExclusive wb =>
         wb <> 0 /\ (wb ∉ _waitersListHead s :: l)
     | QWake wl | QWakeShared wl =>
         (wl ∉ _waitersListHead s :: l) /\ (length l + length env < fuel)%nat
     | QWakeExclusive => (length env < fuel)%nat
     end.

(** The states a lock gets to from [s0] by operations on its queue, one
    after the other, with the queue of each; between two operations
    other threads may write the state word and unblock wait blocks. *)
Inductive reaches (s0 : State) : State -> list Z -> Prop :=
  | reaches_start : reaches s0 s0 []
  | reaches_interfere s l i : reaches s0 s l -> reaches s0 (interfere i s) l
  | reaches_op s l op fuel env :
      reaches s0 s l -> permitted op fuel env s l ->
      reaches s0 (queue_op op fuel env s) (queue_after op (memory s) l).

(** What every operation keeps. *)
Definition queue_invariant (head : Z) (s : State) (l : list Z) : Prop :=
  queue s l /\ _lock s = false /\ _waitersListHead s = head
  /\ exclusive (memory s) head = false /\ 0 ∉ l.

(** * KProcessHacker: MmCopyVirtualMemory (mm.c)

    MmCopyVirtualMemory decides between the two copy routines of mm.c and
    brackets the copy with rundown protection.  It only passes its
    arguments on: the copy routines, the rundown protection of kph.h and
    the constants of include/mm.h and of the NT headers are taken as
    given, over any kernel state [K].  The kernel state holds the memory
    of all processes, and so the cell [*ReturnLength]. *)

Record CopyArgs := mkCopyArgs {
  FromProcess : Z;
  FromAddress : Z;
  ToProcess : Z;
  ToAddress : Z;
  BufferLength : Z;   (* ULONG *)
  AccessMode : Z;
  ReturnLength : Z    (* PULONG *)
}.

Record Externs (K : Type) := mkExterns {
  MM_POOL_COPY_THRESHOLD : Z;
  STATUS_SUCCESS : Z;
  STATUS_PROCESS_IS_TERMINATING : Z;
  PsGetCurrentProcess : K -> Z;
  KphAcquireProcessRundownProtection : Z -> K -> bool * K;
  KphReleaseProcessRundownProtection : Z -> K -> K;
  MiDoMappedCopy : CopyArgs -> K -> Z * K;
  MiDoPoolCopy : CopyArgs -> K -> Z * K
}.

Arguments MM_POOL_COPY_THRESHOLD {K} _.
Arguments STATUS_SUCCESS {K} _.
Arguments STATUS_PROCESS_IS_TERMINATING {K} _.
Arguments PsGetCurrentProcess {K} _ _.
Arguments KphAcquireProcessRundownProtection {K} _ _ _.
Arguments KphReleaseProcessRundownProtection {K} _ _ _.
Arguments MiDoMappedCopy {K} _ _ _.
Arguments MiDoPoolCopy {K} _ _ _.

(** The calls MmCopyVirtualMemory makes, with what they returned. *)
Inductive Call : Type :=
  | CallAcquireRundown (process : Z) (acquired : bool)
  | CallReleaseRundown (process : Z)
  | CallMappedCopy (a : CopyArgs) (status : Z)
  | CallPoolCopy (a : CopyArgs) (status : Z).

Record Machine (K : Type) := mkMachine {
  kernel : K;
  calls : list Call
}.

Arguments mkMachine {K} _ _.
Arguments kernel {K} _.
Arguments calls {K} _.

Section Mm.

Variable K : Type.
Variable E : Externs K.

Definition acquire_rundown (process : Z) (m : Machine K) : bool * Machine K :=
  let r := KphAcquireProcessRundownProtection E process (kernel m) in
  (fst r, mkMachine (snd r) (calls m ++ [CallAcquireRundown process (fst r)])).

Definition release_rundown (process : Z) (m : Machine K) : Machine K :=
  mkMachine (KphReleaseProcessRundownProtection E process (kernel m))
    (calls m ++ [CallReleaseRundown process]).

Definition mapped_copy (a : CopyArgs) (m : Machine K) : Z * Machine K :=
  let r := MiDoMappedCopy E a (kernel m) in
  (fst r, mkMachine (snd r) (calls m ++ [CallMappedCopy a (fst r)])).

Definition pool_copy (a : CopyArgs) (m : Machine K) : Z * Machine K :=
  let r := MiDoPoolCopy E a (kernel m) in
  (fst r, mkMachine (snd r) (calls m ++ [CallPoolCopy a (fst r)])).

Definition MmCopyVirtualMemory (a : CopyArgs) (m : Machine K) : Z * Machine K :=
  let processToLock := FromProcess a in
  if BufferLength a =? 0 then (STATUS_SUCCESS E, m)
  else
    (* If we're copying from the current process, lock the target. *)
    let processToLock :=
      if processToLock =? PsGetCurrentProcess E (kernel m) then ToProcess a
      else processToLock in
    (* Prevent the process from terminating. *)
    let acquired := acquire_rundown processToLock m in
    if negb (fst acquired) then (STATUS_PROCESS_IS_TERMINATING E, snd acquired)
    else
      let copied :=
        if BufferLength a >? MM_POOL_COPY_THRESHOLD E then mapped_copy a (snd acquired)
        else pool_copy a (snd acquired) in
      (fst copied, release_rundown processToLock (snd copied)).

(** The process MmCopyVirtualMemory protects from rundown. *)
Definition processToLock (a : CopyArgs) (m : Machine K) : Z :=
  if FromProcess a =? PsGetCurrentProcess E (kernel m) then ToProcess a
  else FromProcess a.

End Mm.

Arguments MmCopyVirtualMemory {K} E a m.
Arguments processToLock {K} E a m.

Definition is_copy (c : Call) : bool :=
  match c with
  | CallMappedCopy _ _ | CallPoolCopy _ _ => true
  | _ => false
  end.

(** A sample kernel: the list of the processes that are being run down,
    and the value of the cell [*ReturnLength].  The copy routines are
    taken to succeed and to store the length. *)
Definition sample_externs (current : Z) : Externs (list Z * Z) :=
  {| MM_POOL_COPY_THRESHOLD := 511;
     STATUS_SUCCESS := 0;
     STATUS_PROCESS_IS_TERMINATING := 3221225738;
     PsGetCurrentProcess := fun _ => current;
     KphAcquireProcessRundownProtection :=
       fun p k => (negb (existsb (Z.eqb p) (fst k)), k);
     KphReleaseProcessRundownProtection := fun _ k => k;
     MiDoMappedCopy := fun a k => (0, (fst k, BufferLength a));
     MiDoPoolCopy := fun a k => (0, (fst k, BufferLength a)) |}.

(** ** Further notions for FairResourceLock *)

(** The actions on the keyed event of the lock (its creation, the wait
    on it, its release, its handle), and the throw of an exception. *)
Definition uses_wake_event (e : Act) : bool :=
  match e with
  | AGetWakeEvent | ACasWakeEvent _ _ | ANtCreateKeyedEvent | AOutHandle
  | ACloseHandle _ | AKeyedWaitCall _ _ | AKeyedWaitReturn _
  | ANtReleaseKeyedEvent _ _ | AThrow => true
  | _ => false
  end.

(** * KProcessHacker: the copy routines and the system services of mm.c

    The kernel routines mm.c calls (process attach, pool, probes, MDLs,
    memcpy on foreign memory) and the constants of include/mm.h and of
    the NT headers are taken as given, over any kernel state [K].  A
    routine that can raise an exception returns the exception record
    it raised, if any; a probe changes nothing, a copy or a lock that
    raises may have changed the state.  Each call is recorded. *)

Record ExceptionRecord := mkExceptionRecord {
  ExceptionCode : Z;
  NumberParameters : Z;
  ExceptionInformation1 : Z   (* ExceptionInformation[1] *)
}.

Record CopyExterns (K : Type) := mkCopyExterns {
  pointer_bits : Z;   (* the width of ULONG_PTR *)
  KernelMode : Z;
  MI_MAX_TRANSFER_SIZE : Z;
  MI_COPY_STACK_SIZE : Z;
  MI_MAPPED_COPY_PAGES : Z;
  PAGE_SIZE : Z;
  STATUS_ACCESS_VIOLATION : Z;
  STATUS_GUARD_PAGE_VIOLATION : Z;
  STATUS_IN_PAGE_ERROR : Z;
  STATUS_PARTIAL_COPY : Z;
  STATUS_INSUFFICIENT_RESOURCES : Z;
  EXCEPTION_EXECUTE_HANDLER : Z;
  KphAttachProcess : Z -> K -> K;
  KphDetachProcess : K -> K;
  ExAllocatePoolWithTag : Z -> K -> Z * K;   (* the buffer, or 0 *)
  ExFreePool : Z -> K -> K;
  ProbeForRead : Z -> Z -> K -> option ExceptionRecord;
  ProbeForWrite : Z -> Z -> K -> option ExceptionRecord;
  memcpy : Z -> Z -> Z -> K -> option ExceptionRecord * K;
  MmProbeAndLockPages : Z -> Z -> Z -> K -> option ExceptionRecord * K;
  MmMapLockedPagesSpecifyCache : Z -> Z -> K -> Z * K;   (* the address, or 0 *)
  MmUnmapLockedPages : Z -> K -> K;
  MmUnlockPages : K -> K;
  store_ulong : Z -> Z -> K -> K   (* a store to kernel memory *)
}.

Arguments pointer_bits {K} _.
Arguments KernelMode {K} _.
Arguments MI_MAX_TRANSFER_SIZE {K} _.
Arguments MI_COPY_STACK_SIZE {K} _.
Arguments MI_MAPPED_COPY_PAGES {K} _.
Arguments PAGE_SIZE {K} _.
Arguments STATUS_ACCESS_VIOLATION {K} _.
Arguments STATUS_GUARD_PAGE_VIOLATION {K} _.
Arguments STATUS_IN_PAGE_ERROR {K} _.
Arguments STATUS_PARTIAL_COPY {K} _.
Arguments STATUS_INSUFFICIENT_RESOURCES {K} _.
Arguments EXCEPTION_EXECUTE_HANDLER {K} _.
Arguments KphAttachProcess {K} _ _ _.
Arguments KphDetachProcess {K} _ _.
Arguments ExAllocatePoolWithTag {K} _ _ _.
Arguments ExFreePool {K} _ _ _.
Arguments ProbeForRead {K} _ _ _ _.
Arguments ProbeForWrite {K} _ _ _ _.
Arguments memcpy {K} _ _ _ _ _.
Arguments MmProbeAndLockPages {K} _ _ _ _ _.
Arguments MmMapLockedPagesSpecifyCache {K} _ _ _ _.
Arguments MmUnmapLockedPages {K} _ _ _.
Arguments MmUnlockPages {K} _ _.
Arguments store_ulong {K} _ _ _ _.

(** The calls of the copy routines.  A call that raised is recorded
    with the exception it raised; an allocation or a mapping that failed
    is recorded with the null pointer. *)
Inductive CopyEvent : Type :=
  | EvAttach (process : Z)
  | EvDetach
  | EvAlloc (size buffer : Z)
  | EvFree (buffer : Z)
  | EvProbeForRead (address length : Z) (raised : option ExceptionRecord)
  | EvProbeForWrite (address length : Z) (raised : option ExceptionRecord)
  | EvMemcpy (dst src length : Z) (raised : option ExceptionRecord)
  | EvLockPages (address length : Z) (raised : option ExceptionRecord)
  | EvMapPages (mapped : Z)
  | EvUnmapPages (mapped : Z)
  | EvUnlockPages
  | EvReturnLength (value : Z).

(** The kernel state, the calls made so far, and the locals of a copy
    routine that its exception handler reads. *)
Record CopyState (K : Type) := mkCopyState {
  ck : K;
  cev : list CopyEvent;
  probing : bool;
  copying : bool;
  mapping : bool;
  pagesLocked : bool;
  mappedAddress : Z
}.

Arguments mkCopyState {K} _ _ _ _ _ _ _.
Arguments ck {K} _.
Arguments cev {K} _.
Arguments probing {K} _.
Arguments copying {K} _.
Arguments mapping {K} _.
Arguments pagesLocked {K} _.
Arguments mappedAddress {K} _.

(** The outcome of a [__try] block: it ran to its end, or a call raised. *)
Inductive Try (K A : Type) : Type :=
  | Normal (a : A) (st : CopyState K)
  | Raised (r : ExceptionRecord) (st : CopyState K).

Arguments Normal {K A} a st.
Arguments Raised {K A} r st.

Definition u32 (z : Z) : Z := z mod 2 ^ 32.

Module MmCopy.

Section Copy.

Variable K : Type.
Variable E : Externs K.
Variable X : CopyExterns K.

Definition ptr (z : Z) : Z := z mod 2 ^ pointer_bits X.

Definition try_bind {A B : Type} (m : CopyState K -> Try K A)
    (f : A -> CopyState K -> Try K B) (st : CopyState K) : Try K B :=
  match m st with
  | Normal a st' => f a st'
  | Raised r st' => Raised r st'
  end.

Definition record (e : CopyEvent) (k : K) (st : CopyState K) : CopyState K :=
  mkCopyState k (cev st ++ [e]) (probing st) (copying st) (mapping st)
    (pagesLocked st) (mappedAddress st).

Definition set_probing (b : bool) (st : CopyState K) : CopyState K :=
  mkCopyState (ck st) (cev st) b (copying st) (mapping st) (pagesLocked st)
    (mappedAddress st).

Definition set_copying (b : bool) (st : CopyState K) : CopyState K :=
  mkCopyState (ck st) (cev st) (probing st) b (mapping st) (pagesLocked st)
    (mappedAddress st).

Definition set_mapping (b : bool) (st : CopyState K) : CopyState K :=
  mkCopyState (ck st) (cev st) (probing st) (copying st) b (pagesLocked st)
    (mappedAddress st).

Definition set_pagesLocked (b : bool) (st : CopyState K) : CopyState K :=
  mkCopyState (ck st) (cev st) (probing st) (copying st) (mapping st) b
    (mappedAddress st).

Definition set_mappedAddress (p : Z) (st : CopyState K) : CopyState K :=
  mkCopyState (ck st) (cev st) (probing st) (copying st) (mapping st)
    (pagesLocked st) p.

Definition attach (process : Z) (st : CopyState K) : CopyState K :=
  record (EvAttach process) (KphAttachProcess X process (ck st)) st.

Definition detach (st : CopyState K) : CopyState K :=
  record EvDetach (KphDetachProcess X (ck st)) st.

Definition free_pool (buffer : Z) (st : CopyState K) : CopyState K :=
  record (EvFree buffer) (ExFreePool X buffer (ck st)) st.

Definition return_length (ReturnLength value : Z) (st : CopyState K) : CopyState K :=
  record (EvReturnLength value) (store_ulong X ReturnLength value (ck st)) st.

Definition probe_for_read (address length : Z) (st : CopyState K) : Try K unit :=
  match ProbeForRead X address length (ck st) with
  | Some r => Raised r (record (EvProbeForRead address length (Some r)) (ck st) st)
  | None => Normal tt (record (EvProbeForRead address length None) (ck st) st)
  end.

Definition probe_for_write (address length : Z) (st : CopyState K) : Try K unit :=
  match ProbeForWrite X address length (ck st) with
  | Some r => Raised r (record (EvProbeForWrite address length (Some r)) (ck st) st)
  | None => Normal tt (record (EvProbeForWrite address length None) (ck st) st)
  end.

Definition copy_memory (dst src length : Z) (st : CopyState K) : Try K unit :=
  match memcpy X dst src length (ck st) with
  | (Some r, k) => Raised r (record (EvMemcpy dst src length (Some r)) k st)
  | (None, k) => Normal tt (record (EvMemcpy dst src length None) k st)
  end.

Definition lock_pages (address length mode : Z) (st : CopyState K) : Try K unit :=
  match MmProbeAndLockPages X address length mode (ck st) with
  | (Some r, k) => Raised r (record (EvLockPages address length (Some r)) k st)
  | (None, k) => Normal tt (record (EvLockPages address length None) k st)
  end.

(** [MiGetExceptionInfo]: the filter of both copy routines.  The result
    is the value of the filter, [*HaveBadAddress] and [*BadAddress]
    ([badAddress] is what the caller's local held before). *)
Definition MiGetExceptionInfo (r : ExceptionRecord) (badAddress : Z) : Z * bool * Z :=
  if (ExceptionCode r =? STATUS_ACCESS_VIOLATION X)
     || (ExceptionCode r =? STATUS_GUARD_PAGE_VIOLATION X)
     || (ExceptionCode r =? STATUS_IN_PAGE_ERROR X)
  then
    if NumberParameters r >? 1 then
      (* We have the address. *)
      (EXCEPTION_EXECUTE_HANDLER X, true, ExceptionInformation1 r)
    else (EXCEPTION_EXECUTE_HANDLER X, false, badAddress)
  else (EXCEPTION_EXECUTE_HANDLER X, false, badAddress).

(** ** MiDoPoolCopy *)

(** [while (TRUE) { buffer = ExAllocatePoolWithTag(..); .. }]: the buffer
    and the size in the end; [None] when the bound on the loop is used
    up. *)
Fixpoint pool_buffer (fuel : nat) (stackBuffer allocSize : Z) (st : CopyState K)
  : option (Z * Z * CopyState K) :=
  match fuel with
  | O => None
  | S fuel' =>
      let r := ExAllocatePoolWithTag X allocSize (ck st) in
      let st := record (EvAlloc allocSize (fst r)) (snd r) st in
      (* Stop trying if we got a buffer. *)
      if negb (fst r =? 0) then Some (fst r, allocSize, st)
      else
        (* Otherwise, halve the size and try again. *)
        let allocSize := allocSize / 2 in
        (* Could we use the stack buffer? *)
        if allocSize <=? MI_COPY_STACK_SIZE X then Some (stackBuffer, allocSize, st)
        else pool_buffer fuel' stackBuffer allocSize st
  end.

(** The [__try] block of one round of the loop of MiDoPoolCopy. *)
Definition pool_copy_block (a : CopyArgs) (buffer sourceAddress targetAddress blockSize : Z)
  : CopyState K -> Try K unit :=
  try_bind
    (fun st =>
       (* Probe only if this is the first time. *)
       if (sourceAddress =? FromAddress a) && negb (AccessMode a =? KernelMode X) then
         try_bind (fun st => probe_for_read sourceAddress (BufferLength a) (set_probing true st))
           (fun _ st => Normal tt (set_probing false st)) st
       else Normal tt st)
    (fun _ =>
       try_bind
         (* Copy the source contents to the buffer. *)
         (copy_memory buffer sourceAddress blockSize)
         (fun _ st =>
            let st := attach (ToProcess a) (detach st) in
            try_bind
              (fun st =>
                 (* Probe only if this is the first time. *)
                 if (targetAddress =? ToAddress a) && negb (AccessMode a =? KernelMode X) then
                   try_bind
                     (fun st => probe_for_write targetAddress (BufferLength a)
                                  (set_probing true st))
                     (fun _ st => Normal tt (set_probing false st)) st
                 else Normal tt st)
              (fun _ st =>
                 (* Copy the buffer contents to the destination. *)
                 copy_memory targetAddress buffer blockSize (set_copying true st))
              st)).

(** The handler of the [__except] block of MiDoPoolCopy. *)
Definition pool_copy_handler (a : CopyArgs) (stackBuffer buffer sourceAddress stillToCopy : Z)
    (r : ExceptionRecord) (badAddress : Z) (st : CopyState K) : Z * CopyState K :=
  let info := MiGetExceptionInfo r badAddress in
  let haveBadAddress := snd (fst info) in
  let badAddress := snd info in
  let st := detach st in
  (* Free the allocated buffer if needed. *)
  let st := if negb (buffer =? stackBuffer) then free_pool buffer st else st in
  (* If we were probing an address, return the error code. *)
  if probing st then (ExceptionCode r, st)
  else
    (* Otherwise, give the caller the number of bytes we copied. *)
    let st := return_length (ReturnLength a) (u32 (BufferLength a - stillToCopy)) st in
    let st :=
      if copying st && haveBadAddress then
        return_length (ReturnLength a) (u32 (ptr (badAddress - sourceAddress))) st
      else st in
    (STATUS_PARTIAL_COPY X, st).

(** [while (stillToCopy) { .. }] of MiDoPoolCopy, with what follows it. *)
Fixpoint pool_copy_loop (fuel : nat) (a : CopyArgs)
    (stackBuffer buffer blockSize stillToCopy sourceAddress targetAddress badAddress : Z)
    (st : CopyState K) : option (Z * CopyState K) :=
  match fuel with
  | O => None
  | S fuel' =>
      if stillToCopy =? 0 then
        (* Free the buffer if it wasn't stack-allocated. *)
        let st := if negb (buffer =? stackBuffer) then free_pool buffer st else st in
        let st := return_length (ReturnLength a) (BufferLength a) st in
        Some (STATUS_SUCCESS E, st)
      else
        (* If we're at the last copy block, copy the remaining bytes instead
           of the whole block size. *)
        let blockSize := if stillToCopy <? blockSize then stillToCopy else blockSize in
        let st := attach (FromProcess a) (set_copying false st) in
        match pool_copy_block a buffer sourceAddress targetAddress blockSize st with
        | Raised r st =>
            Some (pool_copy_handler a stackBuffer buffer sourceAddress stillToCopy
                    r badAddress st)
        | Normal _ st =>
            let st := detach st in
            pool_copy_loop fuel' a stackBuffer buffer blockSize
              (u32 (stillToCopy - blockSize)) (ptr (sourceAddress + blockSize))
              (ptr (targetAddress + blockSize)) badAddress st
        end
  end.

(** [stackBuffer] is the address of the local [stackBuffer]; [badAddress]
    is what the local [badAddress] holds at entry. *)
Definition MiDoPoolCopy (fuel : nat) (a : CopyArgs) (stackBuffer badAddress : Z)
    (k : K) (ev : list CopyEvent) : option (Z * CopyState K) :=
  let st := mkCopyState k ev false false false false 0 in
  let allocSize := MI_MAX_TRANSFER_SIZE X in
  (* Don't allocate a buffer larger than the amount we're about to copy. *)
  let allocSize := if allocSize >? BufferLength a then BufferLength a else allocSize in
  (* If we're copying MI_COPY_STACK_SIZE bytes or less, use the stack buffer. *)
  match (if BufferLength a <=? MI_COPY_STACK_SIZE X then Some (stackBuffer, allocSize, st)
         else pool_buffer fuel stackBuffer allocSize st) with
  | None => None
  | Some (buffer, allocSize, st) =>
      pool_copy_loop fuel a stackBuffer buffer allocSize (BufferLength a)
        (FromAddress a) (ToAddress a) badAddress st
  end.

(** ** MiDoMappedCopy *)

(** The [__try] block of one round of the loop of MiDoMappedCopy. *)
Definition mapped_copy_block (a : CopyArgs) (sourceAddress targetAddress blockSize : Z)
  : CopyState K -> Try K unit :=
  try_bind
    (fun st =>
       (* Probe only if this is the first time. *)
       if (sourceAddress =? FromAddress a) && negb (AccessMode a =? KernelMode X) then
         try_bind (fun st => probe_for_read sourceAddress (BufferLength a) (set_probing true st))
           (fun _ st => Normal tt (set_probing false st)) st
       else Normal tt st)
    (fun _ =>
       try_bind
         (* Initialize the MDL, lock the pages. *)
         (lock_pages sourceAddress blockSize (AccessMode a))
         (fun _ st =>
            let st := set_pagesLocked true st in
            (* Map the pages. *)
            let r := MmMapLockedPagesSpecifyCache X sourceAddress blockSize (ck st) in
            let st := set_mappedAddress (fst r) (record (EvMapPages (fst r)) (snd r) st) in
            if mappedAddress st =? 0 then
              (* Insufficient resources, exit. *)
              Raised (mkExceptionRecord (STATUS_INSUFFICIENT_RESOURCES X) 0 0)
                (set_mapping true st)
            else
              (* Attach to the target process and copy the mapped contents. *)
              let st := attach (ToProcess a) (detach st) in
              try_bind
                (fun st =>
                   (* Probe only if this is the first time. *)
                   if (targetAddress =? ToAddress a) && negb (AccessMode a =? KernelMode X)
                   then
                     try_bind
                       (fun st => probe_for_write targetAddress (BufferLength a)
                                    (set_probing true st))
                       (fun _ st => Normal tt (set_probing false st)) st
                   else Normal tt st)
                (fun _ st =>
                   (* Copy the data. *)
                   copy_memory targetAddress (mappedAddress st) blockSize
                     (set_copying true st))
                st)).

Definition unmap_pages (st : CopyState K) : CopyState K :=
  record (EvUnmapPages (mappedAddress st))
    (MmUnmapLockedPages X (mappedAddress st) (ck st)) st.

Definition unlock_pages (st : CopyState K) : CopyState K :=
  record EvUnlockPages (MmUnlockPages X (ck st)) st.

(** The handler of the [__except] block of MiDoMappedCopy. *)
Definition mapped_copy_handler (a : CopyArgs) (sourceAddress stillToCopy : Z)
    (r : ExceptionRecord) (badAddress : Z) (st : CopyState K) : Z * CopyState K :=
  let info := MiGetExceptionInfo r badAddress in
  let haveBadAddress := snd (fst info) in
  let badAddress := snd info in
  let st := detach st in
  (* If we mapped the pages, unmap them. *)
  let st := if negb (mappedAddress st =? 0) then unmap_pages st else st in
  (* If we locked the pages, unlock them. *)
  let st := if pagesLocked st then unlock_pages st else st in
  (* If we failed when probing or mapping, return the error code. *)
  if probing st || mapping st then (ExceptionCode r, st)
  else
    (* Otherwise, give the caller the number of bytes we copied. *)
    let st := return_length (ReturnLength a) (u32 (BufferLength a - stillToCopy)) st in
    let st :=
      if copying st && haveBadAddress then
        return_length (ReturnLength a) (u32 (ptr (badAddress - sourceAddress))) st
      else st in
    (STATUS_PARTIAL_COPY X, st).

(** [while (stillToCopy) { .. }] of MiDoMappedCopy, with what follows it. *)
Fixpoint mapped_copy_loop (fuel : nat) (a : CopyArgs)
    (blockSize stillToCopy sourceAddress targetAddress badAddress : Z)
    (st : CopyState K) : option (Z * CopyState K) :=
  match fuel with
  | O => None
  | S fuel' =>
      if stillToCopy =? 0 then
        Some (STATUS_SUCCESS E, return_length (ReturnLength a) (BufferLength a) st)
      else
        (* If we're at the last copy block, copy the remaining bytes instead
           of the whole block size. *)
        let blockSize := if stillToCopy <? blockSize then stillToCopy else blockSize in
        (* Reset state. *)
        let st := set_copying false (set_pagesLocked false (set_mappedAddress 0 st)) in
        let st := attach (FromProcess a) st in
        match mapped_copy_block a sourceAddress targetAddress blockSize st with
        | Raised r st =>
            Some (mapped_copy_handler a sourceAddress stillToCopy r badAddress st)
        | Normal _ st =>
            let st := unlock_pages (unmap_pages (detach st)) in
            mapped_copy_loop fuel' a blockSize
              (u32 (stillToCopy - blockSize)) (ptr (sourceAddress + blockSize))
              (ptr (targetAddress + blockSize)) badAddress st
        end
  end.

Definition MiDoMappedCopy (fuel : nat) (a : CopyArgs) (badAddress : Z)
    (k : K) (ev : list CopyEvent) : option (Z * CopyState K) :=
  let st := mkCopyState k ev false false false false 0 in
  let totalSize := u32 ((MI_MAPPED_COPY_PAGES X - 2) * PAGE_SIZE X) in
  let totalSize := if BufferLength a <=? totalSize then BufferLength a else totalSize in
  mapped_copy_loop fuel a totalSize (BufferLength a) (FromAddress a) (ToAddress a)
    badAddress st.

End Copy.

Arguments ptr {K} X z.
Arguments try_bind {K A B} m f st.
Arguments record {K} e k st.
Arguments set_probing {K} b st.
Arguments set_copying {K} b st.
Arguments set_mapping {K} b st.
Arguments set_pagesLocked {K} b st.
Arguments set_mappedAddress {K} p st.
Arguments attach {K} X process st.
Arguments detach {K} X st.
Arguments free_pool {K} X buffer st.
Arguments return_length {K} X ReturnLength value st.
Arguments probe_for_read {K} X address length st.
Arguments probe_for_write {K} X address length st.
Arguments copy_memory {K} X dst src length st.
Arguments lock_pages {K} X address length mode st.
Arguments unmap_pages {K} X st.
Arguments unlock_pages {K} X st.
Arguments MiGetExceptionInfo {K} X r badAddress.
Arguments pool_buffer {K} X fuel stackBuffer allocSize st.
Arguments pool_copy_block {K} X a buffer sourceAddress targetAddress blockSize _.
Arguments pool_copy_handler {K} X a stackBuffer buffer sourceAddress stillToCopy r badAddress st.
Arguments pool_copy_loop {K} E X fuel a stackBuffer buffer blockSize stillToCopy
  sourceAddress targetAddress badAddress st.
Arguments MiDoPoolCopy {K} E X fuel a stackBuffer badAddress k ev.
Arguments mapped_copy_block {K} X a sourceAddress targetAddress blockSize _.
Arguments mapped_copy_handler {K} X a sourceAddress stillToCopy r badAddress st.
Arguments mapped_copy_loop {K} E X fuel a blockSize stillToCopy sourceAddress
  targetAddress badAddress st.
Arguments MiDoMappedCopy {K} E X fuel a badAddress k ev.

End MmCopy.

(** ** KphReadVirtualMemory and KphWriteVirtualMemory

    The object manager, the user probe address and the memory of the
    caller are taken as given.  [store_user_ulong] is a store through a
    user pointer inside [__try]: [None] when it raises. *)

Record ObExterns (K : Type) := mkObExterns {
  MmUserProbeAddress : Z;
  ObReferenceObjectByHandle : Z -> K -> Z * Z * K;   (* the status and the object *)
  ObDereferenceObject : Z -> K -> K;
  load_ulong : Z -> K -> Z;
  store_user_ulong : Z -> Z -> K -> option K
}.

Arguments MmUserProbeAddress {K} _.
Arguments ObReferenceObjectByHandle {K} _ _ _.
Arguments ObDereferenceObject {K} _ _ _.
Arguments load_ulong {K} _ _ _.
Arguments store_user_ulong {K} _ _ _ _.

Inductive KphEvent : Type :=
  | KevProbeForWrite (address : Z) (raised : bool)
  | KevReference (handle status object : Z)
  | KevDereference (object : Z)
  | KevReturnLength (address value : Z) (raised : bool).

Record KphState (K : Type) := mkKphState {
  km : Machine K;
  kev : list KphEvent
}.

Arguments mkKphState {K} _ _.
Arguments km {K} _.
Arguments kev {K} _.

(** [NT_SUCCESS(Status)]: [((NTSTATUS)(Status)) >= 0], on 32-bit signed
    values. *)
Definition NT_SUCCESS (status : Z) : bool := 0 <=? Int32.wrap status.

Section Kph.

Variable K : Type.
Variable E : Externs K.
Variable X : CopyExterns K.
Variable O : ObExterns K.

Definition kph_record (e : KphEvent) (k : K) (st : KphState K) : KphState K :=
  mkKphState (mkMachine k (calls (km st))) (kev st ++ [e]).

(** The checks both routines make first for a caller that is not in
    kernel mode: [Some status] when the routine returns at once. *)
Definition access_checks (BaseAddress Buffer BufferLength ReturnLength AccessMode : Z)
    (st : KphState K) : option Z * KphState K :=
  if negb (AccessMode =? KernelMode X) then
    if (MmCopy.ptr X (BaseAddress + BufferLength) <? BaseAddress)
       || (MmCopy.ptr X (Buffer + BufferLength) <? Buffer)
       || (MmCopy.ptr X (BaseAddress + BufferLength) >? MmUserProbeAddress O)
       || (MmCopy.ptr X (Buffer + BufferLength) >? MmUserProbeAddress O)
    then (Some (STATUS_ACCESS_VIOLATION X), st)
    else if negb (ReturnLength =? 0) then
      match ProbeForWrite X ReturnLength 4 (kernel (km st)) with
      | Some _ =>
          (Some (STATUS_ACCESS_VIOLATION X),
           kph_record (KevProbeForWrite ReturnLength true) (kernel (km st)) st)
      | None =>
          (None, kph_record (KevProbeForWrite ReturnLength false) (kernel (km st)) st)
      end
    else (None, st)
  else (None, st).

(** [if (ReturnLength) { __try { *ReturnLength = returnLength; } .. }] *)
Definition write_return_length (ReturnLength returnLength status : Z) (st : KphState K)
  : Z * KphState K :=
  if negb (ReturnLength =? 0) then
    let value := load_ulong O returnLength (kernel (km st)) in
    match store_user_ulong O ReturnLength value (kernel (km st)) with
    | Some k => (status, kph_record (KevReturnLength ReturnLength value false) k st)
    | None =>
        (STATUS_ACCESS_VIOLATION X,
         kph_record (KevReturnLength ReturnLength value true) (kernel (km st)) st)
    end
  else (status, st).

(** [returnLength] is the address of the local [returnLength]. *)
Definition KphReadVirtualMemory
    (ProcessHandle BaseAddress Buffer BufferLength ReturnLength AccessMode : Z)
    (returnLength : Z) (st : KphState K) : Z * KphState K :=
  let status := STATUS_SUCCESS E in
  (* ULONG returnLength = 0; *)
  let st := mkKphState (mkMachine (store_ulong X returnLength 0 (kernel (km st)))
                          (calls (km st))) (kev st) in
  match access_checks BaseAddress Buffer BufferLength ReturnLength AccessMode st with
  | (Some status, st) => (status, st)
  | (None, st) =>
      if negb (BufferLength =? 0) then
        let r := ObReferenceObjectByHandle O ProcessHandle (kernel (km st)) in
        let status := fst (fst r) in
        let processObject := snd (fst r) in
        let st := kph_record (KevReference ProcessHandle status processObject) (snd r) st in
        if negb (NT_SUCCESS status) then (status, st)
        else
          let c := MmCopyVirtualMemory E
                     (mkCopyArgs processObject BaseAddress
                        (PsGetCurrentProcess E (kernel (km st))) Buffer
                        BufferLength AccessMode returnLength)
                     (km st) in
          let st := mkKphState (snd c) (kev st) in
          let st := kph_record (KevDereference processObject)
                      (ObDereferenceObject O processObject (kernel (km st))) st in
          write_return_length ReturnLength returnLength (fst c) st
      else write_return_length ReturnLength returnLength status st
  end.

Definition KphWriteVirtualMemory
    (ProcessHandle BaseAddress Buffer BufferLength ReturnLength AccessMode : Z)
    (returnLength : Z) (st : KphState K) : Z * KphState K :=
  let status := STATUS_SUCCESS E in
  (* ULONG returnLength = 0; *)
  let st := mkKphState (mkMachine (store_ulong X returnLength 0 (kernel (km st)))
                          (calls (km st))) (kev st) in
  match access_checks BaseAddress Buffer BufferLength ReturnLength AccessMode st with
  | (Some status, st) => (status, st)
  | (None, st) =>
      if negb (BufferLength =? 0) then
        let r := ObReferenceObjectByHandle O ProcessHandle (kernel (km st)) in
        let status := fst (fst r) in
        let processObject := snd (fst r) in
        let st := kph_record (KevReference ProcessHandle status processObject) (snd r) st in
        if negb (NT_SUCCESS status) then (status, st)
        else
          let c := MmCopyVirtualMemory E
                     (mkCopyArgs (PsGetCurrentProcess E (kernel (km st))) Buffer
                        processObject BaseAddress
                        BufferLength AccessMode returnLength)
                     (km st) in
          let st := mkKphState (snd c) (kev st) in
          let st := kph_record (KevDereference processObject)
                      (ObDereferenceObject O processObject (kernel (km st))) st in
          write_return_length ReturnLength returnLength (fst c) st
      else write_return_length ReturnLength returnLength status st
  end.

End Kph.

Arguments access_checks {K} X O BaseAddress Buffer BufferLength ReturnLength AccessMode st.
Arguments write_return_length {K} X O ReturnLength returnLength status st.
Arguments KphReadVirtualMemory {K} E X O ProcessHandle BaseAddress Buffer BufferLength
  ReturnLength AccessMode returnLength st.
Arguments KphWriteVirtualMemory {K} E X O ProcessHandle BaseAddress Buffer BufferLength
  ReturnLength AccessMode returnLength st.

(** ** A sample system

    The sample kernel of [sample_externs]: 32-bit pointers, user space
    below 0x7fff0000, a pool that gives out the one buffer 0x80001000,
    calls that raise for a range that leaves user space and succeed
    otherwise.  The second component of the state stands for every cell
    of kernel memory. *)

Definition sample_probe (address length : Z) : option ExceptionRecord :=
  if address + length <=? 0x7fff0000 then None
  else Some (mkExceptionRecord 0xC0000005 0 0).

Definition sample_copy_externs : CopyExterns (list Z * Z) :=
  {| pointer_bits := 32;
     KernelMode := 0;
     MI_MAX_TRANSFER_SIZE := 65536;
     MI_COPY_STACK_SIZE := 512;
     MI_MAPPED_COPY_PAGES := 14;
     PAGE_SIZE := 4096;
     STATUS_ACCESS_VIOLATION := 0xC0000005;
     STATUS_GUARD_PAGE_VIOLATION := 0x80000001;
     STATUS_IN_PAGE_ERROR := 0xC0000006;
     STATUS_PARTIAL_COPY := 0x8000000D;
     STATUS_INSUFFICIENT_RESOURCES := 0xC000009A;
     EXCEPTION_EXECUTE_HANDLER := 1;
     KphAttachProcess := fun _ k => k;
     KphDetachProcess := fun k => k;
     ExAllocatePoolWithTag := fun _ k => (0x80001000, k);
     ExFreePool := fun _ k => k;
     ProbeForRead := fun a n _ => sample_probe a n;
     ProbeForWrite := fun a n _ => sample_probe a n;
     memcpy := fun _ _ _ k => (None, k);
     MmProbeAndLockPages := fun _ _ _ k => (None, k);
     MmMapLockedPagesSpecifyCache := fun _ _ k => (0x80002000, k);
     MmUnmapLockedPages := fun _ k => k;
     MmUnlockPages := fun k => k;
     store_ulong := fun _ v k => (fst k, v) |}.

Definition sample_ob_externs : ObExterns (list Z * Z) :=
  {| MmUserProbeAddress := 0x7fff0000;
     ObReferenceObjectByHandle :=
       fun h k => if h =? 0 then (0xC0000008, 0, k) else (0, h * 16, k);
     ObDereferenceObject := fun _ k => k;
     load_ulong := fun _ k => snd k;
     store_user_ulong :=
       fun p v k => if p + 4 <=? 0x7fff0000 then Some k else None |}.

(** The references to process objects that were taken and not given
    back. *)
Fixpoint open_references (evs : list KphEvent) : Z :=
  match evs with
  | [] => 0
  | KevReference _ status _ :: evs' =>
      (if NT_SUCCESS status then 1 else 0) + open_references evs'
  | KevDereference _ :: evs' => open_references evs' - 1
  | _ :: evs' => open_references evs'
  end.

Definition is_reference_event (e : KphEvent) : bool :=
  match e with
  | KevReference _ _ _ | KevDereference _ => true
  | _ => false
  end.

(** What KphReadVirtualMemory ([read = true]) and KphWriteVirtualMemory
    ([read = false]) do once the checks have passed, for the statements
    that hold of both. *)
Definition after_checks {K : Type} (E : Externs K) (X : CopyExterns K) (O : ObExterns K)
    (read : bool)
    (ProcessHandle BaseAddress Buffer BufferLength ReturnLength AccessMode returnLength : Z)
    (st : KphState K) : Z * KphState K :=
  if negb (BufferLength =? 0) then
    let r := ObReferenceObjectByHandle O ProcessHandle (kernel (km st)) in
    let status := fst (fst r) in
    let processObject := snd (fst r) in
    let st := mkKphState (mkMachine (snd r) (calls (km st)))
                (kev st ++ [KevReference ProcessHandle status processObject]) in
    if negb (NT_SUCCESS status) then (status, st)
    else
      let current := PsGetCurrentProcess E (kernel (km st)) in
      let c := MmCopyVirtualMemory E
                 (if read
                  then mkCopyArgs processObject BaseAddress current Buffer
                         BufferLength AccessMode returnLength
                  else mkCopyArgs current Buffer processObject BaseAddress
                         BufferLength AccessMode returnLength)
                 (km st) in
      let st := mkKphState (snd c) (kev st) in
      let st := mkKphState
                  (mkMachine (ObDereferenceObject O processObject (kernel (km st)))
                     (calls (km st)))
                  (kev st ++ [KevDereference processObject]) in
      write_return_length X O ReturnLength returnLength (fst c) st
  else write_return_length X O ReturnLength returnLength (STATUS_SUCCESS E) st.

(** The arguments of a call of a copy routine. *)
Definition copy_args (c : Call) : option CopyArgs :=
  match c with
  | CallMappedCopy a _ | CallPoolCopy a _ => Some a
  | _ => None
  end.

(** ** Reading the calls of a copy routine *)

(** The exception a call raised. *)
Definition fault (e : CopyEvent) : option ExceptionRecord :=
  match e with
  | EvProbeForRead _ _ r | EvProbeForWrite _ _ r | EvMemcpy _ _ _ r
  | EvLockPages _ _ r => r
  | _ => None
  end.

Definition is_fault (e : CopyEvent) : bool :=
  match fault e with
  | Some _ => true
  | None => false
  end.

(** The first call that raised. *)
Definition first_fault (evs : list CopyEvent) : option CopyEvent :=
  List.find is_fault evs.

(** What [*ReturnLength] holds in the end, if it was stored to. *)
Definition stored_length (evs : list CopyEvent) : option Z :=
  fold_left (fun v e => match e with
                        | EvReturnLength v' => Some v'
                        | _ => v
                        end) evs None.

(** The [memcpy] calls: destination, source and length. *)
Definition memcpys (evs : list CopyEvent) : list (Z * Z * Z) :=
  flat_map (fun e => match e with
                     | EvMemcpy d s n _ => [(d, s, n)]
                     | _ => []
                     end) evs.

(** Copying blocks of the given sizes in order through [buffer], the
    first one at [offset] of both ranges. *)
Fixpoint copy_plan (bits from to buffer offset : Z) (sizes : list Z)
  : list (Z * Z * Z) :=
  match sizes with
  | [] => []
  | n :: sizes' =>
      (buffer, (from + offset) mod 2 ^ bits, n)
        :: ((to + offset) mod 2 ^ bits, buffer, n)
        :: copy_plan bits from to buffer (offset + n) sizes'
  end.

(** The discipline of attaching: [attached] is the process the thread is
    attached to.  A thread attaches only when detached and detaches only
    when attached; it probes to read and locks pages in process [from],
    probes to write in process [to], and copies only while attached. *)
Definition attach_step (from to : Z) (attached : option Z) (e : CopyEvent)
  : option (option Z) :=
  match e, attached with
  | EvAttach p, None => Some (Some p)
  | EvAttach _, Some _ => None
  | EvDetach, Some _ => Some None
  | EvDetach, None => None
  | (EvProbeForRead _ _ _ | EvLockPages _ _ _), Some p =>
      if p =? from then Some attached else None
  | EvProbeForWrite _ _ _, Some p => if p =? to then Some attached else None
  | EvMemcpy _ _ _ _, Some _ => Some attached
  | (EvProbeForRead _ _ _ | EvLockPages _ _ _ | EvProbeForWrite _ _ _
     | EvMemcpy _ _ _ _), None => None
  | _, _ => Some attached
  end.

Fixpoint attach_protocol (from to : Z) (attached : option Z) (evs : list CopyEvent)
  : option (option Z) :=
  match evs with
  | [] => Some attached
  | e :: evs' =>
      match attach_step from to attached e with
      | Some attached' => attach_protocol from to attached' evs'
      | None => None
      end
  end.

(** The discipline of the pool: [held] is the buffer allocated and not
    freed.  At most one buffer is held, and only the buffer held is
    freed. *)
Definition pool_step (held : option Z) (e : CopyEvent) : option (option Z) :=
  match e, held with
  | EvAlloc _ b, None => Some (if b =? 0 then None else Some b)
  | EvAlloc _ b, Some _ => if b =? 0 then Some held else None
  | EvFree b, Some b' => if b =? b' then Some None else None
  | EvFree _, None => None
  | _, _ => Some held
  end.

Fixpoint pool_protocol (held : option Z) (evs : list CopyEvent) : option (option Z) :=
  match evs with
  | [] => Some held
  | e :: evs' =>
      match pool_step held e with
      | Some held' => pool_protocol held' evs'
      | None => None
      end
  end.

(** The discipline of the MDL: [locked] is the number of bytes whose
    pages are locked, if any are, [mapped] is the address they are
    mapped at (0: not mapped).  Pages are locked when none are, mapped
    when locked and not mapped, unmapped at the address they were mapped
    at, and unlocked when locked and not mapped; a copy reads from the
    mapping, no more bytes than are locked. *)
Definition pages_step (s : option Z * Z) (e : CopyEvent) : option (option Z * Z) :=
  let (locked, mapped) := s in
  match e, locked with
  | EvLockPages _ n None, None => Some (Some n, mapped)
  | EvLockPages _ _ (Some _), None => Some s
  | EvLockPages _ _ _, Some _ => None
  | EvMapPages m, Some _ => if mapped =? 0 then Some (locked, m) else None
  | EvMapPages _, None => None
  | EvUnmapPages m, _ =>
      if negb (m =? 0) && (m =? mapped) then Some (locked, 0) else None
  | EvUnlockPages, Some _ => if mapped =? 0 then Some (None, 0) else None
  | EvUnlockPages, None => None
  | EvMemcpy _ src n _, Some n' =>
      if negb (mapped =? 0) && (src =? mapped) && (n <=? n') then Some s else None
  | EvMemcpy _ _ _ _, None => None
  | _, _ => Some s
  end.

Fixpoint pages_protocol (s : option Z * Z) (evs : list CopyEvent)
  : option (option Z * Z) :=
  match evs with
  | [] => Some s
  | e :: evs' =>
      match pages_step s e with
      | Some s' => pages_protocol s' evs'
      | None => None
      end
  end.

(** A call that raised, or a mapping that failed. *)
Definition is_failure (e : CopyEvent) : bool :=
  is_fault e || match e with
                | EvMapPages m => m =? 0
                | _ => false
                end.

Definition first_failure (evs : list CopyEvent) : option CopyEvent :=
  List.find is_failure evs.

(** The ranges locked, and the ranges written by [memcpy]: address and
    length. *)
Definition locked_ranges (evs : list CopyEvent) : list (Z * Z) :=
  flat_map (fun e => match e with
                     | EvLockPages address n _ => [(address, n)]
                     | _ => []
                     end) evs.

Definition written_ranges (evs : list CopyEvent) : list (Z * Z) :=
  flat_map (fun e => match e with
                     | EvMemcpy d _ n _ => [(d, n)]
                     | _ => []
                     end) evs.

(** Blocks of the given sizes in order, the first one at [offset] of the
    range at [base]. *)
Fixpoint range_plan (bits base offset : Z) (sizes : list Z) : list (Z * Z) :=
  match sizes with
  | [] => []
  | n :: sizes' =>
      ((base + offset) mod 2 ^ bits, n) :: range_plan bits base (offset + n) sizes'
  end.

(** Externs that differ from [sample_copy_externs] in [memcpy], which
    raises an access violation at [limit] when it is to write user
    memory beyond it. *)
Definition faulting_copy_externs (limit : Z) : CopyExterns (list Z * Z) :=
  {| pointer_bits := 32;
     KernelMode := 0;
     MI_MAX_TRANSFER_SIZE := 65536;
     MI_COPY_STACK_SIZE := 512;
     MI_MAPPED_COPY_PAGES := 14;
     PAGE_SIZE := 4096;
     STATUS_ACCESS_VIOLATION := 0xC0000005;
     STATUS_GUARD_PAGE_VIOLATION := 0x80000001;
     STATUS_IN_PAGE_ERROR := 0xC0000006;
     STATUS_PARTIAL_COPY := 0x8000000D;
     STATUS_INSUFFICIENT_RESOURCES := 0xC000009A;
     EXCEPTION_EXECUTE_HANDLER := 1;
     KphAttachProcess := fun _ k => k;
     KphDetachProcess := fun k => k;
     ExAllocatePoolWithTag := fun _ k => (0x80001000, k);
     ExFreePool := fun _ k => k;
     ProbeForRead := fun a n _ => sample_probe a n;
     ProbeForWrite := fun a n _ => sample_probe a n;
     memcpy := fun dst _ n k =>
                 if (dst <? 0x80000000) && (limit <? dst + n)
                 then (Some (mkExceptionRecord 0xC0000005 2 limit), k)
                 else (None, k);
     MmProbeAndLockPages := fun _ _ _ k => (None, k);
     MmMapLockedPagesSpecifyCache := fun _ _ k => (0x80002000, k);
     MmUnmapLockedPages := fun _ k => k;
     MmUnlockPages := fun k => k;
     store_ulong := fun _ v k => (fst k, v) |}.

(** * KProcessHacker: GetObjectName of kprocesshacker.c

    The name of a file object is put together in the caller's buffer:
    the name of its device, as ObQueryNameString writes it, then the
    names of the file objects from the outermost related one down to the
    file object itself, then a terminator.  The kernel routines are
    taken as given, over any kernel state [K]; the stores and copies of
    GetObjectName are recorded. *)

Module ObjectName.

(** The fields of FILE_OBJECT that GetObjectName reads;
    [RelatedFileObject] is [None] for the null pointer. *)
#[warnings="-register-all"] Inductive FILE_OBJECT : Type :=
  mkFILE_OBJECT (DeviceObject FileName_Length FileName_Buffer : Z)
    (RelatedFileObject : option FILE_OBJECT).

Definition DeviceObject (f : FILE_OBJECT) : Z :=
  match f with mkFILE_OBJECT d _ _ _ => d end.

Definition FileName_Length (f : FILE_OBJECT) : Z :=
  match f with mkFILE_OBJECT _ n _ _ => n end.

Definition FileName_Buffer (f : FILE_OBJECT) : Z :=
  match f with mkFILE_OBJECT _ _ b _ => b end.

Definition RelatedFileObject (f : FILE_OBJECT) : option FILE_OBJECT :=
  match f with mkFILE_OBJECT _ _ _ r => r end.

Record NameExterns (K : Type) := mkNameExterns {
  pointer_bits : Z;   (* the width of a pointer *)
  STATUS_SUCCESS : Z;
  STATUS_BUFFER_TOO_SMALL : Z;
  (* object, buffer, length and the address of the return length *)
  ObQueryNameString : Z -> Z -> Z -> Z -> K -> K;
  load_ulong : Z -> K -> Z;
  store_ulong : Z -> Z -> K -> K;
  store_ushort : Z -> Z -> K -> K;
  memcpy : Z -> Z -> Z -> K -> K
}.

Arguments pointer_bits {K} _.
Arguments STATUS_SUCCESS {K} _.
Arguments STATUS_BUFFER_TOO_SMALL {K} _.
Arguments ObQueryNameString {K} _ _ _ _ _ _.
Arguments load_ulong {K} _ _ _.
Arguments store_ulong {K} _ _ _ _.
Arguments store_ushort {K} _ _ _ _.
Arguments memcpy {K} _ _ _ _ _.

Inductive NameEvent : Type :=
  | NevQueryName (object buffer length : Z)
  | NevReturnLength (value : Z)
  | NevTerminator (address : Z)
  | NevMemcpy (dst src length : Z).

Record NameState (K : Type) := mkNameState {
  nk : K;
  nev : list NameEvent
}.

Arguments mkNameState {K} _ _.
Arguments nk {K} _.
Arguments nev {K} _.

Section Name.

Variable K : Type.
Variable X : NameExterns K.

Definition ptr (z : Z) : Z := z mod 2 ^ pointer_bits X.

Definition record (e : NameEvent) (k : K) (st : NameState K) : NameState K :=
  mkNameState k (nev st ++ [e]).

(** [do { nameLength += relatedFile->FileName.Length; .. } while (relatedFile);] *)
Fixpoint name_length (relatedFile : FILE_OBJECT) (nameLength : Z) : Z :=
  match relatedFile with
  | mkFILE_OBJECT _ length _ related =>
      let nameLength := u32 (nameLength + length) in
      match related with
      | Some relatedFile => name_length relatedFile nameLength
      | None => nameLength
      end
  end.

(** [do { (PCHAR)name -= ..Length; memcpy(name, ..Buffer, ..Length); .. }
     while (relatedFile);] *)
Fixpoint copy_names (relatedFile : FILE_OBJECT) (name : Z) (st : NameState K)
  : NameState K :=
  match relatedFile with
  | mkFILE_OBJECT _ length buffer related =>
      let name := ptr (name - length) in
      let st := record (NevMemcpy name buffer length)
                  (memcpy X name buffer length (nk st)) st in
      match related with
      | Some relatedFile => copy_names relatedFile name st
      | None => st
      end
  end.

Definition GetObjectName (FileObject : FILE_OBJECT) (Buffer BufferLength ReturnLength : Z)
    (st : NameState K) : Z * NameState K :=
  let nameLength := 0 in
  let name := Buffer in
  let '(name, BufferLength, st) :=
    if negb (DeviceObject FileObject =? 0) then
      let st := record (NevQueryName (DeviceObject FileObject) name BufferLength)
                  (ObQueryNameString X (DeviceObject FileObject) name BufferLength
                     ReturnLength (nk st)) st in
      (* minus the null terminator *)
      (ptr (name + u32 (load_ulong X ReturnLength (nk st) - 2)),
       u32 (BufferLength - u32 (load_ulong X ReturnLength (nk st) - 2)), st)
    else
      (* it's a UNICODE_STRING. we need to subtract the space
         Length and MaximumLength take up. *)
      (ptr (name + 4), u32 (BufferLength - 4), st) in
  if FileName_Buffer FileObject =? 0 then (STATUS_SUCCESS X, st)
  else
    let nameLength := name_length FileObject nameLength in
    let value := u32 (load_ulong X ReturnLength (nk st) + nameLength) in
    let st := record (NevReturnLength value) (store_ulong X ReturnLength value (nk st)) st in
    if nameLength >? BufferLength then (STATUS_BUFFER_TOO_SMALL X, st)
    else
      let name := ptr (name + nameLength) in
      let st := record (NevTerminator name) (store_ushort X name 0 (nk st)) st in
      (STATUS_SUCCESS X, copy_names FileObject name st).

End Name.

Arguments ptr {K} X z.
Arguments record {K} e k st.
Arguments copy_names {K} X relatedFile name st.
Arguments GetObjectName {K} X FileObject Buffer BufferLength ReturnLength st.

(** The names of a file object and of the file objects it is related
    to, the outermost one first: source and length. *)
Fixpoint names (f : FILE_OBJECT) : list (Z * Z) :=
  match f with
  | mkFILE_OBJECT _ length buffer related =>
      match related with
      | Some r => names r
      | None => []
      end ++ [(buffer, length)]
  end.

(** Copying the given names one after the other to [base + offset]. *)
Fixpoint layout (bits base offset : Z) (l : list (Z * Z)) : list NameEvent :=
  match l with
  | [] => []
  | (src, n) :: l' =>
      NevMemcpy ((base + offset) mod 2 ^ bits) src n :: layout bits base (offset + n) l'
  end.

(** Where GetObjectName starts the names, and the room it takes to be
    left there: past the device name without its terminator, or past a
    UNICODE_STRING header. *)
Definition used {K} (X : NameExterns K) (FileObject : FILE_OBJECT)
    (Buffer BufferLength ReturnLength : Z) (k : K) : Z :=
  if negb (DeviceObject FileObject =? 0) then
    u32 (load_ulong X ReturnLength
           (ObQueryNameString X (DeviceObject FileObject) Buffer BufferLength
              ReturnLength k) - 2)
  else 4.

(** Externs on a state that is the content of [*ReturnLength]: the
    device name takes 24 bytes with its terminator. *)
Definition sample_name_externs : NameExterns Z :=
  {| pointer_bits := 32;
     STATUS_SUCCESS := 0;
     STATUS_BUFFER_TOO_SMALL := 0xC0000023;
     ObQueryNameString := fun _ _ _ _ _ => 24;
     load_ulong := fun _ k => k;
     store_ulong := fun _ v _ => v;
     store_ushort := fun _ _ k => k;
     memcpy := fun _ _ _ k => k |}.

(** The file [\dir\file] opened relative to the directory [\dir]. *)
Definition sample_file : FILE_OBJECT :=
  mkFILE_OBJECT 0x81000000 10 0x82000000
    (Some (mkFILE_OBJECT 0x81000000 8 0x82000100 None)).

End ObjectName.
(** * Properties *)

(** ** Running programs *)

Lemma run_bind {A B : Type} (m : Prog A) (f : A -> Prog B) env s :
  run (bind m f) env s =
  match result (run m env s) with
  | Returned a => run (f a) (rest (run m env s)) (final (run m env s))
  | Blocked => mkOutcome Blocked (rest (run m env s)) (final (run m env s))
  | Fault => mkOutcome Fault (rest (run m env s)) (final (run m env s))
  | OutOfFuel => mkOutcome OutOfFuel (rest (run m env s)) (final (run m env s))
  end.
Proof.
  revert env s. induction m as [a | e k IH | ]; intros env s; simpl; try reflexivity.
  destruct (exec e (snd (pop e env s))); simpl; auto.
Qed.

Lemma pop_yield e env s :
  yields e = true -> pop e env s = (tl env, after1 env s).
Proof. unfold pop. intros ->. destruct env; reflexivity. Qed.

Lemma pop_plain e env s :
  yields e = false -> pop e env s = (env, s).
Proof. unfold pop. intros ->. reflexivity. Qed.

Lemma interfere_trace i s : trace (interfere i s) = trace s.
Proof.
  destruct i; simpl; try reflexivity.
  destruct (memory s !! p); try reflexivity.
  destruct (has_flag (Flags w) WaiterSpinning); reflexivity.
Qed.

Lemma after1_trace env s : trace (after1 env s) = trace s.
Proof. destruct env; simpl; [reflexivity | apply interfere_trace]. Qed.

Lemma pop_trace e env s : trace (snd (pop e env s)) = trace s.
Proof.
  unfold pop. destruct (yields e); [| reflexivity].
  destruct env; simpl; [reflexivity | apply interfere_trace].
Qed.

Lemma exec_trace e s x s' : exec e s = Done x s' -> trace s' = trace s.
Proof.
  destruct e; simpl; unfold with_block, ensure_block; intros H;
    repeat match type of H with
           | context [if ?c then _ else _] => destruct c
           | context [match ?c with _ => _ end] => destruct c
           end; inversion H; subst; reflexivity.
Qed.

(** A run only appends to the trace. *)
Lemma run_trace {A : Type} (p : Prog A) env s :
  trace (final (run p env s)) = trace s ++ trace_since s (final (run p env s)).
Proof.
  unfold trace_since.
  assert (H : exists t, trace (final (run p env s)) = trace s ++ t).
  { revert env s. induction p as [a | e k IH | ]; intros env s; simpl.
    - exists []. now rewrite app_nil_r.
    - destruct (exec e (snd (pop e env s))) eqn:E; simpl.
      + destruct (IH x (fst (pop e env s)) (log e x s0)) as [t Ht].
        exists ((e, x) :: t). rewrite Ht. simpl.
        rewrite (exec_trace _ _ _ _ E), pop_trace, <- app_assoc. reflexivity.
      + exists []. now rewrite app_nil_r, pop_trace.
      + exists []. now rewrite app_nil_r, pop_trace.
    - exists []. now rewrite app_nil_r. }
  destruct H as [t Ht]. rewrite Ht at 1. f_equal.
  rewrite Ht, drop_app_length. reflexivity.
Qed.

Lemma trace_since_app s s' t : trace s' = trace s ++ t -> trace_since s s' = t.
Proof. unfold trace_since. intros ->. apply drop_app_length. Qed.

Lemma count_app f t1 t2 : count f (t1 ++ t2) = (count f t1 + count f t2)%nat.
Proof. induction t1 as [| ev t1 IH]; simpl; [reflexivity |]. destruct (f ev); lia. Qed.

Lemma count_Forall_0 (f : Act * Z -> bool) t :
  Forall (fun ev => f ev = false) t -> count f t = O.
Proof. induction 1 as [| ev t H _ IH]; simpl; [reflexivity |]. now rewrite H. Qed.

Lemma trace_since_refl s : trace_since s s = [].
Proof. unfold trace_since. apply drop_all. Qed.

Lemma trace_since_log e x s0 s1 s' :
  trace s1 = trace s0 ->
  trace s' = trace (log e x s1) ++ trace_since (log e x s1) s' ->
  trace_since s0 s' = (e, x) :: trace_since (log e x s1) s'.
Proof.
  intros H0 H. apply trace_since_app. rewrite H. simpl. rewrite H0, <- app_assoc.
  reflexivity.
Qed.

(** One action of a run, in terms of the trace. *)
Lemma run_Vis_trace {A : Type} e (k : Z -> Prog A) env s x s' :
  exec e (snd (pop e env s)) = Done x s' ->
  trace_since s (final (run (Vis e k) env s)) =
  (e, x) :: trace_since (log e x s') (final (run (k x) (fst (pop e env s)) (log e x s'))).
Proof.
  intros E. simpl. rewrite E. apply trace_since_log.
  - rewrite (exec_trace _ _ _ _ E). apply pop_trace.
  - apply run_trace.
Qed.

Lemma run_Vis_stuck_trace {A : Type} e (k : Z -> Prog A) env s :
  (exec e (snd (pop e env s)) = Wait \/ exec e (snd (pop e env s)) = Crash) ->
  trace_since s (final (run (Vis e k) env s)) = [].
Proof.
  intros [E | E]; simpl; rewrite E; simpl; apply trace_since_app;
    rewrite pop_trace, app_nil_r; reflexivity.
Qed.

Lemma all_acts_bind {A B : Type} (P : Act -> Prop) (m : Prog A) (f : A -> Prog B) :
  all_acts P m -> (forall a, all_acts P (f a)) -> all_acts P (bind m f).
Proof.
  intros Hm Hf. induction Hm as [a | | e k He Hk IH]; simpl; auto.
  - constructor.
  - constructor; auto.
Qed.

Lemma all_acts_run {A : Type} (P : Act -> Prop) (p : Prog A) env s :
  all_acts P p ->
  Forall (fun ev => P (fst ev)) (trace_since s (final (run p env s))).
Proof.
  intros Hp. revert env s.
  induction Hp as [a | | e k He Hk IH]; intros env s.
  - simpl. rewrite trace_since_refl. constructor.
  - simpl. rewrite trace_since_refl. constructor.
  - destruct (exec e (snd (pop e env s))) eqn:E.
    + rewrite (run_Vis_trace _ _ _ _ _ _ E). constructor; [exact He | apply IH].
    + rewrite run_Vis_stuck_trace by auto. constructor.
    + rewrite run_Vis_stuck_trace by auto. constructor.
Qed.

(** ** The state word *)

Lemma land_low2 v f : 0 <= f < 4 -> Z.land v f = Z.land (v mod 4) f.
Proof.
  intros Hf. change (v mod 4) with (v mod 2 ^ 2).
  rewrite <- (Z.land_ones v 2) by lia. rewrite <- Z.land_assoc.
  f_equal. change (Z.ones 2) with 3.
  assert (f = 0 \/ f = 1 \/ f = 2 \/ f = 3) as [-> | [-> | [-> | ->]]] by lia;
    reflexivity.
Qed.

Lemma has_flag_low2 v f : 0 <= f < 4 -> has_flag v f = has_flag (v mod 4) f.
Proof. intros Hf. unfold has_flag. now rewrite land_low2. Qed.

Lemma shared_count_spec v : shared_count v = (v / 4) mod 2 ^ 30.
Proof.
  unfold shared_count, LockSharedOwnersShift, LockSharedOwnersMask.
  rewrite Z.shiftr_div_pow2 by lia. change 0x3fffffff with (Z.ones 30).
  rewrite Z.land_ones by lia. reflexivity.
Qed.

Lemma shared_count_bounds v : 0 <= shared_count v < 2 ^ 30.
Proof. rewrite shared_count_spec. apply Z.mod_pos_bound. lia. Qed.

Lemma wrap_eq z : exists k, Int32.wrap z = z + k * 2 ^ 32.
Proof.
  unfold Int32.wrap. exists (- ((z + 2 ^ 31) / 2 ^ 32)).
  pose proof (Z.div_mod (z + 2 ^ 31) (2 ^ 32) ltac:(lia)). lia.
Qed.

Lemma wrap_in_range z : Int32.in_range (Int32.wrap z).
Proof.
  unfold Int32.in_range, Int32.wrap, Int32.min_value, Int32.max_value.
  pose proof (Z.mod_pos_bound (z + 2 ^ 31) (2 ^ 32) ltac:(lia)). lia.
Qed.

Lemma wrap_id z : Int32.in_range z -> Int32.wrap z = z.
Proof.
  unfold Int32.in_range, Int32.wrap, Int32.min_value, Int32.max_value. intros H.
  rewrite Z.mod_small; lia.
Qed.

Lemma shared_count_shift v k : shared_count (v + k * 2 ^ 32) = shared_count v.
Proof.
  rewrite !shared_count_spec.
  replace (v + k * 2 ^ 32) with (v + (k * 2 ^ 30) * 4) by lia.
  rewrite Z.div_add by lia.
  rewrite Z.add_mod by lia. rewrite Z.mod_mul by lia.
  rewrite Z.add_0_r. apply Z.mod_mod. lia.
Qed.

Lemma low2_shift v k : (v + k * 2 ^ 32) mod 4 = v mod 4.
Proof.
  replace (v + k * 2 ^ 32) with (v + (k * 2 ^ 30) * 4) by lia.
  apply Z.mod_add. lia.
Qed.

Lemma shared_count_wrap z : shared_count (Int32.wrap z) = shared_count z.
Proof. destruct (wrap_eq z) as [k ->]. apply shared_count_shift. Qed.

Lemma has_flag_wrap z f : 0 <= f < 4 -> has_flag (Int32.wrap z) f = has_flag z f.
Proof.
  intros Hf. rewrite (has_flag_low2 (Int32.wrap z)), (has_flag_low2 z) by lia.
  destruct (wrap_eq z) as [k ->]. now rewrite low2_shift.
Qed.

(** Removing one shared owner, in terms of the fields of the word. *)
Lemma sub_increment_fields v :
  1 <= shared_count v ->
  shared_count (Int32.sub v LockSharedOwnersIncrement) = shared_count v - 1
  /\ has_flag (Int32.sub v LockSharedOwnersIncrement) LockOwned = has_flag v LockOwned
  /\ has_flag (Int32.sub v LockSharedOwnersIncrement) LockWaiters = has_flag v LockWaiters.
Proof.
  intros Hsc. unfold Int32.sub, LockSharedOwnersIncrement, LockOwned, LockWaiters.
  rewrite shared_count_wrap, !has_flag_wrap by lia.
  rewrite (has_flag_low2 (v - 4)), (has_flag_low2 v 1) by lia.
  rewrite (has_flag_low2 (v - 4) 2), (has_flag_low2 v 2) by lia.
  replace ((v - 4) mod 4) with (v mod 4)
    by (replace (v - 4) with (v + (-1) * 4) by lia; now rewrite Z.mod_add by lia).
  split; [| split; reflexivity].
  pose proof (shared_count_bounds v) as Hb.
  rewrite !shared_count_spec in *.
  replace (v - 4) with (v + (-1) * 4) by lia. rewrite Z.div_add by lia.
  rewrite <- Zplus_mod_idemp_l.
  rewrite Z.mod_small; lia.
Qed.

(** Removing the last shared owner together with the owned bit. *)
Lemma sub_owned_increment_fields v :
  shared_count v = 1 -> has_flag v LockOwned = true ->
  shared_count (Int32.sub (Int32.sub v LockOwned) LockSharedOwnersIncrement) = 0
  /\ has_flag (Int32.sub (Int32.sub v LockOwned) LockSharedOwnersIncrement) LockOwned = false
  /\ has_flag (Int32.sub (Int32.sub v LockOwned) LockSharedOwnersIncrement) LockWaiters
     = has_flag v LockWaiters.
Proof.
  intros Hsc Ho. unfold Int32.sub, LockSharedOwnersIncrement, LockOwned, LockWaiters in *.
  rewrite shared_count_wrap, !has_flag_wrap by lia.
  destruct (wrap_eq (v - 1)) as [k ->].
  replace (v - 1 + k * 2 ^ 32 - 4) with ((v - 5) + k * 2 ^ 32) by lia.
  rewrite shared_count_shift.
  rewrite (has_flag_low2 (v - 5 + k * 2 ^ 32)), (has_flag_low2 (v - 5 + k * 2 ^ 32) 2) by lia.
  rewrite low2_shift.
  rewrite (has_flag_low2 v 2) by lia. rewrite (has_flag_low2 v 1) in Ho by lia.
  rewrite !shared_count_spec in *.
  pose proof (Z.div_mod v 4 ltac:(lia)) as Hv.
  pose proof (Z.mod_pos_bound v 4 ltac:(lia)) as Hr.
  assert (Hodd : v mod 4 = 1 \/ v mod 4 = 3).
  { assert (v mod 4 = 0 \/ v mod 4 = 1 \/ v mod 4 = 2 \/ v mod 4 = 3) as [E | [E | [E | E]]]
      by lia; rewrite E in Ho; try discriminate; auto. }
  assert (Hq : (v - 5) / 4 = v / 4 - 1).
  { symmetry. apply Z.div_unique with (r := v mod 4 - 1); lia. }
  assert (Hm : (v - 5) mod 4 = v mod 4 - 1).
  { symmetry. apply Z.mod_unique with (q := v / 4 - 1); lia. }
  rewrite Hq, Hm. split; [| split].
  - rewrite <- Zminus_mod_idemp_l, Hsc. reflexivity.
  - destruct Hodd as [-> | ->]; reflexivity.
  - destruct Hodd as [-> | ->]; reflexivity.
Qed.

Arguments Int32.add : simpl never.
Arguments Int32.sub : simpl never.
Arguments Int32.wrap : simpl never.
Arguments has_flag : simpl never.
Arguments no_flag : simpl never.
Arguments clear_flag : simpl never.
Arguments shared_count : simpl never.
Arguments shared_fast_path : simpl never.
Arguments pop : simpl never.

Lemma run_Vis_yield {A : Type} e (k : Z -> Prog A) env s :
  yields e = true ->
  run (Vis e k) env s =
  match exec e (after1 env s) with
  | Done x s' => run (k x) (tl env) (log e x s')
  | Wait => mkOutcome Blocked (tl env) (after1 env s)
  | Crash => mkOutcome Fault (tl env) (after1 env s)
  end.
Proof. intros H. simpl. rewrite (pop_yield _ _ _ H). reflexivity. Qed.

Lemma run_Vis_plain {A : Type} e (k : Z -> Prog A) env s :
  yields e = false ->
  run (Vis e k) env s =
  match exec e s with
  | Done x s' => run (k x) env (log e x s')
  | Wait => mkOutcome Blocked env s
  | Crash => mkOutcome Fault env s
  end.
Proof. intros H. simpl. rewrite (pop_plain _ _ _ H). reflexivity. Qed.

Ltac step :=
  unfold act, act_; cbn [bind];
  first [ rewrite run_Vis_yield by reflexivity
        | rewrite run_Vis_plain by reflexivity ];
  cbn [exec bind].

Lemma no_flag_has_flag v f : no_flag v f = negb (has_flag v f).
Proof. unfold no_flag, has_flag. now rewrite negb_involutive. Qed.

Lemma interfere_log i e x s : interfere i (log e x s) = log e x (interfere i s).
Proof.
  destruct i; simpl; try reflexivity.
  destruct (memory s !! p); [| reflexivity].
  destruct (has_flag (Flags w) WaiterSpinning); reflexivity.
Qed.

Lemma after1_log env e x s : after1 env (log e x s) = log e x (after1 env s).
Proof. destruct env; simpl; [reflexivity | apply interfere_log]. Qed.

Lemma apply_env_two i j s : apply_env [i; j] s = interfere j (interfere i s).
Proof. reflexivity. Qed.

(** What a run has consumed of a script of at least two interferences,
    and of a shorter one. *)
Lemma used_two (env : list Interference) (s : State) :
  exists used, env = used ++ tl (tl env)
               /\ apply_env used s = after1 (tl env) (after1 env s).
Proof.
  destruct env as [| i [| j env]].
  - exists []. split; reflexivity.
  - exists [i]. split; reflexivity.
  - exists [i; j]. split; reflexivity.
Qed.

Lemma used_one (env : list Interference) (s : State) :
  exists used, env = used ++ tl env /\ apply_env used s = after1 env s.
Proof.
  destruct env as [| i env].
  - exists []. split; reflexivity.
  - exists [i]. split; reflexivity.
Qed.

(** ** The fast paths (C4, C9) *)

Lemma TryAcquireShared_busy env s :
  shared_fast_path (_value (after1 env s)) = false ->
  run TryAcquireShared env s =
  mkOutcome (Returned false) (tl env)
    (log AGetValue (_value (after1 env s)) (after1 env s)).
Proof.
  intros H. unfold TryAcquireShared. step. rewrite H. reflexivity.
Qed.

Lemma exec_cas_value newv cmp s :
  exec (ACasValue newv cmp) s =
  if _value s =? cmp then Done (_value s) (upd_value newv s) else Done (_value s) s.
Proof. reflexivity. Qed.

Lemma TryAcquireExclusive_run env s :
  let value := _value (after1 env s) in
  let s1 := log AGetValue value (after1 env s) in
  let s2 := after1 (tl env) s1 in
  run TryAcquireExclusive env s =
  if has_flag value LockOwned then mkOutcome (Returned false) (tl env) s1
  else if _value s2 =? value then
    mkOutcome (Returned true) (tl (tl env))
      (log (ACasValue (Int32.add value LockOwned) value) value
         (upd_value (Int32.add value LockOwned) s2))
  else
    mkOutcome (Returned false) (tl (tl env))
      (log (ACasValue (Int32.add value LockOwned) value) (_value s2) s2).
Proof.
  intros value s1 s2. unfold TryAcquireExclusive. step. fold value. fold s1.
  destruct (has_flag value LockOwned); [reflexivity |].
  step. fold s2. destruct (_value s2 =? value) eqn:E.
  - apply Z.eqb_eq in E. rewrite E. cbn [bind run]. now rewrite Z.eqb_refl.
  - cbn [bind run]. now rewrite E.
Qed.

Lemma TryAcquireShared_run env s :
  let value := _value (after1 env s) in
  let s1 := log AGetValue value (after1 env s) in
  let s2 := after1 (tl env) s1 in
  let newv := if no_flag value LockOwned
              then Int32.add (Int32.add value LockOwned) LockSharedOwnersIncrement
              else Int32.add value LockSharedOwnersIncrement in
  run TryAcquireShared env s =
  if shared_fast_path value then
    if _value s2 =? value then
      mkOutcome (Returned true) (tl (tl env))
        (log (ACasValue newv value) value (upd_value newv s2))
    else
      mkOutcome (Returned false) (tl (tl env))
        (log (ACasValue newv value) (_value s2) s2)
  else mkOutcome (Returned false) (tl env) s1.
Proof.
  intros value s1 s2 newv. unfold TryAcquireShared. step. fold value. fold s1.
  destruct (shared_fast_path value); [| reflexivity].
  subst newv. destruct (no_flag value LockOwned).
  - step. fold s2. destruct (_value s2 =? value) eqn:E.
    + apply Z.eqb_eq in E. rewrite E. cbn [bind run]. now rewrite Z.eqb_refl.
    + cbn [bind run]. now rewrite E.
  - step. fold s2. destruct (_value s2 =? value) eqn:E.
    + apply Z.eqb_eq in E. rewrite E. cbn [bind run]. now rewrite Z.eqb_refl.
    + cbn [bind run]. now rewrite E.
Qed.

Lemma trace_since_log1 e x s s1 :
  trace s1 = trace s -> trace_since s (log e x s1) = [(e, x)].
Proof. intros H. apply trace_since_app. simpl. now rewrite H. Qed.

Lemma trace_since_log2 e1 x1 e2 x2 s s1 s2 :
  trace s1 = trace s -> trace s2 = trace (log e1 x1 s1) ->
  trace_since s (log e2 x2 s2) = [(e1, x1); (e2, x2)].
Proof.
  intros H1 H2. apply trace_since_app. simpl. rewrite H2. simpl.
  rewrite H1, <- app_assoc. reflexivity.
Qed.

(** C9.  TryAcquireExclusive and TryAcquireShared always return, after
    at most one interlocked operation on the state word.  When one of
    them returns false it has not written the word: the word is what the
    other threads alone made of it.  Each can return false although the
    word it leaves would let the acquire succeed (the word changed
    between its read and its single compare-exchange). *)
Theorem try_acquire_false_leaves_word :
  (forall env s,
      let o := run TryAcquireExclusive env s in
      (exists b, result o = Returned b)
      /\ (count is_cas_value (trace_since s (final o)) <= 1)%nat
      /\ (result o = Returned false ->
          count is_write_value (trace_since s (final o)) = O
          /\ exists used, env = used ++ rest o
                          /\ _value (final o) = _value (apply_env used s)))
  /\ (forall env s,
      let o := run TryAcquireShared env s in
      (exists b, result o = Returned b)
      /\ (count is_cas_value (trace_since s (final o)) <= 1)%nat
      /\ (result o = Returned false ->
          count is_write_value (trace_since s (final o)) = O
          /\ exists used, env = used ++ rest o
                          /\ _value (final o) = _value (apply_env used s)))
  /\ (exists env s,
        result (run TryAcquireExclusive env s) = Returned false
        /\ has_flag (_value (final (run TryAcquireExclusive env s))) LockOwned = false)
  /\ (exists env s,
        result (run TryAcquireShared env s) = Returned false
        /\ shared_fast_path (_value (final (run TryAcquireShared env s))) = true).
Proof.
  split; [| split; [| split]].
  - intros env s o. subst o. rewrite TryAcquireExclusive_run.
    set (value := _value (after1 env s)).
    set (s1 := log AGetValue value (after1 env s)).
    set (s2 := after1 (tl env) s1).
    assert (T1 : trace (after1 env s) = trace s) by apply after1_trace.
    assert (T2 : trace s2 = trace s1) by apply after1_trace.
    destruct (has_flag value LockOwned).
    + cbn [result final rest]. unfold s1. rewrite trace_since_log1 by exact T1.
      split; [eauto |]. split; [simpl; lia |]. intros _. split; [reflexivity |].
      destruct (used_one env s) as (used & Hu & Hs). exists used.
      split; [exact Hu |]. now rewrite Hs.
    + destruct (_value s2 =? value) eqn:E; cbn [result final rest].
      * rewrite (trace_since_log2 AGetValue value _ _ s (after1 env s)) by auto.
        split; [eauto |]. split; [simpl; lia |]. discriminate.
      * rewrite (trace_since_log2 AGetValue value _ _ s (after1 env s)) by auto.
        split; [eauto |]. split; [simpl; lia |]. intros _. split.
        { simpl. unfold is_write_value. simpl. now rewrite E. }
        destruct (used_two env s) as (used & Hu & Hs). exists used.
        split; [exact Hu |]. rewrite Hs. simpl. unfold s2, s1.
        now rewrite after1_log.
  - intros env s o. subst o. rewrite TryAcquireShared_run.
    set (value := _value (after1 env s)).
    set (s1 := log AGetValue value (after1 env s)).
    set (s2 := after1 (tl env) s1).
    set (newv := if no_flag value LockOwned
                 then Int32.add (Int32.add value LockOwned) LockSharedOwnersIncrement
                 else Int32.add value LockSharedOwnersIncrement).
    assert (T1 : trace (after1 env s) = trace s) by apply after1_trace.
    assert (T2 : trace s2 = trace s1) by apply after1_trace.
    destruct (shared_fast_path value).
    + destruct (_value s2 =? value) eqn:E; cbn [result final rest].
      * rewrite (trace_since_log2 AGetValue value _ _ s (after1 env s)) by auto.
        split; [eauto |]. split; [simpl; lia |]. discriminate.
      * rewrite (trace_since_log2 AGetValue value _ _ s (after1 env s)) by auto.
        split; [eauto |]. split; [simpl; lia |]. intros _. split.
        { simpl. unfold is_write_value. simpl. now rewrite E. }
        destruct (used_two env s) as (used & Hu & Hs). exists used.
        split; [exact Hu |]. rewrite Hs. simpl. unfold s2, s1.
        now rewrite after1_log.
    + cbn [result final rest]. unfold s1. rewrite trace_since_log1 by exact T1.
      split; [eauto |]. split; [simpl; lia |]. intros _. split; [reflexivity |].
      destruct (used_one env s) as (used & Hu & Hs). exists used.
      split; [exact Hu |]. now rewrite Hs.
  - exists [Quiet; StoreValue 2], (FairResourceLock_new 0 2 100 0 true).
    split; reflexivity.
  - exists [StoreValue 5; StoreValue 9], (FairResourceLock_new 0 2 100 0 true).
    split; reflexivity.
Qed.

(** TryAcquireExclusive on a free lock whose word a releaser with a
    queued waiter rewrites between the read and the compare-exchange. *)
Lemma try_acquire_false_leaves_word_witness :
  let env := [Quiet; StoreValue 2] in
  let s := FairResourceLock_new 0 2 100 0 true in
  let o := run TryAcquireExclusive env s in
  result o = Returned false
  /\ count is_write_value (trace_since s (final o)) = O
  /\ exists used, env = used ++ rest o
                  /\ _value (final o) = _value (apply_env used s).
Proof.
  intros env s o.
  destruct try_acquire_false_leaves_word as [H _].
  destruct (H env s) as (_ & _ & H3).
  split; [reflexivity |]. apply H3. reflexivity.
Defined.

(** ** Which actions the methods perform *)

Ltac acts_tac :=
  repeat first
    [ progress intros
    | apply all_acts_bind
    | apply all_acts_Ret
    | apply all_acts_Diverge
    | apply all_acts_Vis
    | assumption
    | match goal with
      | |- all_acts _ (if ?b then _ else _) => destruct b
      | |- all_acts _ (match ?b with _ => _ end) => destruct b
      | |- all_acts _ (act _) => unfold act
      | |- all_acts _ (act_ _) => unfold act_
      | |- _ <> _ => discriminate
      | |- _ = _ => reflexivity
      end ].

Section Acts.

Variable P : Act -> Prop.

Hypothesis P_heap : forall e,
  match e with
  | ALoadFlink _ | ALoadBlink _ | AStoreFlink _ _ | AStoreBlink _ _
  | AGetHead | AGetFirstShared | AGetSpinCount => P e
  | _ => True
  end.

Lemma acts_InsertHeadList h e : all_acts P (InsertHeadList h e).
Proof.
  unfold InsertHeadList. acts_tac;
    match goal with |- P ?e => exact (P_heap e) end.
Qed.

Lemma acts_InsertTailList h e : all_acts P (InsertTailList h e).
Proof.
  unfold InsertTailList. acts_tac;
    match goal with |- P ?e => exact (P_heap e) end.
Qed.

Lemma acts_RemoveHeadList h : all_acts P (RemoveHeadList h).
Proof.
  unfold RemoveHeadList. acts_tac;
    match goal with |- P ?e => exact (P_heap e) end.
Qed.

Lemma acts_RemoveEntryList h : all_acts P (RemoveEntryList h).
Proof.
  unfold RemoveEntryList. acts_tac;
    match goal with |- P ?e => exact (P_heap e) end.
Qed.

Hypothesis P_value : forall e,
  match e with
  | AGetValue | ACasValue _ _ => P e
  | _ => True
  end.

Lemma acts_ClearWaitersBit fuel : all_acts P (ClearWaitersBit fuel).
Proof.
  induction fuel as [| fuel IH]; cbn [ClearWaitersBit]; acts_tac;
    match goal with |- P ?e => exact (P_value e) end.
Qed.

Hypothesis P_flags : forall e,
  match e with
  | ALoadFlags _ | ACasFlags _ _ _ => P e
  | _ => True
  end.

Lemma acts_ClearSpinning wb fuel : all_acts P (ClearSpinning wb fuel).
Proof.
  induction fuel as [| fuel IH]; cbn [ClearSpinning]; acts_tac;
    match goal with |- P ?e => exact (P_flags e) end.
Qed.

Hypothesis P_unblock : forall e,
  match e with
  | AEnter MUnblock | AGetWakeEvent | ANtReleaseKeyedEvent _ _ => P e
  | _ => True
  end.

Lemma acts_Unblock wb fuel : all_acts P (Unblock wb fuel).
Proof.
  unfold Unblock. acts_tac; try apply acts_ClearSpinning; acts_tac;
    match goal with |- P ?e => exact (P_unblock e) end.
Qed.

Lemma acts_UnblockWakeList wl wb fuel : all_acts P (UnblockWakeList wl wb fuel).
Proof.
  revert wb. induction fuel as [| fuel IH]; intros wb; cbn [UnblockWakeList].
  - constructor.
  - destruct (wb =? wl); [constructor |].
    apply all_acts_bind; [unfold act; constructor; [exact (P_heap (ALoadFlink wb)) | constructor] |].
    intros flink. apply all_acts_bind; [apply acts_Unblock |]. intros _. apply IH.
Qed.

Lemma acts_Wake_loop wl fuel first : all_acts P (Wake_loop wl fuel first).
Proof.
  revert first. induction fuel as [| fuel IH]; intros first; cbn [Wake_loop].
  - constructor.
  - acts_tac;
      try apply acts_ClearWaitersBit; try apply acts_RemoveHeadList;
      try apply acts_InsertTailList; try apply IH; acts_tac;
      match goal with
      | |- P ?e =>
          first [ exact (P_heap e) | exact (P_value e) | exact (P_flags e) ]
      end.
Qed.

End Acts.

Lemma acts_Wake_body P wl fuel :
  (forall e, match e with AEnter MWake => True | _ => P e end) ->
  all_acts P
    (act_ (ANew wl) ;;
     act_ (AStoreFlink wl wl) ;;
     act_ (AStoreBlink wl wl) ;;
     act_ ALockAcquire ;;
     wb <- Wake_loop wl fuel true ;;
     flags <- act (ALoadFlags wb) ;;
     (if no_flag flags WaiterExclusive then
        head <- act AGetHead ;;
        act_ (ASetFirstShared head)
      else Ret tt) ;;
     act_ ALockRelease ;;
     flags <- act (ALoadFlags wb) ;;
     if has_flag flags WaiterExclusive then
       Unblock wb fuel
     else
       wb <- act (ALoadFlink wl) ;;
       UnblockWakeList wl wb fuel).
Proof.
  intros HP.
  assert (H1 : forall e, match e with
                         | ALoadFlink _ | ALoadBlink _ | AStoreFlink _ _ | AStoreBlink _ _
                         | AGetHead | AGetFirstShared | AGetSpinCount => P e
                         | _ => True end)
    by (intros e; specialize (HP e); destruct e; auto).
  assert (H2 : forall e, match e with AGetValue | ACasValue _ _ => P e | _ => True end)
    by (intros e; specialize (HP e); destruct e; auto).
  assert (H3 : forall e, match e with ALoadFlags _ | ACasFlags _ _ _ => P e | _ => True end)
    by (intros e; specialize (HP e); destruct e; auto).
  assert (H4 : forall e, match e with
                         | AEnter MUnblock | AGetWakeEvent | ANtReleaseKeyedEvent _ _ => P e
                         | _ => True end)
    by (intros e; specialize (HP e); destruct e; auto; destruct m; auto).
  repeat first
    [ apply acts_Wake_loop; assumption
    | apply acts_Unblock; assumption
    | apply acts_UnblockWakeList; assumption
    | progress intros
    | apply all_acts_bind
    | apply all_acts_Ret
    | apply all_acts_Vis
    | match goal with
      | |- all_acts _ (if ?b then _ else _) => destruct b
      | |- all_acts _ (act _) => unfold act
      | |- all_acts _ (act_ _) => unfold act_
      | |- P ?e => exact (HP e)
      end ].
Qed.

Lemma is_enter_fst m ev x : is_enter m ev = is_enter m (fst ev, x).
Proof. reflexivity. Qed.

(** A run of Wake records its entry once. *)
Lemma Wake_enter_once wl fuel env s :
  count (is_enter MWake) (trace_since s (final (run (Wake wl fuel) env s))) = 1%nat.
Proof.
  unfold Wake. cbn [bind act_].
  erewrite run_Vis_trace by reflexivity.
  cbn [count]. change (is_enter MWake (AEnter MWake, 0)) with true. cbv iota.
  f_equal. apply count_Forall_0.
  eapply Forall_impl;
    [apply all_acts_run with (P := fun e => is_enter MWake (e, 0) = false) |].
  - apply acts_Wake_body. intros e. destruct e; try reflexivity.
    destruct m; reflexivity || exact I.
  - intros ev H. now rewrite (is_enter_fst _ ev 0).
Qed.

(** ** ReleaseShared (C5) *)

Lemma ReleaseShared_run wl fuel : forall env s,
  (length env < fuel)%nat ->
  exists s0 env1 fuel1 t,
    run (ReleaseShared wl fuel) env s =
    (if has_flag (_value s0) LockWaiters
     then run (Wake wl fuel1) env1
            (log (ACasValue (ReleaseShared_newValue (_value s0)) (_value s0)) (_value s0)
               (upd_value (ReleaseShared_newValue (_value s0)) s0))
     else mkOutcome (Returned tt) env1
            (log (ACasValue (ReleaseShared_newValue (_value s0)) (_value s0)) (_value s0)
               (upd_value (ReleaseShared_newValue (_value s0)) s0)))
    /\ trace s0 = trace s ++ t
    /\ Forall (fun ev => is_enter MWake ev = false) t
    /\ (length env1 < fuel1)%nat.
Proof.
  induction fuel as [| fuel IH]; intros env s Hlen; [lia |].
  cbn [ReleaseShared]. step.
  set (value := _value (after1 env s)).
  set (s1 := log AGetValue value (after1 env s)).
  step. set (s2 := after1 (tl env) s1).
  destruct (_value s2 =? value) eqn:E.
  - apply Z.eqb_eq in E. cbn [bind]. rewrite E, Z.eqb_refl.
    exists s2, (tl (tl env)), (S fuel), [(AGetValue, value)].
    rewrite E. split; [destruct (has_flag value LockWaiters); reflexivity |].
    split; [| split].
    + unfold s2. rewrite after1_trace. unfold s1. simpl. now rewrite after1_trace.
    + repeat constructor.
    + destruct env as [| ? [| ? ?]]; simpl in *; lia.
  - cbn [bind]. rewrite E.
    assert (Hne : tl env <> []).
    { intros Hnil. unfold s2 in E. rewrite Hnil in E. simpl in E.
      unfold value in E. now rewrite Z.eqb_refl in E. }
    destruct (IH (tl (tl env))
                (log (ACasValue (ReleaseShared_newValue value) value) (_value s2) s2))
      as (s0 & env1 & fuel1 & t & Hrun & Ht & Hall & Hf).
    { destruct env as [| ? [| ? ?]]; simpl in *; try congruence; lia. }
    exists s0, env1, fuel1,
      ((AGetValue, value)
         :: (ACasValue (ReleaseShared_newValue value) value, _value s2) :: t).
    split; [exact Hrun |]. split; [| split; [| exact Hf]].
    + rewrite Ht. simpl. unfold s2. rewrite after1_trace. unfold s1. simpl.
      rewrite after1_trace, <- !app_assoc. reflexivity.
    + repeat constructor. exact Hall.
Qed.

(** C5.  ReleaseShared, given a bound on its loop that exceeds the
    number of interferences, reaches a successful compare-exchange at
    some pre-image [value] and writes [ReleaseShared_newValue value].
    For a pre-image with SharedCount >= 1 that is [value] less one
    shared increment when SharedCount > 1 (the count drops by one, the
    owned and waiters bits stay), and [value] less the owned bit and one
    shared increment when SharedCount = 1 (for an owned word the count
    and the owned bit become 0, the waiters bit stays).  Wake is entered,
    once, exactly when the pre-image has the waiters bit. *)
Theorem release_shared_transition wl fuel env s :
  (length env < fuel)%nat ->
  exists s0 env1 fuel1,
    let value := _value s0 in
    let newValue := ReleaseShared_newValue value in
    let s1 := log (ACasValue newValue value) value (upd_value newValue s0) in
    let o := run (ReleaseShared wl fuel) env s in
    o = (if has_flag value LockWaiters then run (Wake wl fuel1) env1 s1
         else mkOutcome (Returned tt) env1 s1)
    /\ _value s1 = newValue
    /\ count (is_enter MWake) (trace_since s s1) = O
    /\ count (is_enter MWake) (trace_since s (final o))
       = (if has_flag value LockWaiters then 1 else 0)%nat
    /\ (1 <= shared_count value ->
        (1 < shared_count value ->
           newValue = Int32.sub value LockSharedOwnersIncrement
           /\ shared_count newValue = shared_count value - 1
           /\ (has_flag newValue LockOwned = has_flag value LockOwned)
           /\ has_flag newValue LockWaiters = has_flag value LockWaiters)
        /\ (shared_count value = 1 ->
           newValue = Int32.sub (Int32.sub value LockOwned) LockSharedOwnersIncrement
           /\ (has_flag value LockOwned = true ->
               shared_count newValue = 0
               /\ has_flag newValue LockOwned = false
               /\ has_flag newValue LockWaiters = has_flag value LockWaiters))).
Proof.
  intros Hlen.
  destruct (ReleaseShared_run wl fuel env s Hlen)
    as (s0 & env1 & fuel1 & t & Hrun & Ht & Hall & _).
  exists s0, env1, fuel1. cbv zeta.
  set (value := _value s0) in *.
  set (newValue := ReleaseShared_newValue value) in *.
  set (s1 := log (ACasValue newValue value) value (upd_value newValue s0)) in *.
  assert (Hs1 : trace s1 = trace s ++ (t ++ [(ACasValue newValue value, value)])).
  { unfold s1. simpl. rewrite Ht, <- app_assoc. reflexivity. }
  assert (Hc1 : count (is_enter MWake) (trace_since s s1) = O).
  { rewrite (trace_since_app _ _ _ Hs1), count_app.
    rewrite (count_Forall_0 _ _ Hall). reflexivity. }
  split; [exact Hrun |]. split; [reflexivity |]. split; [exact Hc1 |]. split.
  - rewrite Hrun. destruct (has_flag value LockWaiters).
    + pose proof (run_trace (Wake wl fuel1) env1 s1) as Hw.
      rewrite Hs1, <- app_assoc in Hw.
      rewrite (trace_since_app _ _ _ Hw), !count_app, Wake_enter_once.
      rewrite (count_Forall_0 _ _ Hall). reflexivity.
    + cbn [final]. exact Hc1.
  - intros Hsc. split.
    + intros Hgt. assert (Hne : (shared_count value =? 1) = false) by (apply Z.eqb_neq; lia).
      assert (Hnv : newValue = Int32.sub value LockSharedOwnersIncrement).
      { unfold newValue, ReleaseShared_newValue. now rewrite Hne. }
      split; [exact Hnv |]. rewrite Hnv. now apply sub_increment_fields.
    + intros Heq. assert (He : (shared_count value =? 1) = true) by (now apply Z.eqb_eq).
      assert (Hnv : newValue
                    = Int32.sub (Int32.sub value LockOwned) LockSharedOwnersIncrement).
      { unfold newValue, ReleaseShared_newValue. now rewrite He. }
      split; [exact Hnv |]. intros Ho. rewrite Hnv.
      now apply sub_owned_increment_fields.
Qed.

(** ReleaseShared by one of two shared owners, nobody waiting. *)
Lemma release_shared_transition_witness :
  let s := upd_value 9 (FairResourceLock_new 0 2 100 0 true) in
  (length ([] : list Interference) < 1)%nat
  /\ exists s0 env1 fuel1,
    let value := _value s0 in
    let newValue := ReleaseShared_newValue value in
    let s1 := log (ACasValue newValue value) value (upd_value newValue s0) in
    let o := run (ReleaseShared 300 1) [] s in
    o = (if has_flag value LockWaiters then run (Wake 300 fuel1) env1 s1
         else mkOutcome (Returned tt) env1 s1)
    /\ _value s1 = newValue
    /\ count (is_enter MWake) (trace_since s s1) = O
    /\ count (is_enter MWake) (trace_since s (final o))
       = (if has_flag value LockWaiters then 1 else 0)%nat
    /\ (1 <= shared_count value ->
        (1 < shared_count value ->
           newValue = Int32.sub value LockSharedOwnersIncrement
           /\ shared_count newValue = shared_count value - 1
           /\ (has_flag newValue LockOwned = has_flag value LockOwned)
           /\ has_flag newValue LockWaiters = has_flag value LockWaiters)
        /\ (shared_count value = 1 ->
           newValue = Int32.sub (Int32.sub value LockOwned) LockSharedOwnersIncrement
           /\ (has_flag value LockOwned = true ->
               shared_count newValue = 0
               /\ has_flag newValue LockOwned = false
               /\ has_flag newValue LockWaiters = has_flag value LockWaiters))).
Proof.
  intros s. split; [simpl; lia |].
  apply (release_shared_transition 300 1 [] s). simpl. lia.
Defined.

(** ** The slow path of the acquires (C8) *)

Lemma ensure_block_lookup p s : is_Some (memory (ensure_block p s) !! p).
Proof.
  unfold ensure_block. destruct (memory s !! p) eqn:E.
  - rewrite E. eauto.
  - simpl. rewrite lookup_insert_eq. eauto.
Qed.

Lemma ensure_block_other p q s :
  p <> q -> memory (ensure_block p s) !! q = memory s !! q.
Proof.
  intros Hne. unfold ensure_block. destruct (memory s !! p); [reflexivity |].
  simpl. now rewrite lookup_insert_ne.
Qed.

Lemma ensure_block_fields p s :
  _value (ensure_block p s) = _value s
  /\ _lock (ensure_block p s) = _lock s
  /\ _spinCount (ensure_block p s) = _spinCount s
  /\ _firstSharedWaiter (ensure_block p s) = _firstSharedWaiter s
  /\ _waitersListHead (ensure_block p s) = _waitersListHead s
  /\ trace (ensure_block p s) = trace s.
Proof. unfold ensure_block. destruct (memory s !! p); repeat split. Qed.

(** The prefix the three slow paths share, up to a compare-exchange
    that fails because another thread stored [v']. *)
Lemma wait_prefix_fails {A : Type} (waitBlock flagsv value v' : Z) env2 s
      (k1 k2 : Prog A) :
  _lock s = false -> v' <> value ->
  exists s2,
    run (act_ (ALocal waitBlock) ;;
         act_ (AStoreFlags waitBlock flagsv) ;;
         act_ ALockAcquire ;;
         old <- act (ACasValue (Z.lor value LockWaiters) value) ;;
         if negb (old =? value) then act_ ALockRelease ;; k1 else k2)
      (StoreValue v' :: env2) s
    = run k1 env2 s2
    /\ _lock s2 = false
    /\ _value s2 = v'
    /\ _spinCount s2 = _spinCount s
    /\ _waitersListHead s2 = _waitersListHead s
    /\ _firstSharedWaiter s2 = _firstSharedWaiter s
    /\ (forall p, p <> waitBlock -> memory s2 !! p = memory s !! p)
    /\ trace s2 = trace s ++
         [(ALocal waitBlock, 0); (AStoreFlags waitBlock flagsv, 0); (ALockAcquire, 0);
          (ACasValue (Z.lor value LockWaiters) value, v'); (ALockRelease, 0)].
Proof.
  intros Hlock Hne.
  destruct (ensure_block_lookup waitBlock s) as [w Hw].
  destruct (ensure_block_fields waitBlock s) as (F1 & F2 & F3 & F4 & F5 & F6).
  step. step. unfold with_block. cbn [memory log upd_trace]. rewrite Hw.
  cbn [bind]. step. cbn [_lock log store_block upd_memory upd_trace]. rewrite F2, Hlock.
  cbn [bind]. step. cbn [after1 interfere].
  cbn [_value upd_value]. apply Z.eqb_neq in Hne. rewrite Hne.
  cbv beta iota. rewrite Hne. cbn [negb tl]. step.
  eexists. split; [reflexivity |]. cbn.
  rewrite F3, F4, F5, F6. repeat split; try reflexivity.
  - intros p Hp. rewrite lookup_insert_ne by congruence.
    now apply ensure_block_other.
  - rewrite <- !app_assoc. reflexivity.
Qed.

Lemma interfere_fields i s :
  _lock (interfere i s) = _lock s
  /\ _spinCount (interfere i s) = _spinCount s
  /\ _waitersListHead (interfere i s) = _waitersListHead s
  /\ _firstSharedWaiter (interfere i s) = _firstSharedWaiter s
  /\ _wakeEvent (interfere i s) = _wakeEvent s.
Proof.
  destruct i; simpl; try (repeat split; reflexivity).
  destruct (memory s !! p); [| repeat split; reflexivity].
  destruct (has_flag (Flags w) WaiterSpinning); repeat split; reflexivity.
Qed.

Lemma after1_fields env s :
  _lock (after1 env s) = _lock s
  /\ _spinCount (after1 env s) = _spinCount s
  /\ _waitersListHead (after1 env s) = _waitersListHead s
  /\ _firstSharedWaiter (after1 env s) = _firstSharedWaiter s
  /\ _wakeEvent (after1 env s) = _wakeEvent s.
Proof. destruct env; simpl; [repeat split; reflexivity | apply interfere_fields]. Qed.

Lemma geb_true i n : n <= i -> (i >=? n) = true.
Proof. intros H. rewrite Z.geb_leb. now apply Z.leb_le. Qed.

(** C8 (as the code has it).  When the compare-exchange that sets the
    waiters bit fails in the slow path of AcquireExclusive or of
    AcquireShared, the queue spinlock is released, no wait block has been
    linked, and the loop goes round again with its counter [i] as it
    was.  The counter has then reached the spin count, so an iteration
    that again finds the lock unavailable does not spin: it goes to the
    slow path at once. *)
Theorem acquire_restart_after_failed_cas
    (sleep : bool) (waitBlock : Z) (fuel : nat) (i value v' : Z)
    (i1 : Interference) (env2 : list Interference) (s : State) :
  _value (interfere i1 s) = value -> _spinCount s <= i -> _lock s = false ->
  v' <> value ->
  let restarted (s2 : State) :=
    _lock s2 = false /\ _value s2 = v' /\ _spinCount s2 = _spinCount s
    /\ _waitersListHead s2 = _waitersListHead s
    /\ _firstSharedWaiter s2 = _firstSharedWaiter s
    /\ (forall p, p <> waitBlock -> memory s2 !! p = memory (interfere i1 s) !! p)
    /\ exists flagsv,
        trace_since s s2 =
        [(AGetValue, value); (AGetSpinCount, _spinCount s);
         (ALocal waitBlock, 0); (AStoreFlags waitBlock flagsv, 0); (ALockAcquire, 0);
         (ACasValue (Z.lor value LockWaiters) value, v'); (ALockRelease, 0)] in
  (has_flag value LockOwned = true ->
   exists s2,
     run (AcquireExclusive_loop sleep waitBlock (S fuel) i) (i1 :: StoreValue v' :: env2) s
     = run (AcquireExclusive_loop sleep waitBlock fuel i) env2 s2
     /\ restarted s2)
  /\ (shared_fast_path value = false ->
   exists s2,
     run (AcquireShared_loop sleep waitBlock (S fuel) i) (i1 :: StoreValue v' :: env2) s
     = run (AcquireShared_loop sleep waitBlock fuel i) env2 s2
     /\ restarted s2)
  /\ (forall fuel' env s',
       has_flag (_value (after1 env s')) LockOwned = true -> _spinCount s' <= i ->
       run (AcquireExclusive_loop sleep waitBlock (S fuel') i) env s'
       = run (queued <- AcquireExclusive_wait waitBlock (_value (after1 env s')) ;;
              if queued : bool then
                Block waitBlock sleep (S fuel') ;;
                AcquireExclusive_loop sleep waitBlock fuel' i
              else AcquireExclusive_loop sleep waitBlock fuel' i)
           (tl env)
           (log AGetSpinCount (_spinCount s')
              (log AGetValue (_value (after1 env s')) (after1 env s'))))
  /\ (forall fuel' env s',
       shared_fast_path (_value (after1 env s')) = false -> _spinCount s' <= i ->
       run (AcquireShared_loop sleep waitBlock (S fuel') i) env s'
       = run (queued <- AcquireShared_wait waitBlock (_value (after1 env s')) ;;
              if queued : bool then
                Block waitBlock sleep (S fuel') ;;
                AcquireShared_loop sleep waitBlock fuel' i
              else AcquireShared_loop sleep waitBlock fuel' i)
           (tl env)
           (log AGetSpinCount (_spinCount s')
              (log AGetValue (_value (after1 env s')) (after1 env s')))).
Proof.
  intros Hv Hi Hlock Hne restarted.
  destruct (interfere_fields i1 s) as (G1 & G2 & G3 & G4 & _).
  assert (Hloop : forall flagsv (k2 : Prog bool),
    exists s2,
      run (act_ (ALocal waitBlock) ;;
           act_ (AStoreFlags waitBlock flagsv) ;;
           act_ ALockAcquire ;;
           old <- act (ACasValue (Z.lor value LockWaiters) value) ;;
           if negb (old =? value) then act_ ALockRelease ;; Ret false else k2)
        (StoreValue v' :: env2)
        (log AGetSpinCount (_spinCount s) (log AGetValue value (interfere i1 s)))
      = mkOutcome (Returned false) env2 s2
      /\ restarted s2).
  { intros flagsv k2.
    destruct (wait_prefix_fails waitBlock flagsv value v' env2
                (log AGetSpinCount (_spinCount s) (log AGetValue value (interfere i1 s)))
                (Ret false) k2)
      as (s2 & Hrun & H1 & H2 & H3 & H4 & H5 & H6 & H7); [simpl; congruence | exact Hne |].
    exists s2. split; [exact Hrun |]. unfold restarted.
    simpl in H3, H4, H5, H6, H7.
    split; [exact H1 |]. split; [exact H2 |]. split; [congruence |].
    split; [congruence |]. split; [congruence |]. split; [exact H6 |].
    exists flagsv. apply trace_since_app. rewrite H7, interfere_trace, <- !app_assoc.
    reflexivity. }
  split; [| split; [| split]].
  - intros Ho. destruct (Hloop (Z.lor WaiterExclusive WaiterSpinning)
                           (InsertWaitBlock waitBlock LastExclusive ;;
                            act_ ALockRelease ;; Ret true))
      as (s2 & Hrun & Hs2).
    exists s2. split; [| exact Hs2].
    cbn [AcquireExclusive_loop]. step. cbn [after1]. rewrite Hv.
    rewrite no_flag_has_flag, Ho. cbn [negb]. step.
    cbn [_spinCount log upd_trace]. rewrite G2, (geb_true _ _ Hi).
    rewrite run_bind. unfold AcquireExclusive_wait. cbn [tl]. rewrite Hrun.
    reflexivity.
  - intros Hf. destruct (Hloop WaiterSpinning
                           (InsertWaitBlock waitBlock Last ;;
                            blink <- act (ALoadBlink waitBlock) ;;
                            head <- act AGetHead ;;
                            isFirst <- (if blink =? head then Ret true
                                        else
                                          blink <- act (ALoadBlink waitBlock) ;;
                                          flags <- act (ALoadFlags blink) ;;
                                          Ret (has_flag flags WaiterExclusive)) ;;
                            (if isFirst : bool then act_ (ASetFirstShared waitBlock)
                             else Ret tt) ;;
                            act_ ALockRelease ;; Ret true))
      as (s2 & Hrun & Hs2).
    exists s2. split; [| exact Hs2].
    cbn [AcquireShared_loop]. step. cbn [after1]. rewrite Hv, Hf. step.
    cbn [_spinCount log upd_trace]. rewrite G2, (geb_true _ _ Hi).
    rewrite run_bind. unfold AcquireShared_wait. cbn [tl]. rewrite Hrun.
    reflexivity.
  - intros fuel' env s' Ho Hi'.
    destruct (after1_fields env s') as (_ & A2 & _).
    cbn [AcquireExclusive_loop]. step. rewrite no_flag_has_flag, Ho. cbn [negb].
    step. cbn [_spinCount log upd_trace]. rewrite A2, (geb_true _ _ Hi'). reflexivity.
  - intros fuel' env s' Hf Hi'.
    destruct (after1_fields env s') as (_ & A2 & _).
    cbn [AcquireShared_loop]. step. rewrite Hf.
    step. cbn [_spinCount log upd_trace]. rewrite A2, (geb_true _ _ Hi'). reflexivity.
Qed.

(** The restart at a concrete lock: spin count 2, the lock owned, a
    waiter's bit stored between the read and the compare-exchange. *)
Lemma acquire_restart_after_failed_cas_witness :
  let s := upd_value 1 (FairResourceLock_new 2 2 100 0 true) in
  (_value (interfere Quiet s) = 1 /\ _spinCount s <= 2 /\ _lock s = false /\ 3 <> 1)
  /\ exists s2,
      run (AcquireExclusive_loop true 200 6 2) [Quiet; StoreValue 3] s
      = run (AcquireExclusive_loop true 200 5 2) [] s2
      /\ _lock s2 = false /\ _value s2 = 3.
Proof.
  intros s. split; [repeat split; simpl; lia |].
  destruct (acquire_restart_after_failed_cas true 200 5 2 1 3 Quiet [] s)
    as (H & _); [reflexivity | simpl; lia | reflexivity | lia |].
  destruct (H eq_refl) as (s2 & Hrun & Hl & Hv & _).
  exists s2. repeat split; assumption.
Defined.

(** C8 as stated fails.  Spin count 2; the lock stays owned.  The first
    attempt to queue comes after 3 polls (2 spins); its compare-exchange
    fails; the next attempt comes after 1 poll: no spin. *)
Lemma acquire_restart_skips_spin_budget :
  let s := upd_value 1 (FairResourceLock_new 2 2 100 0 true) in
  let o := run (AcquireExclusive true 200 8) [Quiet; Quiet; Quiet; StoreValue 3] s in
  firstn 17 (trace (final o)) =
    [(AGetValue, 1); (AGetSpinCount, 2);
     (AGetValue, 1); (AGetSpinCount, 2);
     (AGetValue, 1); (AGetSpinCount, 2);
     (ALocal 200, 0); (AStoreFlags 200 3, 0); (ALockAcquire, 0);
     (ACasValue 3 1, 3); (ALockRelease, 0);
     (AGetValue, 3); (AGetSpinCount, 2);
     (ALocal 200, 0); (AStoreFlags 200 3, 0); (ALockAcquire, 0);
     (ACasValue 3 3, 3)]
  /\ polls_before_waits (trace (final o)) O = [3; 1]%nat
  /\ ~ spin_budget_intact (_spinCount s) (trace (final o)).
Proof.
  intros s o. split; [reflexivity |]. split; [reflexivity |].
  unfold spin_budget_intact.
  change (polls_before_waits (trace (final o)) O) with [3; 1]%nat.
  intros H. inversion H as [| ? ? _ H2]; subst. inversion H2 as [| ? ? H3 _]; subst.
  simpl in H3. discriminate.
Qed.

(** ** Block and Unblock, one thread at a time (C1) *)

Lemma trace_since_trans s1 s2 s3 :
  trace s2 = trace s1 ++ trace_since s1 s2 ->
  trace s3 = trace s2 ++ trace_since s2 s3 ->
  trace_since s1 s3 = trace_since s1 s2 ++ trace_since s2 s3.
Proof.
  intros H12 H23. apply trace_since_app. rewrite H23, H12 at 1.
  now rewrite <- app_assoc.
Qed.

Lemma run_bind_trace {A B : Type} (m : Prog A) (f : A -> Prog B) env s :
  trace_since s (final (run (bind m f) env s)) =
  trace_since s (final (run m env s)) ++
  match result (run m env s) with
  | Returned a =>
      trace_since (final (run m env s))
        (final (run (f a) (rest (run m env s)) (final (run m env s))))
  | _ => []
  end.
Proof.
  rewrite run_bind. destruct (result (run m env s)) eqn:E; cbn [final];
    try (now rewrite app_nil_r).
  apply trace_since_trans; apply run_trace.
Qed.

Lemma run_bind_result_stuck {A B : Type} (m : Prog A) (f : A -> Prog B) env s :
  (forall a, result (run m env s) <> Returned a) ->
  final (run (bind m f) env s) = final (run m env s)
  /\ forall b, result (run (bind m f) env s) <> Returned b.
Proof.
  intros H. rewrite run_bind. destruct (result (run m env s)) eqn:E.
  - now destruct (H a).
  - split; [reflexivity | discriminate].
  - split; [reflexivity | discriminate].
  - split; [reflexivity | discriminate].
Qed.

Lemma run_Vis_cases {A : Type} e (k : Z -> Prog A) env s :
  (exists x s',
      run (Vis e k) env s = run (k x) (fst (pop e env s)) (log e x s')
      /\ trace_since s (final (run (Vis e k) env s)) =
         (e, x) :: trace_since (log e x s')
                     (final (run (k x) (fst (pop e env s)) (log e x s'))))
  \/ ((forall a, result (run (Vis e k) env s) <> Returned a)
      /\ trace_since s (final (run (Vis e k) env s)) = []).
Proof.
  destruct (exec e (snd (pop e env s))) as [x s' | |] eqn:E.
  - left. exists x, s'. split; [simpl; now rewrite E |].
    now apply run_Vis_trace.
  - right. split; [simpl; rewrite E; discriminate |].
    apply run_Vis_stuck_trace. auto.
  - right. split; [simpl; rewrite E; discriminate |].
    apply run_Vis_stuck_trace. auto.
Qed.

Ltac vis_cases x s' Hrun Htr Hstuck :=
  match goal with
  | |- context [run (Vis ?e ?k) ?env ?s] =>
      destruct (run_Vis_cases e k env s) as [(x & s' & Hrun & Htr) | [Hstuck Htr]]
  end.

Lemma count_cons f ev t :
  count f (ev :: t) = ((if f ev then 1 else 0) + count f t)%nat.
Proof. simpl. destruct (f ev); reflexivity. Qed.

(** The loop that clears the spinning flag: its last event is the
    successful compare-exchange, whose pre-image it returns. *)
Lemma ClearSpinning_trace wb fuel : forall env s,
  let o := run (ClearSpinning wb fuel) env s in
  Forall (fun ev => is_park wb ev = false /\ is_release wb ev = false)
    (trace_since s (final o))
  /\ match result o with
     | Returned flagsv =>
         exists t, trace_since s (final o) = t ++ [cleared wb flagsv]
                   /\ forall f, ~ In (cleared wb f) t
     | _ => forall f, ~ In (cleared wb f) (trace_since s (final o))
     end.
Proof.
  induction fuel as [| fuel IH]; intros env s o; subst o.
  - cbn [ClearSpinning run final result]. rewrite trace_since_refl.
    split; [constructor | intros f []].
  - cbn [ClearSpinning bind act].
    vis_cases fl s1 Hrun Htr Hstuck.
    2:{ rewrite Htr. split; [constructor |].
        destruct (result _) eqn:E; try (intros f []). now destruct (Hstuck a). }
    rewrite Htr, Hrun. clear Htr Hrun. cbn [bind].
    generalize (fst (pop (ALoadFlags wb) env s)) (log (ALoadFlags wb) fl s1).
    intros env1 s1'.
    vis_cases old s2 Hrun Htr Hstuck.
    2:{ rewrite Htr. split; [repeat constructor |].
        destruct (result _) eqn:E;
          try (intros f [H | []]; discriminate). now destruct (Hstuck a). }
    rewrite Htr, Hrun. clear Htr Hrun. cbn [bind].
    generalize (fst (pop (ACasFlags wb (clear_flag fl WaiterSpinning) fl) env1 s1'))
               (log (ACasFlags wb (clear_flag fl WaiterSpinning) fl) old s2).
    intros env2 s2'.
    destruct (old =? fl) eqn:Eold.
    + apply Z.eqb_eq in Eold. subst old. cbn [run final result].
      rewrite trace_since_refl. split; [repeat constructor |].
      exists [(ALoadFlags wb, fl)]. split; [reflexivity |].
      intros f [H | []]. discriminate.
    + destruct (IH env2 s2') as [IH1 IH2]. split; [repeat constructor; exact IH1 |].
      assert (Hfail : forall f,
                 (ACasFlags wb (clear_flag fl WaiterSpinning) fl, old) <> cleared wb f).
      { intros f H. unfold cleared in H. inversion H; subst.
        rewrite Z.eqb_refl in Eold. discriminate. }
      destruct (result (run (ClearSpinning wb fuel) env2 s2')) eqn:E.
      * destruct IH2 as (t & Ht & Hnot).
        exists ((ALoadFlags wb, fl)
                  :: (ACasFlags wb (clear_flag fl WaiterSpinning) fl, old) :: t).
        split; [now rewrite Ht |].
        intros f [H | [H | H]]; [discriminate | now apply (Hfail f) | now apply (Hnot f)].
      * intros f [H | [H | H]]; [discriminate | now apply (Hfail f) | now apply (IH2 f)].
      * intros f [H | [H | H]]; [discriminate | now apply (Hfail f) | now apply (IH2 f)].
      * intros f [H | [H | H]]; [discriminate | now apply (Hfail f) | now apply (IH2 f)].
Qed.

(** The call of the parking primitive in Block. *)
Lemma Block_wait_trace wb env s :
  let p := (h <- act AGetWakeEvent ;;
            status <- NtWaitForKeyedEvent h wb ;;
            if negb (status =? 0) then act_ AThrow else Ret tt) in
  count (is_park wb) (trace_since s (final (run p env s))) = 1%nat
  /\ forall f, ~ In (cleared wb f) (trace_since s (final (run p env s))).
Proof.
  intros p. subst p. cbn [bind act act_ NtWaitForKeyedEvent].
  erewrite run_Vis_trace by reflexivity. cbn [bind].
  erewrite run_Vis_trace by reflexivity. cbn [bind].
  match goal with
  | |- context [trace_since ?st (final (run ?p ?e ?st))] =>
      pose proof (all_acts_run
                    (fun a => is_park wb (a, 0) = false /\ forall x y z, a <> ACasFlags x y z)
                    p e st) as Hall;
      generalize dependent (trace_since st (final (run p e st)))
  end.
  intros t Hall.
  assert (Ht : Forall (fun ev => is_park wb (fst ev, 0) = false
                                 /\ forall x y z, fst ev <> ACasFlags x y z) t).
  { apply Hall. apply all_acts_Vis; [split; [reflexivity | discriminate] |].
    intros x. destruct (negb (x =? 0)); [| constructor].
    apply all_acts_Vis; [split; [reflexivity | discriminate] | constructor]. }
  clear Hall. split.
  - rewrite !count_cons. unfold is_park at 1 2. cbn [fst]. rewrite Z.eqb_refl.
    rewrite count_Forall_0; [reflexivity |].
    eapply Forall_impl; [exact Ht |]. intros ev [H _]. exact H.
  - intros f [H | [H | H]]; try discriminate.
    pose proof (proj1 (List.Forall_forall _ t) Ht _ H) as [_ Hn].
    cbn [cleared fst] in Hn. eapply Hn. reflexivity.
Qed.

Lemma Block_sleep_parks wb fuel env s :
  let o := run (Block_sleep wb fuel) env s in
  let t := trace_since s (final o) in
  (count (is_park wb) t <= 1)%nat
  /\ forall flagsv, In (cleared wb flagsv) t ->
       count (is_park wb) t = (if has_flag flagsv WaiterSpinning then 1 else 0)%nat
       /\ (has_flag flagsv WaiterSpinning = false -> result o = Returned tt).
Proof.
  intros o t. subst t o. unfold Block_sleep.
  rewrite run_bind_trace, run_bind.
  destruct (ClearSpinning_trace wb fuel env s) as [Hno Hres]. cbv zeta in Hno, Hres.
  assert (Hc : count (is_park wb)
                 (trace_since s (final (run (ClearSpinning wb fuel) env s))) = O).
  { apply count_Forall_0. eapply Forall_impl; [exact Hno |]. now intros ev [H _]. }
  rewrite count_app, Hc.
  destruct (result (run (ClearSpinning wb fuel) env s)) as [fl | | |] eqn:E.
  - destruct Hres as (t & Ht & Hnot).
    remember (rest (run (ClearSpinning wb fuel) env s)) as env1 eqn:Henv1.
    remember (final (run (ClearSpinning wb fuel) env s)) as s1 eqn:Hs1.
    clear Henv1 Hs1.
    destruct (has_flag fl WaiterSpinning) eqn:Hsp.
    + destruct (Block_wait_trace wb env1 s1) as [Hp Hn]. cbv zeta in Hp, Hn.
      rewrite Hp. split; [simpl; lia |].
      intros flagsv Hin. apply in_app_or in Hin. destruct Hin as [Hin | Hin].
      * rewrite Ht in Hin. apply in_app_or in Hin. destruct Hin as [Hin | [Hin | []]].
        -- now destruct (Hnot flagsv).
        -- inversion Hin; subst. rewrite Hsp. split; [reflexivity | discriminate].
      * now destruct (Hn flagsv).
    + cbn [run final result]. rewrite trace_since_refl. split; [simpl; lia |].
      intros flagsv Hin. rewrite app_nil_r, Ht in Hin.
      apply in_app_or in Hin. destruct Hin as [Hin | [Hin | []]].
      * now destruct (Hnot flagsv).
      * inversion Hin; subst. rewrite Hsp. split; reflexivity.
  - split; [simpl; lia |]. intros f Hin. rewrite app_nil_r in Hin. now destruct (Hres f).
  - split; [simpl; lia |]. intros f Hin. rewrite app_nil_r in Hin. now destruct (Hres f).
  - split; [simpl; lia |]. intros f Hin. rewrite app_nil_r in Hin. now destruct (Hres f).
Qed.
Lemma prefix_parks {A : Type} (m : Prog A) (f : A -> Prog unit) wb env s :
  all_acts (fun a => is_park wb (a, 0) = false /\ forall x y z, a <> ACasFlags x y z) m ->
  (forall a env' s', parks_as_cleared wb s' (run (f a) env' s')) ->
  parks_as_cleared wb s (run (bind m f) env s).
Proof.
  intros Hm Hf. unfold parks_as_cleared.
  rewrite run_bind_trace, run_bind.
  pose proof (all_acts_run _ m env s Hm) as Hall.
  assert (Hc : count (is_park wb) (trace_since s (final (run m env s))) = O).
  { apply count_Forall_0. eapply Forall_impl; [exact Hall |]. now intros ev [H _]. }
  assert (Hn : forall f0, ~ In (cleared wb f0) (trace_since s (final (run m env s)))).
  { intros f0 H. pose proof (proj1 (List.Forall_forall _ _) Hall _ H) as [_ Hx].
    cbn [cleared fst] in Hx. eapply Hx. reflexivity. }
  rewrite count_app, Hc.
  destruct (result (run m env s)) as [a | | |] eqn:E; cbn [final result].
  - destruct (Hf a (rest (run m env s)) (final (run m env s))) as [H1 H2].
    split; [exact H1 |]. intros flagsv Hin. apply in_app_or in Hin.
    destruct Hin as [Hin | Hin]; [now destruct (Hn flagsv) |]. now apply H2.
  - split; [simpl; lia |]. intros flagsv Hin. rewrite app_nil_r in Hin.
    now destruct (Hn flagsv).
  - split; [simpl; lia |]. intros flagsv Hin. rewrite app_nil_r in Hin.
    now destruct (Hn flagsv).
  - split; [simpl; lia |]. intros flagsv Hin. rewrite app_nil_r in Hin.
    now destruct (Hn flagsv).
Qed.

Lemma acts_Block_spin (P : Act -> Prop) wb fuel j :
  P AGetSpinCount -> P (ALoadFlags wb) -> all_acts P (Block_spin wb fuel j).
Proof.
  intros H1 H2. revert j. induction fuel as [| fuel IH]; intros j; cbn [Block_spin].
  - constructor.
  - acts_tac; auto.
Qed.

Lemma acts_Block_event (P : Act -> Prop) :
  (forall e, match e with
             | AGetWakeEvent | ANtCreateKeyedEvent | AThrow | AOutHandle
             | ACasWakeEvent _ _ | ACloseHandle _ => P e
             | _ => True end) ->
  all_acts P Block_event.
Proof.
  intros HP. unfold Block_event, CreateWakeEvent. acts_tac;
    match goal with |- P ?e => exact (HP e) end.
Qed.

(** C1 (as the code has it).  In Block with sleep = true the parking
    primitive is called at most once, and it is called exactly when the
    pre-image of the atomic clear of the spinning flag had the flag set.
    When the pre-image had the flag clear (the waker has cleared it
    before), Block returns without a call of the parking primitive. *)
Theorem block_parks_iff_flag_was_set wb fuel env s :
  parks_as_cleared wb s (run (Block wb true fuel) env s).
Proof.
  unfold Block.
  apply prefix_parks.
  { unfold act_. acts_tac. split; [reflexivity | discriminate]. }
  intros _ env1 s1. apply prefix_parks.
  { apply acts_Block_spin; (split; [reflexivity | discriminate]). }
  intros _ env2 s2. apply prefix_parks.
  { apply acts_Block_event. intros e. destruct e; try exact I;
      (split; [reflexivity | discriminate]). }
  intros _ env3 s3. apply Block_sleep_parks.
Qed.

(** C1 as stated fails.  The waker's Unblock clears the spinning flag of
    wait block 200 while the waiter is about to clear it; the waker saw
    the flag set and releases nothing.  The pre-image of the waiter's
    clear has Spinning = 0, Block returns without a call of the parking
    primitive, and no release is left to consume: a call of the parking
    primitive at that point would not return. *)
Lemma block_does_not_park_when_flag_was_clear :
  let s := store_block 200 (mkWaitBlock 100 100 (Z.lor WaiterExclusive WaiterSpinning))
             (FairResourceLock_new 0 2 100 0 true) in
  let o := run (Block 200 true 4) [Quiet; Quiet; EnvUnblock 200] s in
  result o = Returned tt
  /\ In (cleared 200 WaiterExclusive) (trace_since s (final o))
  /\ has_flag WaiterExclusive WaiterSpinning = false
  /\ count (is_park 200) (trace_since s (final o)) = O
  /\ releases (final o) = []
  /\ result (run (NtWaitForKeyedEvent (_wakeEvent (final o)) 200) [] (final o)) = Blocked.
Proof.
  intros s o. vm_compute. repeat split; auto 20.
Qed.
(** ** Block and Unblock interleaved (C7) *)

Lemma calm_exec e s x s' :
  calm_act e = true -> exec e s = Done x s' -> memory s' = memory s.
Proof.
  destruct e; simpl; try discriminate; unfold with_block; intros _ H;
    repeat match type of H with
           | context [if ?c then _ else _] => destruct c
           | context [match ?c with _ => _ end] => destruct c
           end; inversion H; subst; reflexivity.
Qed.

Lemma calm_not_call wb e x :
  calm_act e = true -> is_park wb (e, x) = false /\ is_release wb (e, x) = false.
Proof. destruct e; simpl; try discriminate; intros _; split; reflexivity. Qed.

Lemma Waiter_bind_calm {A : Type} wb ph (m : Prog A) (f : A -> Prog unit) :
  all_acts (fun e => calm_act e = true) m ->
  (forall a, Waiter wb ph (f a)) -> Waiter wb ph (bind m f).
Proof.
  intros Hm Hf. induction Hm as [a | | e k He Hk IH]; cbn [bind].
  - apply Hf.
  - constructor.
  - apply Waiter_calm; [exact He | exact IH].
Qed.

Lemma Waker_bind_calm {A : Type} wb ph (m : Prog A) (f : A -> Prog unit) :
  all_acts (fun e => calm_act e = true) m ->
  (forall a, Waker wb ph (f a)) -> Waker wb ph (bind m f).
Proof.
  intros Hm Hf. induction Hm as [a | | e k He Hk IH]; cbn [bind].
  - apply Hf.
  - constructor.
  - apply Waker_calm; [exact He | exact IH].
Qed.

Lemma Waiter_Block_sleep wb fuel : Waiter wb WSpinning (Block_sleep wb fuel).
Proof.
  unfold Block_sleep. induction fuel as [| fuel IH]; cbn [ClearSpinning bind act].
  - constructor.
  - apply Waiter_calm; [reflexivity |]. intros fl. cbn [bind].
    apply Waiter_cas.
    + intros old Hne. apply Z.eqb_neq in Hne. rewrite Hne. exact IH.
    + rewrite Z.eqb_refl. cbn [bind].
      destruct (has_flag fl WaiterSpinning).
      * cbn [bind act act_ NtWaitForKeyedEvent].
        apply Waiter_calm; [reflexivity |]. intros h. cbn [bind].
        apply Waiter_park. intros _. cbn [bind].
        apply Waiter_calm; [reflexivity |]. intros st. cbn [bind].
        destruct (negb (st =? 0)).
        -- apply Waiter_calm; [reflexivity |]. intros _. constructor. auto.
        -- constructor. auto.
      * constructor. auto.
Qed.

Lemma Waiter_Block wb fuel : Waiter wb WSpinning (Block wb true fuel).
Proof.
  unfold Block.
  apply Waiter_bind_calm; [unfold act_; acts_tac |]. intros _.
  apply Waiter_bind_calm; [apply acts_Block_spin; reflexivity |]. intros _.
  apply Waiter_bind_calm;
    [apply acts_Block_event; intros e; destruct e; try exact I; reflexivity |].
  intros _. apply Waiter_Block_sleep.
Qed.

Lemma Waker_Unblock wb fuel : Waker wb USpinning (Unblock wb fuel).
Proof.
  unfold Unblock. cbn [bind act_].
  apply Waker_calm; [reflexivity |]. intros _.
  induction fuel as [| fuel IH]; cbn [ClearSpinning bind act].
  - constructor.
  - apply Waker_calm; [reflexivity |]. intros fl. cbn [bind].
    apply Waker_cas.
    + intros old Hne. apply Z.eqb_neq in Hne. rewrite Hne. exact IH.
    + rewrite Z.eqb_refl. cbn [bind]. rewrite no_flag_has_flag.
      destruct (has_flag fl WaiterSpinning); cbn [negb].
      * constructor. auto.
      * cbn [bind act act_].
        apply Waker_calm; [reflexivity |]. intros h. cbn [bind].
        apply Waker_release. intros _. constructor. auto.
Qed.

Lemma spinning_clear wb w s newv :
  memory s !! wb = Some w ->
  spinning wb (store_block wb (set_Flags (clear_flag newv WaiterSpinning) w) s) = false.
Proof.
  intros _. unfold spinning. simpl. rewrite lookup_insert_eq. simpl.
  unfold has_flag, clear_flag, WaiterSpinning.
  rewrite <- Z.land_assoc. change (Z.land (Z.lnot 2) 2) with 0.
  now rewrite Z.land_0_r.
Qed.

Lemma spinning_log wb e x s : spinning wb (log e x s) = spinning wb s.
Proof. reflexivity. Qed.

(** A compare-exchange on the flags of [wb], in terms of the flag. *)
Lemma exec_cas_flags wb flagsv s x s' :
  exec (ACasFlags wb (clear_flag flagsv WaiterSpinning) flagsv) s = Done x s' ->
  (x = flagsv /\ has_flag flagsv WaiterSpinning = spinning wb s
   /\ spinning wb s' = false)
  \/ (x <> flagsv /\ spinning wb s' = spinning wb s).
Proof.
  simpl. unfold with_block. destruct (memory s !! wb) as [w |] eqn:E; [| discriminate].
  destruct (Flags w =? flagsv) eqn:Ef; intros H; inversion H; subst.
  - apply Z.eqb_eq in Ef. left. split; [exact Ef |]. split.
    + unfold spinning. rewrite E. now rewrite Ef.
    + now apply spinning_clear.
  - apply Z.eqb_neq in Ef. right. split; [exact Ef | reflexivity].
Qed.

Lemma spinning_memory wb s s' : memory s' = memory s -> spinning wb s' = spinning wb s.
Proof. unfold spinning. now intros ->. Qed.

Lemma observed_app wb tid ev1 ev2 :
  observed wb tid (ev1 ++ ev2) = observed wb tid ev1 ++ observed wb tid ev2.
Proof. apply flat_map_app. Qed.

Lemma saw_calm wb tid t e x : calm_act e = true -> saw wb tid (t, (e, x)) = [].
Proof. destruct e; simpl; try discriminate; reflexivity. Qed.

Lemma saw_cleared wb tid t newv flagsv :
  saw wb tid (t, (ACasFlags wb newv flagsv, flagsv))
  = if (t =? tid)%nat then [has_flag flagsv WaiterSpinning] else [].
Proof. cbn [saw]. rewrite !Z.eqb_refl, !andb_true_r. reflexivity. Qed.

Lemma saw_failed wb tid t newv flagsv x :
  x <> flagsv -> saw wb tid (t, (ACasFlags wb newv flagsv, x)) = [].
Proof.
  intros H. apply Z.eqb_neq in H. cbn [saw]. rewrite H, andb_false_r. reflexivity.
Qed.

Lemma events_trace sched : forall c,
  trace (shared (interleave sched c)) = trace (shared c) ++ map snd (events sched c).
Proof.
  unfold interleave. induction sched as [| tid sched IH]; intros c; simpl.
  - now rewrite app_nil_r.
  - rewrite IH, map_app, app_assoc. f_equal.
    unfold step, step_events. destruct (threads c !! tid) as [[| e k |] |];
      try (now rewrite app_nil_r).
    destruct (exec e (shared c)) as [x s' | |] eqn:E; try (now rewrite app_nil_r).
    cbn [shared trace log upd_trace map snd]. now rewrite (exec_trace _ _ _ _ E).
Qed.

(** What is new in the invariant after one logged step. *)
Ltac rendezvous_logged Ht Hp Hr Ho0 Ho1 :=
  rewrite ?map_app, ?count_app, ?observed_app, ?Hp, ?Hr, ?Ho0, ?Ho1;
  cbn [map snd count observed flat_map app].

Lemma rendezvous_step wb s0 tid c ev :
  rendezvous wb s0 c ev -> rendezvous wb s0 (step tid c) (ev ++ step_events tid c).
Proof.
  intros (pw & pu & progw & progu & Hth & Hw & Hu & Hj & Ht & Hp & Hr & Ho0 & Ho1).
  unfold step, step_events. rewrite Hth.
  destruct tid as [| [| tid]]; cbn [lookup list_lookup].
  - (* the waiter takes a step *)
    destruct Hw as [ph Hph | ph | ph e k He Hk | flagsv k Hfail Hok | h k Hk].
    + rewrite app_nil_r. exists ph, pu, (Ret tt), progu. repeat split; auto. now constructor.
    + rewrite app_nil_r. exists ph, pu, Diverge, progu. repeat split; auto. constructor.
    + destruct (exec e (shared c)) as [x s' | |] eqn:E.
      * destruct (calm_not_call wb e x He) as [C1 C2].
        exists ph, pu, (k x), progu. cbn [shared threads insert list_insert].
        repeat split; auto.
        -- rewrite spinning_log, (spinning_memory _ _ _ (calm_exec _ _ _ _ He E)).
           exact Hj.
        -- rewrite map_app. simpl. rewrite (exec_trace _ _ _ _ E), Ht, <- app_assoc.
           reflexivity.
        -- rendezvous_logged Ht Hp Hr Ho0 Ho1. rewrite C1. lia.
        -- rendezvous_logged Ht Hp Hr Ho0 Ho1. rewrite C2. lia.
        -- rendezvous_logged Ht Hp Hr Ho0 Ho1. rewrite saw_calm by exact He.
           now rewrite !app_nil_r.
        -- rendezvous_logged Ht Hp Hr Ho0 Ho1. rewrite saw_calm by exact He.
           now rewrite !app_nil_r.
      * rewrite app_nil_r. exists ph, pu, (Vis e k), progu. repeat split; auto.
        now apply Waiter_calm.
      * rewrite app_nil_r. exists ph, pu, (Vis e k), progu. repeat split; auto.
        now apply Waiter_calm.
    + destruct (exec (ACasFlags wb (clear_flag flagsv WaiterSpinning) flagsv) (shared c))
        as [x s' | |] eqn:E.
      * pose proof (exec_trace _ _ _ _ E) as Etr.
        destruct (exec_cas_flags _ _ _ _ _ E) as [(-> & Hfl & Hcl) | (Hne & Hsame)].
        -- exists (if has_flag flagsv WaiterSpinning then WMustPark else WSkipped), pu,
             (k flagsv), progu.
           cbn [shared threads insert list_insert].
           repeat split; auto.
           ++ rewrite spinning_log, Hcl. rewrite Hfl.
              destruct pu, (spinning wb (shared c)); simpl in *; congruence.
           ++ rewrite map_app. simpl. rewrite Etr, Ht, <- app_assoc. reflexivity.
           ++ rendezvous_logged Ht Hp Hr Ho0 Ho1.
              destruct (has_flag flagsv WaiterSpinning); reflexivity.
           ++ rendezvous_logged Ht Hp Hr Ho0 Ho1. simpl. lia.
           ++ rendezvous_logged Ht Hp Hr Ho0 Ho1. rewrite saw_cleared.
              destruct (has_flag flagsv WaiterSpinning); reflexivity.
           ++ rendezvous_logged Ht Hp Hr Ho0 Ho1. rewrite saw_cleared.
              now rewrite !app_nil_r.
        -- exists WSpinning, pu, (k x), progu.
           cbn [shared threads insert list_insert].
           repeat split; auto.
           ++ rewrite spinning_log, Hsame. exact Hj.
           ++ rewrite map_app. simpl. rewrite Etr, Ht, <- app_assoc. reflexivity.
           ++ rendezvous_logged Ht Hp Hr Ho0 Ho1. simpl. lia.
           ++ rendezvous_logged Ht Hp Hr Ho0 Ho1. simpl. lia.
           ++ rendezvous_logged Ht Hp Hr Ho0 Ho1. rewrite saw_failed by exact Hne.
              reflexivity.
           ++ rendezvous_logged Ht Hp Hr Ho0 Ho1. rewrite saw_failed by exact Hne.
              now rewrite !app_nil_r.
      * rewrite app_nil_r.
        exists WSpinning, pu, (Vis (ACasFlags wb (clear_flag flagsv WaiterSpinning) flagsv) k),
          progu. repeat split; auto. now apply Waiter_cas.
      * rewrite app_nil_r.
        exists WSpinning, pu, (Vis (ACasFlags wb (clear_flag flagsv WaiterSpinning) flagsv) k),
          progu. repeat split; auto. now apply Waiter_cas.
    + cbn [exec].
      exists WParked, pu, (k 0), progu.
      cbn [shared threads insert list_insert].
      repeat split; auto.
      * rewrite map_app. simpl. rewrite Ht, <- app_assoc. reflexivity.
      * rendezvous_logged Ht Hp Hr Ho0 Ho1. unfold is_park. simpl. rewrite Z.eqb_refl.
        reflexivity.
      * rendezvous_logged Ht Hp Hr Ho0 Ho1. simpl. lia.
      * rendezvous_logged Ht Hp Hr Ho0 Ho1. now rewrite !app_nil_r.
      * rendezvous_logged Ht Hp Hr Ho0 Ho1. now rewrite !app_nil_r.
  - (* the waker takes a step *)
    destruct Hu as [ph Hph | ph | ph e k He Hk | flagsv k Hfail Hok | h k Hk].
    + rewrite app_nil_r. exists pw, ph, progw, (Ret tt). repeat split; auto. now constructor.
    + rewrite app_nil_r. exists pw, ph, progw, Diverge. repeat split; auto. constructor.
    + destruct (exec e (shared c)) as [x s' | |] eqn:E.
      * destruct (calm_not_call wb e x He) as [C1 C2].
        exists pw, ph, progw, (k x). cbn [shared threads insert list_insert].
        repeat split; auto.
        -- rewrite spinning_log, (spinning_memory _ _ _ (calm_exec _ _ _ _ He E)).
           exact Hj.
        -- rewrite map_app. simpl. rewrite (exec_trace _ _ _ _ E), Ht, <- app_assoc.
           reflexivity.
        -- rendezvous_logged Ht Hp Hr Ho0 Ho1. rewrite C1. lia.
        -- rendezvous_logged Ht Hp Hr Ho0 Ho1. rewrite C2. lia.
        -- rendezvous_logged Ht Hp Hr Ho0 Ho1. rewrite saw_calm by exact He.
           now rewrite !app_nil_r.
        -- rendezvous_logged Ht Hp Hr Ho0 Ho1. rewrite saw_calm by exact He.
           now rewrite !app_nil_r.
      * rewrite app_nil_r. exists pw, ph, progw, (Vis e k). repeat split; auto.
        now apply Waker_calm.
      * rewrite app_nil_r. exists pw, ph, progw, (Vis e k). repeat split; auto.
        now apply Waker_calm.
    + destruct (exec (ACasFlags wb (clear_flag flagsv WaiterSpinning) flagsv) (shared c))
        as [x s' | |] eqn:E.
      * pose proof (exec_trace _ _ _ _ E) as Etr.
        destruct (exec_cas_flags _ _ _ _ _ E) as [(-> & Hfl & Hcl) | (Hne & Hsame)].
        -- exists pw, (if has_flag flagsv WaiterSpinning then USkipped else UMustRelease),
             progw, (k flagsv).
           cbn [shared threads insert list_insert].
           repeat split; auto.
           ++ rewrite spinning_log, Hcl. rewrite Hfl.
              destruct pw, (spinning wb (shared c)); simpl in *; congruence.
           ++ rewrite map_app. simpl. rewrite Etr, Ht, <- app_assoc. reflexivity.
           ++ rendezvous_logged Ht Hp Hr Ho0 Ho1. simpl. lia.
           ++ rendezvous_logged Ht Hp Hr Ho0 Ho1.
              destruct (has_flag flagsv WaiterSpinning); reflexivity.
           ++ rendezvous_logged Ht Hp Hr Ho0 Ho1. rewrite saw_cleared.
              now rewrite !app_nil_r.
           ++ rendezvous_logged Ht Hp Hr Ho0 Ho1. rewrite saw_cleared.
              destruct (has_flag flagsv WaiterSpinning); reflexivity.
        -- exists pw, USpinning, progw, (k x).
           cbn [shared threads insert list_insert].
           repeat split; auto.
           ++ rewrite spinning_log, Hsame. exact Hj.
           ++ rewrite map_app. simpl. rewrite Etr, Ht, <- app_assoc. reflexivity.
           ++ rendezvous_logged Ht Hp Hr Ho0 Ho1. simpl. lia.
           ++ rendezvous_logged Ht Hp Hr Ho0 Ho1. simpl. lia.
           ++ rendezvous_logged Ht Hp Hr Ho0 Ho1. rewrite saw_failed by exact Hne.
              now rewrite !app_nil_r.
           ++ rendezvous_logged Ht Hp Hr Ho0 Ho1. rewrite saw_failed by exact Hne.
              reflexivity.
      * rewrite app_nil_r. exists pw, USpinning, progw,
          (Vis (ACasFlags wb (clear_flag flagsv WaiterSpinning) flagsv) k).
        repeat split; auto. now apply Waker_cas.
      * rewrite app_nil_r. exists pw, USpinning, progw,
          (Vis (ACasFlags wb (clear_flag flagsv WaiterSpinning) flagsv) k).
        repeat split; auto. now apply Waker_cas.
    + cbn [exec].
      exists pw, UReleased, progw, (k 0).
      cbn [shared threads insert list_insert].
      repeat split; auto.
      * rewrite map_app. simpl. rewrite Ht, <- app_assoc. reflexivity.
      * rendezvous_logged Ht Hp Hr Ho0 Ho1. simpl. lia.
      * rendezvous_logged Ht Hp Hr Ho0 Ho1. unfold is_release. simpl. rewrite Z.eqb_refl.
        reflexivity.
      * rendezvous_logged Ht Hp Hr Ho0 Ho1. now rewrite !app_nil_r.
      * rendezvous_logged Ht Hp Hr Ho0 Ho1. now rewrite !app_nil_r.
  - (* no such thread *)
    rewrite app_nil_r. exists pw, pu, progw, progu. repeat split; auto.
Qed.

Lemma rendezvous_interleave wb s0 sched : forall c ev,
  rendezvous wb s0 c ev -> rendezvous wb s0 (interleave sched c) (ev ++ events sched c).
Proof.
  unfold interleave. induction sched as [| tid sched IH]; intros c ev Hc; simpl.
  - now rewrite app_nil_r.
  - rewrite app_assoc. apply IH. now apply rendezvous_step.
Qed.

(** C7 (as the code has it).  A waiter runs Block (sleep = true) and a
    waker runs Unblock on the same wait block, whose spinning flag is
    set at the start.  The steps of a schedule are logged with the thread
    that takes them, so that [observed wb 0] is what the waiter found at
    its successful clear of the flag and [observed wb 1] what the waker
    found at its own.  Under every schedule each thread clears at most
    once, the wait of the parking primitive is called at most once and
    its release at most once; a wait has been called only if the
    waiter's clear found the flag set, a release only if the waker's
    clear found it clear; a thread that has returned has cleared, and
    has made its call exactly when its clear found that value.  Once
    both threads have returned the two calls have been made together:
    both (the waiter's clear found the flag set, the waker's found it
    clear) or none (the waker's clear found the flag set, the waiter's
    found it clear). *)
Theorem rendezvous_calls_match wb fuelw fuelu sched s :
  spinning wb s = true ->
  let start := mkConfig s [Block wb true fuelw; Unblock wb fuelu] in
  let c := interleave sched start in
  let ev := events sched start in
  let t := trace_since s (shared c) in
  let park := count (is_park wb) t in
  let release := count (is_release wb) t in
  let waiter_saw := observed wb 0 ev in
  let waker_saw := observed wb 1 ev in
  t = map snd ev
  /\ (park <= 1)%nat /\ (release <= 1)%nat
  /\ (length waiter_saw <= 1)%nat /\ (length waker_saw <= 1)%nat
  /\ (park = 1%nat -> waiter_saw = [true])
  /\ (release = 1%nat -> waker_saw = [false] /\ waiter_saw = [true])
  /\ (release <= park \/ exists p, threads c !! O = Some p /\ finished p = false)%nat
  /\ (forall p, threads c !! O = Some p -> finished p = true ->
      (waiter_saw = [true] /\ park = 1%nat) \/ (waiter_saw = [false] /\ park = O))
  /\ (forall p, threads c !! 1%nat = Some p -> finished p = true ->
      (waker_saw = [false] /\ release = 1%nat) \/ (waker_saw = [true] /\ release = O))
  /\ (Forall (fun p => finished p = true) (threads c) ->
      spinning wb (shared c) = false
      /\ ((waiter_saw = [true] /\ waker_saw = [false]
           /\ park = 1%nat /\ release = 1%nat)
          \/ (waiter_saw = [false] /\ waker_saw = [true]
              /\ park = O /\ release = O))).
Proof.
  intros Hs start c ev t park release ws us.
  assert (Hinv : rendezvous wb s c ([] ++ ev)).
  { apply rendezvous_interleave.
    exists WSpinning, USpinning, (Block wb true fuelw), (Unblock wb fuelu).
    cbn [threads shared start map]. repeat split.
    - apply Waiter_Block.
    - apply Waker_Unblock.
    - exact Hs.
    - now rewrite app_nil_r. }
  cbn [app] in Hinv.
  destruct Hinv as (pw & pu & progw & progu & Hth & Hw & Hu & Hj & Ht & Hp & Hr & Ho0 & Ho1).
  assert (Et : t = map snd ev) by (now apply trace_since_app).
  subst park release ws us. rewrite Et, Hp, Hr, Ho0, Ho1, Hth.
  split; [reflexivity |].
  split; [destruct pw; simpl; lia |].
  split; [destruct pu; simpl; lia |].
  split; [destruct pw; simpl; lia |].
  split; [destruct pu; simpl; lia |].
  split; [destruct pw; simpl; intros; reflexivity || discriminate |].
  split.
  { destruct pu; simpl; intros; try discriminate.
    destruct pw; simpl in Hj; try contradiction; auto. }
  split.
  { destruct pw; try (left; destruct pu; simpl in *; (lia || contradiction)).
    right. exists progw. split; [reflexivity |].
    inversion Hw; subst; try reflexivity.
    match goal with H : _ \/ _ |- _ => destruct H; discriminate end. }
  split.
  { intros p Hp' Fp. cbn in Hp'. injection Hp' as <-.
    destruct progw as [[] | |]; try discriminate.
    inversion Hw as [ph [Hph | Hph] | | | |]; subst; simpl; auto. }
  split.
  { intros p Hp' Fp. cbn in Hp'. injection Hp' as <-.
    destruct progu as [[] | |]; try discriminate.
    inversion Hu as [ph [Hph | Hph] | | | |]; subst; simpl; auto. }
  intros Hfin.
  inversion Hfin as [| ? ? Fw Hfin']; subst.
  inversion Hfin' as [| ? ? Fu _]; subst.
  destruct progw as [[] | |]; try discriminate.
  destruct progu as [[] | |]; try discriminate.
  inversion Hw as [ph [Hph | Hph] | | | |]; subst;
    inversion Hu as [ph' [Hph' | Hph'] | | | |]; subst;
    simpl in Hj; try contradiction; split; simpl; auto 10.
Qed.

(** A wait block with its flag set and the two threads.  The waiter runs
    first, up to its wait; the waker then clears and releases; both
    return. *)
Lemma rendezvous_calls_match_witness :
  let wb := 200 in
  let sched := [0; 0; 0; 0; 0; 0; 0; 0; 0; 0; 1; 1; 1; 1; 1; 0; 0]%nat in
  let s := store_block 200 (mkWaitBlock 100 100 (Z.lor WaiterExclusive WaiterSpinning))
             (FairResourceLock_new 0 2 100 0 true) in
  spinning wb s = true
  /\ let start := mkConfig s [Block wb true 3; Unblock wb 3] in
     let c := interleave sched start in
     let ev := events sched start in
     let t := trace_since s (shared c) in
     let park := count (is_park wb) t in
     let release := count (is_release wb) t in
     let waiter_saw := observed wb 0 ev in
     let waker_saw := observed wb 1 ev in
     t = map snd ev
     /\ (park <= 1)%nat /\ (release <= 1)%nat
     /\ (length waiter_saw <= 1)%nat /\ (length waker_saw <= 1)%nat
     /\ (park = 1%nat -> waiter_saw = [true])
     /\ (release = 1%nat -> waker_saw = [false] /\ waiter_saw = [true])
     /\ (release <= park \/ exists p, threads c !! O = Some p /\ finished p = false)%nat
     /\ (forall p, threads c !! O = Some p -> finished p = true ->
         (waiter_saw = [true] /\ park = 1%nat) \/ (waiter_saw = [false] /\ park = O))
     /\ (forall p, threads c !! 1%nat = Some p -> finished p = true ->
         (waker_saw = [false] /\ release = 1%nat) \/ (waker_saw = [true] /\ release = O))
     /\ (Forall (fun p => finished p = true) (threads c) ->
         spinning wb (shared c) = false
         /\ ((waiter_saw = [true] /\ waker_saw = [false]
              /\ park = 1%nat /\ release = 1%nat)
             \/ (waiter_saw = [false] /\ waker_saw = [true]
                 /\ park = O /\ release = O))).
Proof.
  intros wb sched s. split; [reflexivity |].
  exact (rendezvous_calls_match wb 3 3 sched s eq_refl).
Defined.

(** C7 as stated fails.  With the waiter first, both threads make their
    call (the waiter found the flag set, the waker found it clear); with
    the waker first, neither does.  In no case exactly one. *)
Lemma rendezvous_both_or_neither :
  let s := store_block 200 (mkWaitBlock 100 100 (Z.lor WaiterExclusive WaiterSpinning))
             (FairResourceLock_new 0 2 100 0 true) in
  let start := mkConfig s [Block 200 true 3; Unblock 200 3] in
  let waiter_first :=
    interleave [0; 0; 0; 0; 0; 0; 0; 0; 0; 0; 1; 1; 1; 1; 1; 0; 0]%nat start in
  let waker_first :=
    interleave [1; 1; 1; 0; 0; 0; 0; 0; 0; 0; 0; 0; 0]%nat start in
  (threads waiter_first = [Ret tt; Ret tt]
   /\ count (is_park 200) (trace_since s (shared waiter_first)) = 1%nat
   /\ count (is_release 200) (trace_since s (shared waiter_first)) = 1%nat
   /\ ~ exactly_one_call 200 (trace_since s (shared waiter_first)))
  /\ (threads waker_first = [Ret tt; Ret tt]
      /\ count (is_park 200) (trace_since s (shared waker_first)) = O
      /\ count (is_release 200) (trace_since s (shared waker_first)) = O
      /\ ~ exactly_one_call 200 (trace_since s (shared waker_first))).
Proof.
  intros s start waiter_first waker_first. unfold exactly_one_call.
  split; (split; [reflexivity |]; split; [reflexivity |]; split; [reflexivity |]).
  - change (count (is_park 200) (trace_since s (shared waiter_first))) with 1%nat.
    change (count (is_release 200) (trace_since s (shared waiter_first))) with 1%nat.
    lia.
  - change (count (is_park 200) (trace_since s (shared waker_first))) with O.
    change (count (is_release 200) (trace_since s (shared waker_first))) with O.
    lia.
Qed.

(** ** Wait blocks in memory *)

Lemma flink_Some m p v : flink m p = Some v -> exists w, m !! p = Some w /\ Flink w = v.
Proof.
  unfold flink. destruct (m !! p) as [w |]; simpl; [| discriminate].
  intros [= <-]. eauto.
Qed.

Lemma blink_Some m p v : blink m p = Some v -> exists w, m !! p = Some w /\ Blink w = v.
Proof.
  unfold blink. destruct (m !! p) as [w |]; simpl; [| discriminate].
  intros [= <-]. eauto.
Qed.

Lemma run_LoadFlink {A : Type} p v (k : Z -> Prog A) env s :
  flink (memory s) p = Some v ->
  run (Vis (ALoadFlink p) k) env s = run (k v) env (log (ALoadFlink p) v s).
Proof.
  intros H. destruct (flink_Some _ _ _ H) as (w & Hw & <-).
  rewrite run_Vis_plain by reflexivity. cbn [exec]. unfold with_block. now rewrite Hw.
Qed.

Lemma run_LoadBlink {A : Type} p v (k : Z -> Prog A) env s :
  blink (memory s) p = Some v ->
  run (Vis (ALoadBlink p) k) env s = run (k v) env (log (ALoadBlink p) v s).
Proof.
  intros H. destruct (blink_Some _ _ _ H) as (w & Hw & <-).
  rewrite run_Vis_plain by reflexivity. cbn [exec]. unfold with_block. now rewrite Hw.
Qed.

(** One store to a link of a wait block. *)
Lemma run_StoreFlink {A : Type} p v (k : Z -> Prog A) env s :
  is_Some (memory s !! p) ->
  exists s',
    run (Vis (AStoreFlink p v) k) env s = run (k 0) env s'
    /\ ctx s' = ctx s
    /\ trace s' = trace s ++ [(AStoreFlink p v, 0)]
    /\ (forall q, flink (memory s') q = upd (flink (memory s)) p v q)
    /\ (forall q, blink (memory s') q = blink (memory s) q)
    /\ (forall q, flags (memory s') q = flags (memory s) q).
Proof.
  intros [w Hw]. eexists. split.
  { rewrite run_Vis_plain by reflexivity. cbn [exec]. unfold with_block. rewrite Hw.
    reflexivity. }
  split; [reflexivity |]. split; [reflexivity |].
  unfold flink, blink, flags, upd. cbn [memory log store_block upd_memory upd_trace].
  repeat split; intros q; destruct (decide (q = p)) as [-> | Hne];
    rewrite ?lookup_insert_eq, ?lookup_insert_ne by congruence;
    try reflexivity; now rewrite Hw.
Qed.

Lemma run_StoreBlink {A : Type} p v (k : Z -> Prog A) env s :
  is_Some (memory s !! p) ->
  exists s',
    run (Vis (AStoreBlink p v) k) env s = run (k 0) env s'
    /\ ctx s' = ctx s
    /\ trace s' = trace s ++ [(AStoreBlink p v, 0)]
    /\ (forall q, flink (memory s') q = flink (memory s) q)
    /\ (forall q, blink (memory s') q = upd (blink (memory s)) p v q)
    /\ (forall q, flags (memory s') q = flags (memory s) q).
Proof.
  intros [w Hw]. eexists. split.
  { rewrite run_Vis_plain by reflexivity. cbn [exec]. unfold with_block. rewrite Hw.
    reflexivity. }
  split; [reflexivity |]. split; [reflexivity |].
  unfold flink, blink, flags, upd. cbn [memory log store_block upd_memory upd_trace].
  repeat split; intros q; destruct (decide (q = p)) as [-> | Hne];
    rewrite ?lookup_insert_eq, ?lookup_insert_ne by congruence;
    try reflexivity; now rewrite Hw.
Qed.

Lemma flink_is_Some m p : is_Some (flink m p) <-> is_Some (m !! p).
Proof. unfold flink. destruct (m !! p); simpl; split; intros [? ?]; eauto; discriminate. Qed.

Lemma blink_is_Some m p : is_Some (blink m p) <-> is_Some (m !! p).
Proof. unfold blink. destruct (m !! p); simpl; split; intros [? ?]; eauto; discriminate. Qed.

Lemma upd_is_Some f p v q : is_Some (f q) -> is_Some (upd f p v q).
Proof. unfold upd. destruct (decide (q = p)); eauto. Qed.

Ltac store_flink H :=
  lazymatch goal with
  | |- context [run (Vis (AStoreFlink ?p ?v) ?k) ?env ?st] =>
      let R := fresh "R" in
      destruct (run_StoreFlink p v k env st H) as (?s & R & ?C & _ & ?F & ?B & ?G);
      rewrite R; clear R; cbn [bind]; unfold act_, act
  end.

Ltac store_blink H :=
  lazymatch goal with
  | |- context [run (Vis (AStoreBlink ?p ?v) ?k) ?env ?st] =>
      let R := fresh "R" in
      destruct (run_StoreBlink p v k env st H) as (?s & R & ?C & _ & ?F & ?B & ?G);
      rewrite R; clear R; cbn [bind]; unfold act_, act
  end.

(** InsertTailList: [entry] goes between [listHead->Blink] and
    [listHead]. *)
Lemma InsertTailList_run listHead entry b env s :
  blink (memory s) listHead = Some b ->
  is_Some (memory s !! entry) -> is_Some (memory s !! b) ->
  exists s',
    run (InsertTailList listHead entry) env s = mkOutcome (Returned tt) env s'
    /\ ctx s' = ctx s
    /\ (forall q, flink (memory s') q
                  = upd (upd (flink (memory s)) entry listHead) b entry q)
    /\ (forall q, blink (memory s') q
                  = upd (upd (blink (memory s)) entry b) listHead entry q)
    /\ (forall q, flags (memory s') q = flags (memory s) q).
Proof.
  intros Hb He Hbb. unfold InsertTailList. cbn [bind act act_].
  assert (Hh : is_Some (memory s !! listHead)) by (apply blink_is_Some; eauto).
  rewrite (run_LoadBlink _ _ _ _ _ Hb). cbn [bind].
  store_flink He.
  assert (He1 : is_Some (memory s0 !! entry)).
  { apply flink_is_Some. rewrite F. apply upd_is_Some. now apply flink_is_Some. }
  store_blink He1.
  assert (Hb2 : is_Some (memory s1 !! b)).
  { apply flink_is_Some. rewrite F0, F. apply upd_is_Some. now apply flink_is_Some. }
  store_flink Hb2.
  assert (Hh3 : is_Some (memory s2 !! listHead)).
  { apply flink_is_Some. rewrite F1. apply upd_is_Some. rewrite F0, F.
    apply upd_is_Some. now apply flink_is_Some. }
  store_blink Hh3.
  exists s3. split; [reflexivity |].
  split; [now rewrite C2, C1, C0, C |]. split; [| split].
  - intros q. rewrite F2, F1. unfold upd. rewrite F0, F. reflexivity.
  - intros q. rewrite B2. unfold upd. rewrite B1, B0. unfold upd. rewrite B.
    reflexivity.
  - intros q. now rewrite G2, G1, G0, G.
Qed.

Lemma InsertHeadList_run listHead entry fl env s :
  flink (memory s) listHead = Some fl ->
  is_Some (memory s !! entry) -> is_Some (memory s !! fl) ->
  exists s',
    run (InsertHeadList listHead entry) env s = mkOutcome (Returned tt) env s'
    /\ ctx s' = ctx s
    /\ (forall q, flink (memory s') q
                  = upd (upd (flink (memory s)) entry fl) listHead entry q)
    /\ (forall q, blink (memory s') q
                  = upd (upd (blink (memory s)) entry listHead) fl entry q)
    /\ (forall q, flags (memory s') q = flags (memory s) q).
Proof.
  intros Hf He Hfl. unfold InsertHeadList. cbn [bind act act_].
  assert (Hh : is_Some (memory s !! listHead)) by (apply flink_is_Some; eauto).
  rewrite (run_LoadFlink _ _ _ _ _ Hf). cbn [bind].
  store_flink He.
  assert (He1 : is_Some (memory s0 !! entry)).
  { apply flink_is_Some. rewrite F. apply upd_is_Some. now apply flink_is_Some. }
  store_blink He1.
  assert (Hf2 : is_Some (memory s1 !! fl)).
  { apply flink_is_Some. rewrite F0, F. apply upd_is_Some. now apply flink_is_Some. }
  store_blink Hf2.
  assert (Hh3 : is_Some (memory s2 !! listHead)).
  { apply flink_is_Some. rewrite F1, F0, F. apply upd_is_Some. now apply flink_is_Some. }
  store_flink Hh3.
  exists s3. split; [reflexivity |].
  split; [now rewrite C2, C1, C0, C |]. split; [| split].
  - intros q. rewrite F2. unfold upd. rewrite F1, F0, F. reflexivity.
  - intros q. rewrite B2, B1. unfold upd. rewrite B0. unfold upd. rewrite B.
    reflexivity.
  - intros q. now rewrite G2, G1, G0, G.
Qed.

Lemma RemoveHeadList_run listHead entry fl env s :
  flink (memory s) listHead = Some entry ->
  flink (memory s) entry = Some fl ->
  is_Some (memory s !! fl) ->
  exists s',
    run (RemoveHeadList listHead) env s = mkOutcome (Returned entry) env s'
    /\ ctx s' = ctx s
    /\ (forall q, flink (memory s') q = upd (flink (memory s)) listHead fl q)
    /\ (forall q, blink (memory s') q = upd (blink (memory s)) fl listHead q)
    /\ (forall q, flags (memory s') q = flags (memory s) q).
Proof.
  intros Hf He Hfl. unfold RemoveHeadList. cbn [bind act act_].
  assert (Hh : is_Some (memory s !! listHead)) by (apply flink_is_Some; eauto).
  rewrite (run_LoadFlink _ _ _ _ _ Hf). cbn [bind].
  erewrite run_LoadFlink by exact He. cbn [bind].
  store_flink Hh.
  assert (Hf2 : is_Some (memory s0 !! fl)).
  { apply flink_is_Some. rewrite F. apply upd_is_Some. now apply flink_is_Some. }
  store_blink Hf2.
  exists s1. split; [reflexivity |].
  split; [now rewrite C0, C |]. split; [| split].
  - intros q. rewrite F0, F. reflexivity.
  - intros q. rewrite B0. unfold upd. rewrite B. reflexivity.
  - intros q. now rewrite G0, G.
Qed.

Lemma RemoveEntryList_run entry fl bl env s :
  flink (memory s) entry = Some fl ->
  blink (memory s) entry = Some bl ->
  is_Some (memory s !! fl) -> is_Some (memory s !! bl) ->
  exists s',
    run (RemoveEntryList entry) env s = mkOutcome (Returned (fl =? bl)) env s'
    /\ ctx s' = ctx s
    /\ (forall q, flink (memory s') q = upd (flink (memory s)) bl fl q)
    /\ (forall q, blink (memory s') q = upd (blink (memory s)) fl bl q)
    /\ (forall q, flags (memory s') q = flags (memory s) q).
Proof.
  intros Hf Hb Hfl Hbl. unfold RemoveEntryList. cbn [bind act act_].
  rewrite (run_LoadFlink _ _ _ _ _ Hf). cbn [bind].
  erewrite run_LoadBlink by exact Hb. cbn [bind].
  store_flink Hbl.
  assert (Hf2 : is_Some (memory s0 !! fl)).
  { apply flink_is_Some. rewrite F. apply upd_is_Some. now apply flink_is_Some. }
  store_blink Hf2.
  exists s1. split; [reflexivity |].
  split; [now rewrite C0, C |]. split; [| split].
  - intros q. rewrite F0, F. reflexivity.
  - intros q. rewrite B0. unfold upd. rewrite B. reflexivity.
  - intros q. now rewrite G0, G.
Qed.

Set Warnings "-clear-no-such-hyp".

(** ** Chains of linked wait blocks *)

Lemma chain_app m a l1 x l2 z :
  chain m a (l1 ++ x :: l2) z <-> chain m a l1 x /\ chain m x l2 z.
Proof.
  revert a. induction l1 as [| c l1 IH]; intros a; simpl.
  - tauto.
  - rewrite IH. tauto.
Qed.

Lemma chain_frame m m' a l z :
  chain m a l z ->
  (forall p, p ∈ a :: l -> flink m' p = flink m p) ->
  (forall p, p ∈ l ++ [z] -> blink m' p = blink m p) ->
  chain m' a l z.
Proof.
  revert a. induction l as [| c l IH]; intros a H HF HB; simpl in *.
  - destruct H as [H1 H2]. split.
    + rewrite HF; [exact H1 | apply list_elem_of_here].
    + rewrite HB; [exact H2 | apply list_elem_of_here].
  - destruct H as [[H1 H2] H3]. split; [split |].
    + rewrite HF; [exact H1 | apply list_elem_of_here].
    + rewrite HB; [exact H2 | apply list_elem_of_here].
    + apply IH; [exact H3 | |].
      * intros p Hp. apply HF. now apply list_elem_of_further.
      * intros p Hp. apply HB. now apply list_elem_of_further.
Qed.

Lemma chain_flink_first m a l z : chain m a l z -> flink m a = Some (List.hd z l).
Proof. destruct l; simpl; intros H; apply H. Qed.

Lemma chain_blink_last m a l z : chain m a l z -> blink m z = Some (last_from a l).
Proof.
  revert a. induction l as [| c l IH]; intros a H.
  - apply H.
  - destruct H as [_ H]. exact (IH c H).
Qed.

Lemma chain_present m a l z p :
  chain m a l z -> p ∈ a :: l ++ [z] -> is_Some (m !! p).
Proof.
  revert a. induction l as [| c l IH]; intros a H Hp; simpl in *.
  - destruct H as [H1 H2].
    assert (p = a \/ p = z) as [-> | ->] by set_solver.
    + apply flink_is_Some. eauto.
    + apply blink_is_Some. eauto.
  - destruct H as [[H1 H2] H3].
    apply elem_of_cons in Hp as [-> | Hp].
    + apply flink_is_Some. eauto.
    + now apply (IH c).
Qed.

Lemma last_in (l : list Z) (a : Z) : last_from a l ∈ a :: l.
Proof.
  revert a. induction l as [| c l IH]; intros a; simpl.
  - apply list_elem_of_here.
  - apply list_elem_of_further. apply IH.
Qed.

(** The last link of a chain is bent to a new target. *)
Lemma chain_retarget m m' a l x y :
  chain m a l x -> NoDup (a :: l) -> y ∉ l ->
  flink m' (last_from a l) = Some y ->
  blink m' y = Some (last_from a l) ->
  (forall p, p ∈ a :: l -> p <> last_from a l -> flink m' p = flink m p) ->
  (forall p, p ∈ l -> blink m' p = blink m p) ->
  chain m' a l y.
Proof.
  revert a. induction l as [| c l IH]; intros a H Hnd Hy HF1 HB1 HF HB.
  - simpl in *. split; assumption.
  - cbn [last_from] in *. destruct H as [[H1 H2] H3].
    apply NoDup_cons in Hnd as [Ha Hnd].
    pose proof (last_in l c) as Hin.
    simpl. split; [split |].
    + rewrite HF; [exact H1 | set_solver |]. intros ->. contradiction.
    + rewrite HB; [exact H2 | set_solver].
    + apply (IH c); auto.
      * set_solver.
      * intros p Hp Hne. apply HF; [set_solver | exact Hne].
      * intros p Hp. apply HB. set_solver.
Qed.

Lemma upd_eq f p v : upd f p v p = Some v.
Proof. unfold upd. now rewrite decide_True. Qed.

Lemma upd_ne f p v q : q <> p -> upd f p v q = f q.
Proof. intros H. unfold upd. now rewrite decide_False. Qed.

(** A block is linked in before the block at the head of [l2] (before
    [head] when [l2] is empty). *)
Lemma is_list_insert m m' head l1 l2 e :
  is_list m head (l1 ++ l2) -> e ∉ head :: l1 ++ l2 ->
  (forall q, flink m' q
             = upd (upd (flink m) e (List.hd head l2)) (last_from head l1) e q) ->
  (forall q, blink m' q
             = upd (upd (blink m) e (last_from head l1)) (List.hd head l2) e q) ->
  is_list m' head (l1 ++ e :: l2).
Proof.
  intros [Hnd Hch] He HF HB.
  assert (Hnd' : NoDup (head :: l1 ++ e :: l2)).
  { apply NoDup_cons in Hnd as [Hh Hnd]. apply NoDup_app in Hnd as (N1 & N2 & N3).
    apply NoDup_cons. split; [set_solver |].
    apply NoDup_app. split; [exact N1 |]. split.
    - intros p Hp. specialize (N2 p Hp). set_solver.
    - apply NoDup_cons. split; [set_solver | exact N3]. }
  split; [exact Hnd' |].
  pose proof (last_in l1 head) as Hlast.
  assert (Heb : e <> last_from head l1) by set_solver.
  apply NoDup_cons in Hnd as [Hh Hnd]. apply NoDup_app in Hnd as (N1 & N2 & N3).
  apply chain_app.
  destruct l2 as [| x l2]; simpl in *.
  - rewrite app_nil_r in *. split.
    + apply (chain_retarget m m' head l1 head e Hch).
      * apply NoDup_cons. split; assumption.
      * set_solver.
      * now rewrite HF, upd_eq.
      * rewrite HB, upd_ne, upd_eq by set_solver. reflexivity.
      * intros p Hp Hne. rewrite HF, !upd_ne by set_solver. reflexivity.
      * intros p Hp. rewrite HB, !upd_ne by set_solver. reflexivity.
    + split.
      * rewrite HF, upd_ne, upd_eq by congruence. reflexivity.
      * now rewrite HB, upd_eq.
  - apply chain_app in Hch as [Hc1 Hc2]. split.
    + apply (chain_retarget m m' head l1 x e Hc1).
      * apply NoDup_cons. split; [set_solver | assumption].
      * set_solver.
      * now rewrite HF, upd_eq.
      * rewrite HB, upd_ne, upd_eq by set_solver. reflexivity.
      * intros p Hp Hne. rewrite HF, !upd_ne by set_solver. reflexivity.
      * intros p Hp. rewrite HB, !upd_ne; [reflexivity | set_solver |].
        intros ->. apply (N2 x); set_solver.
    + split; [split |].
      * rewrite HF, upd_ne, upd_eq by congruence. reflexivity.
      * now rewrite HB, upd_eq.
      * apply (chain_frame m); [exact Hc2 | |].
        -- intros p Hp. rewrite HF, !upd_ne; [reflexivity | set_solver |].
           intros ->. apply elem_of_cons in Hlast as [Hl | Hl].
           ++ rewrite Hl in Hp. set_solver.
           ++ apply (N2 _ Hl). set_solver.
        -- intros p Hp. rewrite HB, !upd_ne; [reflexivity | set_solver |].
           intros ->. apply NoDup_cons in N3 as [N3 _]. set_solver.
Qed.

(** The block [x] is unlinked. *)
Lemma is_list_remove m m' head l1 x l2 :
  is_list m head (l1 ++ x :: l2) ->
  (forall q, flink m' q = upd (flink m) (last_from head l1) (List.hd head l2) q) ->
  (forall q, blink m' q = upd (blink m) (List.hd head l2) (last_from head l1) q) ->
  is_list m' head (l1 ++ l2).
Proof.
  intros [Hnd Hch] HF HB.
  pose proof (last_in l1 head) as Hlast.
  apply NoDup_cons in Hnd as [Hh Hnd]. apply NoDup_app in Hnd as (N1 & N2 & N3).
  apply NoDup_cons in N3 as [Nx N3].
  split.
  { apply NoDup_cons. split; [set_solver |]. apply NoDup_app.
    split; [exact N1 |]. split; [| exact N3].
    intros p Hp. specialize (N2 p Hp). set_solver. }
  apply chain_app in Hch as [Hc1 Hc2].
  destruct l2 as [| y l2]; simpl in *.
  - rewrite app_nil_r.
    apply (chain_retarget m m' head l1 x head Hc1).
    + apply NoDup_cons. split; [set_solver | assumption].
    + set_solver.
    + now rewrite HF, upd_eq.
    + now rewrite HB, upd_eq.
    + intros p Hp Hne. rewrite HF, upd_ne by assumption. reflexivity.
    + intros p Hp. rewrite HB, upd_ne; [reflexivity | set_solver].
  - destruct Hc2 as [_ Hc2]. apply chain_app. split.
    + apply (chain_retarget m m' head l1 x y Hc1).
      * apply NoDup_cons. split; [set_solver | assumption].
      * intros Hy. apply (N2 y Hy). set_solver.
      * now rewrite HF, upd_eq.
      * now rewrite HB, upd_eq.
      * intros p Hp Hne. rewrite HF, upd_ne by assumption. reflexivity.
      * intros p Hp. rewrite HB, upd_ne; [reflexivity |].
        intros ->. apply (N2 y Hp). set_solver.
    + apply (chain_frame m); [exact Hc2 | |].
      * intros p Hp. rewrite HF, upd_ne; [reflexivity |].
        intros ->. apply elem_of_cons in Hlast as [Hl | Hl].
        -- rewrite Hl in Hp. set_solver.
        -- apply (N2 _ Hl). set_solver.
      * intros p Hp. rewrite HB, upd_ne; [reflexivity |].
        intros ->. apply NoDup_cons in N3 as [N3 _]. set_solver.
Qed.
(** ** Views of the memory that interference keeps *)

Lemma same_view_refl s : same_view s s.
Proof. repeat split. Qed.

Lemma same_view_trans s1 s2 s3 : same_view s1 s2 -> same_view s2 s3 -> same_view s1 s3.
Proof.
  intros (A1 & A2 & A3 & A4 & A5 & A6 & A7) (B1 & B2 & B3 & B4 & B5 & B6 & B7).
  repeat split; try congruence; intros q;
    rewrite ?B5, ?A5, ?B6, ?A6, ?B7, ?A7; reflexivity.
Qed.

Lemma same_view_log e x s : same_view s (log e x s).
Proof. repeat split. Qed.

Lemma has_flag_clear_other f :
  has_flag (clear_flag f WaiterSpinning) WaiterExclusive = has_flag f WaiterExclusive.
Proof.
  unfold has_flag, clear_flag, WaiterSpinning, WaiterExclusive.
  rewrite <- Z.land_assoc. change (Z.land (Z.lnot 2) 1) with 1. reflexivity.
Qed.

(** Writing the flags of a block with its exclusive bit kept. *)
Lemma same_view_set_flags p w newf s :
  memory s !! p = Some w ->
  has_flag newf WaiterExclusive = has_flag (Flags w) WaiterExclusive ->
  same_view s (store_block p (set_Flags newf w) s).
Proof.
  intros Hw Hf. unfold same_view, flink, blink, exclusive.
  cbn [memory store_block upd_memory _lock _waitersListHead _firstSharedWaiter _spinCount].
  repeat split; intros q; destruct (decide (q = p)) as [-> | Hne];
    rewrite ?lookup_insert_eq, ?lookup_insert_ne by congruence;
    try reflexivity; rewrite Hw; simpl; auto.
Qed.

Lemma interfere_same_view i s :
  (forall v, i <> StoreValue v) -> same_view s (interfere i s) /\ _value (interfere i s) = _value s.
Proof.
  intros Hi. destruct i as [| v | p]; cbn [interfere].
  - split; [apply same_view_refl | reflexivity].
  - now destruct (Hi v).
  - destruct (memory s !! p) as [w |] eqn:Hw; [| split; [apply same_view_refl | reflexivity]].
    pose proof (same_view_set_flags p w (clear_flag (Flags w) WaiterSpinning) s Hw
                  (has_flag_clear_other _)) as Hsv.
    destruct (has_flag (Flags w) WaiterSpinning); split; try reflexivity; exact Hsv.
Qed.

Lemma after1_same_view env s :
  quiet_value env ->
  same_view s (after1 env s) /\ _value (after1 env s) = _value s /\ quiet_value (tl env).
Proof.
  intros Hq. destruct env as [| i env]; cbn [after1 tl].
  - split; [apply same_view_refl |]. split; [reflexivity | exact Hq].
  - inversion Hq as [| ? ? Hi Hq']; subst.
    destruct (interfere_same_view i s Hi) as [H1 H2]. auto.
Qed.

Lemma tl_length (env : list Interference) : (length (tl env) <= length env)%nat.
Proof. destruct env; simpl; lia. Qed.

Lemma is_list_same_view s s' head l :
  same_view s s' -> is_list (memory s) head l -> is_list (memory s') head l.
Proof.
  intros (_ & _ & _ & _ & HF & HB & _) [Hnd Hch]. split; [exact Hnd |].
  apply (chain_frame (memory s)); [exact Hch | |]; intros p _; [apply HF | apply HB].
Qed.

Lemma all_shared_ext m m' l :
  (forall q, exclusive m' q = exclusive m q) -> all_shared m' l = all_shared m l.
Proof. intros H. induction l as [| p l IH]; simpl; [reflexivity |]. now rewrite H, IH. Qed.

Lemma ordered_ext m m' l :
  (forall q, exclusive m' q = exclusive m q) -> ordered m' l = ordered m l.
Proof.
  intros H. induction l as [| p l IH]; simpl; [reflexivity |].
  now rewrite H, IH, (all_shared_ext m m' l H).
Qed.

Lemma first_shared_ext m m' head l :
  (forall q, exclusive m' q = exclusive m q) ->
  first_shared m' head l = first_shared m head l.
Proof. intros H. induction l as [| p l IH]; simpl; [reflexivity |]. now rewrite H, IH. Qed.

Lemma queue_same_view s s' l : same_view s s' -> queue s l -> queue s' l.
Proof.
  intros Hsv (Hl & Ho & Hf).
  pose proof Hsv as (_ & Hh & Hfs & _ & _ & _ & He).
  split; [| split].
  - rewrite Hh. now apply (is_list_same_view s).
  - now rewrite (ordered_ext _ _ _ He).
  - now rewrite Hfs, Hh, (first_shared_ext _ _ _ _ He).
Qed.

(** ** Unblock, run to its end *)

Lemma exclusive_present m p : is_Some (m !! p) <-> is_Some (flink m p).
Proof. symmetry. apply flink_is_Some. Qed.

Lemma same_view_present s s' p :
  same_view s s' -> is_Some (memory s !! p) -> is_Some (memory s' !! p).
Proof.
  intros (_ & _ & _ & _ & HF & _) H. apply flink_is_Some. rewrite HF.
  now apply flink_is_Some.
Qed.

Lemma ClearSpinning_run wb fuel : forall env s,
  quiet_value env -> is_Some (memory s !! wb) -> (length env < fuel)%nat ->
  (exists flagsv, result (run (ClearSpinning wb fuel) env s) = Returned flagsv)
  /\ keeps env s (run (ClearSpinning wb fuel) env s)
  /\ _value (final (run (ClearSpinning wb fuel) env s)) = _value s.
Proof.
  induction fuel as [| fuel IH]; intros env s Hq Hwb Hlen; [lia |].
  cbn [ClearSpinning]. step.
  destruct (after1_same_view env s Hq) as (V1 & U1 & Q1).
  destruct (same_view_present _ _ wb V1 Hwb) as [w Hw].
  unfold with_block. rewrite Hw. cbn [bind]. step.
  set (s1 := log (ALoadFlags wb) (Flags w) (after1 env s)).
  assert (V1' : same_view s s1) by exact V1.
  destruct (after1_same_view (tl env) s1 Q1) as (V2 & U2 & Q2).
  assert (V2' : same_view s (after1 (tl env) s1)) by (now apply (same_view_trans _ s1)).
  destruct (same_view_present _ _ wb V2' Hwb) as [w2 Hw2].
  unfold with_block. rewrite Hw2.
  destruct (Flags w2 =? Flags w) eqn:E.
  - cbn [bind]. rewrite E. unfold keeps. cbn [run result final rest].
    split; [eauto |]. split; [split; [exact Q2 | split] |].
    + pose proof (tl_length env). pose proof (tl_length (tl env)). lia.
    + eapply same_view_trans; [exact V2' |].
      eapply same_view_trans; [| apply same_view_log].
      apply same_view_set_flags; [exact Hw2 |].
      apply Z.eqb_eq in E. rewrite E. apply has_flag_clear_other.
    + simpl. rewrite U2. unfold s1. simpl. exact U1.
  - cbn [bind]. rewrite E.
    assert (Hne : tl env <> []).
    { intros Hnil. rewrite Hnil in Hw2. simpl in Hw2. unfold s1 in Hw2. simpl in Hw2.
      rewrite Hw in Hw2. inversion Hw2; subst. now rewrite Z.eqb_refl in E. }
    set (s2 := log (ACasFlags wb (clear_flag (Flags w) WaiterSpinning) (Flags w))
                 (Flags w2) (after1 (tl env) s1)).
    assert (V3 : same_view s s2) by exact V2'.
    destruct (IH (tl (tl env)) s2 Q2 (same_view_present _ _ wb V3 Hwb))
      as (Hres & (K1 & K2 & K3) & Hval).
    { destruct env as [| ? [| ? ?]]; simpl in *; try congruence; lia. }
    split; [exact Hres |]. split; [split; [exact K1 | split] |].
    + pose proof (tl_length env). pose proof (tl_length (tl env)). lia.
    + now apply (same_view_trans _ s2).
    + rewrite Hval. unfold s2. simpl. rewrite U2. unfold s1. simpl. exact U1.
Qed.

Lemma Unblock_run wb fuel env s :
  quiet_value env -> is_Some (memory s !! wb) -> (length env < fuel)%nat ->
  result (run (Unblock wb fuel) env s) = Returned tt
  /\ keeps env s (run (Unblock wb fuel) env s)
  /\ _value (final (run (Unblock wb fuel) env s)) = _value s.
Proof.
  intros Hq Hwb Hlen. unfold Unblock. cbn [bind act_]. step.
  set (s1 := log (AEnter MUnblock) 0 s).
  destruct (ClearSpinning_run wb fuel env s1 Hq Hwb Hlen)
    as ([flagsv Hres] & (K1 & K2 & K3) & Hval).
  rewrite run_bind, Hres.
  destruct (no_flag flagsv WaiterSpinning).
  - step. step. unfold keeps. cbn [run result final rest].
    destruct (after1_same_view _ (final (run (ClearSpinning wb fuel) env s1)) K1)
      as (V1 & U1 & Q1).
    split; [reflexivity |]. split; [split; [exact Q1 | split] |].
    + pose proof (tl_length (rest (run (ClearSpinning wb fuel) env s1))). lia.
    + eapply same_view_trans; [exact K3 |].
      eapply same_view_trans; [exact V1 |]. repeat split.
    + simpl. rewrite U1. exact Hval.
  - unfold keeps. cbn [run result final rest]. split; [reflexivity |].
    split; [split; [exact K1 | split; [exact K2 | exact K3]] | exact Hval].
Qed.

(** The loop that clears the waiters bit. *)
Lemma ClearWaitersBit_run fuel env s :
  quiet_value env -> (0 < fuel)%nat ->
  result (run (ClearWaitersBit fuel) env s) = Returned tt
  /\ keeps env s (run (ClearWaitersBit fuel) env s)
  /\ _value (final (run (ClearWaitersBit fuel) env s)) = clear_flag (_value s) LockWaiters.
Proof.
  intros Hq Hlen. destruct fuel as [| fuel]; [lia |].
  cbn [ClearWaitersBit]. step.
  destruct (after1_same_view env s Hq) as (V1 & U1 & Q1).
  set (s1 := log AGetValue (_value (after1 env s)) (after1 env s)).
  step.
  destruct (after1_same_view (tl env) s1 Q1) as (V2 & U2 & Q2).
  assert (E : _value (after1 (tl env) s1) = _value (after1 env s)) by exact U2.
  rewrite E, Z.eqb_refl. cbn [bind]. rewrite Z.eqb_refl. unfold keeps.
  cbn [run result final rest].
  split; [reflexivity |]. split; [split; [exact Q2 | split] |].
  - pose proof (tl_length env). pose proof (tl_length (tl env)). lia.
  - eapply same_view_trans; [exact V1 |].
    eapply same_view_trans; [apply (same_view_log AGetValue (_value (after1 env s))) |].
    eapply same_view_trans; [exact V2 |]. repeat split.
  - simpl. now rewrite U1.
Qed.
(** ** Ordered queues *)

Lemma split_runs m l : l = exclusive_run m l ++ shared_rest m l.
Proof.
  induction l as [| p l IH]; simpl; [reflexivity |].
  destruct (exclusive m p); simpl; [now f_equal | reflexivity].
Qed.

Lemma first_shared_hd m head l :
  first_shared m head l = List.hd head (shared_rest m l).
Proof.
  induction l as [| p l IH]; simpl; [reflexivity |].
  destruct (exclusive m p); [exact IH | reflexivity].
Qed.

Lemma ordered_shared_rest m l : ordered m l = all_shared m (shared_rest m l).
Proof.
  induction l as [| p l IH]; simpl; [reflexivity |].
  destruct (exclusive m p) eqn:E; [exact IH |].
  simpl. now rewrite E.
Qed.

Lemma exclusive_run_all m l : Forall (fun p => exclusive m p = true) (exclusive_run m l).
Proof.
  induction l as [| p l IH]; simpl; [constructor |].
  destruct (exclusive m p) eqn:E; constructor; assumption.
Qed.

Lemma ordered_app_exclusive m le ls :
  Forall (fun p => exclusive m p = true) le -> ordered m (le ++ ls) = ordered m ls.
Proof. induction 1 as [| p le Hp _ IH]; simpl; [reflexivity |]. now rewrite Hp. Qed.

Lemma first_shared_app_exclusive m head le ls :
  Forall (fun p => exclusive m p = true) le ->
  first_shared m head (le ++ ls) = first_shared m head ls.
Proof. induction 1 as [| p le Hp _ IH]; simpl; [reflexivity |]. now rewrite Hp. Qed.

Lemma all_shared_ordered m l : all_shared m l = true -> ordered m l = true.
Proof.
  destruct l as [| p l]; simpl; [reflexivity |].
  intros H. apply andb_true_iff in H as [H1 H2].
  apply negb_true_iff in H1. now rewrite H1.
Qed.

Lemma all_shared_app m l1 l2 :
  all_shared m (l1 ++ l2) = all_shared m l1 && all_shared m l2.
Proof.
  induction l1 as [| p l1 IH]; simpl; [reflexivity |]. now rewrite IH, andb_assoc.
Qed.

Lemma all_shared_first m head l :
  all_shared m l = true -> first_shared m head l = List.hd head l.
Proof.
  destruct l as [| p l]; simpl; [reflexivity |].
  intros H. apply andb_true_iff in H as [H1 _]. apply negb_true_iff in H1.
  now rewrite H1.
Qed.

Lemma all_shared_ext_on m m' l :
  (forall q, q ∈ l -> exclusive m' q = exclusive m q) ->
  all_shared m' l = all_shared m l.
Proof.
  induction l as [| p l IH]; intros H; simpl; [reflexivity |].
  rewrite H by apply list_elem_of_here. rewrite IH; [reflexivity |].
  intros q Hq. apply H. now apply list_elem_of_further.
Qed.

Lemma ordered_ext_on m m' l :
  (forall q, q ∈ l -> exclusive m' q = exclusive m q) ->
  ordered m' l = ordered m l.
Proof.
  induction l as [| p l IH]; intros H; simpl; [reflexivity |].
  rewrite H by apply list_elem_of_here.
  rewrite IH, (all_shared_ext_on m m' l); [reflexivity | |];
    intros q Hq; apply H; now apply list_elem_of_further.
Qed.

Lemma first_shared_ext_on m m' head l :
  (forall q, q ∈ l -> exclusive m' q = exclusive m q) ->
  first_shared m' head l = first_shared m head l.
Proof.
  induction l as [| p l IH]; intros H; simpl; [reflexivity |].
  rewrite H by apply list_elem_of_here. rewrite IH; [reflexivity |].
  intros q Hq. apply H. now apply list_elem_of_further.
Qed.

Lemma exclusive_run_ext_on m m' l :
  (forall q, q ∈ l -> exclusive m' q = exclusive m q) ->
  exclusive_run m' l = exclusive_run m l /\ shared_rest m' l = shared_rest m l.
Proof.
  induction l as [| p l IH]; intros H; simpl; [split; reflexivity |].
  rewrite H by apply list_elem_of_here.
  destruct IH as [I1 I2]; [intros q Hq; apply H; now apply list_elem_of_further |].
  rewrite I1, I2. split; reflexivity.
Qed.

(** In an ordered queue the last block is exclusive exactly when no
    block is shared. *)
Lemma last_exclusive_iff m head l :
  ordered m l = true -> l <> [] ->
  exclusive m (last_from head l) = true <-> shared_rest m l = [].
Proof.
  revert head. induction l as [| p l IH]; intros head Ho Hne; [congruence |].
  simpl in *. destruct (exclusive m p) eqn:E.
  - destruct l as [| c l]; [simpl; rewrite E; tauto |].
    apply (IH p Ho). discriminate.
  - split; [| discriminate]. intros Hl. exfalso.
    clear IH Hne. revert p E Ho Hl. induction l as [| c l IHl]; intros p E Ho Hl.
    + simpl in Hl. congruence.
    + simpl in Ho. apply andb_true_iff in Ho as [H1 H2].
      apply negb_true_iff in H1. exact (IHl c H1 H2 Hl).
Qed.

Lemma last_from_head_iff head l : head ∉ l -> last_from head l = head <-> l = [].
Proof.
  intros Hh. split; [| now intros ->].
  destruct l as [| c l]; [reflexivity |]. simpl. intros H.
  exfalso. apply Hh. rewrite <- H. apply last_in.
Qed.

Lemma last_from_app a l x : last_from a (l ++ [x]) = x.
Proof. revert a. induction l as [| c l IH]; intros a; simpl; [reflexivity | apply IH]. Qed.

(** Frame: links of the blocks of a list untouched. *)
Lemma is_list_frame m m' head l :
  is_list m head l ->
  (forall p, p ∈ head :: l -> flink m' p = flink m p) ->
  (forall p, p ∈ head :: l -> blink m' p = blink m p) ->
  is_list m' head l.
Proof.
  intros [Hnd Hch] HF HB. split; [exact Hnd |].
  apply (chain_frame m); [exact Hch | exact HF |].
  intros p Hp. apply HB. apply elem_of_app in Hp as [Hp | Hp].
  - now apply list_elem_of_further.
  - apply list_elem_of_singleton in Hp. subst. apply list_elem_of_here.
Qed.

Lemma is_list_present m head l p :
  is_list m head l -> p ∈ head :: l -> is_Some (m !! p).
Proof.
  intros [_ Hch] Hp. apply (chain_present m head l head p Hch).
  apply elem_of_cons in Hp as [-> | Hp]; [apply list_elem_of_here |].
  apply list_elem_of_further. apply elem_of_app. now left.
Qed.

Lemma is_list_flink_head m head l : is_list m head l -> flink m head = Some (List.hd head l).
Proof. intros [_ H]. now apply chain_flink_first. Qed.

Lemma is_list_blink_head m head l : is_list m head l -> blink m head = Some (last_from head l).
Proof. intros [_ H]. now apply chain_blink_last. Qed.

Lemma is_list_flink_mid m head l1 x l2 :
  is_list m head (l1 ++ x :: l2) -> flink m x = Some (List.hd head l2).
Proof. intros [_ H]. apply chain_app in H as [_ H]. now apply chain_flink_first. Qed.

Lemma is_list_blink_mid m head l1 x l2 :
  is_list m head (l1 ++ x :: l2) -> blink m x = Some (last_from head l1).
Proof. intros [_ H]. apply chain_app in H as [H _]. now apply chain_blink_last. Qed.
(** ** Queueing a wait block *)

Lemma exclusive_flags m p :
  exclusive m p = match flags m p with
                  | Some f => has_flag f WaiterExclusive
                  | None => false
                  end.
Proof. unfold exclusive, flags. destruct (m !! p); reflexivity. Qed.

Lemma exclusive_flags_ext m m' p :
  flags m' p = flags m p -> exclusive m' p = exclusive m p.
Proof. intros H. now rewrite !exclusive_flags, H. Qed.

Lemma lookup_fields m m' q :
  m' !! q = m !! q ->
  flink m' q = flink m q /\ blink m' q = blink m q /\ flags m' q = flags m q.
Proof. unfold flink, blink, flags. now intros ->. Qed.

(** [WaitBlock waitBlock; waitBlock.Flags = flagsv;] *)
Lemma wait_prepare {A : Type} wb flagsv (k : Prog A) env s :
  exists s1,
    run (act_ (ALocal wb) ;; act_ (AStoreFlags wb flagsv) ;; k) env s = run k env s1
    /\ ctx s1 = ctx s
    /\ (forall q, q <> wb -> memory s1 !! q = memory s !! q)
    /\ flags (memory s1) wb = Some flagsv.
Proof.
  destruct (ensure_block_lookup wb s) as [w Hw].
  destruct (ensure_block_fields wb s) as (F1 & F2 & F3 & F4 & F5 & F6).
  eexists. split.
  { step. step. unfold with_block. cbn [memory log upd_trace]. rewrite Hw.
    cbn [bind]. reflexivity. }
  split; [| split].
  - unfold ctx. cbn. unfold ensure_block. destruct (memory s !! wb); reflexivity.
  - intros q Hq. cbn. rewrite lookup_insert_ne by congruence.
    now apply ensure_block_other.
  - unfold flags. cbn. now rewrite lookup_insert_eq.
Qed.

Lemma ctx_fields s s' :
  ctx s' = ctx s ->
  _value s' = _value s /\ _lock s' = _lock s
  /\ _waitersListHead s' = _waitersListHead s
  /\ _firstSharedWaiter s' = _firstSharedWaiter s
  /\ _spinCount s' = _spinCount s.
Proof. unfold ctx. intros H. inversion H. repeat split; assumption. Qed.

Lemma is_list_blink_at m head l1 l2 :
  is_list m head (l1 ++ l2) -> blink m (List.hd head l2) = Some (last_from head l1).
Proof.
  destruct l2 as [| x l2]; simpl.
  - rewrite app_nil_r. apply is_list_blink_head.
  - apply is_list_blink_mid.
Qed.

(** The state on which the slow path works once it holds the spinlock
    and its compare-exchange has set the waiters bit. *)
Lemma wait_enter {A : Type} wb flagsv value (k1 k2 : Prog A) env s l :
  quiet_value env -> queue s l -> _lock s = false -> _value s = value ->
  wb ∉ _waitersListHead s :: l ->
  exists s3,
    run (act_ (ALocal wb) ;;
         act_ (AStoreFlags wb flagsv) ;;
         act_ ALockAcquire ;;
         old <- act (ACasValue (Z.lor value LockWaiters) value) ;;
         if negb (old =? value) then k1 else k2)
      env s
    = run k2 (tl env) s3
    /\ quiet_value (tl env)
    /\ queue s3 l
    /\ _lock s3 = true
    /\ _value s3 = Z.lor value LockWaiters
    /\ _waitersListHead s3 = _waitersListHead s
    /\ _firstSharedWaiter s3 = _firstSharedWaiter s
    /\ (forall q, q ∈ l -> exclusive (memory s3) q = exclusive (memory s) q)
    /\ exclusive (memory s3) (_waitersListHead s) = exclusive (memory s) (_waitersListHead s)
    /\ exclusive (memory s3) wb = has_flag flagsv WaiterExclusive
    /\ is_Some (memory s3 !! wb).
Proof.
  intros Hq (Hl & Ho & Hfs) Hlock Hval Hwb.
  destruct (wait_prepare wb flagsv
              (act_ ALockAcquire ;;
               old <- act (ACasValue (Z.lor value LockWaiters) value) ;;
               if negb (old =? value) then k1 else k2) env s)
    as (s1 & Hrun & Hctx & Hmem & Hflags).
  rewrite Hrun. clear Hrun.
  destruct (ctx_fields _ _ Hctx) as (C1 & C2 & C3 & C4 & C5).
  step. rewrite C2, Hlock. cbn [bind]. step.
  set (s2 := log ALockAcquire 0 (upd_lock true s1)).
  destruct (after1_same_view env s2 Hq) as (V & U & Q).
  assert (Hv2 : _value (after1 env s2) = value) by (rewrite U; simpl; congruence).
  rewrite Hv2, Z.eqb_refl. cbn [bind]. rewrite Z.eqb_refl. cbn [negb].
  eexists. split; [reflexivity |]. split; [exact Q |].
  pose proof V as (V1 & V2 & V3 & V4 & V5 & V6 & V7).
  assert (Hother : forall q, q <> wb ->
            flink (memory s1) q = flink (memory s) q
            /\ blink (memory s1) q = blink (memory s) q
            /\ flags (memory s1) q = flags (memory s) q).
  { intros q Hne. apply lookup_fields. now apply Hmem. }
  assert (Hex : forall q, q <> wb ->
            exclusive (memory (after1 env s2)) q = exclusive (memory s) q).
  { intros q Hne. rewrite V7. apply exclusive_flags_ext. now apply Hother. }
  assert (Hin : forall q, q ∈ _waitersListHead s :: l -> q <> wb).
  { intros q Hq' ->. contradiction. }
  assert (Hinl : forall q, q ∈ l -> q <> wb).
  { intros q Hq'. apply Hin. now apply list_elem_of_further. }
  cbn [queue memory log upd_value upd_trace _waitersListHead _firstSharedWaiter
         _lock _value].
  split; [| repeat split].
  - unfold queue. cbn [memory log upd_value upd_trace _waitersListHead _firstSharedWaiter].
    rewrite V2, V3. cbn [s2 _waitersListHead _firstSharedWaiter log upd_lock upd_trace].
    rewrite C3, C4. split; [| split].
    + apply (is_list_frame (memory s)); [exact Hl | |]; intros p Hp.
      * rewrite V5. apply (Hother p). now apply Hin.
      * rewrite V6. apply (Hother p). now apply Hin.
    + rewrite <- Ho. apply ordered_ext_on. intros q Hq'. apply Hex. now apply Hinl.
    + rewrite Hfs. symmetry. apply first_shared_ext_on.
      intros q Hq'. apply Hex. now apply Hinl.
  - exact V1.
  - rewrite V2. exact C3.
  - rewrite V3. exact C4.
  - intros q Hq'. apply Hex. now apply Hinl.
  - apply Hex. apply Hin. apply list_elem_of_here.
  - rewrite V7. rewrite exclusive_flags. cbn [s2 memory log upd_lock upd_trace].
    now rewrite Hflags.
  - apply flink_is_Some. rewrite V5. cbn [s2 memory log upd_lock upd_trace].
    apply flink_is_Some. unfold flags in Hflags.
    destruct (memory s1 !! wb); [eauto | discriminate].
Qed.
Lemma exclusive_ext_flags m m' :
  (forall q, flags m' q = flags m q) -> forall q, exclusive m' q = exclusive m q.
Proof. intros H q. now apply exclusive_flags_ext. Qed.

(** An exclusive block put behind exclusive blocks keeps the order and
    the first shared block. *)
Lemma ordered_insert_exclusive m head l1 l2 wb :
  Forall (fun p => exclusive m p = true) l1 -> exclusive m wb = true ->
  ordered m (l1 ++ wb :: l2) = ordered m (l1 ++ l2)
  /\ first_shared m head (l1 ++ wb :: l2) = first_shared m head (l1 ++ l2).
Proof.
  intros H1 Hwb.
  rewrite !ordered_app_exclusive, !first_shared_app_exclusive by assumption.
  simpl. now rewrite Hwb.
Qed.

(** AcquireExclusive queues its wait block behind the exclusive wait
    blocks. *)
Lemma AcquireExclusive_wait_run wb value env s l :
  quiet_value env -> queue s l -> _lock s = false -> _value s = value ->
  wb ∉ _waitersListHead s :: l ->
  let o := run (AcquireExclusive_wait wb value) env s in
  result o = Returned true
  /\ queue (final o) (exclusive_run (memory s) l ++ wb :: shared_rest (memory s) l)
  /\ _lock (final o) = false
  /\ _value (final o) = Z.lor value LockWaiters
  /\ exclusive (memory (final o)) wb = true
  /\ (forall q, q ∈ l -> exclusive (memory (final o)) q = exclusive (memory s) q)
  /\ _waitersListHead (final o) = _waitersListHead s
  /\ exclusive (memory (final o)) (_waitersListHead s)
     = exclusive (memory s) (_waitersListHead s).
Proof.
  intros Hq Hqueue Hlock Hval Hwb o. subst o. unfold AcquireExclusive_wait.
  destruct (wait_enter wb (Z.lor WaiterExclusive WaiterSpinning) value
              (act_ ALockRelease ;; Ret false)
              (InsertWaitBlock wb LastExclusive ;; act_ ALockRelease ;; Ret true)
              env s l Hq Hqueue Hlock Hval Hwb)
    as (s3 & Hrun & Q & (Hl & Ho & Hfs) & L3 & V3 & H3 & F3 & E3 & Eh & Ew & Pw).
  rewrite Hrun. clear Hrun.
  set (head := _waitersListHead s) in *.
  destruct (exclusive_run_ext_on (memory s) (memory s3) l E3) as [Er Es].
  rewrite <- Er, <- Es.
  set (le := exclusive_run (memory s3) l). set (ls := shared_rest (memory s3) l).
  assert (Hsplit : l = le ++ ls) by apply split_runs.
  rewrite H3 in Hl, Hfs.
  assert (Hfs' : _firstSharedWaiter s3 = List.hd head ls).
  { rewrite Hfs. apply first_shared_hd. }
  rewrite Hsplit in Hl.
  pose proof (is_list_blink_at _ _ _ _ Hl) as Hb.
  assert (Pb : is_Some (memory s3 !! last_from head le)).
  { apply (is_list_present _ _ _ _ Hl). pose proof (last_in le head) as Hin.
    apply elem_of_cons in Hin as [-> | Hin]; [apply list_elem_of_here |].
    apply list_elem_of_further. apply elem_of_app. now left. }
  unfold InsertWaitBlock. step. rewrite Hfs'. rewrite run_bind.
  destruct (InsertTailList_run (List.hd head ls) wb (last_from head le) (tl env)
              (log AGetFirstShared (List.hd head ls) s3) Hb Pw Pb)
    as (s4 & Hrun & C4 & F4 & B4 & G4).
  rewrite Hrun. clear Hrun. cbn [result rest final]. step. cbn [run result rest final].
  destruct (ctx_fields _ _ C4) as (K1 & K2 & K3 & K4 & K5).
  cbn [memory log upd_lock upd_trace _lock _value _waitersListHead _firstSharedWaiter]
    in *.
  assert (Hnew : is_list (memory s4) head (le ++ wb :: ls)).
  { apply (is_list_insert (memory s3)); [exact Hl | | exact F4 | exact B4].
    rewrite <- Hsplit. exact Hwb. }
  pose proof (exclusive_ext_flags _ _ G4) as E4.
  assert (Hwb4 : exclusive (memory s4) wb = true) by (rewrite E4, Ew; reflexivity).
  assert (Hle : Forall (fun p => exclusive (memory s4) p = true) le).
  { eapply Forall_impl; [apply exclusive_run_all |]. intros p Hp. now rewrite E4. }
  destruct (ordered_insert_exclusive (memory s4) head le ls wb Hle Hwb4) as [O1 O2].
  split; [reflexivity |]. split; [| repeat split].
  - unfold queue. cbn [memory log upd_lock upd_trace _waitersListHead _firstSharedWaiter].
    rewrite K3, H3, K4. split; [exact Hnew |]. split.
    + rewrite O1, <- Hsplit, (ordered_ext _ _ _ E4). exact Ho.
    + rewrite O2, <- Hsplit, (first_shared_ext _ _ _ _ E4). exact Hfs.
  - rewrite K1. exact V3.
  - exact Hwb4.
  - intros q Hq'. rewrite E4. now apply E3.
  - rewrite K3. exact H3.
  - rewrite E4. exact Eh.
Qed.
(** ConvertSharedToExclusive queues its wait block ahead of all others. *)
Lemma ConvertSharedToExclusive_wait_run wb value env s l :
  quiet_value env -> queue s l -> _lock s = false -> _value s = value ->
  wb ∉ _waitersListHead s :: l ->
  let o := run (ConvertSharedToExclusive_wait wb value) env s in
  result o = Returned true
  /\ queue (final o) (wb :: l)
  /\ _lock (final o) = false
  /\ _value (final o) = Z.lor value LockWaiters
  /\ exclusive (memory (final o)) wb = true
  /\ (forall q, q ∈ l -> exclusive (memory (final o)) q = exclusive (memory s) q)
  /\ _waitersListHead (final o) = _waitersListHead s
  /\ exclusive (memory (final o)) (_waitersListHead s)
     = exclusive (memory s) (_waitersListHead s).
Proof.
  intros Hq Hqueue Hlock Hval Hwb o. subst o. unfold ConvertSharedToExclusive_wait.
  destruct (wait_enter wb (Z.lor WaiterExclusive WaiterSpinning) value
              (act_ ALockRelease ;; Ret false)
              (InsertWaitBlock wb First ;; act_ ALockRelease ;; Ret true)
              env s l Hq Hqueue Hlock Hval Hwb)
    as (s3 & Hrun & Q & (Hl & Ho & Hfs) & L3 & V3 & H3 & F3 & E3 & Eh & Ew & Pw).
  rewrite Hrun. clear Hrun.
  set (head := _waitersListHead s) in *.
  rewrite H3 in Hl, Hfs.
  pose proof (is_list_flink_head _ _ _ Hl) as Hf.
  assert (Pf : is_Some (memory s3 !! List.hd head l)).
  { apply (is_list_present _ _ _ _ Hl). destruct l as [| x l']; simpl.
    - apply list_elem_of_here.
    - apply list_elem_of_further, list_elem_of_here. }
  unfold InsertWaitBlock. step. rewrite H3. rewrite run_bind.
  destruct (InsertHeadList_run head wb (List.hd head l) (tl env)
              (log AGetHead head s3) Hf Pw Pf)
    as (s4 & Hrun & C4 & F4 & B4 & G4).
  rewrite Hrun. clear Hrun. cbn [result rest final]. step. cbn [run result rest final].
  destruct (ctx_fields _ _ C4) as (K1 & K2 & K3 & K4 & K5).
  cbn [memory log upd_lock upd_trace _lock _value _waitersListHead _firstSharedWaiter]
    in *.
  assert (Hnew : is_list (memory s4) head ([] ++ wb :: l)).
  { apply (is_list_insert (memory s3)); [exact Hl | exact Hwb | exact F4 | exact B4]. }
  pose proof (exclusive_ext_flags _ _ G4) as E4.
  assert (Hwb4 : exclusive (memory s4) wb = true) by (rewrite E4, Ew; reflexivity).
  split; [reflexivity |]. split; [| repeat split].
  - unfold queue. cbn [memory log upd_lock upd_trace _waitersListHead _firstSharedWaiter].
    rewrite K3, H3, K4. split; [exact Hnew |]. split.
    + simpl. rewrite Hwb4, (ordered_ext _ _ _ E4). exact Ho.
    + simpl. rewrite Hwb4, (first_shared_ext _ _ _ _ E4). exact Hfs.
  - rewrite K1. exact V3.
  - exact Hwb4.
  - intros q Hq'. rewrite E4. now apply E3.
  - rewrite K3. exact H3.
  - rewrite E4. exact Eh.
Qed.

Lemma shared_rest_snoc m l wb :
  exclusive m wb = false ->
  shared_rest m (l ++ [wb]) = shared_rest m l ++ [wb].
Proof.
  intros Hwb. induction l as [| p l IH]; simpl.
  - now rewrite Hwb.
  - destruct (exclusive m p); [exact IH | reflexivity].
Qed.

Lemma exclusive_run_snoc m l wb :
  exclusive m wb = false -> exclusive_run m (l ++ [wb]) = exclusive_run m l.
Proof.
  intros Hwb. induction l as [| p l IH]; simpl.
  - now rewrite Hwb.
  - destruct (exclusive m p); [now rewrite IH | reflexivity].
Qed.

(** A shared block put at the tail keeps the order; it is the first
    shared block exactly when there was none. *)
Lemma ordered_snoc_shared m head l wb :
  exclusive m wb = false ->
  ordered m (l ++ [wb]) = ordered m l
  /\ first_shared m head (l ++ [wb])
     = match shared_rest m l with
       | [] => wb
       | _ :: _ => first_shared m head l
       end.
Proof.
  intros Hwb. rewrite !ordered_shared_rest, !first_shared_hd, shared_rest_snoc by exact Hwb.
  rewrite all_shared_app. simpl. rewrite Hwb. simpl. rewrite andb_true_r.
  split; [reflexivity |]. destruct (shared_rest m l); reflexivity.
Qed.

Lemma has_flag_spinning_exclusive : has_flag WaiterSpinning WaiterExclusive = false.
Proof. reflexivity. Qed.

Lemma has_flag_both_exclusive :
  has_flag (Z.lor WaiterExclusive WaiterSpinning) WaiterExclusive = true.
Proof. reflexivity. Qed.

(** AcquireShared queues its wait block behind all others and moves the
    cursor to it when it is the first shared one. *)
Lemma AcquireShared_wait_run wb value env s l :
  quiet_value env -> queue s l -> _lock s = false -> _value s = value ->
  wb ∉ _waitersListHead s :: l ->
  let o := run (AcquireShared_wait wb value) env s in
  result o = Returned true
  /\ queue (final o) (l ++ [wb])
  /\ _lock (final o) = false
  /\ _value (final o) = Z.lor value LockWaiters
  /\ exclusive (memory (final o)) wb = false
  /\ (forall q, q ∈ l -> exclusive (memory (final o)) q = exclusive (memory s) q)
  /\ _waitersListHead (final o) = _waitersListHead s
  /\ exclusive (memory (final o)) (_waitersListHead s)
     = exclusive (memory s) (_waitersListHead s).
Proof.
  intros Hq Hqueue Hlock Hval Hwb o. subst o. unfold AcquireShared_wait.
  match goal with
  | |- context [if negb (_ =? _) then ?a else ?b] =>
      destruct (wait_enter wb WaiterSpinning value a b env s l Hq Hqueue Hlock Hval Hwb)
        as (s3 & Hrun & Q & (Hl & Ho & Hfs) & L3 & V3 & H3 & F3 & E3 & Eh & Ew & Pw)
  end.
  rewrite Hrun. clear Hrun.
  set (head := _waitersListHead s) in *.
  rewrite H3 in Hl, Hfs.
  pose proof (is_list_blink_head _ _ _ Hl) as Hb.
  pose proof (last_in l head) as Hlast.
  assert (Pb : is_Some (memory s3 !! last_from head l))
    by (apply (is_list_present _ _ _ _ Hl); exact Hlast).
  assert (Hhl : head ∉ l).
  { destruct Hl as [Hnd _]. now apply NoDup_cons in Hnd as [Hh _]. }
  unfold InsertWaitBlock. step. rewrite H3. rewrite run_bind.
  destruct (InsertTailList_run head wb (last_from head l) (tl env)
              (log AGetHead head s3) Hb Pw Pb)
    as (s4 & Hrun & C4 & F4 & B4 & G4).
  rewrite Hrun. clear Hrun. cbn [result rest final].
  destruct (ctx_fields _ _ C4) as (K1 & K2 & K3 & K4 & K5).
  cbn [memory log upd_lock upd_trace _lock _value _waitersListHead _firstSharedWaiter]
    in *.
  assert (Hnew : is_list (memory s4) head (l ++ [wb])).
  { apply (is_list_insert (memory s3)).
    - now rewrite app_nil_r.
    - now rewrite app_nil_r.
    - exact F4.
    - exact B4. }
  pose proof (exclusive_ext_flags _ _ G4) as E4.
  assert (Hwb4 : exclusive (memory s4) wb = false)
    by (rewrite E4, Ew; apply has_flag_spinning_exclusive).
  assert (Hwbh : wb <> head).
  { intros ->. apply Hwb. apply list_elem_of_here. }
  assert (Hbw : blink (memory s4) wb = Some (last_from head l)).
  { rewrite B4. simpl. rewrite upd_ne, upd_eq by exact Hwbh. reflexivity. }
  erewrite run_LoadBlink by exact Hbw. cbn [bind]. step.
  cbn [_waitersListHead log upd_trace]. rewrite K3, H3.
  destruct (ordered_snoc_shared (memory s4) head l wb Hwb4) as [O1 O2].
  assert (Ho4 : ordered (memory s4) l = true) by (rewrite (ordered_ext _ _ _ E4); exact Ho).
  assert (Hfs4 : first_shared (memory s4) head l = _firstSharedWaiter s3)
    by (rewrite (first_shared_ext _ _ _ _ E4); symmetry; exact Hfs).
  assert (Hfinish : forall (isFirst : bool) env' s5,
             same_view s4 s5 -> _value s5 = _value s4 ->
             isFirst = match shared_rest (memory s4) l with [] => true | _ => false end ->
             let o := run ((if isFirst then act_ (ASetFirstShared wb) else Ret tt) ;;
                           act_ ALockRelease ;; Ret true) env' s5 in
             result o = Returned true
             /\ queue (final o) (l ++ [wb])
             /\ _lock (final o) = false
             /\ _value (final o) = Z.lor value LockWaiters
             /\ exclusive (memory (final o)) wb = false
             /\ (forall q, q ∈ l -> exclusive (memory (final o)) q = exclusive (memory s) q)
             /\ _waitersListHead (final o) = head
             /\ exclusive (memory (final o)) head = exclusive (memory s) head).
  { intros isFirst env' s5 V5 U5 HisFirst o. subst o.
    pose proof V5 as (W1 & W2 & W3 & W4 & W5 & W6 & W7).
    assert (Hq5 : is_list (memory s5) head (l ++ [wb]))
      by (now apply (is_list_same_view s4)).
    assert (Common : forall s6, memory s6 = memory s5 -> _waitersListHead s6 = head ->
              _firstSharedWaiter s6 = first_shared (memory s4) head (l ++ [wb]) ->
              queue s6 (l ++ [wb])).
    { intros s6 M6 H6 F6. unfold queue. rewrite M6, H6. split; [exact Hq5 |]. split.
      - rewrite (ordered_ext _ _ _ W7), O1. exact Ho4.
      - rewrite F6. symmetry. apply first_shared_ext. exact W7. }
    destruct isFirst.
    - step. step. cbn [run result rest final].
      split; [reflexivity |]. split; [| repeat split]; cbn.
      + apply Common; cbn; [reflexivity | congruence |].
        rewrite O2. now destruct (shared_rest (memory s4) l).
      + congruence.
      + now rewrite W7.
      + intros q Hq'. rewrite W7, E4. now apply E3.
      + congruence.
      + rewrite W7, E4. exact Eh.
    - cbn [bind]. step. cbn [run result rest final].
      split; [reflexivity |]. split; [| repeat split]; cbn.
      + apply Common; cbn; [reflexivity | congruence |].
        rewrite O2, W3, K4. destruct (shared_rest (memory s4) l); [discriminate |].
        symmetry. exact Hfs4.
      + congruence.
      + now rewrite W7.
      + intros q Hq'. rewrite W7, E4. now apply E3.
      + congruence.
      + rewrite W7, E4. exact Eh. }
  destruct (last_from head l =? head) eqn:Ebh.
  - apply Z.eqb_eq in Ebh. apply (last_from_head_iff head l Hhl) in Ebh. subst l.
    cbn [bind]. apply (Hfinish true); [repeat split | reflexivity | reflexivity].
  - apply Z.eqb_neq in Ebh.
    assert (Hne : l <> []) by (intros ->; now apply Ebh).
    cbn [bind]. erewrite run_LoadBlink by exact Hbw. cbn [bind]. step.
    set (s4' := log AGetHead head (log (ALoadBlink wb) (last_from head l) s4)).
    set (s4'' := log (ALoadBlink wb) (last_from head l) s4').
    destruct (after1_same_view (tl env) s4'' Q) as (V & U & Q').
    assert (Vt : same_view s4 (after1 (tl env) s4'')) by exact V.
    assert (Pb4 : is_Some (memory s4 !! last_from head l)).
    { apply (is_list_present _ _ _ _ Hnew). apply elem_of_cons in Hlast as [Hl' | Hl'].
      - rewrite Hl'. apply list_elem_of_here.
      - apply list_elem_of_further, elem_of_app. now left. }
    destruct (same_view_present _ _ _ Vt Pb4) as [wl Hwl].
    unfold with_block. rewrite Hwl. cbn [bind].
    apply (Hfinish (has_flag (Flags wl) WaiterExclusive)).
    + eapply same_view_trans; [exact Vt |]. apply same_view_log.
    + simpl. rewrite U. reflexivity.
    + pose proof Vt as (_ & _ & _ & _ & _ & _ & W7).
      specialize (W7 (last_from head l)). unfold exclusive at 1 in W7.
      rewrite Hwl in W7. rewrite W7.
      pose proof (last_exclusive_iff (memory s4) head l Ho4 Hne) as Hiff.
      destruct (exclusive (memory s4) (last_from head l)) eqn:El.
      * rewrite (proj1 Hiff eq_refl). reflexivity.
      * destruct (shared_rest (memory s4) l) eqn:Es; [| reflexivity].
        discriminate (proj2 Hiff eq_refl).
Qed.
(** Reading the flags of a present block lets the other threads move
    once and shows the class of the block. *)
Lemma run_LoadFlags {A : Type} p (k : Z -> Prog A) env s :
  quiet_value env -> is_Some (memory s !! p) ->
  exists f s1,
    run (Vis (ALoadFlags p) k) env s = run (k f) (tl env) s1
    /\ has_flag f WaiterExclusive = exclusive (memory s) p
    /\ same_view s s1 /\ _value s1 = _value s /\ quiet_value (tl env).
Proof.
  intros Hq Hp.
  destruct (after1_same_view env s Hq) as (V & U & Q).
  destruct (same_view_present _ _ _ V Hp) as [w Hw].
  exists (Flags w), (log (ALoadFlags p) (Flags w) (after1 env s)).
  rewrite run_Vis_yield by reflexivity. cbn [exec]. unfold with_block. rewrite Hw.
  split; [reflexivity |]. split.
  - pose proof V as (_ & _ & _ & _ & _ & _ & W7). rewrite <- W7.
    unfold exclusive. now rewrite Hw.
  - split; [| split; [exact U | exact Q]].
    eapply same_view_trans; [exact V | apply same_view_log].
Qed.

Lemma outcome_eta {A : Type} (o : outcome A) :
  o = mkOutcome (result o) (rest o) (final o).
Proof. now destruct o. Qed.

Lemma all_shared_In m l p : all_shared m l = true -> p ∈ l -> exclusive m p = false.
Proof.
  induction l as [| x l IH]; simpl; intros H Hp.
  - now apply elem_of_nil in Hp.
  - apply andb_true_iff in H as [H1 H2]. apply elem_of_cons in Hp as [-> | Hp].
    + now apply negb_true_iff.
    + now apply IH.
Qed.

(** The loop of Wake moves a queue of shared wait blocks to the wake
    list, in order, and then clears the waiters bit. *)
Lemma Wake_loop_drain wl : forall lq lw fuel first env s,
  quiet_value env ->
  is_list (memory s) (_waitersListHead s) lq ->
  is_list (memory s) wl lw ->
  NoDup (_waitersListHead s :: wl :: lw ++ lq) ->
  all_shared (memory s) lq = true ->
  (length lq + length env < fuel)%nat ->
  exists env' s',
    run (Wake_loop wl fuel first) env s
    = mkOutcome (Returned (_waitersListHead s)) env' s'
    /\ quiet_value env' /\ (length env' <= length env)%nat
    /\ is_list (memory s') (_waitersListHead s) []
    /\ is_list (memory s') wl (lw ++ lq)
    /\ (forall q, exclusive (memory s') q = exclusive (memory s) q)
    /\ _value s' = clear_flag (_value s) LockWaiters
    /\ _lock s' = _lock s
    /\ _waitersListHead s' = _waitersListHead s
    /\ _firstSharedWaiter s' = _firstSharedWaiter s.
Proof.
  induction lq as [| x lq IH]; intros lw fuel first env s Hq Hl Hw Hnd Hsh Hfuel.
  - destruct fuel as [| fuel]; [simpl in Hfuel; lia |].
    cbn [Wake_loop]. step.
    pose proof (is_list_flink_head _ _ _ Hl) as Hf. cbn [List.hd] in Hf.
    erewrite run_LoadFlink by exact Hf. cbn [bind]. step.
    cbn [_waitersListHead log upd_trace]. rewrite Z.eqb_refl. rewrite run_bind.
    match goal with
    | |- context [run (ClearWaitersBit ?f) ?e ?st] =>
        destruct (ClearWaitersBit_run f e st Hq ltac:(lia)) as (R & (K1 & K2 & K3) & V);
        rewrite (outcome_eta (run (ClearWaitersBit f) e st)) in *;
        set (o := run (ClearWaitersBit f) e st) in *
    end.
    cbn [result rest final] in *. rewrite R. cbn [run].
    eexists _, _. split; [reflexivity |].
    pose proof K3 as (W1 & W2 & W3 & W4 & W5 & W6 & W7).
    cbn [_lock _waitersListHead _firstSharedWaiter _spinCount memory log upd_trace _value]
      in *.
    split; [exact K1 |]. split; [exact K2 |]. split.
    { apply (is_list_frame (memory s)); [exact Hl | intros; apply W5 | intros; apply W6]. }
    split.
    { rewrite app_nil_r.
      apply (is_list_frame (memory s)); [exact Hw | intros; apply W5 | intros; apply W6]. }
    repeat split; auto.
  - destruct fuel as [| fuel]; [simpl in Hfuel; lia |].
    set (head := _waitersListHead s) in *.
    pose proof (is_list_flink_head _ _ _ Hl) as Hf. cbn [List.hd] in Hf.
    assert (Hxh : x <> head).
    { destruct Hl as [N _]. apply NoDup_cons in N as [N _]. intros ->. apply N.
      apply list_elem_of_here. }
    assert (Px : is_Some (memory s !! x)).
    { apply (is_list_present _ _ _ _ Hl). apply list_elem_of_further, list_elem_of_here. }
    assert (Hex : exclusive (memory s) x = false).
    { apply (all_shared_In _ _ _ Hsh). apply list_elem_of_here. }
    (* the entry of the iteration, up to the removal *)
    assert (Hentry : exists s1,
      run (Wake_loop wl (S fuel) first) env s
      = run (head0 <- act AGetHead ;;
             wb <- RemoveHeadList head0 ;;
             InsertTailList wl wb ;;
             Wake_loop wl fuel false) (tl env) s1
      /\ same_view s s1 /\ _value s1 = _value s /\ quiet_value (tl env)).
    { cbn [Wake_loop]. step. fold head.
      erewrite run_LoadFlink by exact Hf. cbn [bind]. step.
      cbn [_waitersListHead log upd_trace]. fold head.
      destruct (x =? head) eqn:E; [apply Z.eqb_eq in E; contradiction |].
      destruct first; cbn [negb bind].
      - match goal with
        | |- context [run (Vis (ALoadFlags x) ?k) env ?st] =>
            destruct (run_LoadFlags x k env st Hq Px) as (f & s1 & Hrun & Hfx & V & U & Q)
        end.
        exists s1. rewrite Hrun. cbn [memory log upd_trace] in Hfx. rewrite Hex in Hfx.
        rewrite Hfx. cbn [bind]. split; [reflexivity |]. split; [| split; [exact U | exact Q]].
        exact V.
      - match goal with
        | |- context [run (Vis (ALoadFlags x) ?k) env ?st] =>
            destruct (run_LoadFlags x k env st Hq Px) as (f & s1 & Hrun & Hfx & V & U & Q)
        end.
        exists s1. rewrite Hrun. cbn [memory log upd_trace] in Hfx. rewrite Hex in Hfx.
        rewrite Hfx. cbn [bind]. split; [reflexivity |]. split; [| split; [exact U | exact Q]].
        exact V. }
    destruct Hentry as (s1 & Hrun & V & U & Q). rewrite Hrun. clear Hrun.
    pose proof V as (W1 & W2 & W3 & W4 & W5 & W6 & W7).
    assert (Hl1 : is_list (memory s1) head ([] ++ x :: lq))
      by (now apply (is_list_same_view s)).
    assert (Hw1 : is_list (memory s1) wl lw) by (now apply (is_list_same_view s)).
    step. rewrite W2. fold head. rewrite run_bind.
    pose proof (is_list_flink_head _ _ _ Hl1) as Hf1. cbn [List.hd app] in Hf1.
    pose proof (is_list_flink_mid _ _ [] x lq Hl1) as Hfx.
    assert (Pn : is_Some (memory s1 !! List.hd head lq)).
    { apply (is_list_present _ _ _ _ Hl1). destruct lq as [| y lq']; simpl.
      - apply list_elem_of_here.
      - do 2 apply list_elem_of_further. apply list_elem_of_here. }
    destruct (RemoveHeadList_run head x (List.hd head lq) (tl env)
                (log AGetHead head s1) Hf1 Hfx Pn)
      as (s2 & Hrun & C2 & F2 & B2 & G2).
    rewrite Hrun. clear Hrun. cbn [result rest final]. rewrite run_bind.
    cbn [memory log upd_trace] in F2, B2, G2.
    assert (Hnd' : NoDup (head :: wl :: lw ++ x :: lq)) by exact Hnd.
    assert (Hdis : forall p, p ∈ wl :: lw -> p <> head /\ p ∉ x :: lq).
    { intros p Hp. apply NoDup_cons in Hnd' as [N1 N2].
      split.
      - intros ->. apply N1. apply elem_of_cons in Hp as [-> | Hp].
        + apply list_elem_of_here.
        + apply list_elem_of_further, elem_of_app. now left.
      - intros Hp'. apply elem_of_cons in Hp as [-> | Hp].
        + apply NoDup_cons in N2 as [N2 _]. apply N2, elem_of_app. now right.
        + apply NoDup_cons in N2 as [_ N2]. apply NoDup_app in N2 as (_ & N2 & _).
          now apply (N2 p). }
    (* the two rings after the removal *)
    assert (Hl2 : is_list (memory s2) head ([] ++ lq)).
    { apply (is_list_remove (memory s1) _ head [] x lq Hl1); [exact F2 | exact B2]. }
    assert (Hw2 : is_list (memory s2) wl lw).
    { apply (is_list_frame (memory s1)); [exact Hw1 | |]; intros p Hp;
        destruct (Hdis p Hp) as [D1 D2].
      - rewrite F2. now apply upd_ne.
      - rewrite B2. apply upd_ne. intros ->. destruct lq as [| y lq']; simpl in *.
        + now apply D1.
        + apply D2. apply list_elem_of_further, list_elem_of_here. }
    pose proof (is_list_blink_head _ _ _ Hw2) as Hbw.
    assert (Px2 : is_Some (memory s2 !! x)).
    { apply flink_is_Some. rewrite F2. apply upd_is_Some. rewrite Hfx. eauto. }
    assert (Pb2 : is_Some (memory s2 !! last_from wl lw))
      by (apply (is_list_present _ _ _ _ Hw2); apply last_in).
    destruct (InsertTailList_run wl x (last_from wl lw) (tl env) s2 Hbw Px2 Pb2)
      as (s3 & Hrun & C3 & F3 & B3 & G3).
    rewrite Hrun. clear Hrun. cbn [result rest final].
    destruct (ctx_fields _ _ C2) as (A1 & A2 & A3 & A4 & A5).
    destruct (ctx_fields _ _ C3) as (D1 & D2 & D3 & D4 & D5).
    cbn [log upd_trace _value _lock _waitersListHead _firstSharedWaiter _spinCount]
      in A1, A2, A3, A4, A5.
    assert (Hh3 : _waitersListHead s3 = head) by (rewrite D3, A3, W2; reflexivity).
    assert (Hxw : x ∉ wl :: lw).
    { intros Hp. destruct (Hdis x Hp) as [_ D]. apply D, list_elem_of_here. }
    assert (Hw3 : is_list (memory s3) wl (lw ++ [x])).
    { apply (is_list_insert (memory s2)).
      - now rewrite app_nil_r.
      - now rewrite app_nil_r.
      - exact F3.
      - exact B3. }
    assert (Hl3 : is_list (memory s3) head lq).
    { apply (is_list_frame (memory s2)); [exact Hl2 | |]; intros p Hp.
      - rewrite F3. rewrite !upd_ne; [reflexivity | |].
        + intros ->. destruct Hl as [N _]. apply NoDup_cons in N as [N1 N2].
          apply NoDup_cons in N2 as [N2 _].
          apply elem_of_cons in Hp as [-> | Hp]; [now apply Hxh | now apply N2].
        + intros ->. destruct (Hdis _ (last_in lw wl)) as [E1 E2].
          apply elem_of_cons in Hp as [Hp | Hp]; [now apply E1 |].
          apply E2. now apply list_elem_of_further.
      - rewrite B3. rewrite !upd_ne; [reflexivity | |].
        + intros ->. destruct Hl as [N _]. apply NoDup_cons in N as [N1 N2].
          apply NoDup_cons in N2 as [N2 _].
          apply elem_of_cons in Hp as [-> | Hp]; [now apply Hxh | now apply N2].
        + intros ->. destruct (Hdis wl (list_elem_of_here _ _)) as [E1 E2].
          apply elem_of_cons in Hp as [Hp | Hp]; [now apply E1 |].
          apply E2. now apply list_elem_of_further. }
    assert (E3 : forall q, exclusive (memory s3) q = exclusive (memory s) q).
    { intros q. rewrite (exclusive_ext_flags _ _ G3), (exclusive_ext_flags _ _ G2).
      apply W7. }
    destruct (IH (lw ++ [x]) fuel false (tl env) s3) as (env' & s' & Hrun & R).
    + exact Q.
    + now rewrite Hh3.
    + exact Hw3.
    + rewrite Hh3, <- app_assoc. exact Hnd.
    + rewrite (all_shared_ext _ _ _ E3). simpl in Hsh.
      apply andb_true_iff in Hsh. tauto.
    + pose proof (tl_length env). simpl in Hfuel. lia.
    + rewrite Hrun. rewrite Hh3 in *. exists env', s'. split; [reflexivity |].
      destruct R as (R1 & R2 & R3 & R4 & R5 & R6 & R7 & R8 & R9).
      pose proof (tl_length env).
      split; [exact R1 |]. split; [lia |]. split; [exact R3 |].
      split; [now rewrite <- app_assoc in R4 |].
      split; [intros q; rewrite R5; apply E3 |].
      repeat split; congruence.
Qed.
(** Unblocking the wake list from any of its blocks on returns and
    leaves the lock fields, the links and the classes as they were. *)
Lemma UnblockWakeList_run wl : forall l2 l1 fuel env s,
  quiet_value env ->
  is_list (memory s) wl (l1 ++ l2) ->
  (length l2 + length env < fuel)%nat ->
  let o := run (UnblockWakeList wl (List.hd wl l2) fuel) env s in
  result o = Returned tt /\ keeps env s o /\ _value (final o) = _value s.
Proof.
  induction l2 as [| x l2 IH]; intros l1 fuel env s Hq Hl Hfuel;
    (destruct fuel as [| fuel]; [simpl in Hfuel; lia |]).
  - cbn [List.hd UnblockWakeList]. rewrite Z.eqb_refl. cbn [run result rest final].
    split; [reflexivity |]. split; [| reflexivity].
    unfold keeps. cbn [result rest final].
    split; [exact Hq |]. split; [lia | apply same_view_refl].
  - cbn [List.hd UnblockWakeList].
    assert (Hx : x <> wl).
    { destruct Hl as [N _]. apply NoDup_cons in N as [N _]. intros ->. apply N.
      apply elem_of_app. right. apply list_elem_of_here. }
    destruct (x =? wl) eqn:E; [apply Z.eqb_eq in E; contradiction |].
    pose proof (is_list_flink_mid _ _ _ _ _ Hl) as Hf.
    cbv zeta. unfold act. cbn [bind].
    erewrite run_LoadFlink by exact Hf. cbn [bind]. rewrite run_bind.
    assert (Px : is_Some (memory (log (ALoadFlink x) (List.hd wl l2) s) !! x)).
    { apply (is_list_present _ _ _ _ Hl). apply list_elem_of_further, elem_of_app.
      right. apply list_elem_of_here. }
    match goal with
    | |- context [run (Unblock x ?f) env ?st] =>
        destruct (Unblock_run x f env st Hq Px ltac:(simpl in Hfuel; lia))
          as (R & (K1 & K2 & K3) & V);
        set (o := run (Unblock x f) env st) in *
    end.
    rewrite R.
    assert (Hl' : is_list (memory (final o)) wl ((l1 ++ [x]) ++ l2)).
    { rewrite <- app_assoc. apply (is_list_same_view _ _ _ _ K3). exact Hl. }
    destruct (IH (l1 ++ [x]) fuel (rest o) (final o) K1 Hl') as (R' & (J1 & J2 & J3) & V').
    { simpl in Hfuel. lia. }
    split; [exact R' |]. split.
    + split; [exact J1 |]. split; [lia |].
      eapply same_view_trans; [| exact J3].
      eapply same_view_trans; [| exact K3]. apply same_view_log.
    + rewrite V', V. reflexivity.
Qed.

(** Wake and WakeShared start with an empty wake list of their own and
    the queue lock held. *)
Lemma wake_list_setup {A : Type} m0 wl (k : Prog A) env s l :
  queue s l -> _lock s = false -> wl ∉ _waitersListHead s :: l ->
  exists s0,
    run (act_ (AEnter m0) ;;
         act_ (ANew wl) ;;
         act_ (AStoreFlink wl wl) ;;
         act_ (AStoreBlink wl wl) ;;
         act_ ALockAcquire ;;
         k) env s
    = run k env s0
    /\ queue s0 l
    /\ is_list (memory s0) wl []
    /\ _lock s0 = true
    /\ _value s0 = _value s
    /\ _waitersListHead s0 = _waitersListHead s
    /\ (forall q, q <> wl -> exclusive (memory s0) q = exclusive (memory s) q).
Proof.
  intros (Hl & Ho & Hfs) Hlock Hwl.
  step. step.
  set (s1 := log (ANew wl) 0 (store_block wl (mkWaitBlock 0 0 0) (log (AEnter m0) 0 s))).
  assert (P1 : is_Some (memory s1 !! wl)).
  { subst s1. cbn [memory log upd_trace store_block upd_memory].
    rewrite lookup_insert_eq. eauto. }
  unfold act_, act. cbn [bind].
  destruct (run_StoreFlink wl wl
              (fun _ => Vis (AStoreBlink wl wl) (fun _ => Vis ALockAcquire (fun _ => k)))
              env s1 P1)
    as (s2 & Hrun & C2 & _ & F2 & B2 & G2).
  rewrite Hrun. clear Hrun.
  assert (P2 : is_Some (memory s2 !! wl)).
  { apply flink_is_Some. rewrite F2. rewrite upd_eq. eauto. }
  destruct (run_StoreBlink wl wl (fun _ => Vis ALockAcquire (fun _ => k)) env s2 P2)
    as (s3 & Hrun & C3 & _ & F3 & B3 & G3).
  rewrite Hrun. clear Hrun.
  destruct (ctx_fields _ _ C2) as (A1 & A2 & A3 & A4 & A5).
  destruct (ctx_fields _ _ C3) as (D1 & D2 & D3 & D4 & D5).
  subst s1.
  cbn [log upd_trace store_block upd_memory _value _lock _waitersListHead
       _firstSharedWaiter _spinCount memory] in *.
  rewrite run_Vis_plain by reflexivity. cbn [exec].
  rewrite D2, A2, Hlock.
  assert (Hother : forall q, q <> wl ->
            flink (memory s3) q = flink (memory s) q
            /\ blink (memory s3) q = blink (memory s) q
            /\ flags (memory s3) q = flags (memory s) q).
  { intros q Hq. rewrite F3, F2, B3, G3, G2. rewrite !upd_ne by exact Hq. rewrite B2.
    apply lookup_fields. now apply lookup_insert_ne. }
  assert (Hin : forall q, q ∈ _waitersListHead s :: l -> q <> wl).
  { intros q Hq ->. now apply Hwl. }
  assert (Hex : forall q, q <> wl -> exclusive (memory s3) q = exclusive (memory s) q).
  { intros q Hq. apply exclusive_flags_ext. now apply Hother. }
  eexists. split; [reflexivity |].
  cbn [log upd_trace upd_lock _value _lock _waitersListHead _firstSharedWaiter memory].
  split; [| repeat split].
  - unfold queue.
    cbn [log upd_trace upd_lock _value _lock _waitersListHead _firstSharedWaiter memory].
    rewrite D3, A3, D4, A4. split; [| split].
    + apply (is_list_frame (memory s)); [exact Hl | |]; intros p Hp;
        now apply Hother, Hin.
    + rewrite <- Ho. apply ordered_ext_on. intros q Hq. apply Hex, Hin.
      now apply list_elem_of_further.
    + rewrite Hfs. symmetry. apply first_shared_ext_on. intros q Hq. apply Hex, Hin.
      now apply list_elem_of_further.
  - apply NoDup_singleton.
  - rewrite F3, F2. apply upd_eq.
  - rewrite B3. apply upd_eq.
  - congruence.
  - congruence.
  - exact Hex.
Qed.
Lemma ordered_hd_shared m head l :
  ordered m l = true -> exclusive m (List.hd head l) = false -> all_shared m l = true.
Proof.
  destruct l as [| x l]; simpl; [reflexivity |]. intros Ho Hx. rewrite Hx in *.
  exact Ho.
Qed.

(** With an exclusive wait block at the head of the queue, the loop of
    Wake takes that block off the queue and stops. *)
Lemma Wake_loop_exclusive wl fuel env s x l :
  quiet_value env ->
  is_list (memory s) (_waitersListHead s) (x :: l) ->
  exclusive (memory s) x = true ->
  exists s1,
    run (Wake_loop wl (S fuel) true) env s = mkOutcome (Returned x) (tl env) s1
    /\ quiet_value (tl env)
    /\ is_list (memory s1) (_waitersListHead s) l
    /\ (forall q, exclusive (memory s1) q = exclusive (memory s) q)
    /\ is_Some (memory s1 !! x)
    /\ _value s1 = _value s
    /\ _lock s1 = _lock s
    /\ _waitersListHead s1 = _waitersListHead s
    /\ _firstSharedWaiter s1 = _firstSharedWaiter s.
Proof.
  intros Hq Hl Hex.
  set (head := _waitersListHead s) in *.
  pose proof (is_list_flink_head _ _ _ Hl) as Hf. cbn [List.hd] in Hf.
  assert (Hxh : x <> head).
  { destruct Hl as [N _]. apply NoDup_cons in N as [N _]. intros ->. apply N.
    apply list_elem_of_here. }
  assert (Px : is_Some (memory s !! x)).
  { apply (is_list_present _ _ _ _ Hl). apply list_elem_of_further, list_elem_of_here. }
  cbn [Wake_loop]. step. fold head.
  erewrite run_LoadFlink by exact Hf. cbn [bind]. step.
  cbn [_waitersListHead log upd_trace]. fold head.
  destruct (x =? head) eqn:E; [apply Z.eqb_eq in E; contradiction |].
  cbn [negb bind].
  match goal with
  | |- context [run (Vis (ALoadFlags x) ?k) env ?st] =>
      destruct (run_LoadFlags x k env st Hq Px) as (f & s1 & Hrun & Hfx & V & U & Q)
  end.
  rewrite Hrun. clear Hrun. cbn [memory log upd_trace] in Hfx. rewrite Hex in Hfx.
  rewrite Hfx. cbn [bind].
  pose proof V as (W1 & W2 & W3 & W4 & W5 & W6 & W7).
  cbn [log upd_trace _value _lock _waitersListHead _firstSharedWaiter _spinCount memory]
    in *.
  assert (Hl1 : is_list (memory s1) head ([] ++ x :: l)).
  { apply (is_list_frame (memory s)); [exact Hl | intros; apply W5 | intros; apply W6]. }
  step. rewrite W2. fold head.
  pose proof (is_list_flink_head _ _ _ Hl1) as Hf1. cbn [List.hd app] in Hf1.
  pose proof (is_list_flink_mid _ _ [] x l Hl1) as Hfx1.
  assert (Pn : is_Some (memory s1 !! List.hd head l)).
  { apply (is_list_present _ _ _ _ Hl1). destruct l as [| y l']; simpl.
    - apply list_elem_of_here.
    - do 2 apply list_elem_of_further. apply list_elem_of_here. }
  destruct (RemoveHeadList_run head x (List.hd head l) (tl env)
              (log AGetHead head s1) Hf1 Hfx1 Pn)
    as (s2 & Hrun & C2 & F2 & B2 & G2).
  rewrite Hrun. clear Hrun.
  destruct (ctx_fields _ _ C2) as (A1 & A2 & A3 & A4 & A5).
  cbn [log upd_trace _value _lock _waitersListHead _firstSharedWaiter _spinCount memory]
    in *.
  exists s2. split; [reflexivity |]. split; [exact Q |]. split.
  { apply (is_list_remove (memory s1) _ head [] x l Hl1); [exact F2 | exact B2]. }
  split.
  { intros q. rewrite (exclusive_ext_flags _ _ G2). apply W7. }
  split.
  { apply flink_is_Some. rewrite F2. apply upd_is_Some. rewrite Hfx1. eauto. }
  subst head. repeat split; congruence.
Qed.

(** Wake: with an exclusive wait block at the head of the queue only
    that block leaves the queue and the waiters bit is not written;
    otherwise the whole queue is moved out and the waiters bit is
    cleared.  After its loop Wake reads the flags word of the block the
    loop stopped at; when the queue was drained this is the list head,
    whose flags word the constructor leaves unwritten: with the exclusive
    bit set there, FirstShared is not reset and the list head is
    unblocked in place of the wake list. *)
Lemma Wake_run_any wl fuel env s l :
  quiet_value env -> queue s l -> _lock s = false ->
  wl ∉ _waitersListHead s :: l ->
  (length l + length env < fuel)%nat ->
  let o := run (Wake wl fuel) env s in
  let first_is_exclusive :=
    match l with x :: _ => exclusive (memory s) x | [] => false end in
  let l' := if first_is_exclusive then tl l else [] in
  result o = Returned tt
  /\ is_list (memory (final o)) (_waitersListHead s) l'
  /\ ordered (memory (final o)) l' = true
  /\ _firstSharedWaiter (final o)
     = (if first_is_exclusive || exclusive (memory s) (_waitersListHead s)
        then _firstSharedWaiter s else _waitersListHead s)
  /\ _value (final o)
     = (if first_is_exclusive then _value s else clear_flag (_value s) LockWaiters)
  /\ _lock (final o) = false
  /\ _waitersListHead (final o) = _waitersListHead s
  /\ (forall q, q <> wl -> exclusive (memory (final o)) q = exclusive (memory s) q).
Proof.
  intros Hq Hqueue Hlock Hwl Hfuel o fe l'. subst o fe l'. unfold Wake.
  match goal with
  | |- context [run (_ ;; _ ;; _ ;; _ ;; _ ;; ?k) env s] =>
      destruct (wake_list_setup MWake wl k env s l Hqueue Hlock Hwl)
        as (s0 & Hrun & (Hl & Ho & Hfs) & Hw & L0 & V0 & H0 & E0)
  end.
  rewrite Hrun. clear Hrun.
  set (head := _waitersListHead s) in *. rewrite H0 in Hl, Hfs.
  assert (Hhw : head <> wl).
  { intros E. apply Hwl. rewrite <- E. apply list_elem_of_here. }
  assert (Hlw : forall q, q ∈ l -> q <> wl).
  { intros q Hq' ->. apply Hwl. now apply list_elem_of_further. }
  assert (FS0 : _firstSharedWaiter s0 = _firstSharedWaiter s).
  { destruct Hqueue as (_ & _ & G). rewrite Hfs, G. fold head.
    apply first_shared_ext_on. intros q Hq'. apply E0. now apply Hlw. }
  rewrite run_bind.
  destruct (match l with x :: _ => exclusive (memory s) x | [] => false end) eqn:Ehd.
  - (* an exclusive wait block is at the head *)
    destruct l as [| x l]; [congruence |].
    cbn [List.hd tl orb] in *.
    destruct fuel as [| fuel]; [simpl in Hfuel; lia |].
    assert (Hx0 : exclusive (memory s0) x = true).
    { rewrite E0; [exact Ehd | apply Hlw, list_elem_of_here]. }
    rewrite <- H0 in Hl.
    destruct (Wake_loop_exclusive wl fuel env s0 x l Hq Hl Hx0)
      as (s1 & Hrun & Q & Hl1 & E1 & Px & V1 & L1 & H1 & F1).
    rewrite Hrun. clear Hrun. cbn [result rest final]. rewrite H0 in Hl, Hl1.
    assert (Q1 : queue s1 l).
    { unfold queue. rewrite H1, H0, F1, Hfs. split; [exact Hl1 |]. split.
      - rewrite (ordered_ext _ _ _ E1). simpl in Ho. now rewrite Hx0 in Ho.
      - simpl. rewrite Hx0. symmetry. now apply first_shared_ext. }
    unfold act, act_. cbn [bind].
    match goal with
    | |- context [run (Vis (ALoadFlags x) ?k) ?e ?st] =>
        destruct (run_LoadFlags x k e st Q Px) as (f & s2 & Hrun & Hf & V & U & Q')
    end.
    rewrite Hrun. clear Hrun. rewrite E1, Hx0 in Hf.
    rewrite no_flag_has_flag, Hf. cbn [negb bind].
    rewrite run_Vis_plain by reflexivity. cbn [exec].
    set (s3 := log ALockRelease 0 (upd_lock false s2)).
    assert (Q3 : queue s3 l) by (apply (queue_same_view _ _ _ V) in Q1; exact Q1).
    assert (P3 : is_Some (memory s3 !! x)) by exact (same_view_present _ _ _ V Px).
    match goal with
    | |- context [run (Vis (ALoadFlags x) ?k) ?e ?st] =>
        destruct (run_LoadFlags x k e st Q' P3) as (f' & s4 & Hrun & Hf' & V' & U' & Q'')
    end.
    rewrite Hrun. clear Hrun.
    assert (E3 : forall q, exclusive (memory s3) q = exclusive (memory s0) q).
    { intros q. destruct V as (_ & _ & _ & _ & _ & _ & W7).
      change (memory s3) with (memory s2). rewrite W7. apply E1. }
    rewrite E3, Hx0 in Hf'. rewrite Hf'.
    pose proof (tl_length env). pose proof (tl_length (tl env)).
    pose proof (tl_length (tl (tl env))).
    destruct (Unblock_run x (S fuel) (tl (tl (tl env))) s4 Q''
                (same_view_present _ _ _ V' P3) ltac:(simpl in Hfuel; lia))
      as (R & (K1 & K2 & K3) & VV).
    split; [exact R |].
    pose proof (same_view_trans _ _ _ V' K3) as VT.
    pose proof VT as (T1 & T2 & T3 & T4 & T5 & T6 & T7).
    pose proof V as (_ & S2 & S3 & _).
    pose proof (queue_same_view _ _ _ VT Q3) as (Z1 & Z2 & Z3).
    rewrite T2 in Z1. change (_waitersListHead s3) with (_waitersListHead s2) in Z1.
    rewrite S2, H1, H0 in Z1.
    split; [exact Z1 |]. split; [exact Z2 |].
    split.
    { rewrite T3. change (_firstSharedWaiter s3) with (_firstSharedWaiter s2).
      rewrite S3, F1. exact FS0. }
    split; [rewrite VV, U'; cbn; rewrite U; cbn; congruence |].
    split; [rewrite T1; reflexivity |].
    split; [rewrite T2; cbn; congruence |].
    intros q Hq'. rewrite T7, E3. now apply E0.
  - (* the queue is empty or holds shared wait blocks only *)
    assert (Hsh : all_shared (memory s0) l = true).
    { destruct l as [| y l']; [reflexivity |].
      assert (Ey : exclusive (memory s0) y = false).
      { rewrite E0; [exact Ehd | apply Hlw, list_elem_of_here]. }
      simpl in Ho |- *. rewrite Ey in Ho |- *. exact Ho. }
    assert (Hnd : NoDup (_waitersListHead s0 :: wl :: [] ++ l)).
    { rewrite H0. destruct Hl as [N _]. apply NoDup_cons in N as [N1 N2].
      apply NoDup_cons. split.
      - intros Hin. apply elem_of_cons in Hin as [Hin | Hin]; [now apply Hhw | now apply N1].
      - apply NoDup_cons. split; [| exact N2].
        intros Hin. apply Hwl. now apply list_elem_of_further. }
    rewrite <- H0 in Hl.
    destruct (Wake_loop_drain wl l [] fuel true env s0 Hq Hl Hw Hnd Hsh Hfuel)
      as (env1 & s1 & Hrun & Q & Len & Hl1 & Hw1 & E1 & V1 & L1 & H1 & F1).
    rewrite Hrun. clear Hrun. cbn [result rest final]. rewrite H0 in *.
    cbn [app] in Hw1.
    assert (Ph : is_Some (memory s1 !! head)).
    { apply (is_list_present _ _ _ _ Hl1). apply list_elem_of_here. }
    unfold act, act_. cbn [bind].
    match goal with
    | |- context [run (Vis (ALoadFlags head) ?k) ?e ?st] =>
        destruct (run_LoadFlags head k e st Q Ph) as (f & s2 & Hrun & Hf & V & U & Q')
    end.
    rewrite Hrun. clear Hrun.
    assert (Hh0 : exclusive (memory s0) head = exclusive (memory s) head)
      by (rewrite E0; auto).
    rewrite E1, Hh0 in Hf.
    rewrite no_flag_has_flag, Hf. cbn [orb].
    pose proof V as (S1 & S2 & S3 & S4 & S5 & S6 & S7).
    destruct (exclusive (memory s) head) eqn:Eh; cbn [negb bind].
    + (* the flags word of the list head has the exclusive bit set *)
      rewrite run_Vis_plain by reflexivity. cbn [exec].
      match goal with
      | |- context [run (Vis (ALoadFlags head) ?k) ?e ?st] => set (s3 := st)
      end.
      assert (P3 : is_Some (memory s3 !! head)) by exact (same_view_present _ _ _ V Ph).
      match goal with
      | |- context [run (Vis (ALoadFlags head) ?k) ?e s3] =>
          destruct (run_LoadFlags head k e s3 Q' P3)
            as (f' & s4 & Hrun & Hf' & V' & U' & Q'')
      end.
      rewrite Hrun. clear Hrun.
      assert (E3 : forall q, exclusive (memory s3) q = exclusive (memory s0) q).
      { intros q. change (memory s3) with (memory s2). rewrite S7. apply E1. }
      rewrite E3, Hh0 in Hf'. rewrite Hf'.
      pose proof V' as (T1 & T2 & T3 & T4 & T5 & T6 & T7).
      pose proof (tl_length env1). pose proof (tl_length (tl env1)).
      destruct (Unblock_run head fuel (tl (tl env1)) s4 Q''
                  (same_view_present _ _ _ V' P3) ltac:(lia))
        as (R & (K1 & K2 & K3) & VV).
      split; [exact R |].
      pose proof K3 as (N1 & N2 & N3 & N4 & N5 & N6 & N7).
      split.
      { apply (is_list_frame (memory s1)); [exact Hl1 | |]; intros p _.
        - rewrite N5, T5. apply S5.
        - rewrite N6, T6. apply S6. }
      split; [reflexivity |].
      split.
      { rewrite N3, T3. change (_firstSharedWaiter s3) with (_firstSharedWaiter s2).
        rewrite S3, F1. exact FS0. }
      split; [rewrite VV, U'; subst s3; cbn; rewrite U; cbn; congruence |].
      split; [rewrite N1, T1; reflexivity |].
      split; [rewrite N2, T2; subst s3; cbn; congruence |].
      intros q Hq'. rewrite N7, T7, E3. now apply E0.
    + rewrite run_Vis_plain by reflexivity. cbn [exec].
      rewrite run_Vis_plain by reflexivity. cbn [exec].
      rewrite run_Vis_plain by reflexivity. cbn [exec].
      cbn [_waitersListHead log upd_trace].
      rewrite S2, H1.
      match goal with
      | |- context [run (Vis (ALoadFlags head) ?k) ?e ?st] => set (s3 := st)
      end.
      assert (P3 : is_Some (memory s3 !! head)) by exact (same_view_present _ _ _ V Ph).
      match goal with
      | |- context [run (Vis (ALoadFlags head) ?k) ?e s3] =>
          destruct (run_LoadFlags head k e s3 Q' P3)
            as (f' & s4 & Hrun & Hf' & V' & U' & Q'')
      end.
      rewrite Hrun. clear Hrun.
      assert (E3 : forall q, exclusive (memory s3) q = exclusive (memory s0) q).
      { intros q. change (memory s3) with (memory s2). rewrite S7. apply E1. }
      rewrite E3, Hh0 in Hf'. rewrite Hf'.
      pose proof V' as (T1 & T2 & T3 & T4 & T5 & T6 & T7).
      assert (Hw4 : is_list (memory s4) wl ([] ++ l)).
      { apply (is_list_frame (memory s1)); [exact Hw1 | |]; intros p _.
        - rewrite T5. apply S5.
        - rewrite T6. apply S6. }
      pose proof (is_list_flink_head _ _ _ Hw4) as Hfw. cbn [app] in Hfw.
      erewrite run_LoadFlink by exact Hfw.
      pose proof (tl_length env1). pose proof (tl_length (tl env1)).
      destruct (UnblockWakeList_run wl l [] fuel (tl (tl env1))
                  (log (ALoadFlink wl) (List.hd wl l) s4) Q'' Hw4 ltac:(lia))
        as (R & (K1 & K2 & K3) & VV).
      split; [exact R |].
      pose proof K3 as (N1 & N2 & N3 & N4 & N5 & N6 & N7).
      cbn [log upd_trace _value _lock _waitersListHead _firstSharedWaiter _spinCount memory]
        in N1, N2, N3, N4, N5, N6, N7, VV.
      split.
      { apply (is_list_frame (memory s1)); [exact Hl1 | |]; intros p _.
        - rewrite N5, T5. apply S5.
        - rewrite N6, T6. apply S6. }
      split; [reflexivity |].
      split; [rewrite N3, T3; subst s3; reflexivity |].
      split; [rewrite VV, U'; subst s3; cbn; rewrite U; cbn; congruence |].
      split; [rewrite N1, T1; reflexivity |].
      split; [rewrite N2, T2; subst s3; cbn; congruence |].
      intros q Hq'. rewrite N7, T7, E3. now apply E0.
Qed.

(** The queue Wake leaves is well formed, FirstShared included, when the
    first wait block was exclusive or the flags word of the list head has
    the exclusive bit clear. *)
Lemma Wake_keeps_queue wl fuel env s l :
  quiet_value env -> queue s l -> _lock s = false ->
  wl ∉ _waitersListHead s :: l ->
  (length l + length env < fuel)%nat ->
  let o := run (Wake wl fuel) env s in
  let first_is_exclusive :=
    match l with x :: _ => exclusive (memory s) x | [] => false end in
  first_is_exclusive || negb (exclusive (memory s) (_waitersListHead s)) = true ->
  queue (final o) (if first_is_exclusive then tl l else []).
Proof.
  intros Hq Hqueue Hlock Hwl Hfuel o fe Hc.
  destruct (Wake_run_any wl fuel env s l Hq Hqueue Hlock Hwl Hfuel)
    as (_ & IL & OR & FS & _ & _ & H & E).
  fold o fe in IL, OR, FS, H, E. unfold queue. rewrite H.
  split; [exact IL |]. split; [exact OR |]. rewrite FS.
  destruct Hqueue as (_ & _ & G). subst fe.
  destruct l as [| x l'].
  - cbn [orb negb] in *. apply negb_true_iff in Hc. rewrite Hc. reflexivity.
  - destruct (exclusive (memory s) x) eqn:Ex; cbn [orb tl] in *.
    + rewrite G. cbn [first_shared]. rewrite Ex. symmetry.
      apply first_shared_ext_on. intros q Hq'. apply E. intros ->.
      apply Hwl. now do 2 apply list_elem_of_further.
    + apply negb_true_iff in Hc. rewrite Hc. reflexivity.
Qed.

Lemma Wake_run wl fuel env s l :
  quiet_value env -> queue s l -> _lock s = false ->
  wl ∉ _waitersListHead s :: l ->
  exclusive (memory s) (_waitersListHead s) = false ->
  (length l + length env < fuel)%nat ->
  let o := run (Wake wl fuel) env s in
  let first_is_exclusive := exclusive (memory s) (List.hd (_waitersListHead s) l) in
  result o = Returned tt
  /\ queue (final o) (if first_is_exclusive then tl l else [])
  /\ _value (final o)
     = (if first_is_exclusive then _value s else clear_flag (_value s) LockWaiters)
  /\ _lock (final o) = false
  /\ _waitersListHead (final o) = _waitersListHead s
  /\ (forall q, q <> wl -> exclusive (memory (final o)) q = exclusive (memory s) q).
Proof.
  intros Hq Hqueue Hlock Hwl Hhead Hfuel o fe.
  assert (Efe : fe = match l with x :: _ => exclusive (memory s) x | [] => false end).
  { subst fe. destruct l; [exact Hhead | reflexivity]. }
  destruct (Wake_run_any wl fuel env s l Hq Hqueue Hlock Hwl Hfuel)
    as (R & _ & _ & _ & V & L & H & E).
  pose proof (Wake_keeps_queue wl fuel env s l Hq Hqueue Hlock Hwl Hfuel) as Q.
  cbv zeta in Q. rewrite <- Efe in *. fold o in R, V, L, H, E, Q.
  split; [exact R |].
  split; [apply Q; rewrite Hhead; apply orb_true_r |].
  repeat split; assumption.
Qed.

(** The loop of WakeShared moves every wait block from [wb] up to the
    head of the queue to the wake list, and then clears the waiters bit,
    whatever is left on the queue ahead of [wb]. *)
Lemma WakeShared_loop_drain wl : forall lq le lw fuel env s,
  quiet_value env ->
  is_list (memory s) (_waitersListHead s) (le ++ lq) ->
  is_list (memory s) wl lw ->
  NoDup (_waitersListHead s :: wl :: lw ++ le ++ lq) ->
  (length lq < fuel)%nat ->
  exists env' s',
    run (WakeShared_loop wl (List.hd (_waitersListHead s) lq) fuel) env s
    = mkOutcome (Returned tt) env' s'
    /\ quiet_value env' /\ (length env' <= length env)%nat
    /\ is_list (memory s') (_waitersListHead s) le
    /\ is_list (memory s') wl (lw ++ lq)
    /\ (forall q, exclusive (memory s') q = exclusive (memory s) q)
    /\ _value s' = clear_flag (_value s) LockWaiters
    /\ _lock s' = _lock s
    /\ _waitersListHead s' = _waitersListHead s
    /\ _firstSharedWaiter s' = _firstSharedWaiter s.
Proof.
  induction lq as [| x lq IH]; intros le lw fuel env s Hq Hl Hw Hnd Hfuel;
    (destruct fuel as [| fuel]; [simpl in Hfuel; lia |]).
  - cbn [WakeShared_loop List.hd]. step. rewrite Z.eqb_refl.
    match goal with
    | |- context [run (ClearWaitersBit ?f) ?e ?st] =>
        destruct (ClearWaitersBit_run f e st Hq ltac:(lia)) as (R & (K1 & K2 & K3) & V);
        rewrite (outcome_eta (run (ClearWaitersBit f) e st)) in *;
        set (o := run (ClearWaitersBit f) e st) in *
    end.
    cbn [result rest final] in *. rewrite R.
    eexists _, _. split; [reflexivity |].
    pose proof K3 as (W1 & W2 & W3 & W4 & W5 & W6 & W7).
    cbn [_lock _waitersListHead _firstSharedWaiter _spinCount memory log upd_trace _value]
      in *.
    rewrite app_nil_r in *.
    split; [exact K1 |]. split; [exact K2 |]. split.
    { apply (is_list_frame (memory s)); [exact Hl | intros; apply W5 | intros; apply W6]. }
    split.
    { apply (is_list_frame (memory s)); [exact Hw | intros; apply W5 | intros; apply W6]. }
    repeat split; auto.
  - set (head := _waitersListHead s) in *.
    assert (Hnd' : NoDup (head :: wl :: lw ++ le ++ x :: lq)) by exact Hnd.
    assert (Hxh : x <> head).
    { destruct Hl as [N _]. apply NoDup_cons in N as [N _]. intros ->. apply N.
      apply elem_of_app. right. apply list_elem_of_here. }
    assert (Hdis : forall p, p ∈ wl :: lw -> p <> head /\ p ∉ le ++ x :: lq).
    { intros p Hp. apply NoDup_cons in Hnd' as [N1 N2].
      split.
      - intros ->. apply N1. apply elem_of_cons in Hp as [-> | Hp].
        + apply list_elem_of_here.
        + apply list_elem_of_further, elem_of_app. now left.
      - intros Hp'. apply elem_of_cons in Hp as [-> | Hp].
        + apply NoDup_cons in N2 as [N2 _]. apply N2, elem_of_app. now right.
        + apply NoDup_cons in N2 as [_ N2]. apply NoDup_app in N2 as (_ & N2 & _).
          now apply (N2 p). }
    cbn [WakeShared_loop List.hd]. step. fold head.
    destruct (x =? head) eqn:E; [apply Z.eqb_eq in E; contradiction |].
    pose proof (is_list_flink_mid _ _ _ _ _ Hl) as Hfx.
    pose proof (is_list_blink_mid _ _ _ _ _ Hl) as Hbx.
    erewrite run_LoadFlink by exact Hfx. cbn [bind]. rewrite run_bind.
    assert (Pn : is_Some (memory s !! List.hd head lq)).
    { apply (is_list_present _ _ _ _ Hl). destruct lq as [| y lq']; simpl.
      - apply list_elem_of_here.
      - apply list_elem_of_further, elem_of_app. right.
        apply list_elem_of_further, list_elem_of_here. }
    assert (Pp : is_Some (memory s !! last_from head le)).
    { apply (is_list_present _ _ _ _ Hl).
      pose proof (last_in le head) as Hin. apply elem_of_cons in Hin as [-> | Hin].
      - apply list_elem_of_here.
      - apply list_elem_of_further, elem_of_app. now left. }
    match goal with
    | |- context [run (RemoveEntryList x) env ?st] =>
        destruct (RemoveEntryList_run x (List.hd head lq) (last_from head le) env st
                    Hfx Hbx Pn Pp)
          as (s2 & Hrun & C2 & F2 & B2 & G2)
    end.
    rewrite Hrun. clear Hrun. cbn [result rest final]. rewrite run_bind.
    cbn [memory log upd_trace] in F2, B2, G2.
    assert (Hl2 : is_list (memory s2) head (le ++ lq)).
    { apply (is_list_remove (memory s) _ head le x lq Hl); [exact F2 | exact B2]. }
    assert (Hw2 : is_list (memory s2) wl lw).
    { apply (is_list_frame (memory s)); [exact Hw | |]; intros p Hp;
        destruct (Hdis p Hp) as [D1 D2].
      - rewrite F2. apply upd_ne. intros ->.
        pose proof (last_in le head) as Hin. apply elem_of_cons in Hin as [Hin | Hin].
        + now apply D1.
        + apply D2, elem_of_app. now left.
      - rewrite B2. apply upd_ne. intros ->. destruct lq as [| y lq']; simpl in *.
        + now apply D1.
        + apply D2, elem_of_app. right.
          apply list_elem_of_further, list_elem_of_here. }
    pose proof (is_list_blink_head _ _ _ Hw2) as Hbw.
    assert (Px2 : is_Some (memory s2 !! x)).
    { apply flink_is_Some. rewrite F2. apply upd_is_Some. rewrite Hfx. eauto. }
    assert (Pb2 : is_Some (memory s2 !! last_from wl lw))
      by (apply (is_list_present _ _ _ _ Hw2); apply last_in).
    destruct (InsertTailList_run wl x (last_from wl lw) env s2 Hbw Px2 Pb2)
      as (s3 & Hrun & C3 & F3 & B3 & G3).
    rewrite Hrun. clear Hrun. cbn [result rest final].
    destruct (ctx_fields _ _ C2) as (A1 & A2 & A3 & A4 & A5).
    destruct (ctx_fields _ _ C3) as (D1 & D2 & D3 & D4 & D5).
    cbn [log upd_trace _value _lock _waitersListHead _firstSharedWaiter _spinCount]
      in A1, A2, A3, A4, A5.
    assert (Hh3 : _waitersListHead s3 = head) by (rewrite D3, A3; reflexivity).
    assert (Hxw : x ∉ wl :: lw).
    { intros Hp. destruct (Hdis x Hp) as [_ D]. apply D, elem_of_app. right.
      apply list_elem_of_here. }
    assert (Hw3 : is_list (memory s3) wl (lw ++ [x])).
    { apply (is_list_insert (memory s2)).
      - now rewrite app_nil_r.
      - now rewrite app_nil_r.
      - exact F3.
      - exact B3. }
    assert (Hxq : x ∉ head :: le ++ lq).
    { destruct Hl as [N _]. intros Hin. apply elem_of_cons in Hin as [Hin | Hin];
        [now apply Hxh |].
      apply NoDup_cons in N as [_ N]. apply NoDup_app in N as (_ & N1 & N2).
      apply elem_of_app in Hin as [Hin | Hin].
      - apply (N1 x Hin). apply list_elem_of_here.
      - apply NoDup_cons in N2 as [N2 _]. now apply N2. }
    assert (Hl3 : is_list (memory s3) head (le ++ lq)).
    { apply (is_list_frame (memory s2)); [exact Hl2 | |]; intros p Hp.
      - rewrite F3. rewrite !upd_ne; [reflexivity | |].
        + intros ->. now apply Hxq.
        + intros ->. destruct (Hdis _ (last_in lw wl)) as [E1 E2].
          apply elem_of_cons in Hp as [Hp | Hp]; [now apply E1 |].
          apply E2. apply elem_of_app in Hp as [Hp | Hp]; apply elem_of_app;
            [now left | right; now apply list_elem_of_further].
      - rewrite B3. rewrite !upd_ne; [reflexivity | |].
        + intros ->. now apply Hxq.
        + intros ->. destruct (Hdis wl (list_elem_of_here _ _)) as [E1 E2].
          apply elem_of_cons in Hp as [Hp | Hp]; [now apply E1 |].
          apply E2. apply elem_of_app in Hp as [Hp | Hp]; apply elem_of_app;
            [now left | right; now apply list_elem_of_further]. }
    assert (E3 : forall q, exclusive (memory s3) q = exclusive (memory s) q).
    { intros q. rewrite (exclusive_ext_flags _ _ G3). now apply exclusive_flags_ext. }
    destruct (IH le (lw ++ [x]) fuel env s3) as (env' & s' & Hrun & R).
    + exact Hq.
    + now rewrite Hh3.
    + exact Hw3.
    + rewrite Hh3, <- app_assoc. simpl.
      apply NoDup_cons in Hnd' as [N1 N2]. apply NoDup_cons in N2 as [N2 N3].
      apply NoDup_cons. split.
      { intros Hin. apply N1. apply elem_of_cons in Hin as [Hin | Hin];
          [rewrite Hin; apply list_elem_of_here | apply list_elem_of_further].
        rewrite !elem_of_app in *. rewrite !elem_of_cons in *. rewrite elem_of_app in Hin.
        tauto. }
      apply NoDup_cons. split.
      { intros Hin. apply N2.
        rewrite !elem_of_app in *. rewrite !elem_of_cons in *. rewrite elem_of_app in Hin.
        tauto. }
      apply NoDup_app in N3 as (M1 & M2 & M3). apply NoDup_app in M3 as (M3 & M4 & M5).
      apply NoDup_cons in M5 as [M5 M6].
      apply NoDup_app. split; [exact M1 |]. split.
      { intros p Hp Hin. apply (M2 p Hp).
        rewrite !elem_of_cons in *. rewrite !elem_of_app in *. rewrite !elem_of_cons in *.
        tauto. }
      apply NoDup_cons. split.
      { intros Hin. apply elem_of_app in Hin as [Hin | Hin]; [| now apply M5].
        apply (M4 x Hin). apply list_elem_of_here. }
      apply NoDup_app. split; [exact M3 |]. split; [| exact M6].
      intros p Hp Hin. apply (M4 p Hp). now apply list_elem_of_further.
    + simpl in Hfuel. lia.
    + rewrite Hh3 in *. rewrite Hrun. exists env', s'. split; [reflexivity |].
      destruct R as (R1 & R2 & R3 & R4 & R5 & R6 & R7 & R8 & R9).
      split; [exact R1 |]. split; [exact R2 |]. split; [exact R3 |].
      split; [now rewrite <- app_assoc in R4 |].
      split; [intros q; rewrite R5; apply E3 |].
      repeat split; congruence.
Qed.
(** WakeShared takes every wait block from the cursor on off the queue,
    resets the cursor, and clears the waiters bit in all cases: also
    when exclusive wait blocks stay on the queue. *)
Lemma WakeShared_run wl fuel env s l :
  quiet_value env -> queue s l -> _lock s = false ->
  wl ∉ _waitersListHead s :: l ->
  (length l + length env < fuel)%nat ->
  let o := run (WakeShared wl fuel) env s in
  result o = Returned tt
  /\ queue (final o) (exclusive_run (memory s) l)
  /\ _value (final o) = clear_flag (_value s) LockWaiters
  /\ _lock (final o) = false
  /\ _waitersListHead (final o) = _waitersListHead s
  /\ (forall q, q <> wl -> exclusive (memory (final o)) q = exclusive (memory s) q).
Proof.
  intros Hq Hqueue Hlock Hwl Hfuel o. subst o. unfold WakeShared.
  match goal with
  | |- context [run (_ ;; _ ;; _ ;; _ ;; _ ;; ?k) env s] =>
      destruct (wake_list_setup MWakeShared wl k env s l Hqueue Hlock Hwl)
        as (s0 & Hrun & (Hl & Ho & Hfs) & Hw & L0 & V0 & H0 & E0)
  end.
  rewrite Hrun. clear Hrun.
  set (head := _waitersListHead s) in *.
  assert (Hhw : head <> wl).
  { intros E. apply Hwl. rewrite <- E. apply list_elem_of_here. }
  assert (Hlw : forall q, q ∈ l -> q <> wl).
  { intros q Hq' ->. apply Hwl. now apply list_elem_of_further. }
  destruct (exclusive_run_ext_on (memory s) (memory s0) l) as [Xe Xs].
  { intros q Hq'. apply E0. now apply Hlw. }
  set (le := exclusive_run (memory s) l) in *.
  set (ls := shared_rest (memory s) l) in *.
  assert (Hsplit : l = le ++ ls) by apply split_runs.
  step. rewrite Hfs, first_shared_hd, Xs. rewrite run_bind.
  set (s1 := log AGetFirstShared (List.hd (_waitersListHead s0) ls) s0).
  assert (Hl1 : is_list (memory s1) (_waitersListHead s1) (le ++ ls))
    by (rewrite <- Hsplit; exact Hl).
  assert (Hnd : NoDup (_waitersListHead s1 :: wl :: [] ++ le ++ ls)).
  { rewrite <- Hsplit. change (_waitersListHead s1) with (_waitersListHead s0).
    rewrite H0. destruct Hl as [N _]. rewrite H0 in N. apply NoDup_cons in N as [N1 N2].
    apply NoDup_cons. split.
    - intros Hin. apply elem_of_cons in Hin as [Hin | Hin]; [now apply Hhw | now apply N1].
    - apply NoDup_cons. split; [| exact N2].
      intros Hin. apply Hwl. now apply list_elem_of_further. }
  assert (Hlen : (length ls <= length l)%nat).
  { pose proof (f_equal (@length Z) Hsplit) as HL. rewrite length_app in HL. lia. }
  destruct (WakeShared_loop_drain wl ls le [] fuel env s1 Hq Hl1 Hw Hnd ltac:(lia))
    as (env1 & s2 & Hrun & Q & Len & Hl2 & Hw2 & E2 & V2 & L2 & H2 & F2).
  change (_waitersListHead s1) with (_waitersListHead s0) in *.
  rewrite Hrun. clear Hrun. cbn [result rest final].
  rewrite H0 in *. cbn [app] in Hw2.
  step. step. step.
  unfold act. cbn [bind].
  assert (Hfw : forall st, memory st = memory s2 -> flink (memory st) wl = Some (List.hd wl ls)).
  { intros st ->. exact (is_list_flink_head _ _ _ Hw2). }
  erewrite run_LoadFlink by (apply Hfw; reflexivity).
  match goal with
  | |- context [run (UnblockWakeList wl ?w fuel) env1 ?st] =>
      set (s4 := st); set (o := run (UnblockWakeList wl w fuel) env1 s4)
  end.
  assert (Hw4 : is_list (memory s4) wl ([] ++ ls)) by exact Hw2.
  assert (HU : result o = Returned tt /\ keeps env1 s4 o /\ _value (final o) = _value s4).
  { apply (UnblockWakeList_run wl ls [] fuel env1 s4 Q Hw4). lia. }
  destruct HU as (R & (K1 & K2 & K3) & VV).
  split; [exact R |].
  pose proof K3 as (N1 & N2 & N3 & N4 & N5 & N6 & N7).
  subst s4.
  cbn [log upd_trace upd_lock upd_firstShared _value _lock _waitersListHead
       _firstSharedWaiter _spinCount memory] in N1, N2, N3, N4, N5, N6, N7, VV.
  assert (Efin : forall q, q <> wl -> exclusive (memory (final o)) q = exclusive (memory s) q).
  { intros q Hq'. rewrite N7, E2. now apply E0. }
  assert (Hall : Forall (fun p => exclusive (memory s) p = true) le)
    by apply exclusive_run_all.
  split.
  { unfold queue. rewrite N2, N3, H2. split; [| split].
    - apply (is_list_frame (memory s2)); [exact Hl2 | |]; intros p _;
        [apply N5 | apply N6].
    - rewrite <- (app_nil_r le).
      rewrite ordered_app_exclusive; [reflexivity |].
      apply List.Forall_forall. intros p Hp. rewrite Efin.
      + exact (proj1 (List.Forall_forall _ _) Hall p Hp).
      + apply Hlw. rewrite Hsplit. apply elem_of_app. left.
        now apply list_elem_of_In.
    - rewrite <- (app_nil_r le).
      rewrite first_shared_app_exclusive; [reflexivity |].
      apply List.Forall_forall. intros p Hp. rewrite Efin.
      + exact (proj1 (List.Forall_forall _ _) Hall p Hp).
      + apply Hlw. rewrite Hsplit. apply elem_of_app. left.
        now apply list_elem_of_In. }
  split; [rewrite VV, V2; cbn; congruence |].
  split; [rewrite N1; reflexivity |].
  split; [rewrite N2; exact H2 |].
  exact Efin.
Qed.
Lemma has_flag_clear_waiters v : has_flag (clear_flag v LockWaiters) LockWaiters = false.
Proof.
  unfold has_flag, clear_flag. rewrite <- Z.land_assoc.
  change (Z.land (Z.lnot LockWaiters) LockWaiters) with 0. now rewrite Z.land_0_r.
Qed.

(** A concrete state holds a concrete queue: by evaluation. *)
Ltac queue_by_evaluation :=
  unfold queue, is_list;
  split; [split; [apply (bool_decide_unpack _); vm_compute; exact I
                 | vm_compute; repeat split; reflexivity]
         | split; vm_compute; reflexivity].

Ltac fresh_by_evaluation :=
  let H := fresh in
  intros H; apply (bool_decide_pack _) in H; vm_compute in H; exact H.

(** C2 (amended): run with the queue lock free and while no other thread
    writes the state word, Wake returns, and what it does to the waiters
    bit depends on the class of the first wait block.  With an exclusive
    wait block first, Wake takes that one block off the queue and leaves
    the state word as it is.  Otherwise (the queue is empty, or its first
    wait block is shared, and then all are) Wake takes every wait block
    off the queue and clears the waiters bit.  Nothing is assumed of the
    flags word of the list head. *)
Theorem wake_clears_waiters_unless_exclusive_first wl fuel env s l :
  quiet_value env -> queue s l -> _lock s = false ->
  wl ∉ _waitersListHead s :: l ->
  (length l + length env < fuel)%nat ->
  let o := run (Wake wl fuel) env s in
  let first_is_exclusive :=
    match l with x :: _ => exclusive (memory s) x | [] => false end in
  result o = Returned tt
  /\ (first_is_exclusive = true ->
      queue (final o) (tl l) /\ _value (final o) = _value s)
  /\ (first_is_exclusive = false ->
      is_list (memory (final o)) (_waitersListHead (final o)) []
      /\ _value (final o) = clear_flag (_value s) LockWaiters
      /\ has_flag (_value (final o)) LockWaiters = false).
Proof.
  intros Hq Hqueue Hlock Hwl Hfuel o fe.
  destruct (Wake_run_any wl fuel env s l Hq Hqueue Hlock Hwl Hfuel)
    as (R & IL & _ & _ & V & _ & H & _).
  pose proof (Wake_keeps_queue wl fuel env s l Hq Hqueue Hlock Hwl Hfuel) as Q.
  fold o fe in R, IL, V, H, Q. cbv zeta in Q. split; [exact R |].
  split; intros E; rewrite E in *.
  - split; [apply Q; reflexivity | exact V].
  - rewrite H. split; [exact IL |]. split; [exact V |].
    rewrite V. apply has_flag_clear_waiters.
Qed.

(** Wake for the queue that holds the shared wait block 200. *)
Lemma wake_clears_waiters_unless_exclusive_first_witness :
  let s := one_shared_waiter in
  let l := [200] in
  let o := run (Wake 900 8) [] s in
  let first_is_exclusive :=
    match l with x :: _ => exclusive (memory s) x | [] => false end in
  result o = Returned tt
  /\ (first_is_exclusive = true ->
      queue (final o) (tl l) /\ _value (final o) = _value s)
  /\ (first_is_exclusive = false ->
      is_list (memory (final o)) (_waitersListHead (final o)) []
      /\ _value (final o) = clear_flag (_value s) LockWaiters
      /\ has_flag (_value (final o)) LockWaiters = false).
Proof.
  apply (wake_clears_waiters_unless_exclusive_first 900 8 [] one_shared_waiter [200]).
  - apply Forall_nil_2.
  - queue_by_evaluation.
  - reflexivity.
  - fresh_by_evaluation.
  - simpl. lia.
Defined.

(** C2 (as stated, refuted): Wake finds the shared wait block 200 on the
    queue, takes it off, finds the queue empty and clears the waiters
    bit: it has dequeued a wait block and the waiters bit is clear when
    it returns. *)
Lemma wake_dequeues_and_clears_waiters :
  let s := one_shared_waiter in
  let o := run (Wake 900 8) [] s in
  queue_list s = Some [200]
  /\ has_flag (_value s) LockWaiters = true
  /\ result o = Returned tt
  /\ queue_list (final o) = Some []
  /\ unblocked (trace_since s (final o)) = [200]
  /\ has_flag (_value (final o)) LockWaiters = false.
Proof. vm_compute. repeat split; reflexivity. Qed.

(** C3 (refuted by the code): the owner of the lock converts from
    exclusive to shared while the exclusive wait block 200 and the shared
    wait block 300 are queued.  WakeShared takes 300 off the queue, leaves
    200 on it, and clears the waiters bit all the same.  The woken shared
    acquirer and the converter then hold and release the lock without
    entering Wake: the lock is free, and 200 is still queued and has not
    been unblocked. *)
Theorem wake_shared_clears_waiters_over_exclusive_waiter :
  let s := exclusive_then_shared_waiter in
  let o := run (ConvertExclusiveToShared 900 8) [] s in
  let o' := run (TryAcquireShared ;; ReleaseShared 901 8 ;; ReleaseShared 902 8) []
              (final o) in
  (queue_list s = Some [200; 300]
   /\ exclusive (memory s) 200 = true
   /\ exclusive (memory s) 300 = false
   /\ has_flag (_value s) LockWaiters = true)
  /\ (result o = Returned tt
      /\ queue_list (final o) = Some [200]
      /\ _firstSharedWaiter (final o) = _waitersListHead (final o)
      /\ has_flag (_value (final o)) LockWaiters = false)
  /\ (result o' = Returned tt
      /\ _value (final o') = 0
      /\ queue_list (final o') = Some [200]
      /\ count (is_enter MWake) (trace_since (final o) (final o')) = O
      /\ unblocked (trace (final o')) = [300]
      /\ flags (memory (final o')) 200 = Some (Z.lor WaiterExclusive WaiterSpinning)).
Proof. vm_compute. repeat split; reflexivity. Qed.

(** C6 (as stated, refuted): the exclusive wait block 200 is queued; a
    converter from shared to exclusive then queues its wait block 300, and
    300 is put ahead of 200: the two exclusive wait blocks are not in the
    order in which they were queued. *)
Lemma convert_queues_ahead_of_earlier_exclusive :
  let s := one_exclusive_waiter in
  let o := run (ConvertSharedToExclusive_wait 300 (_value s)) [] s in
  queue_list s = Some [200]
  /\ exclusive (memory s) 200 = true
  /\ result o = Returned true
  /\ queue_list (final o) = Some [300; 200]
  /\ exclusive (memory (final o)) 300 = true
  /\ exclusive (memory (final o)) 200 = true.
Proof. vm_compute. repeat split; reflexivity. Qed.
(** C10 (amended): with BufferLength = 0, MmCopyVirtualMemory returns
    STATUS_SUCCESS at once: it calls nothing and leaves the kernel state,
    and with it the cell *ReturnLength, as it is.  With BufferLength > 0
    it first asks for rundown protection of the process to lock.  When
    that is refused it returns STATUS_PROCESS_IS_TERMINATING and calls
    neither copy routine.  When it is granted, it calls MiDoMappedCopy if
    BufferLength > MM_POOL_COPY_THRESHOLD and MiDoPoolCopy otherwise, one
    call, releases the rundown protection and returns the status of the
    copy. *)
Theorem MmCopyVirtualMemory_dispatch {K : Type} (E : Externs K) (a : CopyArgs)
    (m : Machine K) :
  0 <= BufferLength a ->
  let r := MmCopyVirtualMemory E a m in
  let p := processToLock E a m in
  let acquired := KphAcquireProcessRundownProtection E p (kernel m) in
  (BufferLength a = 0 -> r = (STATUS_SUCCESS E, m))
  /\ (0 < BufferLength a -> fst acquired = false ->
      fst r = STATUS_PROCESS_IS_TERMINATING E
      /\ calls (snd r) = calls m ++ [CallAcquireRundown p false]
      /\ kernel (snd r) = snd acquired)
  /\ (0 < BufferLength a -> fst acquired = true ->
      (MM_POOL_COPY_THRESHOLD E < BufferLength a ->
         let c := MiDoMappedCopy E a (snd acquired) in
         fst r = fst c
         /\ calls (snd r)
            = calls m ++ [CallAcquireRundown p true; CallMappedCopy a (fst c);
                          CallReleaseRundown p]
         /\ kernel (snd r) = KphReleaseProcessRundownProtection E p (snd c))
      /\ (BufferLength a <= MM_POOL_COPY_THRESHOLD E ->
         let c := MiDoPoolCopy E a (snd acquired) in
         fst r = fst c
         /\ calls (snd r)
            = calls m ++ [CallAcquireRundown p true; CallPoolCopy a (fst c);
                          CallReleaseRundown p]
         /\ kernel (snd r) = KphReleaseProcessRundownProtection E p (snd c))).
Proof.
  intros Hlen r p acquired. subst r. unfold MmCopyVirtualMemory.
  fold (processToLock E a m). fold p.
  split; [| split].
  - intros H0. rewrite H0. reflexivity.
  - intros Hpos Hacq.
    destruct (BufferLength a =? 0) eqn:E0; [apply Z.eqb_eq in E0; lia |].
    unfold acquire_rundown. cbn [fst snd]. fold acquired. rewrite Hacq.
    cbn [negb fst snd kernel calls]. auto.
  - intros Hpos Hacq.
    destruct (BufferLength a =? 0) eqn:E0; [apply Z.eqb_eq in E0; lia |].
    unfold acquire_rundown. cbn [fst snd]. fold acquired. rewrite Hacq.
    cbn [negb]. split; intros Hth.
    + assert (Hgt : (BufferLength a >? MM_POOL_COPY_THRESHOLD E) = true)
        by (apply Z.gtb_lt; lia).
      rewrite Hgt. unfold mapped_copy, release_rundown. cbn [fst snd kernel calls].
      rewrite <- !app_assoc. auto.
    + assert (Hgt : (BufferLength a >? MM_POOL_COPY_THRESHOLD E) = false).
      { destruct (BufferLength a >? MM_POOL_COPY_THRESHOLD E) eqn:G; [| reflexivity].
        apply Z.gtb_lt in G. lia. }
      rewrite Hgt. unfold pool_copy, release_rundown. cbn [fst snd kernel calls].
      rewrite <- !app_assoc. auto.
Qed.

(** Process 4 reads 16 bytes from the running process 8. *)
Lemma MmCopyVirtualMemory_dispatch_witness :
  let E := sample_externs 4 in
  let a := mkCopyArgs 8 4096 4 8192 16 0 12288 in
  let m := mkMachine ([] : list Z, 0) [] in
  let r := MmCopyVirtualMemory E a m in
  let p := processToLock E a m in
  let acquired := KphAcquireProcessRundownProtection E p (kernel m) in
  (BufferLength a = 0 -> r = (STATUS_SUCCESS E, m))
  /\ (0 < BufferLength a -> fst acquired = false ->
      fst r = STATUS_PROCESS_IS_TERMINATING E
      /\ calls (snd r) = calls m ++ [CallAcquireRundown p false]
      /\ kernel (snd r) = snd acquired)
  /\ (0 < BufferLength a -> fst acquired = true ->
      (MM_POOL_COPY_THRESHOLD E < BufferLength a ->
         let c := MiDoMappedCopy E a (snd acquired) in
         fst r = fst c
         /\ calls (snd r)
            = calls m ++ [CallAcquireRundown p true; CallMappedCopy a (fst c);
                          CallReleaseRundown p]
         /\ kernel (snd r) = KphReleaseProcessRundownProtection E p (snd c))
      /\ (BufferLength a <= MM_POOL_COPY_THRESHOLD E ->
         let c := MiDoPoolCopy E a (snd acquired) in
         fst r = fst c
         /\ calls (snd r)
            = calls m ++ [CallAcquireRundown p true; CallPoolCopy a (fst c);
                          CallReleaseRundown p]
         /\ kernel (snd r) = KphReleaseProcessRundownProtection E p (snd c))).
Proof.
  apply (MmCopyVirtualMemory_dispatch (sample_externs 4)
           (mkCopyArgs 8 4096 4 8192 16 0 12288) (mkMachine ([] : list Z, 0) [])).
  simpl. lia.
Defined.

(** C10 (as stated, refuted): process 4 asks for 16 bytes of process 8,
    which is being run down.  BufferLength > 0, and MmCopyVirtualMemory
    calls neither MiDoMappedCopy nor MiDoPoolCopy: rundown protection is
    refused and it returns STATUS_PROCESS_IS_TERMINATING. *)
Lemma MmCopyVirtualMemory_no_copy_of_terminating_process :
  let E := sample_externs 4 in
  let a := mkCopyArgs 8 4096 4 8192 16 0 12288 in
  let m := mkMachine ([8], 0) [] in
  let r := MmCopyVirtualMemory E a m in
  0 < BufferLength a
  /\ BufferLength a <= MM_POOL_COPY_THRESHOLD E
  /\ fst r = STATUS_PROCESS_IS_TERMINATING E
  /\ calls (snd r) = [CallAcquireRundown 8 false]
  /\ filter is_copy (calls (snd r)) = []
  /\ kernel (snd r) = kernel m.
Proof. cbv zeta. split; [reflexivity |]. split; [discriminate |]. vm_compute. auto. Qed.

(** ** A shared acquire behind waiters (C4) *)

Lemma run_invariant {A : Type} (I : State -> Prop) (E : Interference -> Prop)
    (P : Act -> Prop) :
  (forall i s, E i -> I s -> I (interfere i s)) ->
  (forall e x s s', P e -> I s -> exec e s = Done x s' -> I (log e x s')) ->
  forall p : Prog A, all_acts P p ->
  forall env s, Forall E env -> I s ->
    I (final (run p env s)) /\ Forall E (rest (run p env s)).
Proof.
  intros HE HP p Hp. induction Hp as [a | | e k He Hk IH]; intros env s Henv Hs.
  - split; assumption.
  - split; assumption.
  - assert (Hpop : I (snd (pop e env s)) /\ Forall E (fst (pop e env s))).
    { unfold pop. destruct (yields e); [| split; assumption].
      destruct env as [| i env]; [split; assumption |].
      inversion Henv; subst. split; [now apply HE | assumption]. }
    destruct Hpop as [Hs' Henv']. cbn [run].
    destruct (exec e (snd (pop e env s))) as [x s' | |] eqn:Ex.
    + apply IH; [exact Henv' |]. now apply (HP e x (snd (pop e env s))).
    + split; assumption.
    + split; assumption.
Qed.

Lemma undisturbed_quiet wb env : undisturbed wb env -> quiet_value env.
Proof.
  unfold undisturbed, quiet_value. intros H. eapply Forall_impl; [exact H |].
  intros [| v | p] Hi v' E; try discriminate. exact Hi.
Qed.

Lemma take_release_snoc key l p :
  p <> key -> take_release key l = None -> take_release key (l ++ [p]) = None.
Proof.
  intros Hp. induction l as [| k l IH]; simpl.
  - intros _. apply Z.eqb_neq in Hp. now rewrite Hp.
  - destruct (k =? key); [discriminate |].
    destruct (take_release key l); [discriminate |]. intros _. now rewrite IH.
Qed.

Lemma parked_on_interfere wb i s :
  leaves_alone wb i -> parked_on wb s -> parked_on wb (interfere i s).
Proof.
  intros Hi ((f & Hf & Hs) & Hr). destruct i as [| v | p]; cbn [interfere leaves_alone] in *.
  - split; eauto.
  - contradiction.
  - destruct (memory s !! p) as [w |] eqn:Hw; [| split; eauto].
    assert (Hfl : flags (<[p := set_Flags (clear_flag (Flags w) WaiterSpinning) w]> (memory s)) wb
                  = Some f).
    { unfold flags in *. now rewrite lookup_insert_ne by exact Hi. }
    destruct (has_flag (Flags w) WaiterSpinning); split; cbn; eauto.
    now apply take_release_snoc.
Qed.

Lemma passive_exec e x s s' q :
  passive e = true -> exec e s = Done x s' ->
  flags (memory s') q = flags (memory s) q /\ releases s' = releases s.
Proof.
  destruct e; simpl; try discriminate; unfold with_block; intros _ H;
    repeat match type of H with
           | context [if ?c then _ else _] => destruct c
           | context [match ?c with _ => _ end] => destruct c eqn:?
           end; inversion H; subst; cbn; split; try reflexivity;
    unfold flags; cbn;
    (destruct (decide (q = p)) as [-> | Hne];
     [rewrite lookup_insert_eq; cbn;
      match goal with E : memory _ !! _ = Some _ |- _ => now rewrite E end
     | now rewrite lookup_insert_ne by congruence]).
Qed.

Lemma run_passive {A : Type} wb (p : Prog A) env s :
  all_acts (fun e => passive e = true) p ->
  undisturbed wb env -> parked_on wb s ->
  parked_on wb (final (run p env s)) /\ undisturbed wb (rest (run p env s)).
Proof.
  intros Hp. apply (run_invariant (parked_on wb) (leaves_alone wb)
                      (fun e => passive e = true)); [| | exact Hp].
  - intros i s0. apply parked_on_interfere.
  - intros e x s0 s' He ((f & Hf & Hs) & Hr) Ex.
    destruct (passive_exec e x s0 s' wb He Ex) as [F R].
    split; [exists f | ]; cbn; [rewrite F; auto | now rewrite R].
Qed.

Lemma after1_undisturbed wb env s :
  undisturbed wb env ->
  flags (memory (after1 env s)) wb = flags (memory s) wb
  /\ (take_release wb (releases s) = None ->
      take_release wb (releases (after1 env s)) = None)
  /\ undisturbed wb (tl env).
Proof.
  intros H. destruct env as [| i env]; cbn [after1 tl]; [auto |].
  inversion H as [| ? ? Hi H']; subst. split; [| split; [| exact H']].
  - destruct i as [| v | p]; cbn [interfere leaves_alone] in *; try reflexivity;
      try contradiction.
    destruct (memory s !! p) as [w |] eqn:Hw; [| reflexivity].
    assert (Hfl : flags (<[p := set_Flags (clear_flag (Flags w) WaiterSpinning) w]> (memory s)) wb
                  = flags (memory s) wb).
    { unfold flags. now rewrite lookup_insert_ne by exact Hi. }
    destruct (has_flag (Flags w) WaiterSpinning); exact Hfl.
  - intros Hr. destruct i as [| v | p]; cbn [interfere leaves_alone] in *; try exact Hr;
      try contradiction.
    destruct (memory s !! p) as [w |] eqn:Hw; [| exact Hr].
    destruct (has_flag (Flags w) WaiterSpinning); cbn; [exact Hr |].
    now apply take_release_snoc.
Qed.

Lemma flags_Some m p f : flags m p = Some f -> exists w, m !! p = Some w /\ Flags w = f.
Proof.
  unfold flags. destruct (m !! p) as [w |]; simpl; [| discriminate].
  intros H. inversion H. eauto.
Qed.

(** Block in its busy loop does not come back while the spinning flag
    of its wait block stays set. *)
Lemma Block_busy_waits wb fuel : forall env s,
  undisturbed wb env -> parked_on wb s ->
  forall a, result (run (Block_busy wb fuel) env s) <> Returned a.
Proof.
  induction fuel as [| fuel IH]; intros env s Henv ((f & Hf & Hs) & Hr) a;
    cbn [Block_busy]; [discriminate |].
  destruct (after1_undisturbed wb env s Henv) as (F1 & R1 & E1).
  rewrite <- F1 in Hf. destruct (flags_Some _ _ _ Hf) as (w & Hw & <-).
  step. unfold with_block. rewrite Hw. rewrite no_flag_has_flag, Hs. cbn [negb bind].
  step.
  match goal with
  | |- context [if negb ?c then _ else _] => destruct (negb c)
  end; cbn [bind].
  - step. step. apply IH; [exact E1 |].
    split; [exists (Flags w); cbn; auto | cbn; auto].
  - step. apply IH; [exact E1 |].
    split; [exists (Flags w); cbn; auto | cbn; auto].
Qed.

(** Block on its way to the keyed event clears the flag, which it finds
    set, and waits for a release that is not there. *)
Lemma Block_sleep_waits wb fuel env s :
  undisturbed wb env -> parked_on wb s ->
  forall a, result (run (Block_sleep wb fuel) env s) <> Returned a.
Proof.
  intros Henv ((f & Hf & Hs) & Hr) a. unfold Block_sleep.
  destruct fuel as [| fuel]; cbn [ClearSpinning bind]; [discriminate |].
  destruct (after1_undisturbed wb env s Henv) as (F1 & R1 & E1).
  rewrite <- F1 in Hf. destruct (flags_Some _ _ _ Hf) as (w & Hw & <-).
  step. unfold with_block at 1. rewrite Hw. cbn [bind].
  set (s1 := log (ALoadFlags wb) (Flags w) (after1 env s)).
  destruct (after1_undisturbed wb (tl env) s1 E1) as (F2 & R2 & E2).
  assert (Hw2 : exists w2, memory (after1 (tl env) s1) !! wb = Some w2 /\ Flags w2 = Flags w).
  { apply flags_Some. rewrite F2. subst s1. cbn. exact Hf. }
  destruct Hw2 as (w2 & Hw2 & Ew2).
  step. unfold with_block. rewrite Hw2, Ew2, Z.eqb_refl. cbn [bind].
  rewrite Z.eqb_refl. cbn [bind]. rewrite Hs.
  match goal with
  | |- context [run _ (tl (tl env)) ?st] =>
      destruct (after1_undisturbed wb (tl (tl env)) st E2) as (F3 & R3 & E3)
  end.
  step. unfold NtWaitForKeyedEvent. step.
  match goal with
  | |- context [run _ (tl (tl (tl env))) ?st] =>
      destruct (after1_undisturbed wb (tl (tl (tl env))) st E3) as (F4 & R4 & E4)
  end.
  rewrite run_Vis_yield by reflexivity. cbn [exec]. rewrite R4; [discriminate |].
  cbn. apply R3. cbn. apply R2. subst s1. cbn. now apply R1.
Qed.

Lemma parked_on_log wb e x s : parked_on wb s -> parked_on wb (log e x s).
Proof. intros H. exact H. Qed.

Lemma passive_Block_spin wb fuel j :
  all_acts (fun e => passive e = true) (Block_spin wb fuel j).
Proof. apply acts_Block_spin; reflexivity. Qed.

Lemma passive_Block_event : all_acts (fun e => passive e = true) Block_event.
Proof. apply acts_Block_event. intros e. destruct e; try exact I; reflexivity. Qed.

(** Block does not return while nobody unblocks its wait block: it ends
    waiting on the keyed event, in its busy loop, or in the exception
    of a failed event creation. *)
Lemma Block_waits wb sleep fuel env s :
  undisturbed wb env -> parked_on wb s ->
  forall a, result (run (Block wb sleep fuel) env s) <> Returned a.
Proof.
  intros Henv Hs a. unfold Block. step. rewrite run_bind.
  destruct (run_passive wb (Block_spin wb fuel 0) env (log (AEnter MBlock) 0 s)
              (passive_Block_spin wb fuel 0) Henv (parked_on_log _ _ _ _ Hs)) as [Hs1 Henv1].
  destruct (result (run (Block_spin wb fuel 0) env (log (AEnter MBlock) 0 s)));
    try discriminate.
  destruct sleep.
  - rewrite run_bind.
    match goal with
    | |- context [run Block_event ?e ?st] =>
        destruct (run_passive wb Block_event e st passive_Block_event Henv1 Hs1)
          as [Hs2 Henv2];
        destruct (result (run Block_event e st)); try discriminate
    end.
    now apply Block_sleep_waits.
  - now apply Block_busy_waits.
Qed.

Lemma block_act_exec wb e x s s' :
  block_act wb e = true -> exec e s = Done x s' ->
  same_view s s' /\ _value s' = _value s.
Proof.
  destruct e; simpl; try discriminate; unfold with_block; intros He H;
    repeat match type of H with
           | context [if ?c then _ else _] => destruct c eqn:?
           | context [match ?c with _ => _ end] => destruct c eqn:?
           end; inversion H; subst;
    try (split; [apply same_view_refl | reflexivity]);
    try (split; [repeat split; reflexivity | reflexivity]; fail).
  apply andb_true_iff in He as [_ He]. apply Z.eqb_eq in He. subst newv.
  split; [| reflexivity].
  apply same_view_set_flags; [assumption |].
  match goal with E : (Flags _ =? _) = true |- _ => apply Z.eqb_eq in E; rewrite <- E end.
  apply has_flag_clear_other.
Qed.

Lemma block_acts_ClearSpinning wb fuel :
  all_acts (fun e => block_act wb e = true) (ClearSpinning wb fuel).
Proof.
  induction fuel as [| fuel IH]; cbn [ClearSpinning]; acts_tac; cbn;
    rewrite ?Z.eqb_refl; reflexivity.
Qed.

Lemma block_acts_Block_busy wb fuel :
  all_acts (fun e => block_act wb e = true) (Block_busy wb fuel).
Proof. induction fuel as [| fuel IH]; cbn [Block_busy]; acts_tac; reflexivity. Qed.

Lemma acts_Block wb sleep fuel :
  all_acts (fun e => block_act wb e = true) (Block wb sleep fuel).
Proof.
  pose proof (block_acts_ClearSpinning wb fuel) as Hcs.
  pose proof (block_acts_Block_busy wb fuel) as Hbusy.
  unfold Block, Block_sleep, NtWaitForKeyedEvent. acts_tac; try reflexivity;
    try (apply acts_Block_spin; reflexivity);
    try (apply acts_Block_event; intros e; destruct e; try exact I; reflexivity).
Qed.

(** What Block keeps of a state: the queue, the state word and the
    queue lock. *)
Lemma Block_keeps_queue wb sleep fuel env s l :
  undisturbed wb env -> queue s l ->
  let o := run (Block wb sleep fuel) env s in
  queue (final o) l /\ _value (final o) = _value s /\ _lock (final o) = _lock s
  /\ (forall q, exclusive (memory (final o)) q = exclusive (memory s) q).
Proof.
  intros Henv Hq o.
  destruct (@run_invariant unit (fun st => same_view s st /\ _value st = _value s)
              (leaves_alone wb) (fun e => block_act wb e = true)) with
    (p := Block wb sleep fuel) (env := env) (s := s) as [[V U] _].
  - intros i st Hi [V U]. destruct (interfere_same_view i st) as [V' U'].
    { intros v ->. exact Hi. }
    split; [eapply same_view_trans; eassumption | congruence].
  - intros e x st st' He [V U] Ex.
    destruct (block_act_exec wb e x st st' He Ex) as [V' U'].
    split; [| cbn; congruence].
    eapply same_view_trans; [exact V |].
    eapply same_view_trans; [exact V' | apply same_view_log].
  - apply acts_Block.
  - exact Henv.
  - split; [apply same_view_refl | reflexivity].
  - fold o in V, U. split; [now apply (queue_same_view s) |]. split; [exact U |].
    destruct V as (V1 & _ & _ & _ & _ & _ & V7). split; [exact V1 | exact V7].
Qed.

Lemma lor_flag_set v f : has_flag v f = true -> f = LockWaiters -> Z.lor v f = v.
Proof.
  intros H ->. unfold has_flag, LockWaiters in *. apply negb_true_iff, Z.eqb_neq in H.
  apply Z.bits_inj'. intros n Hn. rewrite Z.lor_spec.
  destruct (Z.eq_dec n 1) as [-> | Hne].
  - destruct (Z.testbit v 1) eqn:E; [reflexivity |]. exfalso. apply H.
    apply Z.bits_inj'. intros m Hm. rewrite Z.land_spec, Z.bits_0.
    destruct (Z.eq_dec m 1) as [-> | Hm1]; [now rewrite E |].
    replace (Z.testbit 2 m) with false; [apply andb_false_r |].
    symmetry. change 2 with (2 ^ 1). apply Z.pow2_bits_false. congruence.
  - replace (Z.testbit 2 n) with false; [apply orb_false_r |].
    symmetry. change 2 with (2 ^ 1). apply Z.pow2_bits_false. congruence.
Qed.

(** The loop of AcquireShared on a word that fails the test of the fast
    path: it reads the word once for every unit of the spin count that
    is left and then goes to the slow path. *)
Lemma AcquireShared_spins sleep wb : forall k fuel i env s,
  undisturbed wb env -> shared_fast_path (_value s) = false ->
  Z.to_nat (_spinCount s - i) = k ->
  Int32.in_range i -> Int32.in_range (_spinCount s) ->
  exists env' s',
    run (AcquireShared_loop sleep wb (k + S fuel) i) env s
    = run (queued <- AcquireShared_wait wb (_value s) ;;
           if queued : bool then
             Block wb sleep (S fuel) ;;
             AcquireShared_loop sleep wb fuel (Z.max i (_spinCount s))
           else AcquireShared_loop sleep wb fuel (Z.max i (_spinCount s)))
        env' s'
    /\ same_view s s' /\ _value s' = _value s /\ undisturbed wb env'
    /\ (take_release wb (releases s) = None -> take_release wb (releases s') = None).
Proof.
  induction k as [| k IH]; intros fuel i env s Henv Hfast Hk Hi Hn.
  - cbn [Nat.add AcquireShared_loop].
    destruct (after1_same_view env s (undisturbed_quiet _ _ Henv)) as (V & U & _).
    destruct (after1_undisturbed wb env s Henv) as (_ & R & E).
    pose proof V as (_ & _ & _ & V4 & _).
    step. rewrite U, Hfast. step. cbn [_spinCount log upd_trace]. rewrite V4.
    assert (Hge : (i >=? _spinCount s) = true) by (apply Z.geb_le; lia).
    rewrite Hge. replace (Z.max i (_spinCount s)) with i by lia.
    eexists _, _. split; [reflexivity |].
    split; [| split; [exact U | split; [exact E | exact R]]].
    eapply same_view_trans; [exact V |].
    eapply same_view_trans; apply same_view_log.
  - cbn [Nat.add AcquireShared_loop].
    destruct (after1_same_view env s (undisturbed_quiet _ _ Henv)) as (V & U & _).
    destruct (after1_undisturbed wb env s Henv) as (_ & R & E).
    pose proof V as (_ & _ & _ & V4 & _).
    step. rewrite U, Hfast. step. cbn [_spinCount log upd_trace]. rewrite V4.
    assert (Hlt : (i >=? _spinCount s) = false).
    { destruct (i >=? _spinCount s) eqn:G; [| reflexivity]. apply Z.geb_le in G. lia. }
    rewrite Hlt.
    assert (Hadd : Int32.add i 1 = i + 1).
    { unfold Int32.add. apply wrap_id. unfold Int32.in_range in *. lia. }
    rewrite Hadd.
    match goal with
    | |- context [run _ (tl env) ?st] =>
        destruct (IH fuel (i + 1) (tl env) st) as (env' & s' & Hrun & V' & U' & E' & R')
    end.
    + exact E.
    + cbn. now rewrite U.
    + cbn. rewrite V4. lia.
    + unfold Int32.in_range in *. lia.
    + cbn. now rewrite V4.
    + exists env', s'. rewrite Hrun. cbn [_value _spinCount log upd_trace]. rewrite U, V4.
      replace (Z.max (i + 1) (_spinCount s)) with (Z.max i (_spinCount s)) by lia.
      split; [reflexivity |]. split; [| split; [| split; [exact E' |]]].
      * eapply same_view_trans; [exact V |].
        eapply same_view_trans; [| exact V'].
        eapply same_view_trans; apply same_view_log.
      * rewrite U'. cbn. exact U.
      * intros Hr. apply R'. cbn. now apply R.
Qed.

Lemma ctx_releases s s' : ctx s' = ctx s -> releases s' = releases s.
Proof. intros H. apply (f_equal (fun t => snd (fst t))) in H. exact H. Qed.

Lemma passive_wait_tail wb value :
  all_acts (fun e => passive e = true)
    (act_ ALockAcquire ;;
     old <- act (ACasValue (Z.lor value LockWaiters) value) ;;
     if negb (old =? value) then
       act_ ALockRelease ;;
       Ret false
     else
       InsertWaitBlock wb Last ;;
       blink <- act (ALoadBlink wb) ;;
       head <- act AGetHead ;;
       isFirst <- (if blink =? head then Ret true
                   else
                     blink <- act (ALoadBlink wb) ;;
                     flags <- act (ALoadFlags blink) ;;
                     Ret (has_flag flags WaiterExclusive)) ;;
       (if isFirst : bool then act_ (ASetFirstShared wb) else Ret tt) ;;
       act_ ALockRelease ;;
       Ret true).
Proof. unfold InsertWaitBlock, InsertTailList. acts_tac; reflexivity. Qed.

(** AcquireShared on a lock that is held with waiters queued: it gets
    to the call of Block with its wait block queued behind all others,
    marked shared and spinning, and the state word as it was. *)
Lemma AcquireShared_queues sleep wb fuel env s l :
  undisturbed wb env ->
  shared_fast_path (_value s) = false -> has_flag (_value s) LockWaiters = true ->
  queue s l -> _lock s = false -> wb ∉ _waitersListHead s :: l ->
  take_release wb (releases s) = None ->
  Int32.in_range (_spinCount s) -> (Z.to_nat (_spinCount s) < fuel)%nat ->
  exists env' s' fuel' i,
    run (AcquireShared sleep wb fuel) env s
    = run (Block wb sleep (S fuel') ;; AcquireShared_loop sleep wb fuel' i) env' s'
    /\ undisturbed wb env'
    /\ queue s' (l ++ [wb]) /\ _lock s' = false /\ _value s' = _value s
    /\ exclusive (memory s') wb = false
    /\ (forall q, q ∈ l -> exclusive (memory s') q = exclusive (memory s) q)
    /\ parked_on wb s'.
Proof.
  intros Henv Hfast Hw Hqueue Hlock Hwb Hr Hn Hfuel.
  unfold AcquireShared.
  replace fuel with (Z.to_nat (_spinCount s) + S (fuel - S (Z.to_nat (_spinCount s))))%nat
    by lia.
  set (fuel' := (fuel - S (Z.to_nat (_spinCount s)))%nat).
  destruct (AcquireShared_spins sleep wb (Z.to_nat (_spinCount s)) fuel' 0 env s Henv Hfast)
    as (env1 & s1 & Hrun & V & U & E & R).
  { now rewrite Z.sub_0_r. }
  { unfold Int32.in_range, Int32.min_value, Int32.max_value. lia. }
  { exact Hn. }
  rewrite Hrun. clear Hrun. rewrite run_bind.
  pose proof V as (V1 & V2 & _ & _ & _ & _ & V7).
  assert (Hq1 : queue s1 l) by now apply (queue_same_view s).
  assert (Hl1 : _lock s1 = false) by congruence.
  assert (Hwb1 : wb ∉ _waitersListHead s1 :: l) by now rewrite V2.
  destruct (AcquireShared_wait_run wb (_value s) env1 s1 l (undisturbed_quiet _ _ E)
              Hq1 Hl1 U Hwb1) as (Res & Q & L & Val & Ex & Exl & _).
  assert (Hpark : parked_on wb (final (run (AcquireShared_wait wb (_value s)) env1 s1))
                  /\ undisturbed wb (rest (run (AcquireShared_wait wb (_value s)) env1 s1))).
  { unfold AcquireShared_wait.
    match goal with
    | |- context [run (_ ;; _ ;; ?k) env1 s1] =>
        destruct (wait_prepare wb WaiterSpinning k env1 s1) as (s2 & Hrun & C & _ & F)
    end.
    rewrite Hrun. apply run_passive; [apply passive_wait_tail | exact E |].
    split; [exists WaiterSpinning; split; [exact F | reflexivity] |].
    rewrite (ctx_releases _ _ C). now apply R. }
  destruct Hpark as [Hp He].
  rewrite Res. eexists _, _, fuel', _. split; [reflexivity |].
  split; [exact He |]. split; [exact Q |]. split; [exact L |].
  split; [rewrite Val; now apply lor_flag_set |]. split; [exact Ex |].
  split; [| exact Hp].
  intros q Hq'. rewrite Exl by exact Hq'. apply V7.
Qed.

(** C4.  When the state word read has Owned = 1, Waiters = 1 and
    SharedCount >= 1, the test of the fast path of a shared acquire
    fails: TryAcquireShared returns false after its one read and leaves
    the word as it is, and the loop of AcquireShared makes no interlocked
    operation on the fast path; it goes on to its spin count and, once
    the count is used up, to the slow path.  There it queues: run on a
    lock in that state, with the queue lock free, its wait block not yet
    queued nor released, and while no other thread writes the state word
    or unblocks the wait block, AcquireShared gets to its call of Block
    with the wait block queued behind all others, marked shared, with its
    spinning flag set, and does not come back from it.  The state word is
    then as it was: the waiters bit is set and no shared owner has been
    added. *)
Theorem shared_acquire_does_not_overtake (value : Z) :
  has_flag value LockOwned = true ->
  has_flag value LockWaiters = true ->
  1 <= shared_count value ->
  shared_fast_path value = false
  /\ (forall env s, _value (after1 env s) = value ->
        result (run TryAcquireShared env s) = Returned false
        /\ _value (final (run TryAcquireShared env s)) = value
        /\ trace_since s (final (run TryAcquireShared env s)) = [(AGetValue, value)])
  /\ (forall sleep waitBlock fuel i env s, _value (after1 env s) = value ->
        run (AcquireShared_loop sleep waitBlock (S fuel) i) env s =
        run (n <- act AGetSpinCount ;;
             if i >=? n then
               queued <- AcquireShared_wait waitBlock value ;;
               if queued : bool then
                 Block waitBlock sleep (S fuel) ;;
                 AcquireShared_loop sleep waitBlock fuel i
               else AcquireShared_loop sleep waitBlock fuel i
             else AcquireShared_loop sleep waitBlock fuel (Int32.add i 1))
          (tl env) (log AGetValue value (after1 env s)))
  /\ (forall sleep waitBlock fuel env s l,
        _value s = value -> queue s l -> _lock s = false ->
        waitBlock ∉ _waitersListHead s :: l ->
        take_release waitBlock (releases s) = None ->
        undisturbed waitBlock env ->
        Int32.in_range (_spinCount s) ->
        (Z.to_nat (_spinCount s) < fuel)%nat ->
        let o := run (AcquireShared sleep waitBlock fuel) env s in
        (exists env' s' fuel' i,
            o = run (Block waitBlock sleep (S fuel') ;;
                     AcquireShared_loop sleep waitBlock fuel' i) env' s'
            /\ queue s' (l ++ [waitBlock])
            /\ exclusive (memory s') waitBlock = false
            /\ parked_on waitBlock s'
            /\ _lock s' = false
            /\ _value s' = value)
        /\ result o <> Returned tt
        /\ queue (final o) (l ++ [waitBlock])
        /\ exclusive (memory (final o)) waitBlock = false
        /\ (forall q, q ∈ l -> exclusive (memory (final o)) q = exclusive (memory s) q)
        /\ _lock (final o) = false
        /\ _value (final o) = value
        /\ SharedOwners (final o) = SharedOwners s).
Proof.
  intros Ho Hw Hsc.
  assert (Hfast : shared_fast_path value = false).
  { unfold shared_fast_path. rewrite !no_flag_has_flag, Ho, Hw. reflexivity. }
  split; [exact Hfast |]. split; [| split].
  - intros env s Hv. rewrite TryAcquireShared_busy by (now rewrite Hv).
    rewrite Hv. cbn [result final]. split; [reflexivity |]. split.
    + simpl. exact Hv.
    + apply trace_since_app. simpl. now rewrite after1_trace.
  - intros sleep waitBlock fuel i env s Hv.
    cbn [AcquireShared_loop]. step. rewrite Hv, Hfast. reflexivity.
  - intros sleep wb fuel env s l Hv Hqueue Hlock Hwb Hr Henv Hn Hfuel o.
    subst value.
    destruct (AcquireShared_queues sleep wb fuel env s l Henv Hfast Hw Hqueue Hlock Hwb
                Hr Hn Hfuel)
      as (env' & s' & fuel' & i & Hrun & E & Q & L & V & Ex & Exl & P).
    fold o in Hrun.
    destruct (run_bind_result_stuck (Block wb sleep (S fuel'))
                (fun _ => AcquireShared_loop sleep wb fuel' i) env' s'
                (Block_waits wb sleep (S fuel') env' s' E P)) as [Fin Stuck].
    destruct (Block_keeps_queue wb sleep (S fuel') env' s' (l ++ [wb]) E Q)
      as (Q' & V' & L' & Ex').
    rewrite <- Fin, <- Hrun in Q', V', L', Ex'. rewrite <- Hrun in Stuck.
    split.
    { exists env', s', fuel', i. split; [exact Hrun |]. split; [exact Q |].
      split; [exact Ex |]. split; [exact P |]. split; [exact L | exact V]. }
    split; [apply Stuck |]. split; [exact Q' |]. split; [now rewrite Ex' |].
    split; [intros q Hq'; rewrite Ex'; now apply Exl |].
    split; [congruence |]. split; [congruence |].
    unfold SharedOwners. congruence.
Qed.

(** The lock of C4 at a concrete word: owned by one shared owner, with
    waiters. *)
Lemma shared_acquire_does_not_overtake_witness :
  let value := 7 in
  shared_fast_path value = false
  /\ (forall env s, _value (after1 env s) = value ->
        result (run TryAcquireShared env s) = Returned false
        /\ _value (final (run TryAcquireShared env s)) = value
        /\ trace_since s (final (run TryAcquireShared env s)) = [(AGetValue, value)])
  /\ (forall sleep waitBlock fuel i env s, _value (after1 env s) = value ->
        run (AcquireShared_loop sleep waitBlock (S fuel) i) env s =
        run (n <- act AGetSpinCount ;;
             if i >=? n then
               queued <- AcquireShared_wait waitBlock value ;;
               if queued : bool then
                 Block waitBlock sleep (S fuel) ;;
                 AcquireShared_loop sleep waitBlock fuel i
               else AcquireShared_loop sleep waitBlock fuel i
             else AcquireShared_loop sleep waitBlock fuel (Int32.add i 1))
          (tl env) (log AGetValue value (after1 env s)))
  /\ (forall sleep waitBlock fuel env s l,
        _value s = value -> queue s l -> _lock s = false ->
        waitBlock ∉ _waitersListHead s :: l ->
        take_release waitBlock (releases s) = None ->
        undisturbed waitBlock env ->
        Int32.in_range (_spinCount s) ->
        (Z.to_nat (_spinCount s) < fuel)%nat ->
        let o := run (AcquireShared sleep waitBlock fuel) env s in
        (exists env' s' fuel' i,
            o = run (Block waitBlock sleep (S fuel') ;;
                     AcquireShared_loop sleep waitBlock fuel' i) env' s'
            /\ queue s' (l ++ [waitBlock])
            /\ exclusive (memory s') waitBlock = false
            /\ parked_on waitBlock s'
            /\ _lock s' = false
            /\ _value s' = value)
        /\ result o <> Returned tt
        /\ queue (final o) (l ++ [waitBlock])
        /\ exclusive (memory (final o)) waitBlock = false
        /\ (forall q, q ∈ l -> exclusive (memory (final o)) q = exclusive (memory s) q)
        /\ _lock (final o) = false
        /\ _value (final o) = value
        /\ SharedOwners (final o) = SharedOwners s).
Proof.
  apply (shared_acquire_does_not_overtake 7); [reflexivity | reflexivity |].
  vm_compute. discriminate.
Defined.

(** A lock of a uniprocessor machine (no spinning): two shared owners
    hold it and the exclusive wait block 200 is queued.  A third shared
    acquirer, left alone, queues its wait block 300 behind 200 and waits
    on the keyed event; the lock still has two shared owners. *)
Lemma shared_acquire_queues_behind_exclusive_waiter :
  let s0 := FairResourceLock_new 4000 1 100 0 true in
  let s1 := final (run (TryAcquireShared ;; TryAcquireShared) [] s0) in
  let s := final (run (AcquireExclusive_wait 200 (_value s1)) [] s1) in
  let o := run (AcquireShared true 300 8) [] s in
  Owned s = true /\ has_flag (_value s) LockWaiters = true /\ SharedOwners s = 2
  /\ queue_list s = Some [200]
  /\ result o = Blocked
  /\ queue_list (final o) = Some [200; 300]
  /\ exclusive (memory (final o)) 300 = false
  /\ unblocked (trace_since s (final o)) = []
  /\ count (is_park 300) (trace_since s (final o)) = 1%nat
  /\ _value (final o) = _value s.
Proof. vm_compute. repeat split; reflexivity. Qed.

(** * Further properties of the code *)

Lemma is_list_flink_at m head l1 l2 :
  is_list m head (l1 ++ l2) -> flink m (last_from head l1) = Some (List.hd head l2).
Proof.
  destruct l1 as [| c l1] using rev_ind; intros Hl.
  - exact (is_list_flink_head _ _ _ Hl).
  - rewrite last_from_app. rewrite <- app_assoc in Hl.
    exact (is_list_flink_mid _ _ _ _ _ Hl).
Qed.

Lemma is_list_last_present m head l1 l2 :
  is_list m head (l1 ++ l2) -> is_Some (m !! last_from head l1).
Proof.
  intros Hl. apply (is_list_present _ _ _ _ Hl).
  pose proof (last_in l1 head) as Hin. apply elem_of_cons in Hin as [-> | Hin].
  - apply list_elem_of_here.
  - apply list_elem_of_further, elem_of_app. now left.
Qed.

Lemma is_list_hd_present m head l1 l2 :
  is_list m head (l1 ++ l2) -> is_Some (m !! List.hd head l2).
Proof.
  intros Hl. apply (is_list_present _ _ _ _ Hl). destruct l2 as [| y l2]; simpl.
  - apply list_elem_of_here.
  - apply list_elem_of_further, elem_of_app. right. apply list_elem_of_here.
Qed.

(** InsertHeadList and InsertTailList at any place of a ring. *)
Lemma InsertHeadList_at head l1 l2 entry env s :
  is_list (memory s) head (l1 ++ l2) ->
  entry ∉ head :: l1 ++ l2 ->
  is_Some (memory s !! entry) ->
  exists s',
    run (InsertHeadList (last_from head l1) entry) env s = mkOutcome (Returned tt) env s'
    /\ ctx s' = ctx s
    /\ (forall q, flink (memory s') q
                  = upd (upd (flink (memory s)) entry (List.hd head l2))
                      (last_from head l1) entry q)
    /\ (forall q, blink (memory s') q
                  = upd (upd (blink (memory s)) entry (last_from head l1))
                      (List.hd head l2) entry q)
    /\ (forall q, flags (memory s') q = flags (memory s) q)
    /\ is_list (memory s') head (l1 ++ entry :: l2).
Proof.
  intros Hl He Pe.
  destruct (InsertHeadList_run (last_from head l1) entry (List.hd head l2) env s
              (is_list_flink_at _ _ _ _ Hl) Pe (is_list_hd_present _ _ _ _ Hl))
    as (s' & Hrun & C & F & B & G).
  exists s'. repeat (split; [assumption |]).
  apply (is_list_insert (memory s)); assumption.
Qed.

Lemma InsertTailList_at head l1 l2 entry env s :
  is_list (memory s) head (l1 ++ l2) ->
  entry ∉ head :: l1 ++ l2 ->
  is_Some (memory s !! entry) ->
  exists s',
    run (InsertTailList (List.hd head l2) entry) env s = mkOutcome (Returned tt) env s'
    /\ ctx s' = ctx s
    /\ (forall q, flink (memory s') q
                  = upd (upd (flink (memory s)) entry (List.hd head l2))
                      (last_from head l1) entry q)
    /\ (forall q, blink (memory s') q
                  = upd (upd (blink (memory s)) entry (last_from head l1))
                      (List.hd head l2) entry q)
    /\ (forall q, flags (memory s') q = flags (memory s) q)
    /\ is_list (memory s') head (l1 ++ entry :: l2).
Proof.
  intros Hl He Pe.
  destruct (InsertTailList_run (List.hd head l2) entry (last_from head l1) env s
              (is_list_blink_at _ _ _ _ Hl) Pe (is_list_last_present _ _ _ _ Hl))
    as (s' & Hrun & C & F & B & G).
  exists s'. repeat (split; [assumption |]).
  apply (is_list_insert (memory s)); assumption.
Qed.

(** X1.  InsertHeadList links the entry right behind [listHead], which
    may be the head of the ring or any block on it: the ring that held
    [l1 ++ l2], with [listHead] the last block of [head :: l1], holds
    [l1 ++ entry :: l2] afterwards.  No flags and no lock field are
    written, and the call does not wait for other threads. *)
Theorem InsertHeadList_links_behind head l1 l2 entry env s :
  is_list (memory s) head (l1 ++ l2) ->
  entry ∉ head :: l1 ++ l2 ->
  is_Some (memory s !! entry) ->
  let o := run (InsertHeadList (last_from head l1) entry) env s in
  result o = Returned tt
  /\ rest o = env
  /\ is_list (memory (final o)) head (l1 ++ entry :: l2)
  /\ (forall q, flags (memory (final o)) q = flags (memory s) q)
  /\ ctx (final o) = ctx s.
Proof.
  intros Hl He Pe o.
  destruct (InsertHeadList_at head l1 l2 entry env s Hl He Pe)
    as (s' & Hrun & C & F & B & G & L).
  subst o. rewrite Hrun. cbn [result rest final]. auto.
Qed.

(** The empty ring at 100 and the block 200. *)
Lemma InsertHeadList_links_behind_witness :
  let s := final (run (act_ (ALocal 200)) [] (FairResourceLock_new 0 2 100 0 true)) in
  let o := run (InsertHeadList (last_from 100 []) 200) [] s in
  result o = Returned tt
  /\ rest o = []
  /\ is_list (memory (final o)) 100 ([] ++ 200 :: [])
  /\ (forall q, flags (memory (final o)) q = flags (memory s) q)
  /\ ctx (final o) = ctx s.
Proof.
  apply (InsertHeadList_links_behind 100 [] [] 200 []
           (final (run (act_ (ALocal 200)) [] (FairResourceLock_new 0 2 100 0 true)))).
  - split; [apply (bool_decide_unpack _); vm_compute; exact I
           | vm_compute; repeat split; reflexivity].
  - intros H; apply (bool_decide_pack _) in H; vm_compute in H; exact H.
  - vm_compute. eauto.
Defined.

(** X2.  InsertTailList links the entry right ahead of [listHead], which
    may be the head of the ring (the entry becomes the last block) or any
    block on it (as InsertWaitBlock does with the first shared waiter):
    the ring that held [l1 ++ l2], with [listHead] the first block of
    [l2] or the head, holds [l1 ++ entry :: l2] afterwards. *)
Theorem InsertTailList_links_ahead head l1 l2 entry env s :
  is_list (memory s) head (l1 ++ l2) ->
  entry ∉ head :: l1 ++ l2 ->
  is_Some (memory s !! entry) ->
  let o := run (InsertTailList (List.hd head l2) entry) env s in
  result o = Returned tt
  /\ rest o = env
  /\ is_list (memory (final o)) head (l1 ++ entry :: l2)
  /\ (forall q, flags (memory (final o)) q = flags (memory s) q)
  /\ ctx (final o) = ctx s.
Proof.
  intros Hl He Pe o.
  destruct (InsertTailList_at head l1 l2 entry env s Hl He Pe)
    as (s' & Hrun & C & F & B & G & L).
  subst o. rewrite Hrun. cbn [result rest final]. auto.
Qed.

(** The queue [200; 300] of one exclusive and one shared waiter; the new
    block 400 is linked ahead of 300. *)
Lemma InsertTailList_links_ahead_witness :
  let s := final (run (act_ (ALocal 400)) [] exclusive_then_shared_waiter) in
  let o := run (InsertTailList (List.hd 100 [300]) 400) [] s in
  result o = Returned tt
  /\ rest o = []
  /\ is_list (memory (final o)) 100 ([200] ++ 400 :: [300])
  /\ (forall q, flags (memory (final o)) q = flags (memory s) q)
  /\ ctx (final o) = ctx s.
Proof.
  apply (InsertTailList_links_ahead 100 [200] [300] 400 []
           (final (run (act_ (ALocal 400)) [] exclusive_then_shared_waiter))).
  - split; [apply (bool_decide_unpack _); vm_compute; exact I
           | vm_compute; repeat split; reflexivity].
  - intros H; apply (bool_decide_pack _) in H; vm_compute in H; exact H.
  - vm_compute. eauto.
Defined.
Lemma neighbours_equal_iff head l1 l2 :
  NoDup (head :: l1 ++ l2) ->
  (List.hd head l2 =? last_from head l1) = match l1 ++ l2 with [] => true | _ => false end.
Proof.
  intros N. apply NoDup_cons in N as [Nh N].
  destruct l1 as [| a l1]; destruct l2 as [| y l2]; simpl.
  - apply Z.eqb_refl.
  - apply Z.eqb_neq. intros ->. apply Nh. apply list_elem_of_here.
  - apply Z.eqb_neq. intros E. apply Nh. rewrite E.
    apply elem_of_app. left. apply (last_in l1 a).
  - apply Z.eqb_neq. intros E.
    apply NoDup_app in N as (_ & N & _).
    apply (N y); [rewrite E; apply (last_in l1 a) | apply list_elem_of_here].
Qed.

(** X3.  RemoveEntryList takes the entry, and only it, off the ring, and
    returns true exactly when no block is left on the ring.  It leaves
    the links of the removed entry as they were, pointing at its old
    neighbours. *)
Theorem RemoveEntryList_unlinks head l1 entry l2 env s :
  is_list (memory s) head (l1 ++ entry :: l2) ->
  let o := run (RemoveEntryList entry) env s in
  result o = Returned (match l1 ++ l2 with [] => true | _ => false end)
  /\ rest o = env
  /\ is_list (memory (final o)) head (l1 ++ l2)
  /\ flink (memory (final o)) entry = Some (List.hd head l2)
  /\ blink (memory (final o)) entry = Some (last_from head l1)
  /\ (forall q, flags (memory (final o)) q = flags (memory s) q)
  /\ ctx (final o) = ctx s.
Proof.
  intros Hl o.
  pose proof (is_list_flink_mid _ _ _ _ _ Hl) as Hf.
  pose proof (is_list_blink_mid _ _ _ _ _ Hl) as Hb.
  assert (N : NoDup (head :: l1 ++ entry :: l2)) by apply Hl.
  assert (Pf : is_Some (memory s !! List.hd head l2)).
  { apply (is_list_present _ _ _ _ Hl). destruct l2 as [| y l2]; simpl.
    - apply list_elem_of_here.
    - apply list_elem_of_further, elem_of_app. right.
      apply list_elem_of_further, list_elem_of_here. }
  assert (Pb : is_Some (memory s !! last_from head l1)).
  { apply (is_list_present _ _ _ _ Hl).
    pose proof (last_in l1 head) as Hin. apply elem_of_cons in Hin as [-> | Hin].
    - apply list_elem_of_here.
    - apply list_elem_of_further, elem_of_app. now left. }
  destruct (RemoveEntryList_run entry _ _ env s Hf Hb Pf Pb)
    as (s' & Hrun & C & F & B & G).
  assert (Hl' : is_list (memory s') head (l1 ++ l2))
    by (apply (is_list_remove (memory s) _ head l1 entry l2 Hl); assumption).
  assert (E1 : entry <> last_from head l1).
  { intros E. apply NoDup_cons in N as [Nh N]. apply NoDup_app in N as (_ & N & _).
    pose proof (last_in l1 head) as Hin. rewrite <- E in Hin.
    apply elem_of_cons in Hin as [-> | Hin].
    - apply Nh. apply elem_of_app. right. apply list_elem_of_here.
    - apply (N entry Hin). apply list_elem_of_here. }
  assert (E2 : entry <> List.hd head l2).
  { intros E. apply NoDup_cons in N as [Nh N]. apply NoDup_app in N as (_ & _ & N).
    apply NoDup_cons in N as [N _]. destruct l2 as [| y l2]; simpl in E.
    - apply Nh. rewrite <- E. apply elem_of_app. right. apply list_elem_of_here.
    - apply N. rewrite E. apply list_elem_of_here. }
  subst o. rewrite Hrun. cbn [result rest final].
  split.
  { f_equal. apply neighbours_equal_iff. apply Hl'. }
  split; [reflexivity |]. split; [exact Hl' |].
  split; [rewrite F, upd_ne by exact E1; exact Hf |].
  split; [rewrite B, upd_ne by exact E2; exact Hb |].
  split; assumption.
Qed.

(** Taking the exclusive waiter 200 off the queue [200; 300]. *)
Lemma RemoveEntryList_unlinks_witness :
  let s := exclusive_then_shared_waiter in
  let o := run (RemoveEntryList 200) [] s in
  result o = Returned (match [] ++ [300] with [] => true | _ => false end)
  /\ rest o = []
  /\ is_list (memory (final o)) 100 ([] ++ [300])
  /\ flink (memory (final o)) 200 = Some (List.hd 100 [300])
  /\ blink (memory (final o)) 200 = Some (last_from 100 [])
  /\ (forall q, flags (memory (final o)) q = flags (memory s) q)
  /\ ctx (final o) = ctx s.
Proof.
  apply (RemoveEntryList_unlinks 100 [] 200 [300] [] exclusive_then_shared_waiter).
  split; [apply (bool_decide_unpack _); vm_compute; exact I
         | vm_compute; repeat split; reflexivity].
Defined.

(** X4.  RemoveHeadList returns the first block of the ring and takes it
    off.  On an empty ring it returns the list head itself, and the ring
    stays empty: the caller has to test for the empty ring, as Wake and
    WakeExclusive do before they call it. *)
Theorem RemoveHeadList_first_or_head head l env s :
  is_list (memory s) head l ->
  let o := run (RemoveHeadList head) env s in
  result o = Returned (List.hd head l)
  /\ rest o = env
  /\ is_list (memory (final o)) head (tl l)
  /\ (forall q, flags (memory (final o)) q = flags (memory s) q)
  /\ ctx (final o) = ctx s.
Proof.
  intros Hl o.
  pose proof (is_list_flink_head _ _ _ Hl) as Hf.
  destruct l as [| x l].
  - cbn [List.hd tl] in *.
    assert (Ph : is_Some (memory s !! head)) by (apply flink_is_Some; eauto).
    destruct (RemoveHeadList_run head head head env s Hf Hf Ph)
      as (s' & Hrun & C & F & B & G).
    subst o. rewrite Hrun. cbn [result rest final].
    split; [reflexivity |]. split; [reflexivity |]. split; [| split; assumption].
    split; [apply Hl |]. split.
    + rewrite F. apply upd_eq.
    + rewrite B. apply upd_eq.
  - cbn [List.hd tl] in *.
    pose proof (is_list_flink_mid _ _ [] x l Hl) as Hfx.
    assert (Pn : is_Some (memory s !! List.hd head l))
      by exact (is_list_hd_present _ head [x] l Hl).
    destruct (RemoveHeadList_run head x (List.hd head l) env s Hf Hfx Pn)
      as (s' & Hrun & C & F & B & G).
    subst o. rewrite Hrun. cbn [result rest final].
    split; [reflexivity |]. split; [reflexivity |]. split; [| split; assumption].
    apply (is_list_remove (memory s) _ head [] x l Hl); assumption.
Qed.

(** RemoveHeadList on the empty ring of a new lock. *)
Lemma RemoveHeadList_first_or_head_witness :
  let s := FairResourceLock_new 0 2 100 0 true in
  let o := run (RemoveHeadList 100) [] s in
  result o = Returned (List.hd 100 [])
  /\ rest o = []
  /\ is_list (memory (final o)) 100 (tl [])
  /\ (forall q, flags (memory (final o)) q = flags (memory s) q)
  /\ ctx (final o) = ctx s.
Proof.
  apply (RemoveHeadList_first_or_head 100 [] [] (FairResourceLock_new 0 2 100 0 true)).
  split; [apply (bool_decide_unpack _); vm_compute; exact I
         | vm_compute; repeat split; reflexivity].
Defined.

(** X5.  Linking an entry and taking it off again gives the ring back:
    after InsertTailList and RemoveEntryList, and after InsertHeadList
    and RemoveHeadList, every block other than the entry has the links
    it had before, and the removal reports the entry (RemoveHeadList) or
    whether the ring is empty (RemoveEntryList). *)
Theorem insert_then_remove_restores head l entry env s :
  is_list (memory s) head l ->
  entry ∉ head :: l ->
  is_Some (memory s !! entry) ->
  let o1 := run (InsertTailList head entry ;; RemoveEntryList entry) env s in
  let o2 := run (InsertHeadList head entry ;; RemoveHeadList head) env s in
  (result o1 = Returned (match l with [] => true | _ => false end)
   /\ is_list (memory (final o1)) head l
   /\ (forall q, q <> entry ->
         flink (memory (final o1)) q = flink (memory s) q
         /\ blink (memory (final o1)) q = blink (memory s) q))
  /\ (result o2 = Returned entry
      /\ is_list (memory (final o2)) head l
      /\ (forall q, q <> entry ->
            flink (memory (final o2)) q = flink (memory s) q
            /\ blink (memory (final o2)) q = blink (memory s) q)).
Proof.
  intros Hl He Pe o1 o2.
  assert (Hl0 : is_list (memory s) head (l ++ [])) by (now rewrite app_nil_r).
  assert (He0 : entry ∉ head :: l ++ []) by (now rewrite app_nil_r).
  split.
  - subst o1. rewrite run_bind.
    destruct (InsertTailList_at head l [] entry env s Hl0 He0 Pe)
      as (s1 & Hrun & C1 & F1 & B1 & G1 & Hl1).
    cbn [List.hd] in Hrun. rewrite Hrun. cbn [result rest final].
    pose proof (is_list_flink_mid _ _ _ _ _ Hl1) as Hf.
    pose proof (is_list_blink_mid _ _ _ _ _ Hl1) as Hb.
    destruct (RemoveEntryList_run entry _ _ env s1 Hf Hb
                (is_list_hd_present _ head (l ++ [entry]) []
                   ltac:(rewrite <- app_assoc; exact Hl1))
                (is_list_last_present _ _ _ _ Hl1))
      as (s2 & Hrun2 & C2 & F2 & B2 & G2).
    rewrite Hrun2. cbn [result rest final List.hd].
    assert (Hl2 : is_list (memory s2) head (l ++ []))
      by (apply (is_list_remove (memory s1) _ head l entry [] Hl1); assumption).
    rewrite app_nil_r in Hl2.
    split.
    { f_equal. rewrite Z.eqb_sym. rewrite <- (app_nil_r l) at 2.
      rewrite Z.eqb_sym. apply (neighbours_equal_iff head l []).
      rewrite app_nil_r. apply Hl. }
    split; [exact Hl2 |].
    pose proof (is_list_flink_at _ _ _ _ Hl0) as Hfl.
    pose proof (is_list_blink_head _ _ _ Hl) as Hbh.
    cbn [List.hd] in *.
    intros q Hq. split.
    + rewrite F2. unfold upd at 1. destruct (decide (q = last_from head l)) as [-> | Hn].
      * now rewrite Hfl.
      * rewrite F1. now rewrite !upd_ne.
    + rewrite B2. unfold upd at 1. destruct (decide (q = head)) as [-> | Hn].
      * now rewrite Hbh.
      * rewrite B1. now rewrite !upd_ne.
  - subst o2. rewrite run_bind.
    assert (Hl0' : is_list (memory s) head ([] ++ l)) by exact Hl.
    destruct (InsertHeadList_at head [] l entry env s Hl0' He Pe)
      as (s1 & Hrun & C1 & F1 & B1 & G1 & Hl1).
    cbn [last_from] in Hrun. rewrite Hrun. cbn [result rest final last_from app] in *.
    pose proof (is_list_flink_head _ _ _ Hl1) as Hf. cbn [List.hd] in Hf.
    pose proof (is_list_flink_mid _ _ [] entry l Hl1) as Hfe.
    destruct (RemoveHeadList_run head entry (List.hd head l) env s1 Hf Hfe
                (is_list_hd_present _ head [entry] l Hl1))
      as (s2 & Hrun2 & C2 & F2 & B2 & G2).
    rewrite Hrun2. cbn [result rest final].
    split; [reflexivity |]. split.
    { apply (is_list_remove (memory s1) _ head [] entry l Hl1); assumption. }
    pose proof (is_list_flink_head _ _ _ Hl) as Hfh.
    pose proof (is_list_blink_at _ head [] l Hl) as Hbh. cbn [last_from] in Hbh.
    intros q Hq. split.
    + rewrite F2. unfold upd at 1. destruct (decide (q = head)) as [-> | Hn].
      * now rewrite Hfh.
      * rewrite F1. now rewrite !upd_ne.
    + rewrite B2. unfold upd at 1. destruct (decide (q = List.hd head l)) as [-> | Hn].
      * now rewrite Hbh.
      * rewrite B1. now rewrite !upd_ne.
Qed.

(** The queue [200; 300] and the new block 400. *)
Lemma insert_then_remove_restores_witness :
  let s := final (run (act_ (ALocal 400)) [] exclusive_then_shared_waiter) in
  let o1 := run (InsertTailList 100 400 ;; RemoveEntryList 400) [] s in
  let o2 := run (InsertHeadList 100 400 ;; RemoveHeadList 100) [] s in
  (result o1 = Returned (match [200; 300] with [] => true | _ => false end)
   /\ is_list (memory (final o1)) 100 [200; 300]
   /\ (forall q, q <> 400 ->
         flink (memory (final o1)) q = flink (memory s) q
         /\ blink (memory (final o1)) q = blink (memory s) q))
  /\ (result o2 = Returned 400
      /\ is_list (memory (final o2)) 100 [200; 300]
      /\ (forall q, q <> 400 ->
            flink (memory (final o2)) q = flink (memory s) q
            /\ blink (memory (final o2)) q = blink (memory s) q)).
Proof.
  apply (insert_then_remove_restores 100 [200; 300] 400 []
           (final (run (act_ (ALocal 400)) [] exclusive_then_shared_waiter))).
  - split; [apply (bool_decide_unpack _); vm_compute; exact I
           | vm_compute; repeat split; reflexivity].
  - intros H; apply (bool_decide_pack _) in H; vm_compute in H; exact H.
  - vm_compute. eauto.
Defined.
(** The fields of a state word [4 * q + r]. *)
Lemma fields_of v q r :
  v = 4 * q + r -> 0 <= r < 4 ->
  shared_count v = q mod 2 ^ 30
  /\ has_flag v LockOwned = (r =? 1) || (r =? 3)
  /\ has_flag v LockWaiters = (2 <=? r).
Proof.
  intros -> Hr.
  assert (Hm : (4 * q + r) mod 4 = r).
  { rewrite Z.add_comm, Z.mul_comm, Z.mod_add by lia. apply Z.mod_small. lia. }
  assert (Hd : (4 * q + r) / 4 = q).
  { rewrite Z.add_comm, Z.mul_comm, Z.div_add by lia. rewrite Z.div_small; lia. }
  rewrite shared_count_spec, Hd.
  rewrite (has_flag_low2 _ LockOwned), (has_flag_low2 _ LockWaiters), Hm
    by (unfold LockOwned, LockWaiters; lia).
  split; [reflexivity |].
  assert (r = 0 \/ r = 1 \/ r = 2 \/ r = 3) as [-> | [-> | [-> | ->]]] by lia;
    split; reflexivity.
Qed.

Lemma word_split v : v = 4 * (v / 4) + v mod 4 /\ 0 <= v mod 4 < 4.
Proof.
  split; [apply Z.div_mod; lia | apply Z.mod_pos_bound; lia].
Qed.

Lemma wrap_shift z k : Int32.wrap (z + k * 2 ^ 32) = Int32.wrap z.
Proof.
  unfold Int32.wrap. f_equal.
  replace (z + k * 2 ^ 32 + 2 ^ 31) with (z + 2 ^ 31 + k * 2 ^ 32) by lia.
  apply Z.mod_add. lia.
Qed.

(** Adding and then subtracting the same amount gives the word back,
    whatever wraps around in between. *)
Lemma add_sub_word v c : Int32.in_range v -> Int32.sub (Int32.add v c) c = v.
Proof.
  intros Hv. unfold Int32.sub, Int32.add.
  destruct (wrap_eq (v + c)) as [k ->].
  replace (v + c + k * 2 ^ 32 - c) with (v + k * 2 ^ 32) by lia.
  rewrite wrap_shift. now apply wrap_id.
Qed.

Lemma add_owned_fields v :
  has_flag v LockOwned = false ->
  shared_count (Int32.add v LockOwned) = shared_count v
  /\ has_flag (Int32.add v LockOwned) LockOwned = true
  /\ has_flag (Int32.add v LockOwned) LockWaiters = has_flag v LockWaiters.
Proof.
  intros Ho. unfold Int32.add.
  rewrite shared_count_wrap, !has_flag_wrap by (unfold LockOwned, LockWaiters; lia).
  destruct (word_split v) as [Hv Hr].
  destruct (fields_of v _ _ Hv Hr) as (S & O & W). rewrite S, W. rewrite O in Ho.
  assert (Hv' : v + LockOwned = 4 * (v / 4) + (v mod 4 + 1)) by (unfold LockOwned; lia).
  assert (Hc : v mod 4 = 0 \/ v mod 4 = 2).
  { assert (v mod 4 = 0 \/ v mod 4 = 1 \/ v mod 4 = 2 \/ v mod 4 = 3)
      as [E | [E | [E | E]]] by lia; rewrite E in Ho; try discriminate; auto. }
  destruct (fields_of _ _ _ Hv' ltac:(lia)) as (S' & O' & W'). rewrite S', O', W'.
  destruct Hc as [-> | ->]; repeat split; reflexivity.
Qed.

Lemma sub_owned_fields v :
  has_flag v LockOwned = true ->
  shared_count (Int32.sub v LockOwned) = shared_count v
  /\ has_flag (Int32.sub v LockOwned) LockOwned = false
  /\ has_flag (Int32.sub v LockOwned) LockWaiters = has_flag v LockWaiters.
Proof.
  intros Ho. unfold Int32.sub.
  rewrite shared_count_wrap, !has_flag_wrap by (unfold LockOwned, LockWaiters; lia).
  destruct (word_split v) as [Hv Hr].
  destruct (fields_of v _ _ Hv Hr) as (S & O & W). rewrite S, W. rewrite O in Ho.
  assert (Hv' : v - LockOwned = 4 * (v / 4) + (v mod 4 - 1)) by (unfold LockOwned; lia).
  assert (Hc : v mod 4 = 1 \/ v mod 4 = 3).
  { assert (v mod 4 = 0 \/ v mod 4 = 1 \/ v mod 4 = 2 \/ v mod 4 = 3)
      as [E | [E | [E | E]]] by lia; rewrite E in Ho; try discriminate; auto. }
  destruct (fields_of _ _ _ Hv' ltac:(lia)) as (S' & O' & W'). rewrite S', O', W'.
  destruct Hc as [-> | ->]; repeat split; reflexivity.
Qed.

Lemma add_increment_fields v :
  shared_count (Int32.add v LockSharedOwnersIncrement) = (shared_count v + 1) mod 2 ^ 30
  /\ has_flag (Int32.add v LockSharedOwnersIncrement) LockOwned = has_flag v LockOwned
  /\ has_flag (Int32.add v LockSharedOwnersIncrement) LockWaiters = has_flag v LockWaiters.
Proof.
  unfold Int32.add.
  rewrite shared_count_wrap, !has_flag_wrap by (unfold LockOwned, LockWaiters; lia).
  destruct (word_split v) as [Hv Hr].
  destruct (fields_of v _ _ Hv Hr) as (S & O & W). rewrite S, O, W.
  assert (Hv' : v + LockSharedOwnersIncrement = 4 * (v / 4 + 1) + v mod 4)
    by (unfold LockSharedOwnersIncrement; lia).
  destruct (fields_of _ _ _ Hv' Hr) as (S' & O' & W'). rewrite S', O', W'.
  split; [| split; reflexivity].
  now rewrite Zplus_mod_idemp_l.
Qed.

(** X6.  TryAcquireExclusive returns true exactly when the word it read
    has the owned bit clear and its compare-exchange finds the word
    unchanged.  It then leaves the word with the owned bit set and with
    the waiters bit and the count of shared owners as it read them. *)
Theorem TryAcquireExclusive_true_iff env s :
  let value := _value (after1 env s) in
  let s1 := log AGetValue value (after1 env s) in
  let o := run TryAcquireExclusive env s in
  (result o = Returned true
   <-> Owned (after1 env s) = false /\ _value (after1 (tl env) s1) = value)
  /\ (result o = Returned true ->
      _value (final o) = Int32.add value LockOwned
      /\ Owned (final o) = true
      /\ has_flag (_value (final o)) LockWaiters = has_flag value LockWaiters
      /\ SharedOwners (final o) = shared_count value).
Proof.
  intros value s1 o. subst o. rewrite TryAcquireExclusive_run. fold value. fold s1.
  unfold Owned, SharedOwners. fold value.
  destruct (has_flag value LockOwned) eqn:Ho; cbn [result final].
  - split; [split; [discriminate | intros [H _]; discriminate] | discriminate].
  - destruct (_value (after1 (tl env) s1) =? value) eqn:Ev; cbn [result final].
    + apply Z.eqb_eq in Ev. split; [tauto |]. intros _.
      cbn [_value log upd_trace upd_value].
      destruct (add_owned_fields value Ho) as (S & O & W). auto.
    + apply Z.eqb_neq in Ev. split; [| discriminate].
      split; [discriminate | intros [_ H]; contradiction].
Qed.

(** X7.  When TryAcquireShared returns true it has added one shared
    owner: the owned bit is set, the waiters bit is as read, and the
    count of shared owners is one more than read, unless the count read
    was the largest the field holds (2^30 - 1): the count then wraps to
    zero. *)
Theorem TryAcquireShared_true_adds_owner env s :
  let value := _value (after1 env s) in
  let o := run TryAcquireShared env s in
  result o = Returned true ->
  shared_fast_path value = true
  /\ Owned (final o) = true
  /\ has_flag (_value (final o)) LockWaiters = has_flag value LockWaiters
  /\ SharedOwners (final o) = (shared_count value + 1) mod 2 ^ 30
  /\ (shared_count value < 2 ^ 30 - 1 -> SharedOwners (final o) = shared_count value + 1)
  /\ (shared_count value = 2 ^ 30 - 1 -> SharedOwners (final o) = 0).
Proof.
  intros value o. subst o. rewrite TryAcquireShared_run. fold value.
  set (s1 := log AGetValue value (after1 env s)).
  unfold Owned, SharedOwners.
  destruct (shared_fast_path value) eqn:Hfast; cbn [result final]; [| discriminate].
  destruct (_value (after1 (tl env) s1) =? value); cbn [result final]; [| discriminate].
  intros _. cbn [_value log upd_trace upd_value].
  set (newv := if no_flag value LockOwned
               then Int32.add (Int32.add value LockOwned) LockSharedOwnersIncrement
               else Int32.add value LockSharedOwnersIncrement).
  assert (Hnew : has_flag newv LockOwned = true
                 /\ has_flag newv LockWaiters = has_flag value LockWaiters
                 /\ shared_count newv = (shared_count value + 1) mod 2 ^ 30).
  { subst newv. rewrite no_flag_has_flag.
    destruct (has_flag value LockOwned) eqn:Ho; cbn [negb].
    - destruct (add_increment_fields value) as (S & O & W). rewrite S, O, W. auto.
    - destruct (add_owned_fields value Ho) as (S1 & O1 & W1).
      destruct (add_increment_fields (Int32.add value LockOwned)) as (S & O & W).
      rewrite S, O, W, S1, O1, W1. auto. }
  destruct Hnew as (O & W & S). rewrite O, W, S.
  pose proof (shared_count_bounds value) as Hb.
  repeat split; try reflexivity.
  - intros Hlt. apply Z.mod_small. lia.
  - intros ->. reflexivity.
Qed.

(** A shared acquire of an unowned lock. *)
Lemma TryAcquireShared_true_adds_owner_witness :
  let s := FairResourceLock_new 4000 2 100 0 true in
  let value := _value (after1 [] s) in
  let o := run TryAcquireShared [] s in
  shared_fast_path value = true
  /\ Owned (final o) = true
  /\ has_flag (_value (final o)) LockWaiters = has_flag value LockWaiters
  /\ SharedOwners (final o) = (shared_count value + 1) mod 2 ^ 30
  /\ (shared_count value < 2 ^ 30 - 1 -> SharedOwners (final o) = shared_count value + 1)
  /\ (shared_count value = 2 ^ 30 - 1 -> SharedOwners (final o) = 0).
Proof.
  apply (TryAcquireShared_true_adds_owner [] (FairResourceLock_new 4000 2 100 0 true)).
  reflexivity.
Defined.
(** One read of the state word and one compare-exchange on it, while no
    other thread writes the word: the compare-exchange succeeds. *)
Lemma read_cas_quiet {A : Type} (f : Z -> Z) (K R : Z -> Prog A) env s :
  quiet_value env ->
  exists s2,
    run (value <- act AGetValue ;;
         old <- act (ACasValue (f value) value) ;;
         if old =? value then K value else R value) env s
    = run (K (_value s)) (tl (tl env)) s2
    /\ _value s2 = f (_value s)
    /\ same_view s s2
    /\ trace s2 = trace s ++ [(AGetValue, _value s);
                              (ACasValue (f (_value s)) (_value s), _value s)]
    /\ quiet_value (tl (tl env)).
Proof.
  intros Hq.
  destruct (after1_same_view env s Hq) as (V1 & U1 & Q1).
  step. rewrite U1.
  set (s1 := log AGetValue (_value s) (after1 env s)).
  destruct (after1_same_view (tl env) s1 Q1) as (V2 & U2 & Q2).
  step.
  assert (U : _value (after1 (tl env) s1) = _value s) by (rewrite U2; exact U1).
  rewrite U, Z.eqb_refl. cbn [bind]. rewrite Z.eqb_refl.
  eexists. split; [reflexivity |]. split; [reflexivity |]. split; [| split; [| exact Q2]].
  - eapply same_view_trans; [exact V1 |].
    eapply same_view_trans; [apply (same_view_log AGetValue (_value s)) |].
    eapply same_view_trans; [exact V2 |].
    repeat split.
  - cbn [trace log upd_trace upd_value]. rewrite after1_trace. subst s1.
    cbn [trace log upd_trace]. rewrite after1_trace, <- app_assoc. reflexivity.
Qed.

Lemma has_flag_clear_waiters_owned v :
  has_flag (clear_flag v LockWaiters) LockOwned = has_flag v LockOwned.
Proof.
  unfold has_flag, clear_flag. rewrite <- Z.land_assoc.
  change (Z.land (Z.lnot LockWaiters) LockOwned) with LockOwned. reflexivity.
Qed.

Lemma shared_count_clear_waiters v :
  shared_count (clear_flag v LockWaiters) = shared_count v.
Proof.
  unfold shared_count, clear_flag. rewrite Z.shiftr_land.
  change (Z.shiftr (Z.lnot LockWaiters) LockSharedOwnersShift) with (-1).
  now rewrite Z.land_m1_r.
Qed.

Lemma queue_same_fields s s' l :
  memory s' = memory s -> _waitersListHead s' = _waitersListHead s ->
  _firstSharedWaiter s' = _firstSharedWaiter s -> queue s l -> queue s' l.
Proof. unfold queue. intros -> -> ->. auto. Qed.

(** X8.  ReleaseExclusive, run with the queue lock free and while no
    other thread writes the state word: it clears the owned bit and keeps
    the count of shared owners, and it enters Wake, once, exactly when the
    word had the waiters bit.  With the waiters bit clear the queue is not
    touched.  With the waiters bit set and an exclusive wait block first,
    that block alone leaves the queue and the waiters bit stays; otherwise
    all blocks leave the queue and the waiters bit is cleared.  FirstShared
    is reset to the list head when the queue was drained and the flags
    word of the list head, which the constructor does not write, has the
    exclusive bit clear; it is left as it was otherwise, so that the queue
    is well formed, FirstShared included, unless the queue was drained
    with that bit set. *)
Theorem ReleaseExclusive_hands_over wl fuel env s l :
  quiet_value env -> queue s l -> _lock s = false ->
  wl ∉ _waitersListHead s :: l ->
  Owned s = true ->
  (length l + length env < fuel)%nat ->
  let o := run (ReleaseExclusive wl fuel) env s in
  let waiters := has_flag (_value s) LockWaiters in
  let first_is_exclusive :=
    match l with x :: _ => exclusive (memory s) x | [] => false end in
  let drained := waiters && negb first_is_exclusive in
  let head_flag := exclusive (memory s) (_waitersListHead s) in
  let l' := if waiters then if first_is_exclusive then tl l else [] else l in
  result o = Returned tt
  /\ Owned (final o) = false
  /\ SharedOwners (final o) = SharedOwners s
  /\ count (is_enter MWake) (trace_since s (final o)) = (if waiters then 1 else 0)%nat
  /\ is_list (memory (final o)) (_waitersListHead (final o)) l'
  /\ ordered (memory (final o)) l' = true
  /\ _firstSharedWaiter (final o)
     = (if drained && negb head_flag then _waitersListHead s else _firstSharedWaiter s)
  /\ (drained && head_flag = false -> queue (final o) l')
  /\ has_flag (_value (final o)) LockWaiters = waiters && first_is_exclusive.
Proof.
  intros Hq Hqueue Hlock Hwl Ho Hfuel o waiters fe drained hf l'.
  destruct fuel as [| fuel]; [lia |].
  subst o. cbn [ReleaseExclusive].
  destruct (read_cas_quiet (fun v => Int32.sub v LockOwned)
              (fun v => if has_flag v LockWaiters then Wake wl (S fuel) else Ret tt)
              (fun _ => ReleaseExclusive wl fuel) env s Hq)
    as (s2 & Hrun & V2 & SV & T2 & Q2).
  rewrite Hrun. clear Hrun. subst l' drained waiters.
  unfold Owned, SharedOwners in *.
  destruct (sub_owned_fields (_value s) Ho) as (SC & O & W).
  pose proof SV as (L2 & H2 & F2 & _ & FL & BL & E2).
  assert (Hq2 : queue s2 l) by (apply (queue_same_view _ _ _ SV); exact Hqueue).
  assert (Efe : match l with x :: _ => exclusive (memory s2) x | [] => false end = fe).
  { subst fe. destruct l; [reflexivity | apply E2]. }
  destruct (has_flag (_value s) LockWaiters) eqn:Ew; cbn [andb].
  - pose proof (tl_length env). pose proof (tl_length (tl env)).
    assert (Hlock2 : _lock s2 = false) by congruence.
    assert (Hwl2 : wl ∉ _waitersListHead s2 :: l) by now rewrite H2.
    assert (Hfuel2 : (length l + length (tl (tl env)) < S fuel)%nat) by lia.
    destruct (Wake_run_any wl (S fuel) (tl (tl env)) s2 l Q2 Hq2 Hlock2 Hwl2 Hfuel2)
      as (R & IL & OR & FS & V & L & H' & E').
    pose proof (Wake_keeps_queue wl (S fuel) (tl (tl env)) s2 l Q2 Hq2 Hlock2 Hwl2 Hfuel2)
      as Q.
    cbv zeta in Q. rewrite Efe, H2, E2 in *. fold hf in FS, Q.
    split; [exact R |].
    assert (Hc : count (is_enter MWake)
                   (trace_since s (final (run (Wake wl (S fuel)) (tl (tl env)) s2))) = 1%nat).
    { pose proof (run_trace (Wake wl (S fuel)) (tl (tl env)) s2) as Ht.
      rewrite T2, <- app_assoc in Ht.
      rewrite (trace_since_app _ _ _ Ht), count_app, Wake_enter_once. reflexivity. }
    rewrite V, V2, H'.
    destruct fe; cbn [negb orb andb] in *.
    + rewrite O, SC, W, FS, F2.
      split; [reflexivity |]. split; [reflexivity |]. split; [exact Hc |].
      split; [exact IL |]. split; [exact OR |]. split; [reflexivity |].
      split; [intros _; now apply Q | reflexivity].
    + rewrite has_flag_clear_waiters_owned, shared_count_clear_waiters,
        has_flag_clear_waiters, O, SC, FS, F2.
      split; [reflexivity |]. split; [reflexivity |]. split; [exact Hc |].
      split; [exact IL |]. split; [exact OR |].
      split; [destruct hf; reflexivity |].
      split; [| reflexivity]. intros Eh. apply Q. now rewrite Eh.
  - cbn [run result final]. rewrite V2, O, SC, W, H2.
    destruct Hq2 as (IL & OR & FS). rewrite H2 in IL.
    split; [reflexivity |]. split; [reflexivity |]. split; [reflexivity |].
    split; [rewrite (trace_since_app _ _ _ T2); reflexivity |].
    split; [exact IL |]. split; [exact OR |]. split; [exact F2 |].
    split; [| reflexivity].
    intros _. unfold queue. rewrite H2.
    split; [exact IL |]. split; [exact OR |]. now rewrite <- H2.
Qed.

(** The exclusive owner releases the lock while one shared waiter is
    queued. *)
Lemma ReleaseExclusive_hands_over_witness :
  let s := one_shared_waiter in
  let l := [200] in
  let o := run (ReleaseExclusive 900 8) [] s in
  let waiters := has_flag (_value s) LockWaiters in
  let first_is_exclusive :=
    match l with x :: _ => exclusive (memory s) x | [] => false end in
  let drained := waiters && negb first_is_exclusive in
  let head_flag := exclusive (memory s) (_waitersListHead s) in
  let l' := if waiters then if first_is_exclusive then tl l else [] else l in
  result o = Returned tt
  /\ Owned (final o) = false
  /\ SharedOwners (final o) = SharedOwners s
  /\ count (is_enter MWake) (trace_since s (final o)) = (if waiters then 1 else 0)%nat
  /\ is_list (memory (final o)) (_waitersListHead (final o)) l'
  /\ ordered (memory (final o)) l' = true
  /\ _firstSharedWaiter (final o)
     = (if drained && negb head_flag then _waitersListHead s else _firstSharedWaiter s)
  /\ (drained && head_flag = false -> queue (final o) l')
  /\ has_flag (_value (final o)) LockWaiters = waiters && first_is_exclusive.
Proof.
  apply (ReleaseExclusive_hands_over 900 8 [] one_shared_waiter [200]).
  - apply Forall_nil_2.
  - queue_by_evaluation.
  - reflexivity.
  - fresh_by_evaluation.
  - reflexivity.
  - simpl. lia.
Defined.

Lemma read_quiet {A : Type} (G : Z -> Prog A) env s :
  quiet_value env ->
  exists s1,
    run (value <- act AGetValue ;; G value) env s = run (G (_value s)) (tl env) s1
    /\ _value s1 = _value s
    /\ same_view s s1
    /\ trace s1 = trace s ++ [(AGetValue, _value s)]
    /\ quiet_value (tl env).
Proof.
  intros Hq. destruct (after1_same_view env s Hq) as (V1 & U1 & Q1).
  step. rewrite U1. eexists. split; [reflexivity |].
  split; [exact U1 |]. split; [| split; [| exact Q1]].
  - eapply same_view_trans; [exact V1 | apply same_view_log].
  - cbn [trace log upd_trace]. now rewrite after1_trace.
Qed.

Lemma cas_quiet {A : Type} newv (K : Z -> Prog A) env s :
  quiet_value env ->
  exists s1,
    run (old <- act (ACasValue newv (_value s)) ;; K old) env s
    = run (K (_value s)) (tl env) s1
    /\ _value s1 = newv
    /\ same_view s s1
    /\ trace s1 = trace s ++ [(ACasValue newv (_value s), _value s)]
    /\ quiet_value (tl env).
Proof.
  intros Hq. destruct (after1_same_view env s Hq) as (V1 & U1 & Q1).
  step. rewrite U1, Z.eqb_refl. eexists. split; [reflexivity |].
  split; [reflexivity |]. split; [| split; [| exact Q1]].
  - eapply same_view_trans; [exact V1 | repeat split].
  - cbn [trace log upd_trace upd_value]. now rewrite after1_trace.
Qed.

(** The fast path of AcquireExclusive and of AcquireShared. *)
Lemma AcquireExclusive_free sleep wb fuel env s :
  quiet_value env -> Owned s = false ->
  exists s2,
    run (AcquireExclusive sleep wb (S fuel)) env s = mkOutcome (Returned tt) (tl (tl env)) s2
    /\ _value s2 = Int32.add (_value s) LockOwned
    /\ same_view s s2
    /\ trace s2 = trace s ++ [(AGetValue, _value s);
                              (ACasValue (Int32.add (_value s) LockOwned) (_value s),
                               _value s)]
    /\ quiet_value (tl (tl env)).
Proof.
  intros Hq Ho. unfold AcquireExclusive, Owned in *. cbn [AcquireExclusive_loop].
  match goal with
  | |- context [run (bind (act AGetValue) ?G) env s] =>
      destruct (read_quiet G env s Hq) as (s1 & Hrun & U1 & V1 & T1 & Q1)
  end.
  rewrite Hrun. clear Hrun. rewrite no_flag_has_flag, Ho. cbn [negb].
  rewrite <- U1.
  match goal with
  | |- context [run (bind (act (ACasValue ?n _)) ?K) (tl env) s1] =>
      destruct (cas_quiet n K (tl env) s1 Q1) as (s2 & Hrun & U2 & V2 & T2 & Q2)
  end.
  rewrite Hrun. clear Hrun. rewrite Z.eqb_refl. cbn [run].
  exists s2. split; [reflexivity |]. split; [exact U2 |].
  split; [eapply same_view_trans; eassumption |]. split; [| exact Q2].
  rewrite T2, T1, U1, <- app_assoc. reflexivity.
Qed.

Lemma AcquireShared_free sleep wb fuel env s :
  quiet_value env -> shared_fast_path (_value s) = true ->
  let newv := if Owned s then Int32.add (_value s) LockSharedOwnersIncrement
              else Int32.add (Int32.add (_value s) LockOwned) LockSharedOwnersIncrement in
  exists s2,
    run (AcquireShared sleep wb (S fuel)) env s = mkOutcome (Returned tt) (tl (tl env)) s2
    /\ _value s2 = newv
    /\ same_view s s2
    /\ trace s2 = trace s ++ [(AGetValue, _value s); (ACasValue newv (_value s), _value s)]
    /\ quiet_value (tl (tl env)).
Proof.
  intros Hq Hf newv. unfold AcquireShared, Owned in *. cbn [AcquireShared_loop].
  match goal with
  | |- context [run (bind (act AGetValue) ?G) env s] =>
      destruct (read_quiet G env s Hq) as (s1 & Hrun & U1 & V1 & T1 & Q1)
  end.
  rewrite Hrun. clear Hrun. rewrite Hf, no_flag_has_flag.
  subst newv. rewrite <- U1.
  destruct (has_flag (_value s1) LockOwned); cbn [negb].
  - match goal with
    | |- context [run (bind (act (ACasValue ?n _)) ?K) (tl env) s1] =>
        destruct (cas_quiet n K (tl env) s1 Q1) as (s2 & Hrun & U2 & V2 & T2 & Q2)
    end.
    rewrite Hrun. clear Hrun. rewrite Z.eqb_refl. cbn [run].
    exists s2. split; [reflexivity |]. split; [exact U2 |].
    split; [eapply same_view_trans; eassumption |]. split; [| exact Q2].
    rewrite T2, T1, U1, <- app_assoc. reflexivity.
  - match goal with
    | |- context [run (bind (act (ACasValue ?n _)) ?K) (tl env) s1] =>
        destruct (cas_quiet n K (tl env) s1 Q1) as (s2 & Hrun & U2 & V2 & T2 & Q2)
    end.
    rewrite Hrun. clear Hrun. rewrite Z.eqb_refl. cbn [run].
    exists s2. split; [reflexivity |]. split; [exact U2 |].
    split; [eapply same_view_trans; eassumption |]. split; [| exact Q2].
    rewrite T2, T1, U1, <- app_assoc. reflexivity.
Qed.

(** X9.  While no other thread writes the state word, an acquire that
    finds the lock free takes it at once, whether it may sleep or not and
    whatever the spin count: AcquireExclusive on a word with the owned
    bit clear, and AcquireShared on a word that passes the test of the
    fast path, make one read and one compare-exchange and nothing else
    (no spin, no queue lock, no wait block), and leave the lock owned,
    AcquireShared with one more shared owner. *)
Theorem acquire_free_lock_at_once sleep wb fuel env s :
  quiet_value env -> (0 < fuel)%nat ->
  (Owned s = false ->
     let o := run (AcquireExclusive sleep wb fuel) env s in
     result o = Returned tt
     /\ Owned (final o) = true
     /\ SharedOwners (final o) = SharedOwners s
     /\ has_flag (_value (final o)) LockWaiters = has_flag (_value s) LockWaiters
     /\ count is_cas_value (trace_since s (final o)) = 1%nat
     /\ length (trace_since s (final o)) = 2%nat
     /\ same_view s (final o))
  /\ (shared_fast_path (_value s) = true ->
     let o := run (AcquireShared sleep wb fuel) env s in
     result o = Returned tt
     /\ Owned (final o) = true
     /\ SharedOwners (final o) = (SharedOwners s + 1) mod 2 ^ 30
     /\ has_flag (_value (final o)) LockWaiters = has_flag (_value s) LockWaiters
     /\ count is_cas_value (trace_since s (final o)) = 1%nat
     /\ length (trace_since s (final o)) = 2%nat
     /\ same_view s (final o)).
Proof.
  intros Hq Hfuel. destruct fuel as [| fuel]; [lia |]. split.
  - intros Ho o.
    destruct (AcquireExclusive_free sleep wb fuel env s Hq Ho)
      as (s2 & Hrun & U & V & T & _).
    subst o. rewrite Hrun. cbn [result final].
    unfold Owned, SharedOwners in *. rewrite U.
    destruct (add_owned_fields (_value s) Ho) as (SC & O & W).
    rewrite (trace_since_app _ _ _ T). auto 10.
  - intros Hf o.
    destruct (AcquireShared_free sleep wb fuel env s Hq Hf)
      as (s2 & Hrun & U & V & T & _).
    subst o. rewrite Hrun. cbn [result final].
    unfold Owned, SharedOwners in *. rewrite U.
    rewrite (trace_since_app _ _ _ T).
    destruct (has_flag (_value s) LockOwned) eqn:Ho.
    + destruct (add_increment_fields (_value s)) as (SC & O & W).
      rewrite SC, O, W, Ho. auto 10.
    + destruct (add_owned_fields (_value s) Ho) as (SC1 & O1 & W1).
      destruct (add_increment_fields (Int32.add (_value s) LockOwned)) as (SC & O & W).
      rewrite SC, O, W, SC1, O1, W1. auto 10.
Qed.

(** Acquires of a new lock while another thread unblocks some block. *)
Lemma acquire_free_lock_at_once_witness :
  let s := FairResourceLock_new 4000 2 100 0 true in
  let env := [EnvUnblock 300] in
  (let o := run (AcquireExclusive true 200 3) env s in
   result o = Returned tt
   /\ Owned (final o) = true
   /\ SharedOwners (final o) = SharedOwners s
   /\ has_flag (_value (final o)) LockWaiters = has_flag (_value s) LockWaiters
   /\ count is_cas_value (trace_since s (final o)) = 1%nat
   /\ length (trace_since s (final o)) = 2%nat
   /\ same_view s (final o))
  /\ (let o := run (AcquireShared true 200 3) env s in
      result o = Returned tt
      /\ Owned (final o) = true
      /\ SharedOwners (final o) = (SharedOwners s + 1) mod 2 ^ 30
      /\ has_flag (_value (final o)) LockWaiters = has_flag (_value s) LockWaiters
      /\ count is_cas_value (trace_since s (final o)) = 1%nat
      /\ length (trace_since s (final o)) = 2%nat
      /\ same_view s (final o)).
Proof.
  destruct (acquire_free_lock_at_once true 200 3 [EnvUnblock 300]
              (FairResourceLock_new 4000 2 100 0 true)) as [H1 H2].
  - constructor; [intros v; discriminate | constructor].
  - lia.
  - split; [apply H1 | apply H2]; reflexivity.
Defined.
Lemma round_trip_word v a b :
  Int32.in_range v ->
  Int32.sub (Int32.sub (Int32.add (Int32.add v a) b) a) b = v.
Proof.
  intros Hv. unfold Int32.sub, Int32.add.
  destruct (wrap_eq (v + a)) as [k1 ->].
  destruct (wrap_eq (v + a + k1 * 2 ^ 32 + b)) as [k2 ->].
  destruct (wrap_eq (v + a + k1 * 2 ^ 32 + b + k2 * 2 ^ 32 - a)) as [k3 ->].
  replace (v + a + k1 * 2 ^ 32 + b + k2 * 2 ^ 32 - a + k3 * 2 ^ 32 - b)
    with (v + (k1 + k2 + k3) * 2 ^ 32) by lia.
  rewrite wrap_shift. now apply wrap_id.
Qed.

Lemma ReleaseExclusive_no_waiters wl fuel env s :
  quiet_value env -> has_flag (_value s) LockWaiters = false ->
  exists s2,
    run (ReleaseExclusive wl (S fuel)) env s = mkOutcome (Returned tt) (tl (tl env)) s2
    /\ _value s2 = Int32.sub (_value s) LockOwned
    /\ same_view s s2
    /\ quiet_value (tl (tl env)).
Proof.
  intros Hq Hw. cbn [ReleaseExclusive].
  destruct (read_cas_quiet (fun v => Int32.sub v LockOwned)
              (fun v => if has_flag v LockWaiters then Wake wl (S fuel) else Ret tt)
              (fun _ => ReleaseExclusive wl fuel) env s Hq)
    as (s2 & Hrun & V2 & SV & T2 & Q2).
  rewrite Hrun, Hw. cbn [run]. eauto.
Qed.

Lemma ReleaseShared_no_waiters wl fuel env s :
  quiet_value env -> has_flag (_value s) LockWaiters = false ->
  exists s2,
    run (ReleaseShared wl (S fuel)) env s = mkOutcome (Returned tt) (tl (tl env)) s2
    /\ _value s2 = ReleaseShared_newValue (_value s)
    /\ same_view s s2
    /\ quiet_value (tl (tl env)).
Proof.
  intros Hq Hw. cbn [ReleaseShared].
  destruct (read_cas_quiet ReleaseShared_newValue
              (fun v => if has_flag v LockWaiters then Wake wl (S fuel) else Ret tt)
              (fun _ => ReleaseShared wl fuel) env s Hq)
    as (s2 & Hrun & V2 & SV & T2 & Q2).
  rewrite Hrun, Hw. cbn [run]. eauto.
Qed.

(** X10.  Acquire and release are inverse on the state word.  While no
    other thread writes the word and nobody waits: AcquireExclusive
    followed by ReleaseExclusive on an unowned lock, and AcquireShared
    followed by ReleaseShared on a lock that is free or held shared,
    both return and leave the word exactly as it was, without a change
    to the queue. *)
Theorem acquire_release_round_trip sleep wb wl fuel env s :
  quiet_value env -> (0 < fuel)%nat ->
  Int32.in_range (_value s) ->
  has_flag (_value s) LockWaiters = false ->
  (Owned s = false ->
     let o := run (AcquireExclusive sleep wb fuel ;; ReleaseExclusive wl fuel) env s in
     result o = Returned tt /\ _value (final o) = _value s /\ same_view s (final o))
  /\ (shared_fast_path (_value s) = true ->
      (Owned s = false -> SharedOwners s = 0) ->
      SharedOwners s < 2 ^ 30 - 1 ->
      let o := run (AcquireShared sleep wb fuel ;; ReleaseShared wl fuel) env s in
      result o = Returned tt /\ _value (final o) = _value s /\ same_view s (final o)).
Proof.
  intros Hq Hfuel Hr Hw. destruct fuel as [| fuel]; [lia |]. split.
  - intros Ho o. subst o. rewrite run_bind.
    destruct (AcquireExclusive_free sleep wb fuel env s Hq Ho)
      as (s2 & Hrun & U & V & T & Q).
    rewrite Hrun. cbn [result rest final].
    unfold Owned in Ho. destruct (add_owned_fields (_value s) Ho) as (_ & _ & W).
    destruct (ReleaseExclusive_no_waiters wl fuel (tl (tl env)) s2 Q)
      as (s3 & Hrun3 & U3 & V3 & _).
    { rewrite U, W. exact Hw. }
    rewrite Hrun3. cbn [result final].
    split; [reflexivity |]. split.
    + rewrite U3, U. now apply add_sub_word.
    + eapply same_view_trans; eassumption.
  - intros Hf H0 Hmax o. subst o. rewrite run_bind.
    destruct (AcquireShared_free sleep wb fuel env s Hq Hf)
      as (s2 & Hrun & U & V & T & Q).
    rewrite Hrun. cbn [result rest final].
    unfold Owned, SharedOwners in *.
    pose proof (shared_count_bounds (_value s)) as Hb.
    assert (Hnew : has_flag (_value s2) LockWaiters = false
                   /\ ReleaseShared_newValue (_value s2) = _value s).
    { rewrite U. unfold ReleaseShared_newValue.
      destruct (has_flag (_value s) LockOwned) eqn:Ho.
      - destruct (add_increment_fields (_value s)) as (SC & O & W).
        rewrite W, SC. split; [exact Hw |].
        assert (Hc : shared_count (_value s) <> 0).
        { unfold shared_fast_path in Hf. rewrite !no_flag_has_flag, Ho, Hw in Hf.
          cbn [negb orb andb] in Hf. apply negb_true_iff, Z.eqb_neq in Hf. exact Hf. }
        rewrite Z.mod_small by lia.
        destruct (shared_count (_value s) + 1 =? 1) eqn:E; [apply Z.eqb_eq in E; lia |].
        cbn [negb]. now apply add_sub_word.
      - destruct (add_owned_fields (_value s) Ho) as (SC1 & O1 & W1).
        destruct (add_increment_fields (Int32.add (_value s) LockOwned)) as (SC & O & W).
        rewrite W, W1, SC, SC1, (H0 eq_refl). split; [exact Hw |].
        change ((0 + 1) mod 2 ^ 30 =? 1) with true. cbn [negb].
        now apply round_trip_word. }
    destruct Hnew as [Hw2 Hv2].
    destruct (ReleaseShared_no_waiters wl fuel (tl (tl env)) s2 Q Hw2)
      as (s3 & Hrun3 & U3 & V3 & _).
    rewrite Hrun3. cbn [result final].
    split; [reflexivity |]. split.
    + rewrite U3. exact Hv2.
    + eapply same_view_trans; eassumption.
Qed.

(** A new lock, with up to two interferences that leave the word alone. *)
Lemma acquire_release_round_trip_witness :
  let s := FairResourceLock_new 4000 2 100 0 true in
  let env := [EnvUnblock 300; Quiet] in
  (let o := run (AcquireExclusive true 200 3 ;; ReleaseExclusive 900 3) env s in
   result o = Returned tt /\ _value (final o) = _value s /\ same_view s (final o))
  /\ (let o := run (AcquireShared true 200 3 ;; ReleaseShared 900 3) env s in
      result o = Returned tt /\ _value (final o) = _value s /\ same_view s (final o)).
Proof.
  destruct (acquire_release_round_trip true 200 900 3 [EnvUnblock 300; Quiet]
              (FairResourceLock_new 4000 2 100 0 true)) as [H1 H2].
  - repeat (constructor; [intros v; discriminate |]). constructor.
  - lia.
  - vm_compute. split; discriminate.
  - reflexivity.
  - split; [apply H1; reflexivity | apply H2; [reflexivity | reflexivity | reflexivity]].
Defined.
Lemma acts_WakeShared_loop (P : Act -> Prop) wl fuel :
  (forall e, match e with AEnter _ => True | _ => P e end) ->
  forall wb, all_acts P (WakeShared_loop wl wb fuel).
Proof.
  intros HP.
  assert (H1 : forall e, match e with
                         | ALoadFlink _ | ALoadBlink _ | AStoreFlink _ _ | AStoreBlink _ _
                         | AGetHead | AGetFirstShared | AGetSpinCount => P e
                         | _ => True end)
    by (intros e; specialize (HP e); destruct e; auto).
  assert (H2 : forall e, match e with AGetValue | ACasValue _ _ => P e | _ => True end)
    by (intros e; specialize (HP e); destruct e; auto).
  induction fuel as [| fuel IH]; intros wb; cbn [WakeShared_loop]; [constructor |].
  apply all_acts_bind; [unfold act; constructor; [exact (HP AGetHead) | constructor] |].
  intros head. destruct (wb =? head); [now apply acts_ClearWaitersBit |].
  apply all_acts_bind;
    [unfold act; constructor; [exact (HP (ALoadFlink wb)) | constructor] |].
  intros flink. apply all_acts_bind; [now apply acts_RemoveEntryList |].
  intros _. apply all_acts_bind; [now apply acts_InsertTailList |].
  intros _. apply IH.
Qed.

(** A run of WakeShared records its entry once. *)
Lemma WakeShared_enter_once wl fuel env s :
  count (is_enter MWakeShared) (trace_since s (final (run (WakeShared wl fuel) env s)))
  = 1%nat.
Proof.
  unfold WakeShared. cbn [bind act_].
  erewrite run_Vis_trace by reflexivity.
  cbn [count]. change (is_enter MWakeShared (AEnter MWakeShared, 0)) with true. cbv iota.
  f_equal. apply count_Forall_0.
  eapply Forall_impl;
    [apply all_acts_run with (P := fun e => is_enter MWakeShared (e, 0) = false) |].
  - assert (HP : forall e, match e with
                           | AEnter MWakeShared => True
                           | _ => is_enter MWakeShared (e, 0) = false
                           end)
      by (intros e; destruct e; try reflexivity; destruct m; reflexivity || exact I).
    repeat first
      [ apply acts_WakeShared_loop;
        intros e; destruct e; try reflexivity; exact I
      | apply acts_UnblockWakeList;
        intros e; destruct e; try reflexivity; try exact I; destruct m; reflexivity || exact I
      | progress intros
      | apply all_acts_bind
      | apply all_acts_Ret
      | apply all_acts_Vis
      | match goal with
        | |- all_acts _ (act _) => unfold act
        | |- all_acts _ (act_ _) => unfold act_
        | |- is_enter _ _ = false => reflexivity
        end ].
  - intros ev H. now rewrite (is_enter_fst _ ev 0).
Qed.

(** X11.  ConvertExclusiveToShared, while no other thread writes the
    state word: the owner becomes the one more shared owner of a lock
    that stays owned, and WakeShared is entered, once, exactly when the
    word had the waiters bit.  WakeShared then takes all shared wait
    blocks off the queue and leaves the exclusive ones.  The waiters bit
    is clear in the end in every case, also when exclusive wait blocks
    are still queued. *)
Theorem ConvertExclusiveToShared_wakes_shared wl fuel env s l :
  quiet_value env -> queue s l -> _lock s = false ->
  wl ∉ _waitersListHead s :: l ->
  Owned s = true ->
  (length l + length env < fuel)%nat ->
  let o := run (ConvertExclusiveToShared wl fuel) env s in
  let waiters := has_flag (_value s) LockWaiters in
  result o = Returned tt
  /\ Owned (final o) = true
  /\ SharedOwners (final o) = (SharedOwners s + 1) mod 2 ^ 30
  /\ count (is_enter MWakeShared) (trace_since s (final o)) = (if waiters then 1 else 0)%nat
  /\ queue (final o) (if waiters then exclusive_run (memory s) l else l)
  /\ has_flag (_value (final o)) LockWaiters = false.
Proof.
  intros Hq Hqueue Hlock Hwl Ho Hfuel o waiters.
  destruct fuel as [| fuel]; [lia |].
  subst o. cbn [ConvertExclusiveToShared].
  destruct (read_cas_quiet (fun v => Int32.add v LockSharedOwnersIncrement)
              (fun v => if has_flag v LockWaiters then WakeShared wl (S fuel) else Ret tt)
              (fun _ => ConvertExclusiveToShared wl fuel) env s Hq)
    as (s2 & Hrun & V2 & SV & T2 & Q2).
  rewrite Hrun. clear Hrun. subst waiters.
  unfold Owned, SharedOwners in *.
  destruct (add_increment_fields (_value s)) as (SC & O & W).
  pose proof SV as (L2 & H2 & F2 & _ & FL & BL & E2).
  assert (Hq2 : queue s2 l) by (apply (queue_same_view _ _ _ SV); exact Hqueue).
  destruct (has_flag (_value s) LockWaiters) eqn:Ew.
  - pose proof (tl_length env). pose proof (tl_length (tl env)).
    destruct (WakeShared_run wl (S fuel) (tl (tl env)) s2 l Q2 Hq2)
      as (R & Q & V & L & H' & E').
    { congruence. }
    { now rewrite H2. }
    { lia. }
    destruct (exclusive_run_ext_on (memory s) (memory s2) l) as [Xe _].
    { intros q _. apply E2. }
    rewrite Xe in Q.
    split; [exact R |].
    rewrite V, V2, has_flag_clear_waiters_owned, shared_count_clear_waiters,
      has_flag_clear_waiters, O, SC, Ho.
    split; [reflexivity |]. split; [reflexivity |].
    split; [| split; [exact Q | reflexivity]].
    pose proof (run_trace (WakeShared wl (S fuel)) (tl (tl env)) s2) as Ht.
    rewrite T2, <- app_assoc in Ht.
    rewrite (trace_since_app _ _ _ Ht), count_app, WakeShared_enter_once. reflexivity.
  - cbn [run result final]. rewrite V2, O, SC, W, Ho.
    split; [reflexivity |]. split; [reflexivity |]. split; [reflexivity |].
    split; [| split; [exact Hq2 | reflexivity]].
    rewrite (trace_since_app _ _ _ T2). reflexivity.
Qed.

(** The exclusive owner converts while an exclusive and a shared waiter
    are queued. *)
Lemma ConvertExclusiveToShared_wakes_shared_witness :
  let s := exclusive_then_shared_waiter in
  let l := [200; 300] in
  let o := run (ConvertExclusiveToShared 900 8) [] s in
  let waiters := has_flag (_value s) LockWaiters in
  result o = Returned tt
  /\ Owned (final o) = true
  /\ SharedOwners (final o) = (SharedOwners s + 1) mod 2 ^ 30
  /\ count (is_enter MWakeShared) (trace_since s (final o)) = (if waiters then 1 else 0)%nat
  /\ queue (final o) (if waiters then exclusive_run (memory s) l else l)
  /\ has_flag (_value (final o)) LockWaiters = false.
Proof.
  apply (ConvertExclusiveToShared_wakes_shared 900 8 [] exclusive_then_shared_waiter
           [200; 300]).
  - apply Forall_nil_2.
  - queue_by_evaluation.
  - reflexivity.
  - fresh_by_evaluation.
  - reflexivity.
  - simpl. lia.
Defined.
Lemma ConvertSharedToExclusive_free sleep wb fuel env s :
  quiet_value env -> SharedOwners s = 1 ->
  exists s2,
    run (ConvertSharedToExclusive sleep wb (S fuel)) env s
    = mkOutcome (Returned tt) (tl (tl env)) s2
    /\ _value s2 = Int32.sub (_value s) LockSharedOwnersIncrement
    /\ same_view s s2
    /\ trace s2 = trace s ++ [(AGetValue, _value s);
                              (ACasValue (Int32.sub (_value s) LockSharedOwnersIncrement)
                                 (_value s), _value s)]
    /\ quiet_value (tl (tl env)).
Proof.
  intros Hq Hc. unfold ConvertSharedToExclusive, SharedOwners in *.
  cbn [ConvertSharedToExclusive_loop].
  match goal with
  | |- context [run (bind (act AGetValue) ?G) env s] =>
      destruct (read_quiet G env s Hq) as (s1 & Hrun & U1 & V1 & T1 & Q1)
  end.
  rewrite Hrun. clear Hrun. rewrite Hc. change (1 =? 1) with true. cbv iota.
  rewrite <- U1.
  match goal with
  | |- context [run (bind (act (ACasValue ?n _)) ?K) (tl env) s1] =>
      destruct (cas_quiet n K (tl env) s1 Q1) as (s2 & Hrun & U2 & V2 & T2 & Q2)
  end.
  rewrite Hrun. clear Hrun. rewrite Z.eqb_refl. cbn [run].
  exists s2. split; [reflexivity |]. split; [exact U2 |].
  split; [eapply same_view_trans; eassumption |]. split; [| exact Q2].
  rewrite T2, T1, U1, <- app_assoc. reflexivity.
Qed.

(** X12.  ConvertSharedToExclusive by the only shared owner, while no
    other thread writes the state word: it takes the one share out of the
    word with one compare-exchange and returns, whether it may sleep or
    not.  The lock stays owned, now with no shared owner, the waiters bit
    is as it was, and neither the queue lock nor a wait block is
    touched. *)
Theorem ConvertSharedToExclusive_sole_owner sleep wb fuel env s :
  quiet_value env -> (0 < fuel)%nat ->
  SharedOwners s = 1 ->
  let o := run (ConvertSharedToExclusive sleep wb fuel) env s in
  result o = Returned tt
  /\ SharedOwners (final o) = 0
  /\ Owned (final o) = Owned s
  /\ has_flag (_value (final o)) LockWaiters = has_flag (_value s) LockWaiters
  /\ length (trace_since s (final o)) = 2%nat
  /\ same_view s (final o).
Proof.
  intros Hq Hfuel Hc o. destruct fuel as [| fuel]; [lia |].
  destruct (ConvertSharedToExclusive_free sleep wb fuel env s Hq Hc)
    as (s2 & Hrun & U & V & T & _).
  subst o. rewrite Hrun. cbn [result final].
  unfold Owned, SharedOwners in *. rewrite U.
  destruct (sub_increment_fields (_value s)) as (SC & O & W); [lia |].
  rewrite SC, O, W, Hc, (trace_since_app _ _ _ T). auto 10.
Qed.

(** The lock is held by one shared owner. *)
Lemma ConvertSharedToExclusive_sole_owner_witness :
  let s := final (run TryAcquireShared [] (FairResourceLock_new 4000 2 100 0 true)) in
  let o := run (ConvertSharedToExclusive true 200 2) [Quiet] s in
  result o = Returned tt
  /\ SharedOwners (final o) = 0
  /\ Owned (final o) = Owned s
  /\ has_flag (_value (final o)) LockWaiters = has_flag (_value s) LockWaiters
  /\ length (trace_since s (final o)) = 2%nat
  /\ same_view s (final o).
Proof.
  apply (ConvertSharedToExclusive_sole_owner true 200 2 [Quiet]
           (final (run TryAcquireShared [] (FairResourceLock_new 4000 2 100 0 true)))).
  - constructor; [intros v; discriminate | constructor].
  - lia.
  - reflexivity.
Defined.

(** X13.  The two conversions are inverse on the state word.  While no
    other thread writes the word and nobody waits, the exclusive owner
    that calls ConvertExclusiveToShared and then ConvertSharedToExclusive
    holds the lock exclusively again: both calls return, the word is
    exactly as it was, and the queue is not touched. *)
Theorem convert_round_trip sleep wb wl fuel env s :
  quiet_value env -> (0 < fuel)%nat ->
  Int32.in_range (_value s) ->
  has_flag (_value s) LockWaiters = false ->
  SharedOwners s = 0 ->
  let o := run (ConvertExclusiveToShared wl fuel ;;
                ConvertSharedToExclusive sleep wb fuel) env s in
  result o = Returned tt /\ _value (final o) = _value s /\ same_view s (final o).
Proof.
  intros Hq Hfuel Hr Hw Hc o. destruct fuel as [| fuel]; [lia |].
  subst o. rewrite run_bind. cbn [ConvertExclusiveToShared].
  destruct (read_cas_quiet (fun v => Int32.add v LockSharedOwnersIncrement)
              (fun v => if has_flag v LockWaiters then WakeShared wl (S fuel) else Ret tt)
              (fun _ => ConvertExclusiveToShared wl fuel) env s Hq)
    as (s2 & Hrun & V2 & SV & T2 & Q2).
  rewrite Hrun, Hw. cbn [run result rest final].
  unfold SharedOwners in *.
  destruct (add_increment_fields (_value s)) as (SC & _ & _).
  destruct (ConvertSharedToExclusive_free sleep wb fuel (tl (tl env)) s2 Q2)
    as (s3 & Hrun3 & U3 & V3 & _).
  { unfold SharedOwners. rewrite V2, SC, Hc. reflexivity. }
  rewrite Hrun3. cbn [result final].
  split; [reflexivity |]. split.
  - rewrite U3, V2. now apply add_sub_word.
  - eapply same_view_trans; eassumption.
Qed.

(** The exclusive owner of a lock without waiters converts there and
    back. *)
Lemma convert_round_trip_witness :
  let s := held_exclusive in
  let o := run (ConvertExclusiveToShared 900 3 ;;
                ConvertSharedToExclusive true 200 3) [Quiet; EnvUnblock 300] s in
  result o = Returned tt /\ _value (final o) = _value s /\ same_view s (final o).
Proof.
  apply (convert_round_trip true 200 900 3 [Quiet; EnvUnblock 300] held_exclusive).
  - repeat (constructor; [intros v; discriminate |]). constructor.
  - lia.
  - vm_compute. split; discriminate.
  - reflexivity.
  - reflexivity.
Defined.
Section SpinActs.

Variable P : Act -> Prop.
Hypothesis HP : forall e, uses_wake_event e = false -> P e.

Lemma acts_InsertWaitBlock wb pos : all_acts P (InsertWaitBlock wb pos).
Proof.
  assert (H1 : forall e, match e with
                         | ALoadFlink _ | ALoadBlink _ | AStoreFlink _ _ | AStoreBlink _ _
                         | AGetHead | AGetFirstShared | AGetSpinCount => P e
                         | _ => True end)
    by (intros e; destruct e; try exact I; apply HP; reflexivity).
  destruct pos; cbn [InsertWaitBlock];
    (apply all_acts_bind;
     [unfold act; constructor; [apply HP; reflexivity | constructor]
     | intros ?; first [now apply acts_InsertHeadList | now apply acts_InsertTailList]]).
Qed.

Lemma acts_Block_busy wb fuel : all_acts P (Block_busy wb fuel).
Proof.
  induction fuel as [| fuel IH]; cbn [Block_busy]; acts_tac;
    try (apply HP; reflexivity).
Qed.

Lemma acts_Block_spinning wb fuel : all_acts P (Block wb false fuel).
Proof.
  unfold Block. acts_tac; try (apply HP; reflexivity).
  - apply acts_Block_spin; apply HP; reflexivity.
  - apply acts_Block_busy.
Qed.

Lemma acts_AcquireExclusive_wait wb value : all_acts P (AcquireExclusive_wait wb value).
Proof.
  unfold AcquireExclusive_wait. acts_tac;
    try apply acts_InsertWaitBlock; acts_tac; try (apply HP; reflexivity).
Qed.

Lemma acts_AcquireShared_wait wb value : all_acts P (AcquireShared_wait wb value).
Proof.
  unfold AcquireShared_wait. acts_tac;
    try apply acts_InsertWaitBlock; acts_tac; try (apply HP; reflexivity).
Qed.

Lemma acts_ConvertSharedToExclusive_wait wb value :
  all_acts P (ConvertSharedToExclusive_wait wb value).
Proof.
  unfold ConvertSharedToExclusive_wait. acts_tac;
    try apply acts_InsertWaitBlock; acts_tac; try (apply HP; reflexivity).
Qed.

Ltac spin_tac IH :=
  repeat first
    [ apply IH
    | apply acts_AcquireExclusive_wait
    | apply acts_AcquireShared_wait
    | apply acts_ConvertSharedToExclusive_wait
    | apply acts_Block_spinning
    | progress intros
    | apply all_acts_bind
    | apply all_acts_Ret
    | apply all_acts_Vis
    | match goal with
      | |- all_acts _ (if ?b then _ else _) => destruct b
      | |- all_acts _ (act _) => unfold act
      | |- all_acts _ (act_ _) => unfold act_
      end
    | apply HP; reflexivity ].

Lemma acts_AcquireExclusive_spinning wb fuel :
  forall i, all_acts P (AcquireExclusive_loop false wb fuel i).
Proof.
  induction fuel as [| fuel IH]; intros i; cbn [AcquireExclusive_loop]; [constructor |].
  spin_tac IH.
Qed.

Lemma acts_AcquireShared_spinning wb fuel :
  forall i, all_acts P (AcquireShared_loop false wb fuel i).
Proof.
  induction fuel as [| fuel IH]; intros i; cbn [AcquireShared_loop]; [constructor |].
  spin_tac IH.
Qed.

Lemma acts_ConvertSharedToExclusive_spinning wb fuel :
  forall i, all_acts P (ConvertSharedToExclusive_loop false wb fuel i).
Proof.
  induction fuel as [| fuel IH]; intros i; cbn [ConvertSharedToExclusive_loop];
    [constructor |].
  spin_tac IH.
Qed.

End SpinActs.

(** X14.  The busy-waiting acquires (SpinAcquireExclusive,
    SpinAcquireShared and SpinConvertSharedToExclusive, that is the
    acquires with sleep = false) never touch the keyed event of the lock:
    in no run, whatever the other threads do, do they read or create the
    event, wait on it or release it, and they never throw. *)
Theorem spin_acquire_never_uses_wake_event wb fuel env s :
  let quiet o := Forall (fun ev : Act * Z => uses_wake_event (fst ev) = false)
                   (trace_since s (final o)) in
  quiet (run (AcquireExclusive false wb fuel) env s)
  /\ quiet (run (AcquireShared false wb fuel) env s)
  /\ quiet (run (ConvertSharedToExclusive false wb fuel) env s).
Proof.
  cbv zeta. split; [| split];
    apply (all_acts_run (fun e => uses_wake_event e = false)).
  - apply acts_AcquireExclusive_spinning. auto.
  - apply acts_AcquireShared_spinning. auto.
  - apply acts_ConvertSharedToExclusive_spinning. auto.
Qed.

Lemma run_bind_assoc {A B C : Type} (m : Prog A) (f : A -> Prog B) (g : B -> Prog C) :
  forall env s,
    run (bind (bind m f) g) env s = run (bind m (fun x => bind (f x) g)) env s.
Proof.
  induction m as [a | e k IH |]; intros env s; cbn [bind]; [reflexivity | | reflexivity].
  cbn [run]. destruct (exec e (snd (pop e env s))); [apply IH | reflexivity | reflexivity].
Qed.

(** WakeExclusive: with an exclusive wait block first it takes that one
    block off the queue and unblocks it, otherwise it removes nothing;
    it clears the waiters bit when the queue is empty afterwards. *)
Lemma WakeExclusive_run fuel env s l :
  quiet_value env -> queue s l -> _lock s = false ->
  0 ∉ l ->
  (length env < fuel)%nat ->
  let o := run (WakeExclusive fuel) env s in
  let removes := match l with x :: _ => exclusive (memory s) x | [] => false end in
  let l' := if removes then tl l else l in
  result o = Returned tt
  /\ queue (final o) l'
  /\ _value (final o)
     = match l' with [] => clear_flag (_value s) LockWaiters | _ :: _ => _value s end
  /\ _lock (final o) = false
  /\ _waitersListHead (final o) = _waitersListHead s
  /\ (forall q, exclusive (memory (final o)) q = exclusive (memory s) q).
Proof.
  intros Hq (Hl & Ho & Hfs) Hlock H0 Hfuel o removes l'. subst o.
  unfold WakeExclusive.
  set (head := _waitersListHead s) in *.
  pose proof (is_list_flink_head _ _ _ Hl) as Hf.
  step. unfold act_, act. cbn [bind]. rewrite run_Vis_plain by reflexivity.
  cbn [exec _lock log upd_trace]. rewrite Hlock.
  rewrite run_Vis_plain by reflexivity. cbn [exec]. fold head.
  erewrite run_LoadFlink by exact Hf. cbn [bind]. step. fold head.
  cbn [_waitersListHead log upd_trace upd_lock]. fold head.
  destruct l as [| x l0].
  - (* the queue is empty *)
    subst removes l'. cbn [List.hd tl] in *. rewrite Z.eqb_refl. cbn [negb bind].
    step. cbn [snd fst _waitersListHead log upd_trace upd_lock]. fold head.
    rewrite Z.eqb_refl. rewrite run_bind.
    match goal with
    | |- context [run (ClearWaitersBit ?f) ?e ?st] =>
        destruct (ClearWaitersBit_run f e st Hq ltac:(lia)) as (R & (K1 & K2 & K3) & V);
        set (oc := run (ClearWaitersBit f) e st) in *
    end.
    rewrite R. step. rewrite Z.eqb_refl. cbn [negb run result final].
    pose proof K3 as (W1 & W2 & W3 & W4 & W5 & W6 & W7).
    cbn [_lock _waitersListHead _firstSharedWaiter _spinCount memory log upd_trace
         upd_lock _value] in *.
    split; [reflexivity |].
    split; [| split; [exact V | split; [reflexivity | split; [exact W2 | exact W7]]]].
    unfold queue. cbn. rewrite W2, W3. split; [| split; [reflexivity | exact Hfs]].
    apply (is_list_frame (memory s)); [exact Hl | intros; apply W5 | intros; apply W6].
  - (* the queue holds x first *)
    cbn [List.hd tl] in *.
    assert (Hxh : x <> head).
    { destruct Hl as [N _]. apply NoDup_cons in N as [N _]. intros ->. apply N.
      apply list_elem_of_here. }
    assert (Hx0 : x <> 0).
    { intros ->. apply H0. apply list_elem_of_here. }
    assert (Px : is_Some (memory s !! x)).
    { apply (is_list_present _ _ _ _ Hl). apply list_elem_of_further, list_elem_of_here. }
    destruct (x =? head) eqn:E; [apply Z.eqb_eq in E; contradiction |].
    cbn [negb bind].
    match goal with
    | |- context [run (Vis (ALoadFlags x) ?k) env ?st] =>
        destruct (run_LoadFlags x k env st Hq Px) as (f & s1 & Hrun & Hfx & V & U & Q)
    end.
    rewrite Hrun. clear Hrun. cbn [memory log upd_trace upd_lock] in Hfx.
    pose proof V as (W1 & W2 & W3 & W4 & W5 & W6 & W7).
    cbn [_lock _waitersListHead _firstSharedWaiter _spinCount memory log upd_trace
         upd_lock _value] in *.
    assert (Hl1 : is_list (memory s1) head ([] ++ x :: l0)).
    { apply (is_list_frame (memory s)); [exact Hl | intros; apply W5 | intros; apply W6]. }
    rewrite Hfx. subst removes l'.
    destruct (exclusive (memory s) x) eqn:Ex; cbn [bind].
    + (* x is exclusive: it is removed and unblocked *)
      step. rewrite W2. fold head. rewrite run_bind_assoc, run_bind.
      pose proof (is_list_flink_head _ _ _ Hl1) as Hf1. cbn [List.hd app] in Hf1.
      pose proof (is_list_flink_mid _ _ [] x l0 Hl1) as Hfx1.
      destruct (RemoveHeadList_run head x (List.hd head l0) (tl env)
                  (log AGetHead head s1) Hf1 Hfx1
                  (is_list_hd_present _ head [x] l0 Hl1))
        as (s2 & Hrun & C2 & F2 & B2 & G2).
      rewrite Hrun. clear Hrun. cbn [result rest final].
      destruct (ctx_fields _ _ C2) as (A1 & A2 & A3 & A4 & A5).
      cbn [log upd_trace _value _lock _waitersListHead _firstSharedWaiter _spinCount memory]
        in *.
      assert (Hl2 : is_list (memory s2) head ([] ++ l0))
        by (apply (is_list_remove (memory s1) _ head [] x l0 Hl1); assumption).
      cbn [app] in Hl2.
      step. rewrite A3, W2. fold head.
      erewrite run_LoadFlink by exact (is_list_flink_head _ _ _ Hl2).
      cbn [bind snd fst]. step.
      cbn [_waitersListHead log upd_trace]. rewrite A3, W2. fold head.
      assert (Px2 : is_Some (memory s2 !! x)).
      { apply flink_is_Some. rewrite F2. apply upd_is_Some. rewrite Hfx1. eauto. }
      assert (E2 : forall q, exclusive (memory s2) q = exclusive (memory s) q).
      { intros q. rewrite (exclusive_ext_flags _ _ G2). apply W7. }
      assert (Hx0' : (x =? 0) = false) by (now apply Z.eqb_neq).
      assert (Hfin : forall env3 s3,
                 quiet_value env3 -> (length env3 <= length env)%nat ->
                 (forall q, flink (memory s3) q = flink (memory s2) q) ->
                 (forall q, blink (memory s3) q = blink (memory s2) q) ->
                 (forall q, exclusive (memory s3) q = exclusive (memory s2) q) ->
                 _waitersListHead s3 = head ->
                 _firstSharedWaiter s3 = _firstSharedWaiter s ->
                 let o := run (act_ ALockRelease ;;
                               if negb (x =? 0) then Unblock x fuel else Ret tt) env3 s3 in
                 result o = Returned tt /\ queue (final o) l0
                 /\ _value (final o) = _value s3 /\ _lock (final o) = false
                 /\ _waitersListHead (final o) = head
                 /\ (forall q, exclusive (memory (final o)) q = exclusive (memory s) q)).
      { intros env3 s3 Q3 Len3 F3 B3 E3 H3 C3 o3. subst o3.
        step. rewrite Hx0'. cbn [negb].
        assert (P3 : is_Some (memory (log ALockRelease 0 (upd_lock false s3)) !! x)).
        { apply flink_is_Some. cbn. rewrite F3. now apply flink_is_Some. }
        destruct (Unblock_run x fuel env3 _ Q3 P3 ltac:(lia)) as (R & (K1 & K2 & K3) & VV).
        pose proof K3 as (N1 & N2 & N3 & N4 & N5 & N6 & N7).
        cbn [_lock _waitersListHead _firstSharedWaiter _spinCount memory log upd_trace
             upd_lock _value] in *.
        split; [exact R |].
        split; [| split; [exact VV | split; [exact N1 | split;
                   [rewrite N2; exact H3 | intros q; rewrite N7, E3; apply E2]]]].
        unfold queue. rewrite N2, N3, H3, C3. split; [| split].
        - apply (is_list_frame (memory s2)); [exact Hl2 | |]; intros p _.
          + rewrite N5. apply F3.
          + rewrite N6. apply B3.
        - rewrite <- Ho. simpl. rewrite Ex. apply ordered_ext. intros q.
          rewrite N7, E3. apply E2.
        - rewrite Hfs. simpl. rewrite Ex. symmetry. apply first_shared_ext. intros q.
          rewrite N7, E3. apply E2. }
      destruct l0 as [| y l1]; cbn [List.hd].
      * rewrite Z.eqb_refl. rewrite run_bind.
        match goal with
        | |- context [run (ClearWaitersBit ?f) ?e ?st] =>
            destruct (ClearWaitersBit_run f e st Q ltac:(lia)) as (R & (K1 & K2 & K3) & VC);
            set (oc := run (ClearWaitersBit f) e st) in *
        end.
        rewrite R. cbv beta.
        pose proof K3 as (N1 & N2 & N3 & N4 & N5 & N6 & N7).
        cbn [_lock _waitersListHead _firstSharedWaiter _spinCount memory log upd_trace
             upd_lock _value] in *.
        pose proof (tl_length env).
        destruct (Hfin (rest oc) (final oc) K1 ltac:(lia) N5 N6 N7)
          as (R' & Q' & V' & L' & H' & E').
        { rewrite N2, A3, W2. reflexivity. }
        { rewrite N3, A4, W3. reflexivity. }
        split; [exact R' |]. split; [exact Q' |].
        split; [| split; [exact L' | split; [exact H' | exact E']]].
        etransitivity; [exact V' |]. rewrite VC, A1, U. reflexivity.
      * assert (Hyh : (y =? head) = false).
        { apply Z.eqb_neq. intros ->. destruct Hl2 as [N _].
          apply NoDup_cons in N as [N _]. apply N, list_elem_of_here. }
        rewrite Hyh. cbn [bind].
        pose proof (tl_length env).
        match goal with
        | |- context [run _ (tl env) ?st] =>
            destruct (Hfin (tl env) st Q ltac:(lia)
                        ltac:(intros; reflexivity) ltac:(intros; reflexivity)
                        ltac:(intros; reflexivity)
                        ltac:(cbn; rewrite A3, W2; reflexivity)
                        ltac:(cbn; rewrite A4, W3; reflexivity))
              as (R' & Q' & V' & L' & H' & E')
        end.
        split; [exact R' |]. split; [exact Q' |].
        split; [| split; [exact L' | split; [exact H' | exact E']]].
        etransitivity; [exact V' |]. cbn. rewrite A1. exact U.
    + (* x is shared: nothing is removed *)
      cbn [snd fst]. step. cbn [_waitersListHead log upd_trace]. rewrite W2. fold head.
      rewrite E. cbn [bind]. step. change (0 =? 0) with true. cbn [negb run result final].
      cbn [_lock _waitersListHead _firstSharedWaiter _spinCount memory log upd_trace
           upd_lock _value].
      split; [reflexivity |].
      split; [| split; [exact U | split; [reflexivity | split; [exact W2 | exact W7]]]].
      unfold queue.
      cbn [memory _waitersListHead _firstSharedWaiter log upd_trace upd_lock].
      rewrite W2, W3. fold head. split; [exact Hl1 | split].
      * rewrite <- Ho. apply ordered_ext. exact W7.
      * rewrite Hfs. symmetry. apply first_shared_ext. exact W7.
Qed.

(** X15.  WakeExclusive, while no other thread writes the state word:
    with an exclusive wait block first it takes that one block off the
    queue and unblocks it, otherwise it removes nothing.  Unlike
    WakeShared it clears the waiters bit only when the queue is empty
    afterwards, and it never reads the flags of the list head. *)
Theorem WakeExclusive_clears_only_when_empty fuel env s l :
  quiet_value env -> queue s l -> _lock s = false ->
  0 ∉ l ->
  (length env < fuel)%nat ->
  let o := run (WakeExclusive fuel) env s in
  let removes := match l with x :: _ => exclusive (memory s) x | [] => false end in
  let l' := if removes then tl l else l in
  result o = Returned tt
  /\ queue (final o) l'
  /\ _value (final o)
     = match l' with [] => clear_flag (_value s) LockWaiters | _ :: _ => _value s end
  /\ _lock (final o) = false.
Proof.
  intros Hq Hqueue Hlock H0 Hfuel o removes l'.
  destruct (WakeExclusive_run fuel env s l Hq Hqueue Hlock H0 Hfuel)
    as (R & Q & V & L & _).
  split; [exact R |]. split; [exact Q |]. split; [exact V | exact L].
Qed.

(** WakeExclusive for the queue [200; 300] with 200 exclusive. *)
Lemma WakeExclusive_clears_only_when_empty_witness :
  let s := exclusive_then_shared_waiter in
  let l := [200; 300] in
  let o := run (WakeExclusive 3) [Quiet] s in
  let removes := match l with x :: _ => exclusive (memory s) x | [] => false end in
  let l' := if removes then tl l else l in
  result o = Returned tt
  /\ queue (final o) l'
  /\ _value (final o)
     = match l' with [] => clear_flag (_value s) LockWaiters | _ :: _ => _value s end
  /\ _lock (final o) = false.
Proof.
  apply (WakeExclusive_clears_only_when_empty 3 [Quiet] exclusive_then_shared_waiter
           [200; 300]).
  - constructor; [intros v; discriminate | constructor].
  - queue_by_evaluation.
  - reflexivity.
  - fresh_by_evaluation.
  - simpl. lia.
Defined.

(** ** The queue through every operation (C6) *)

Lemma queue_after_In op m l p :
  p ∈ queue_after op m l ->
  p ∈ l \/ match op with
           | QAcquireExclusive wb | QAcquireShared wb | QConvertSharedToExclusive wb => p = wb
           | _ => False
           end.
Proof.
  pose proof (split_runs m l) as Hs.
  destruct op; cbn [queue_after]; intros H.
  - apply elem_of_app in H as [H | H].
    + left. rewrite Hs. apply elem_of_app. now left.
    + apply elem_of_cons in H as [H | H]; [now right |].
      left. rewrite Hs. apply elem_of_app. now right.
  - apply elem_of_app in H as [H | H]; [now left |].
    apply elem_of_cons in H as [H | H]; [now right |]. now apply elem_of_nil in H.
  - apply elem_of_cons in H as [H | H]; [now right | now left].
  - left. destruct l as [| x l']; [exact H |].
    destruct (exclusive m x); [now apply list_elem_of_further | now apply elem_of_nil in H].
  - left. destruct l as [| x l']; [exact H |].
    destruct (exclusive m x); [now apply list_elem_of_further | exact H].
  - left. rewrite Hs. apply elem_of_app. now left.
Qed.

Lemma queue_after_order op m l :
  if inserts op then sublist l (queue_after op m l) else sublist (queue_after op m l) l.
Proof.
  pose proof (split_runs m l) as Hs.
  destruct op; cbn [inserts queue_after].
  - rewrite Hs at 1. apply sublist_app; [reflexivity |]. now apply sublist_cons.
  - now apply sublist_inserts_r.
  - now apply sublist_cons.
  - destruct l as [| x l']; [reflexivity |].
    destruct (exclusive m x); [now apply sublist_cons | apply sublist_nil_l].
  - destruct l as [| x l']; [reflexivity |].
    destruct (exclusive m x); [now apply sublist_cons | reflexivity].
  - rewrite Hs at 2. now apply sublist_inserts_r.
Qed.

Lemma queue_invariant_start spinCount processorCount head garbage spinEnabled :
  has_flag garbage WaiterExclusive = false ->
  queue_invariant head
    (FairResourceLock_new spinCount processorCount head garbage spinEnabled) [].
Proof.
  intros Hg. unfold queue_invariant, queue, is_list, FairResourceLock_new. cbn.
  unfold linked, flink, blink, exclusive. rewrite !lookup_singleton_eq. cbn.
  repeat split; auto.
  - apply NoDup_singleton.
  - apply not_elem_of_nil.
Qed.

Lemma queue_invariant_interfere head i s l :
  queue_invariant head s l -> queue_invariant head (interfere i s) l.
Proof.
  intros (Q & L & H & E & Z0).
  destruct i as [| v | p].
  - repeat split; assumption || apply Q.
  - cbn [interfere]. unfold queue_invariant, queue in *. cbn. tauto.
  - destruct (interfere_same_view (EnvUnblock p) s) as [V _]; [intros v; discriminate |].
    pose proof V as (V1 & V2 & _ & _ & _ & _ & V7).
    split; [now apply (queue_same_view s) |].
    split; [congruence |]. split; [congruence |]. split; [now rewrite V7 | exact Z0].
Qed.

Lemma queue_invariant_op head op fuel env s l :
  queue_invariant head s l -> permitted op fuel env s l ->
  queue_invariant head (queue_op op fuel env s) (queue_after op (memory s) l).
Proof.
  intros (Q & L & H & E & Z0) (Hq & Hop).
  assert (Hz : forall wb, wb <> 0 ->
            (forall p, p ∈ queue_after op (memory s) l ->
                p ∈ l \/ match op with
                         | QAcquireExclusive _ | QAcquireShared _
                         | QConvertSharedToExclusive _ => p = wb
                         | _ => False
                         end) ->
            0 ∉ queue_after op (memory s) l).
  { intros wb Hwb Hin H0. destruct (Hin 0 H0) as [H1 | H1]; [now apply Z0 |].
    destruct op; try contradiction; congruence. }
  subst head.
  destruct op as [wb | wb | wb | wl | | wl]; cbn [queue_op]; cbn [queue_after].
  - destruct Hop as [Hwb Hfresh].
    destruct (AcquireExclusive_wait_run wb (_value s) env s l Hq Q L eq_refl Hfresh)
      as (_ & Q' & L' & _ & _ & _ & H' & E').
    split; [exact Q' |]. split; [exact L' |]. split; [exact H' |].
    split; [now rewrite E' |].
    apply (Hz wb Hwb). intros p. apply (queue_after_In (QAcquireExclusive wb)).
  - destruct Hop as [Hwb Hfresh].
    destruct (AcquireShared_wait_run wb (_value s) env s l Hq Q L eq_refl Hfresh)
      as (_ & Q' & L' & _ & _ & _ & H' & E').
    split; [exact Q' |]. split; [exact L' |]. split; [exact H' |].
    split; [now rewrite E' |].
    apply (Hz wb Hwb). intros p. apply (queue_after_In (QAcquireShared wb)).
  - destruct Hop as [Hwb Hfresh].
    destruct (ConvertSharedToExclusive_wait_run wb (_value s) env s l Hq Q L eq_refl Hfresh)
      as (_ & Q' & L' & _ & _ & _ & H' & E').
    split; [exact Q' |]. split; [exact L' |]. split; [exact H' |].
    split; [now rewrite E' |].
    apply (Hz wb Hwb). intros p. apply (queue_after_In (QConvertSharedToExclusive wb)).
  - destruct Hop as [Hfresh Hfuel].
    destruct (Wake_run_any wl fuel env s l Hq Q L Hfresh Hfuel)
      as (_ & _ & _ & _ & _ & L' & H' & E').
    pose proof (Wake_keeps_queue wl fuel env s l Hq Q L Hfresh Hfuel) as Q'.
    cbv zeta in Q'. rewrite E, orb_true_r in Q'. specialize (Q' eq_refl).
    assert (Hhw : _waitersListHead s <> wl).
    { intros Eq. apply Hfresh. rewrite <- Eq. apply list_elem_of_here. }
    assert (El : match l with
                 | [] => []
                 | x :: l' => if exclusive (memory s) x then l' else []
                 end
                 = if match l with x :: _ => exclusive (memory s) x | [] => false end
                   then tl l else []).
    { destruct l as [| x l']; [reflexivity |]. reflexivity. }
    rewrite El.
    split; [exact Q' |]. split; [exact L' |]. split; [exact H' |].
    split; [rewrite E' by exact Hhw; exact E |].
    rewrite <- El. apply (Hz 1); [lia |]. intros p. apply (queue_after_In (QWake wl)).
  - destruct (WakeExclusive_run fuel env s l Hq Q L Z0 Hop)
      as (_ & Q' & _ & L' & H' & E').
    assert (El : match l with
                 | [] => []
                 | x :: l' => if exclusive (memory s) x then l' else l
                 end
                 = if match l with x :: _ => exclusive (memory s) x | [] => false end
                   then tl l else l).
    { destruct l as [| x l']; [reflexivity |]. reflexivity. }
    rewrite El.
    split; [exact Q' |]. split; [exact L' |]. split; [exact H' |].
    split; [now rewrite E' |].
    rewrite <- El. apply (Hz 1); [lia |]. intros p. apply (queue_after_In QWakeExclusive).
  - destruct Hop as [Hfresh Hfuel].
    destruct (WakeShared_run wl fuel env s l Hq Q L Hfresh Hfuel)
      as (_ & Q' & _ & L' & H' & E').
    assert (Hhw : _waitersListHead s <> wl).
    { intros Eq. apply Hfresh. rewrite <- Eq. apply list_elem_of_here. }
    split; [exact Q' |]. split; [exact L' |]. split; [exact H' |].
    split; [rewrite E' by exact Hhw; exact E |].
    apply (Hz 1); [lia |]. intros p. apply (queue_after_In (QWakeShared wl)).
Qed.

Lemma reaches_invariant head s0 s l :
  queue_invariant head s0 [] -> reaches s0 s l -> queue_invariant head s l.
Proof.
  intros H0. induction 1 as [| s l i _ IH | s l op fuel env _ IH Hp].
  - exact H0.
  - now apply queue_invariant_interfere.
  - now apply queue_invariant_op.
Qed.

Lemma shared_rest_all m l :
  ordered m l = true -> Forall (fun p => exclusive m p = false) (shared_rest m l).
Proof.
  rewrite ordered_shared_rest. generalize (shared_rest m l). intros r.
  induction r as [| p r IH]; simpl; intros H; constructor.
  - apply andb_true_iff in H as [H _]. now apply negb_true_iff.
  - apply IH. now apply andb_true_iff in H as [_ H].
Qed.

(** C6 (amended).  A lock is constructed, with the exclusive bit clear in
    the flags word of its list head (the constructor does not write that
    word), and its queue is then worked on by the slow paths of
    AcquireExclusive, AcquireShared and ConvertSharedToExclusive and by
    Wake, WakeExclusive and WakeShared, in any number and order, each on
    a wait block that is not queued and while no other thread writes the
    state word.  In every state reached the list at the list head is the
    queue [l]: its exclusive wait blocks precede its shared ones and
    FirstShared is the first shared one, or the list head.  Every
    operation keeps this, and the wait blocks that stay queued keep their
    order: an exclusive acquirer is put behind the exclusive blocks, a
    shared acquirer behind all blocks, but a converter from shared to
    exclusive ahead of all blocks, also of the exclusive ones queued
    before it; Wake removes the first block or all of them, WakeExclusive
    the first block or none, WakeShared the shared ones. *)
Theorem queue_order_through_insertions_and_removals
    spinCount processorCount head garbage spinEnabled s l :
  has_flag garbage WaiterExclusive = false ->
  reaches (FairResourceLock_new spinCount processorCount head garbage spinEnabled) s l ->
  let m := memory s in
  queue s l
  /\ _waitersListHead s = head
  /\ l = exclusive_run m l ++ shared_rest m l
  /\ Forall (fun p => exclusive m p = true) (exclusive_run m l)
  /\ Forall (fun p => exclusive m p = false) (shared_rest m l)
  /\ _firstSharedWaiter s = List.hd head (shared_rest m l)
  /\ (forall op fuel env, permitted op fuel env s l ->
        queue (queue_op op fuel env s) (queue_after op m l)
        /\ if inserts op then sublist l (queue_after op m l)
           else sublist (queue_after op m l) l).
Proof.
  intros Hg Hr m.
  pose proof (reaches_invariant head _ s l
                (queue_invariant_start spinCount processorCount head garbage spinEnabled Hg)
                Hr) as Inv.
  pose proof Inv as (Q & L & H & E & Z0).
  split; [exact Q |]. split; [exact H |]. split; [apply split_runs |].
  split; [apply exclusive_run_all |].
  destruct Q as (_ & Ho & Hfs).
  split; [now apply shared_rest_all |].
  split; [rewrite Hfs, H; apply first_shared_hd |].
  intros op fuel env Hp. split; [| apply queue_after_order].
  apply (queue_invariant_op head op fuel env s l Inv Hp).
Qed.

Lemma reaches_op_eq s0 s l op fuel env s' l' :
  reaches s0 s l -> permitted op fuel env s l ->
  s' = queue_op op fuel env s -> l' = queue_after op (memory s) l ->
  reaches s0 s' l'.
Proof. intros H Hp -> ->. now apply reaches_op. Qed.

(** A new lock; an exclusive acquirer queues the wait block 200, a
    shared acquirer 300 and a converter 400; Wake then takes 400 off the
    queue and WakeExclusive 200, while another thread unblocks 300. *)
Lemma queue_order_through_insertions_and_removals_witness :
  let head := 100 in
  let s0 := FairResourceLock_new 4000 2 head 0 true in
  let s1 := queue_op (QAcquireExclusive 200) 8 [] s0 in
  let s2 := queue_op (QAcquireShared 300) 8 [] s1 in
  let s3 := queue_op (QConvertSharedToExclusive 400) 8 [] s2 in
  let s4 := queue_op (QWake 900) 8 [] s3 in
  let s := queue_op QWakeExclusive 8 [EnvUnblock 300] s4 in
  let l := [300] in
  let m := memory s in
  (has_flag 0 WaiterExclusive = false /\ reaches s0 s l)
  /\ queue s l
  /\ _waitersListHead s = head
  /\ l = exclusive_run m l ++ shared_rest m l
  /\ Forall (fun p => exclusive m p = true) (exclusive_run m l)
  /\ Forall (fun p => exclusive m p = false) (shared_rest m l)
  /\ _firstSharedWaiter s = List.hd head (shared_rest m l)
  /\ (forall op fuel env, permitted op fuel env s l ->
        queue (queue_op op fuel env s) (queue_after op m l)
        /\ if inserts op then sublist l (queue_after op m l)
           else sublist (queue_after op m l) l).
Proof.
  intros head s0 s1 s2 s3 s4 s l m.
  assert (R : reaches s0 s l).
  { apply (reaches_op_eq s0 s4 [200; 300] QWakeExclusive 8 [EnvUnblock 300]);
      [| split; [constructor; [intros v; discriminate | constructor] | simpl; lia]
       | reflexivity | vm_compute; reflexivity].
    apply (reaches_op_eq s0 s3 [400; 200; 300] (QWake 900) 8 []);
      [| split; [constructor | split; [fresh_by_evaluation | simpl; lia]]
       | reflexivity | vm_compute; reflexivity].
    apply (reaches_op_eq s0 s2 [200; 300] (QConvertSharedToExclusive 400) 8 []);
      [| split; [constructor | split; [discriminate | fresh_by_evaluation]]
       | reflexivity | vm_compute; reflexivity].
    apply (reaches_op_eq s0 s1 [200] (QAcquireShared 300) 8 []);
      [| split; [constructor | split; [discriminate | fresh_by_evaluation]]
       | reflexivity | vm_compute; reflexivity].
    apply (reaches_op_eq s0 s0 [] (QAcquireExclusive 200) 8 []);
      [| split; [constructor | split; [discriminate | fresh_by_evaluation]]
       | reflexivity | vm_compute; reflexivity].
    apply reaches_start. }
  split; [split; [reflexivity | exact R] |].
  exact (queue_order_through_insertions_and_removals 4000 2 head 0 true s l eq_refl R).
Defined.

(** The flags word of the list head is not written by the constructor.
    With its exclusive bit set, Wake on a queue of shared wait blocks
    drains the queue and clears the waiters bit, but leaves FirstShared
    at the wait block it has removed and unblocks the list head in place
    of the wait block. *)
Lemma wake_with_exclusive_flag_in_list_head :
  let s0 := FairResourceLock_new 4000 2 100 WaiterExclusive true in
  let s1 := final (run TryAcquireExclusive [] s0) in
  let s := final (run (AcquireShared_wait 200 (_value s1)) [] s1) in
  let o := run (ReleaseExclusive 900 8) [] s in
  queue_list s = Some [200]
  /\ _firstSharedWaiter s = 200
  /\ result o = Returned tt
  /\ queue_list (final o) = Some []
  /\ has_flag (_value (final o)) LockWaiters = false
  /\ _firstSharedWaiter (final o) = 200
  /\ unblocked (trace_since s (final o)) = [100].
Proof. vm_compute. repeat split; reflexivity. Qed.

(** ** KphReadVirtualMemory and KphWriteVirtualMemory *)

Section KphProperties.

Context {K : Type} (E : Externs K) (X : CopyExterns K) (O : ObExterns K).

Lemma access_checks_machine BaseAddress Buffer BufferLength ReturnLength AccessMode
    (st : KphState K) :
  let r := access_checks X O BaseAddress Buffer BufferLength ReturnLength AccessMode st in
  kernel (km (snd r)) = kernel (km st) /\ calls (km (snd r)) = calls (km st).
Proof.
  unfold access_checks.
  destruct (negb (AccessMode =? KernelMode X)); [| now split].
  match goal with |- context [if ?c then (Some _, st) else _] => destruct c end;
    [now split |].
  destruct (negb (ReturnLength =? 0)); [| now split].
  destruct (ProbeForWrite X ReturnLength 4 (kernel (km st))); now split.
Qed.

(** The wrap-around test and the bound test together say that the range
    ends at or below the probe address. *)
Lemma range_check_iff a n probe :
  0 <= pointer_bits X ->
  0 <= a < 2 ^ pointer_bits X -> 0 <= n < 2 ^ pointer_bits X ->
  0 <= probe < 2 ^ pointer_bits X ->
  (MmCopy.ptr X (a + n) <? a) || (MmCopy.ptr X (a + n) >? probe) = (probe <? a + n).
Proof.
  intros HW Ha Hn Hp. unfold MmCopy.ptr.
  set (M := 2 ^ pointer_bits X) in *.
  destruct (Z_lt_ge_dec (a + n) M) as [Hs | Hs].
  - rewrite Z.mod_small by lia.
    replace (a + n <? a) with false by (symmetry; apply Z.ltb_ge; lia).
    cbn [orb]. rewrite Z.gtb_ltb. reflexivity.
  - assert (Hm : (a + n) mod M = a + n - M).
    { symmetry. apply Z.mod_unique with (q := 1); lia. }
    rewrite Hm.
    replace (a + n - M <? a) with true by (symmetry; apply Z.ltb_lt; lia).
    cbn [orb]. symmetry. apply Z.ltb_lt. lia.
Qed.

(** X16.  The range checks for a caller that is not in kernel mode.  With
    pointers of [pointer_bits] bits, KphReadVirtualMemory and
    KphWriteVirtualMemory return STATUS_ACCESS_VIOLATION at once exactly
    when the range at BaseAddress or the range at Buffer ends above
    MmUserProbeAddress, also when the end of the range wraps around; they
    then take no reference, copy nothing and do not write through
    ReturnLength.  Ranges that end at or below the probe address pass. *)
Theorem user_ranges_are_checked ProcessHandle BaseAddress Buffer BufferLength ReturnLength
    AccessMode returnLength (st : KphState K) :
  0 <= pointer_bits X ->
  0 <= BaseAddress < 2 ^ pointer_bits X ->
  0 <= Buffer < 2 ^ pointer_bits X ->
  0 <= BufferLength < 2 ^ pointer_bits X ->
  0 <= MmUserProbeAddress O < 2 ^ pointer_bits X ->
  AccessMode <> KernelMode X ->
  let outside := (MmUserProbeAddress O <? BaseAddress + BufferLength)
                 || (MmUserProbeAddress O <? Buffer + BufferLength) in
  let r := KphReadVirtualMemory E X O ProcessHandle BaseAddress Buffer BufferLength
             ReturnLength AccessMode returnLength st in
  let w := KphWriteVirtualMemory E X O ProcessHandle BaseAddress Buffer BufferLength
             ReturnLength AccessMode returnLength st in
  (outside = true ->
     fst r = STATUS_ACCESS_VIOLATION X /\ kev (snd r) = kev st
     /\ calls (km (snd r)) = calls (km st)
     /\ fst w = STATUS_ACCESS_VIOLATION X /\ kev (snd w) = kev st
     /\ calls (km (snd w)) = calls (km st))
  /\ (outside = false ->
      fst (access_checks X O BaseAddress Buffer BufferLength ReturnLength AccessMode st)
      = if negb (ReturnLength =? 0) then
          match ProbeForWrite X ReturnLength 4 (kernel (km st)) with
          | Some _ => Some (STATUS_ACCESS_VIOLATION X)
          | None => None
          end
        else None).
Proof.
  intros HW Ha Hb Hn Hp Hmode outside r w.
  assert (Hm : negb (AccessMode =? KernelMode X) = true)
    by (apply negb_true_iff, Z.eqb_neq; exact Hmode).
  assert (Hcheck : forall st',
             access_checks X O BaseAddress Buffer BufferLength ReturnLength AccessMode st'
             = if outside then (Some (STATUS_ACCESS_VIOLATION X), st')
               else if negb (ReturnLength =? 0) then
                 match ProbeForWrite X ReturnLength 4 (kernel (km st')) with
                 | Some _ =>
                     (Some (STATUS_ACCESS_VIOLATION X),
                      mkKphState (mkMachine (kernel (km st')) (calls (km st')))
                        (kev st' ++ [KevProbeForWrite ReturnLength true]))
                 | None =>
                     (None,
                      mkKphState (mkMachine (kernel (km st')) (calls (km st')))
                        (kev st' ++ [KevProbeForWrite ReturnLength false]))
                 end
               else (None, st')).
  { intros st'. unfold access_checks. rewrite Hm.
    pose proof (range_check_iff BaseAddress BufferLength _ HW Ha Hn Hp) as R1.
    pose proof (range_check_iff Buffer BufferLength _ HW Hb Hn Hp) as R2.
    assert (Hor : (MmCopy.ptr X (BaseAddress + BufferLength) <? BaseAddress)
                  || (MmCopy.ptr X (Buffer + BufferLength) <? Buffer)
                  || (MmCopy.ptr X (BaseAddress + BufferLength) >? MmUserProbeAddress O)
                  || (MmCopy.ptr X (Buffer + BufferLength) >? MmUserProbeAddress O)
                  = outside).
    { subst outside. rewrite <- R1, <- R2.
      destruct (MmCopy.ptr X (BaseAddress + BufferLength) <? BaseAddress),
        (MmCopy.ptr X (Buffer + BufferLength) <? Buffer),
        (MmCopy.ptr X (BaseAddress + BufferLength) >? MmUserProbeAddress O),
        (MmCopy.ptr X (Buffer + BufferLength) >? MmUserProbeAddress O); reflexivity. }
    rewrite Hor. reflexivity. }
  split.
  - intros Hout. subst r w. unfold KphReadVirtualMemory, KphWriteVirtualMemory.
    rewrite !Hcheck, Hout. cbn [fst snd kev km calls]. auto 10.
  - intros Hout. rewrite Hcheck, Hout.
    destruct (negb (ReturnLength =? 0)); [| reflexivity].
    destruct (ProbeForWrite X ReturnLength 4 (kernel (km st))); reflexivity.
Qed.

End KphProperties.

(** A user-mode read of 16 bytes whose buffer ends above the probe
    address. *)
Lemma user_ranges_are_checked_witness :
  let E := sample_externs 4 in
  let X := sample_copy_externs in
  let O := sample_ob_externs in
  let st := mkKphState (mkMachine ([] : list Z, 0) []) [] in
  let r := KphReadVirtualMemory E X O 8 4096 0x7ffefff8 16 0 1 0x80000100 st in
  let w := KphWriteVirtualMemory E X O 8 4096 0x7ffefff8 16 0 1 0x80000100 st in
  fst r = STATUS_ACCESS_VIOLATION X /\ kev (snd r) = kev st
  /\ calls (km (snd r)) = calls (km st)
  /\ fst w = STATUS_ACCESS_VIOLATION X /\ kev (snd w) = kev st
  /\ calls (km (snd w)) = calls (km st).
Proof.
  destruct (user_ranges_are_checked (sample_externs 4) sample_copy_externs
              sample_ob_externs 8 4096 0x7ffefff8 16 0 1 0x80000100
              (mkKphState (mkMachine ([] : list Z, 0) []) [])) as [H _];
    try (vm_compute; split; congruence).
  - vm_compute. discriminate.
  - discriminate.
  - apply H. reflexivity.
Defined.
Lemma open_references_app evs1 evs2 :
  open_references (evs1 ++ evs2) = open_references evs1 + open_references evs2.
Proof.
  induction evs1 as [| e evs1 IH]; simpl; [reflexivity |].
  destruct e; rewrite IH; lia.
Qed.

Section KphCalls.

Context {K : Type} (E : Externs K) (X : CopyExterns K) (O : ObExterns K).

(** What the checks leave of the state: the machine as it was, and at
    most one probe recorded. *)
Lemma access_checks_events BaseAddress Buffer BufferLength ReturnLength AccessMode
    (st : KphState K) :
  let r := access_checks X O BaseAddress Buffer BufferLength ReturnLength AccessMode st in
  kernel (km (snd r)) = kernel (km st) /\ calls (km (snd r)) = calls (km st)
  /\ exists evs, kev (snd r) = kev st ++ evs
                 /\ Forall (fun e => is_reference_event e = false) evs
                 /\ Forall (fun e => match e with
                                     | KevReturnLength _ _ _ => False
                                     | _ => True
                                     end) evs
                 /\ open_references evs = 0.
Proof.
  unfold access_checks.
  assert (Hnil : kernel (km st) = kernel (km st) /\ calls (km st) = calls (km st)
                 /\ exists evs, kev st = kev st ++ evs
                      /\ Forall (fun e => is_reference_event e = false) evs
                      /\ Forall (fun e => match e with
                                          | KevReturnLength _ _ _ => False
                                          | _ => True
                                          end) evs
                      /\ open_references evs = 0).
  { split; [reflexivity |]. split; [reflexivity |]. exists []. rewrite app_nil_r.
    repeat split; constructor. }
  destruct (negb (AccessMode =? KernelMode X)); [| exact Hnil].
  match goal with |- context [if ?c then (Some _, st) else _] => destruct c end;
    [exact Hnil |].
  destruct (negb (ReturnLength =? 0)); [| exact Hnil].
  destruct (ProbeForWrite X ReturnLength 4 (kernel (km st))); cbn [snd];
    (split; [reflexivity |]; split; [reflexivity |];
     eexists; split; [reflexivity |]; repeat split; repeat constructor).
Qed.

Lemma write_return_length_events ReturnLength returnLength status (st : KphState K) :
  let r := write_return_length X O ReturnLength returnLength status st in
  calls (km (snd r)) = calls (km st)
  /\ (fst r = status \/ fst r = STATUS_ACCESS_VIOLATION X)
  /\ exists evs, kev (snd r) = kev st ++ evs
                 /\ Forall (fun e => is_reference_event e = false) evs
                 /\ Forall (fun e => match e with
                                     | KevReturnLength a v _ =>
                                         a = ReturnLength
                                         /\ v = load_ulong O returnLength (kernel (km st))
                                     | _ => True
                                     end) evs
                 /\ open_references evs = 0.
Proof.
  unfold write_return_length.
  destruct (negb (ReturnLength =? 0)).
  - destruct (store_user_ulong O ReturnLength _ (kernel (km st))); cbn [fst snd];
      (split; [reflexivity |]; split; [auto |];
       eexists; split; [reflexivity |]; repeat split; repeat constructor; auto).
  - cbn [fst snd]. split; [reflexivity |]. split; [auto |].
    exists []. rewrite app_nil_r. repeat split; constructor.
Qed.

(** X17.  With BufferLength = 0 KphReadVirtualMemory and
    KphWriteVirtualMemory take no reference to the process, ask for no
    rundown protection and copy nothing, whatever the handle is.  What
    they store through ReturnLength, if anything, is 0, and they return
    STATUS_SUCCESS unless a check or that store fails with
    STATUS_ACCESS_VIOLATION. *)
Theorem zero_length_copies_nothing ProcessHandle BaseAddress Buffer ReturnLength AccessMode
    returnLength (st : KphState K) :
  (forall k, load_ulong O returnLength (store_ulong X returnLength 0 k) = 0) ->
  let r := KphReadVirtualMemory E X O ProcessHandle BaseAddress Buffer 0
             ReturnLength AccessMode returnLength st in
  let w := KphWriteVirtualMemory E X O ProcessHandle BaseAddress Buffer 0
             ReturnLength AccessMode returnLength st in
  w = r
  /\ calls (km (snd r)) = calls (km st)
  /\ (fst r = STATUS_SUCCESS E \/ fst r = STATUS_ACCESS_VIOLATION X)
  /\ exists evs, kev (snd r) = kev st ++ evs
                 /\ Forall (fun e => is_reference_event e = false) evs
                 /\ Forall (fun e => match e with
                                     | KevReturnLength a v _ => a = ReturnLength /\ v = 0
                                     | _ => True
                                     end) evs.
Proof.
  intros Hload r w. subst r w. unfold KphReadVirtualMemory, KphWriteVirtualMemory.
  set (st0 := mkKphState (mkMachine (store_ulong X returnLength 0 (kernel (km st)))
                            (calls (km st))) (kev st)).
  split; [reflexivity |].
  pose proof (access_checks_events BaseAddress Buffer 0 ReturnLength AccessMode st0)
    as (Hk & Hc & evs1 & He1 & Hr1 & Hl1 & _).
  destruct (access_checks X O BaseAddress Buffer 0 ReturnLength AccessMode st0)
    as [[status |] st1] eqn:Hac; cbn [snd fst] in *.
  - split; [exact Hc |]. split.
    + right. unfold access_checks in Hac.
      destruct (negb (AccessMode =? KernelMode X)); [| discriminate].
      match type of Hac with context [if ?c then (Some _, st0) else _] => destruct c end;
        [congruence |].
      destruct (negb (ReturnLength =? 0)); [| discriminate].
      destruct (ProbeForWrite X ReturnLength 4 (kernel (km st0))); [congruence | discriminate].
    + exists evs1. split; [exact He1 |]. split; [exact Hr1 |].
      eapply Forall_impl; [exact Hl1 |]. intros e; destruct e; tauto.
  - change (negb (0 =? 0)) with false. cbv iota.
    pose proof (write_return_length_events ReturnLength returnLength (STATUS_SUCCESS E) st1)
      as (Hc2 & Hs2 & evs2 & He2 & Hr2 & Hl2 & _).
    split; [rewrite Hc2; exact Hc |]. split; [exact Hs2 |].
    exists (evs1 ++ evs2). split; [rewrite He2, He1, app_assoc; reflexivity |].
    split; [apply Forall_app; split; assumption |].
    apply Forall_app. split.
    + eapply Forall_impl; [exact Hl1 |]. intros e; destruct e; tauto.
    + eapply Forall_impl; [exact Hl2 |]. intros e; destruct e; try tauto.
      rewrite Hk. unfold st0. cbn [km kernel]. rewrite Hload. tauto.
Qed.

End KphCalls.

(** A kernel-mode read of no bytes that reports the length. *)
Lemma zero_length_copies_nothing_witness :
  let E := sample_externs 4 in
  let X := sample_copy_externs in
  let O := sample_ob_externs in
  let st := mkKphState (mkMachine ([] : list Z, 7) []) [] in
  let r := KphReadVirtualMemory E X O 8 4096 8192 0 12288 0 0x80000100 st in
  let w := KphWriteVirtualMemory E X O 8 4096 8192 0 12288 0 0x80000100 st in
  w = r
  /\ calls (km (snd r)) = calls (km st)
  /\ (fst r = STATUS_SUCCESS E \/ fst r = STATUS_ACCESS_VIOLATION X)
  /\ exists evs, kev (snd r) = kev st ++ evs
                 /\ Forall (fun e => is_reference_event e = false) evs
                 /\ Forall (fun e => match e with
                                     | KevReturnLength a v _ => a = 12288 /\ v = 0
                                     | _ => True
                                     end) evs.
Proof.
  apply (zero_length_copies_nothing (sample_externs 4) sample_copy_externs
           sample_ob_externs 8 4096 8192 12288 0 0x80000100
           (mkKphState (mkMachine ([] : list Z, 7) []) [])).
  intros k. reflexivity.
Defined.
Lemma MmCopyVirtualMemory_calls {K : Type} (E : Externs K) (a : CopyArgs) (m : Machine K) :
  BufferLength a <> 0 ->
  let r := MmCopyVirtualMemory E a m in
  let p := processToLock E a m in
  exists acquired rest,
    calls (snd r) = calls m ++ CallAcquireRundown p acquired :: rest
    /\ (acquired = false -> rest = [] /\ fst r = STATUS_PROCESS_IS_TERMINATING E)
    /\ (acquired = true ->
        exists status,
          fst r = status
          /\ rest = [if BufferLength a >? MM_POOL_COPY_THRESHOLD E
                     then CallMappedCopy a status else CallPoolCopy a status;
                     CallReleaseRundown p]).
Proof.
  intros Hn r p. subst r. unfold MmCopyVirtualMemory.
  fold (processToLock E a m). fold p.
  destruct (BufferLength a =? 0) eqn:E0; [apply Z.eqb_eq in E0; contradiction |].
  unfold acquire_rundown. cbn [fst snd].
  destruct (fst (KphAcquireProcessRundownProtection E p (kernel m))) eqn:Ha;
    cbn [negb fst snd calls].
  - exists true.
    destruct (BufferLength a >? MM_POOL_COPY_THRESHOLD E);
      unfold mapped_copy, pool_copy, release_rundown; cbn [fst snd calls kernel];
      (eexists; split; [rewrite <- !app_assoc; reflexivity |];
       split; [discriminate |]; intros _; eexists; split; reflexivity).
  - exists false, []. split; [reflexivity |]. split; [auto | discriminate].
Qed.

Section KphReferences.

Context {K : Type} (E : Externs K) (X : CopyExterns K) (O : ObExterns K).

Lemma KphReadVirtualMemory_after_checks ProcessHandle BaseAddress Buffer Length
    ReturnLength AccessMode returnLength (st : KphState K) :
  KphReadVirtualMemory E X O ProcessHandle BaseAddress Buffer Length ReturnLength
    AccessMode returnLength st
  = let st0 := mkKphState (mkMachine (store_ulong X returnLength 0 (kernel (km st)))
                             (calls (km st))) (kev st) in
    match access_checks X O BaseAddress Buffer Length ReturnLength AccessMode st0 with
    | (Some status, st1) => (status, st1)
    | (None, st1) =>
        after_checks E X O true ProcessHandle BaseAddress Buffer Length ReturnLength
          AccessMode returnLength st1
    end.
Proof. reflexivity. Qed.

Lemma KphWriteVirtualMemory_after_checks ProcessHandle BaseAddress Buffer Length
    ReturnLength AccessMode returnLength (st : KphState K) :
  KphWriteVirtualMemory E X O ProcessHandle BaseAddress Buffer Length ReturnLength
    AccessMode returnLength st
  = let st0 := mkKphState (mkMachine (store_ulong X returnLength 0 (kernel (km st)))
                             (calls (km st))) (kev st) in
    match access_checks X O BaseAddress Buffer Length ReturnLength AccessMode st0 with
    | (Some status, st1) => (status, st1)
    | (None, st1) =>
        after_checks E X O false ProcessHandle BaseAddress Buffer Length ReturnLength
          AccessMode returnLength st1
    end.
Proof. reflexivity. Qed.

Lemma processToLock_is_object (read : bool) object current BaseAddress Buffer Length
    AccessMode returnLength (m : Machine K) :
  current = PsGetCurrentProcess E (kernel m) ->
  processToLock E
    (if read
     then mkCopyArgs object BaseAddress current Buffer Length AccessMode returnLength
     else mkCopyArgs current Buffer object BaseAddress Length AccessMode returnLength)
    m = object.
Proof.
  intros ->. unfold processToLock. destruct read; cbn [FromProcess ToProcess].
  - destruct (object =? PsGetCurrentProcess E (kernel m)) eqn:Eq; [| reflexivity].
    apply Z.eqb_eq in Eq. now rewrite Eq.
  - now rewrite Z.eqb_refl.
Qed.

(** The three ways through [after_checks]. *)
Lemma after_checks_cases read ProcessHandle BaseAddress Buffer Length ReturnLength
    AccessMode returnLength (st : KphState K) :
  let r := after_checks E X O read ProcessHandle BaseAddress Buffer Length
             ReturnLength AccessMode returnLength st in
  let ref := ObReferenceObjectByHandle O ProcessHandle (kernel (km st)) in
  let status := fst (fst ref) in
  let object := snd (fst ref) in
  let current := PsGetCurrentProcess E (snd ref) in
  let a := if read
           then mkCopyArgs object BaseAddress current Buffer Length AccessMode
                  returnLength
           else mkCopyArgs current Buffer object BaseAddress Length AccessMode
                  returnLength in
  (Length = 0 /\ open_references (kev (snd r)) = open_references (kev st)
   /\ calls (km (snd r)) = calls (km st))
  \/ (Length <> 0 /\ NT_SUCCESS status = false
      /\ fst r = status /\ calls (km (snd r)) = calls (km st)
      /\ kev (snd r) = kev st ++ [KevReference ProcessHandle status object])
  \/ (Length <> 0 /\ NT_SUCCESS status = true
      /\ open_references (kev (snd r)) = open_references (kev st)
      /\ (exists evs, kev (snd r)
                      = kev st ++ KevReference ProcessHandle status object
                                  :: KevDereference object :: evs
                      /\ Forall (fun e => is_reference_event e = false) evs)
      /\ exists acquired rest,
           calls (km (snd r)) = calls (km st) ++ CallAcquireRundown object acquired :: rest
           /\ (acquired = false -> rest = [])
           /\ (acquired = true ->
               exists c, rest = [c; CallReleaseRundown object]
                         /\ copy_args c = Some a)).
Proof.
  intros r ref status object current a. subst r. unfold after_checks.
  fold ref. fold status. fold object. cbn [km kernel calls kev].
  destruct (Length =? 0) eqn:E0; cbn [negb].
  - left. apply Z.eqb_eq in E0.
    pose proof (write_return_length_events X O ReturnLength returnLength (STATUS_SUCCESS E) st)
      as (Hc & _ & evs & He & _ & _ & Ho).
    split; [exact E0 |]. split; [| exact Hc].
    rewrite He, open_references_app, Ho. lia.
  - right. apply Z.eqb_neq in E0.
    destruct (NT_SUCCESS status) eqn:Hs; cbn [negb].
    + right. split; [exact E0 |]. split; [reflexivity |].
      fold current. fold a.
      set (m1 := mkMachine (snd ref) (calls (km st))).
      set (c := MmCopyVirtualMemory E a m1).
      set (st2 := mkKphState
                    (mkMachine (ObDereferenceObject O object (kernel (snd c)))
                       (calls (snd c)))
                    ((kev st ++ [KevReference ProcessHandle status object])
                       ++ [KevDereference object])).
      pose proof (write_return_length_events X O ReturnLength returnLength (fst c) st2)
        as (Hc & _ & evs & He & Hr & _ & Ho).
      assert (Hev : kev (snd (write_return_length X O ReturnLength returnLength (fst c) st2))
                    = kev st ++ KevReference ProcessHandle status object
                                :: KevDereference object :: evs).
      { rewrite He. unfold st2. cbn [kev]. rewrite <- !app_assoc. reflexivity. }
      split; [| split].
      * rewrite Hev, open_references_app. cbn [open_references]. rewrite Hs, Ho. lia.
      * exists evs. split; [exact Hev | exact Hr].
      * rewrite Hc. unfold st2. cbn [km calls].
        assert (Hn : BufferLength a <> 0) by (subst a; destruct read; exact E0).
        destruct (MmCopyVirtualMemory_calls E a m1 Hn) as (acq & rest & Hcalls & Hf & Ht).
        fold c in Hcalls, Hf, Ht.
        pose proof (processToLock_is_object read object current BaseAddress Buffer Length
                      AccessMode returnLength m1 eq_refl) as Hp.
        fold a in Hp. rewrite Hp in Hcalls, Ht.
        exists acq, rest. split; [exact Hcalls |]. split; [intros Ha; now apply Hf |].
        intros Ha. destruct (Ht Ha) as (s & _ & ->).
        eexists. split; [reflexivity |].
        destruct (BufferLength a >? MM_POOL_COPY_THRESHOLD E); reflexivity.
    + left. split; [exact E0 |]. split; [reflexivity |]. cbn [fst snd km calls kev]. auto.
Qed.

(** X18.  KphReadVirtualMemory and KphWriteVirtualMemory give back every
    reference they take: on each path through them a successful
    ObReferenceObjectByHandle is followed by one ObDereferenceObject.
    When the reference fails, they return its status, and have neither
    asked for rundown protection nor copied nor written through
    ReturnLength. *)
Theorem references_are_given_back ProcessHandle BaseAddress Buffer Length
    ReturnLength AccessMode returnLength (st : KphState K) :
  let r := KphReadVirtualMemory E X O ProcessHandle BaseAddress Buffer Length
             ReturnLength AccessMode returnLength st in
  let w := KphWriteVirtualMemory E X O ProcessHandle BaseAddress Buffer Length
             ReturnLength AccessMode returnLength st in
  let st0 := mkKphState (mkMachine (store_ulong X returnLength 0 (kernel (km st)))
                           (calls (km st))) (kev st) in
  let ref := ObReferenceObjectByHandle O ProcessHandle (kernel (km st0)) in
  let quiet (x : Z * KphState K) :=
    fst x = fst (fst ref) /\ calls (km (snd x)) = calls (km st)
    /\ exists evs, kev (snd x) = kev st ++ evs
                   /\ Forall (fun e => match e with
                                       | KevDereference _ | KevReturnLength _ _ _ => False
                                       | _ => True
                                       end) evs in
  open_references (kev (snd r)) = open_references (kev st)
  /\ open_references (kev (snd w)) = open_references (kev st)
  /\ (Length <> 0 ->
      fst (access_checks X O BaseAddress Buffer Length ReturnLength AccessMode st0) = None ->
      NT_SUCCESS (fst (fst ref)) = false ->
      quiet r /\ quiet w).
Proof.
  intros r w st0 ref quiet.
  pose proof (access_checks_events X O BaseAddress Buffer Length ReturnLength AccessMode st0)
    as (Hk & Hc & evs1 & He1 & Hr1 & Hl1 & Ho1).
  assert (Hboth : forall read,
            let x := match access_checks X O BaseAddress Buffer Length ReturnLength
                             AccessMode st0 with
                     | (Some status, st1) => (status, st1)
                     | (None, st1) =>
                         after_checks E X O read ProcessHandle BaseAddress Buffer Length
                           ReturnLength AccessMode returnLength st1
                     end in
            open_references (kev (snd x)) = open_references (kev st)
            /\ (Length <> 0 ->
                fst (access_checks X O BaseAddress Buffer Length ReturnLength AccessMode st0)
                = None ->
                NT_SUCCESS (fst (fst ref)) = false -> quiet x)).
  { intros read.
    destruct (access_checks X O BaseAddress Buffer Length ReturnLength AccessMode st0)
      as [[status |] st1] eqn:Hac; cbn [fst snd] in *.
    - split; [| discriminate].
      rewrite He1, open_references_app, Ho1. unfold st0. cbn [kev]. lia.
    - pose proof (after_checks_cases read ProcessHandle BaseAddress Buffer Length
                    ReturnLength AccessMode returnLength st1) as Hcases.
      cbv zeta in Hcases. rewrite Hk in Hcases. fold ref in Hcases.
      assert (H0 : open_references (kev st1) = open_references (kev st)).
      { rewrite He1, open_references_app, Ho1. unfold st0. cbn [kev]. lia. }
      destruct Hcases as [(Hz & Hopen & _) | [(Hn & Hs & Hst & Hcalls & Hev) | Hok]].
      + split; [congruence |]. intros Hn. contradiction.
      + split.
        * rewrite Hev, open_references_app, H0. cbn [open_references]. rewrite Hs. lia.
        * intros _ _ _. unfold quiet. split; [exact Hst |].
          split; [rewrite Hcalls, Hc; reflexivity |].
          eexists. split.
          { rewrite Hev, He1. unfold st0. cbn [kev]. rewrite <- app_assoc. reflexivity. }
          apply Forall_app. split.
          { rewrite List.Forall_forall in Hr1, Hl1. apply List.Forall_forall.
            intros e He. specialize (Hr1 e He). specialize (Hl1 e He).
            destruct e; cbn in *; auto; discriminate. }
          repeat constructor.
      + destruct Hok as (Hn & Hs & Hopen & _). split; [congruence |].
        intros _ _ Hf. congruence. }
  subst r w. rewrite KphReadVirtualMemory_after_checks, KphWriteVirtualMemory_after_checks.
  cbv zeta. fold st0.
  destruct (Hboth true) as [R1 R2]. destruct (Hboth false) as [W1 W2].
  split; [exact R1 |]. split; [exact W1 |]. intros Hn Hac Hs. split; auto.
Qed.

(** X19.  When the checks have passed and the process has been
    referenced, both routines copy under rundown protection of that
    process object, whichever the direction of the copy: the first thing
    MmCopyVirtualMemory does for them is to ask for rundown protection of
    the referenced object; if it is refused nothing is copied, and if it
    is granted one copy routine is called, for KphReadVirtualMemory from
    BaseAddress in that process to Buffer in the current process, for
    KphWriteVirtualMemory the other way round, and the protection is
    released. *)
Theorem copies_under_rundown_protection ProcessHandle BaseAddress Buffer Length
    ReturnLength AccessMode returnLength (st : KphState K) :
  let r := KphReadVirtualMemory E X O ProcessHandle BaseAddress Buffer Length
             ReturnLength AccessMode returnLength st in
  let w := KphWriteVirtualMemory E X O ProcessHandle BaseAddress Buffer Length
             ReturnLength AccessMode returnLength st in
  let st0 := mkKphState (mkMachine (store_ulong X returnLength 0 (kernel (km st)))
                           (calls (km st))) (kev st) in
  let ref := ObReferenceObjectByHandle O ProcessHandle (kernel (km st0)) in
  let object := snd (fst ref) in
  let current := PsGetCurrentProcess E (snd ref) in
  let protected (x : Z * KphState K) (a : CopyArgs) :=
    exists acquired rest,
      calls (km (snd x)) = calls (km st) ++ CallAcquireRundown object acquired :: rest
      /\ (acquired = false -> rest = [])
      /\ (acquired = true ->
          exists c, rest = [c; CallReleaseRundown object] /\ copy_args c = Some a) in
  Length <> 0 ->
  fst (access_checks X O BaseAddress Buffer Length ReturnLength AccessMode st0) = None ->
  NT_SUCCESS (fst (fst ref)) = true ->
  protected r (mkCopyArgs object BaseAddress current Buffer Length AccessMode returnLength)
  /\ protected w (mkCopyArgs current Buffer object BaseAddress Length AccessMode
                    returnLength).
Proof.
  intros r w st0 ref object current protected Hn Hac Hs.
  pose proof (access_checks_events X O BaseAddress Buffer Length ReturnLength AccessMode st0)
    as (Hk & Hc & _).
  subst r w. rewrite KphReadVirtualMemory_after_checks, KphWriteVirtualMemory_after_checks.
  cbv zeta. fold st0.
  destruct (access_checks X O BaseAddress Buffer Length ReturnLength AccessMode st0)
    as [[status |] st1]; cbn [fst snd] in *; [discriminate |].
  assert (Hboth : forall read,
            protected
              (after_checks E X O read ProcessHandle BaseAddress Buffer Length ReturnLength
                 AccessMode returnLength st1)
              (if read
               then mkCopyArgs object BaseAddress current Buffer Length AccessMode
                      returnLength
               else mkCopyArgs current Buffer object BaseAddress Length AccessMode
                      returnLength)).
  { intros read.
    pose proof (after_checks_cases read ProcessHandle BaseAddress Buffer Length
                  ReturnLength AccessMode returnLength st1) as Hcases.
    cbv zeta in Hcases. rewrite Hk in Hcases. fold ref in Hcases.
    destruct Hcases as [(Hz & _) | [(_ & Hf & _) | (_ & _ & _ & _ & Hp)]];
      [contradiction | congruence |].
    destruct Hp as (acq & rest & Hcalls & Hfalse & Htrue).
    exists acq, rest. rewrite Hcalls, Hc. auto. }
  split; [exact (Hboth true) | exact (Hboth false)].
Qed.

End KphReferences.

(** Process 4 reads 16 bytes of the process behind the handle 8, in
    kernel mode. *)
Lemma copies_under_rundown_protection_witness :
  let E := sample_externs 4 in
  let X := sample_copy_externs in
  let O := sample_ob_externs in
  let st := mkKphState (mkMachine ([] : list Z, 7) []) [] in
  let r := KphReadVirtualMemory E X O 8 4096 8192 16 12288 0 0x80000100 st in
  let w := KphWriteVirtualMemory E X O 8 4096 8192 16 12288 0 0x80000100 st in
  let protected (x : Z * KphState (list Z * Z)) (a : CopyArgs) :=
    exists acquired rest,
      calls (km (snd x)) = calls (km st) ++ CallAcquireRundown 128 acquired :: rest
      /\ (acquired = false -> rest = [])
      /\ (acquired = true ->
          exists c, rest = [c; CallReleaseRundown 128] /\ copy_args c = Some a) in
  protected r (mkCopyArgs 128 4096 4 8192 16 0 0x80000100)
  /\ protected w (mkCopyArgs 4 8192 128 4096 16 0 0x80000100).
Proof.
  apply (copies_under_rundown_protection (sample_externs 4) sample_copy_externs
           sample_ob_externs 8 4096 8192 16 12288 0 0x80000100
           (mkKphState (mkMachine ([] : list Z, 7) []) [])).
  - discriminate.
  - reflexivity.
  - reflexivity.
Defined.
(** ** The copy routines of mm.c *)

Lemma attach_protocol_app from to attached l1 l2 :
  attach_protocol from to attached (l1 ++ l2)
  = match attach_protocol from to attached l1 with
    | Some attached' => attach_protocol from to attached' l2
    | None => None
    end.
Proof.
  revert attached. induction l1 as [| e l1 IH]; intros attached; cbn; [reflexivity |].
  destruct (attach_step from to attached e); [apply IH | reflexivity].
Qed.

Lemma pool_protocol_app held l1 l2 :
  pool_protocol held (l1 ++ l2)
  = match pool_protocol held l1 with
    | Some held' => pool_protocol held' l2
    | None => None
    end.
Proof.
  revert held. induction l1 as [| e l1 IH]; intros held; cbn; [reflexivity |].
  destruct (pool_step held e); [apply IH | reflexivity].
Qed.

Lemma pages_protocol_app s l1 l2 :
  pages_protocol s (l1 ++ l2)
  = match pages_protocol s l1 with
    | Some s' => pages_protocol s' l2
    | None => None
    end.
Proof.
  revert s. induction l1 as [| e l1 IH]; intros s; cbn [pages_protocol app]; [reflexivity |].
  destruct (pages_step s e); [apply IH | reflexivity].
Qed.

Lemma first_fault_app l1 l2 :
  first_fault (l1 ++ l2)
  = match first_fault l1 with
    | Some e => Some e
    | None => first_fault l2
    end.
Proof.
  unfold first_fault. induction l1 as [| e l1 IH]; cbn; [reflexivity |].
  destruct (is_fault e); [reflexivity | exact IH].
Qed.

Lemma stored_length_from l acc :
  fold_left (fun v e => match e with
                        | EvReturnLength v' => Some v'
                        | _ => v
                        end) l acc
  = match stored_length l with
    | Some v => Some v
    | None => acc
    end.
Proof.
  unfold stored_length. revert acc. induction l as [| e l IH]; intros acc; cbn; [reflexivity |].
  rewrite IH. rewrite (IH (match e with EvReturnLength v' => Some v' | _ => None end)).
  destruct (fold_left _ l None); destruct e; reflexivity.
Qed.

Lemma stored_length_app l1 l2 :
  stored_length (l1 ++ l2)
  = match stored_length l2 with
    | Some v => Some v
    | None => stored_length l1
    end.
Proof.
  unfold stored_length at 1. rewrite fold_left_app. apply stored_length_from.
Qed.

Lemma memcpys_app l1 l2 : memcpys (l1 ++ l2) = memcpys l1 ++ memcpys l2.
Proof. unfold memcpys. apply flat_map_app. Qed.

Section PoolCopy.

Context {K : Type} (E : Externs K) (X : CopyExterns K).

Lemma ptr_add z n : MmCopy.ptr X (MmCopy.ptr X z + n) = MmCopy.ptr X (z + n).
Proof. unfold MmCopy.ptr. apply Zplus_mod_idemp_l. Qed.

Lemma pool_copy_block_cases a buffer src tgt n (st : CopyState K) :
  probing st = false ->
  let pr := (src =? FromAddress a) && negb (AccessMode a =? KernelMode X) in
  let pw := (tgt =? ToAddress a) && negb (AccessMode a =? KernelMode X) in
  let evR := if pr then [EvProbeForRead src (BufferLength a) None] else [] in
  let evW := if pw then [EvProbeForWrite tgt (BufferLength a) None] else [] in
  let half := evR ++ [EvMemcpy buffer src n None; EvDetach; EvAttach (ToProcess a)] in
  match MmCopy.pool_copy_block X a buffer src tgt n st with
  | Normal _ st' =>
      probing st' = false
      /\ cev st' = cev st ++ half ++ evW ++ [EvMemcpy tgt buffer n None]
  | Raised r st' =>
      (pr = true /\ probing st' = true
       /\ cev st' = cev st ++ [EvProbeForRead src (BufferLength a) (Some r)])
      \/ (probing st' = false /\ copying st' = copying st
          /\ cev st' = cev st ++ evR ++ [EvMemcpy buffer src n (Some r)])
      \/ (pw = true /\ probing st' = true
          /\ cev st' = cev st ++ half ++ [EvProbeForWrite tgt (BufferLength a) (Some r)])
      \/ (probing st' = false /\ copying st' = true
          /\ cev st' = cev st ++ half ++ evW ++ [EvMemcpy tgt buffer n (Some r)])
  end.
Proof.
  intros Hp pr pw evR evW half. subst half evR evW.
  unfold MmCopy.pool_copy_block, MmCopy.try_bind.
  fold pr. fold pw.
  unfold MmCopy.probe_for_read, MmCopy.probe_for_write, MmCopy.copy_memory,
    MmCopy.attach, MmCopy.detach, MmCopy.record, MmCopy.set_probing, MmCopy.set_copying.
  cbn [ck cev probing copying mapping pagesLocked mappedAddress].
  destruct pr, pw;
    repeat match goal with
      | |- context [match ProbeForRead X ?a ?n ?k with _ => _ end] =>
          destruct (ProbeForRead X a n k)
      | |- context [match ProbeForWrite X ?a ?n ?k with _ => _ end] =>
          destruct (ProbeForWrite X a n k)
      | |- context [match memcpy X ?d ?s ?n ?k with _ => _ end] =>
          destruct (memcpy X d s n k) as [[?|] ?]
      | _ => progress cbn [ck cev probing copying mapping pagesLocked mappedAddress]
      end;
    rewrite <- ?app_assoc; cbn [app];
    try (split; [assumption || reflexivity | reflexivity]);
    try (left; repeat split; reflexivity);
    try (right; left; repeat split; assumption || reflexivity);
    try (right; right; left; repeat split; reflexivity);
    try (right; right; right; repeat split; assumption || reflexivity).
Qed.

Lemma pool_copy_handler_events a stackBuffer buffer src still r bad (st : CopyState K) :
  let res := MmCopy.pool_copy_handler X a stackBuffer buffer src still r bad st in
  let info := MmCopy.MiGetExceptionInfo X r bad in
  fst res = (if probing st then ExceptionCode r else STATUS_PARTIAL_COPY X)
  /\ cev (snd res)
     = cev st ++ [EvDetach]
       ++ (if buffer =? stackBuffer then [] else [EvFree buffer])
       ++ (if probing st then []
           else EvReturnLength (u32 (BufferLength a - still))
                  :: (if copying st && snd (fst info)
                      then [EvReturnLength (u32 (MmCopy.ptr X (snd info - src)))]
                      else [])).
Proof.
  intros res info. subst res. unfold MmCopy.pool_copy_handler. fold info.
  unfold MmCopy.detach, MmCopy.free_pool, MmCopy.return_length, MmCopy.record.
  destruct (buffer =? stackBuffer), (probing st) eqn:Hp, (copying st) eqn:Hc,
    (snd (fst info));
    cbn [negb andb ck cev probing copying mapping pagesLocked mappedAddress fst snd];
    rewrite ?Hp, ?Hc;
    cbn [negb andb ck cev probing copying mapping pagesLocked mappedAddress fst snd];
    rewrite <- ?app_assoc; split; reflexivity.
Qed.

Lemma pool_copy_loop_S fuel a stackBuffer buffer blockSize stillToCopy src tgt bad
    (st : CopyState K) :
  MmCopy.pool_copy_loop E X (S fuel) a stackBuffer buffer blockSize stillToCopy src tgt
    bad st
  = if stillToCopy =? 0 then
      Some (STATUS_SUCCESS E,
            MmCopy.return_length X (ReturnLength a) (BufferLength a)
              (if negb (buffer =? stackBuffer) then MmCopy.free_pool X buffer st else st))
    else
      let blockSize := if stillToCopy <? blockSize then stillToCopy else blockSize in
      match MmCopy.pool_copy_block X a buffer src tgt blockSize
              (MmCopy.attach X (FromProcess a) (MmCopy.set_copying false st)) with
      | Raised r st' =>
          Some (MmCopy.pool_copy_handler X a stackBuffer buffer src stillToCopy r bad st')
      | Normal _ st' =>
          MmCopy.pool_copy_loop E X fuel a stackBuffer buffer blockSize
            (u32 (stillToCopy - blockSize)) (MmCopy.ptr X (src + blockSize))
            (MmCopy.ptr X (tgt + blockSize)) bad (MmCopy.detach X st')
      end.
Proof. reflexivity. Qed.

Lemma pool_copy_loop_run a stackBuffer buffer capacity bad :
  0 <= BufferLength a < 2 ^ 32 ->
  forall fuel blockSize copied (st : CopyState K),
    0 <= copied <= BufferLength a ->
    (copied < BufferLength a -> 0 < blockSize) -> blockSize <= capacity ->
    probing st = false ->
    (Z.to_nat (BufferLength a - copied) < fuel)%nat ->
    exists status st' evs,
      MmCopy.pool_copy_loop E X fuel a stackBuffer buffer blockSize
        (BufferLength a - copied) (MmCopy.ptr X (FromAddress a + copied))
        (MmCopy.ptr X (ToAddress a + copied)) bad st = Some (status, st')
      /\ cev st' = cev st ++ evs
      /\ attach_protocol (FromProcess a) (ToProcess a) None evs = Some None
      /\ pool_protocol (if buffer =? stackBuffer then None else Some buffer) evs = Some None
      /\ Forall (fun e => match e with
                          | EvMemcpy d s n _ =>
                              (d = buffer \/ s = buffer) /\ 0 < n <= capacity
                          | _ => True
                          end) evs
      /\ match first_fault evs with
         | None => status = STATUS_SUCCESS E /\ stored_length evs = Some (BufferLength a)
         | Some (EvProbeForRead _ _ (Some r)) | Some (EvProbeForWrite _ _ (Some r)) =>
             status = ExceptionCode r /\ stored_length evs = None
         | Some (EvMemcpy d s n (Some r)) =>
             status = STATUS_PARTIAL_COPY X
             /\ exists c,
                 copied <= c < BufferLength a
                 /\ ((d = buffer /\ s = MmCopy.ptr X (FromAddress a + c)
                      /\ stored_length evs = Some c)
                     \/ (s = buffer /\ d = MmCopy.ptr X (ToAddress a + c)
                         /\ stored_length evs
                            = Some (if snd (fst (MmCopy.MiGetExceptionInfo X r bad))
                                    then u32 (MmCopy.ptr X
                                                (snd (MmCopy.MiGetExceptionInfo X r bad)
                                                 - MmCopy.ptr X (FromAddress a + c)))
                                    else c)))
         | Some _ => False
         end
      /\ (first_fault evs = None ->
          exists sizes,
            memcpys evs
            = copy_plan (pointer_bits X) (FromAddress a) (ToAddress a) buffer copied sizes
            /\ Forall (fun n => 0 < n <= capacity) sizes
            /\ copied + fold_right Z.add 0 sizes = BufferLength a).
Proof.
  intros HBL. induction fuel as [| fuel IH]; intros blockSize copied st Hc Hb0 Hb1 Hp Hf; [lia |].
  rewrite pool_copy_loop_S.
  destruct (BufferLength a - copied =? 0) eqn:E0.
  - apply Z.eqb_eq in E0.
    eexists _, _, ((if buffer =? stackBuffer then [] else [EvFree buffer])
                   ++ [EvReturnLength (BufferLength a)]).
    split; [reflexivity |].
    unfold MmCopy.return_length, MmCopy.free_pool, MmCopy.record.
    destruct (buffer =? stackBuffer) eqn:Eb;
      cbn [negb ck cev probing copying mapping pagesLocked mappedAddress app];
      rewrite <- ?app_assoc; cbn [app].
    all: split; [reflexivity |].
    all: split; [reflexivity |].
    all: split; [cbn; rewrite ?Z.eqb_refl; reflexivity |].
    all: split; [repeat constructor |].
    all: split; [cbn; split; reflexivity |].
    all: intros _; exists []; cbn; split; [reflexivity |]; split; [constructor | lia].
  - apply Z.eqb_neq in E0. cbv zeta.
    set (bs := if BufferLength a - copied <? blockSize then BufferLength a - copied
               else blockSize).
    assert (Hbs : 0 < bs <= capacity /\ bs <= BufferLength a - copied).
    { subst bs. destruct (BufferLength a - copied <? blockSize) eqn:El;
        [apply Z.ltb_lt in El | apply Z.ltb_ge in El]; lia. }
    set (st1 := MmCopy.attach X (FromProcess a) (MmCopy.set_copying false st)).
    assert (Hp1 : probing st1 = false) by exact Hp.
    assert (Hc1 : cev st1 = cev st ++ [EvAttach (FromProcess a)]) by reflexivity.
    assert (Hcp1 : copying st1 = false) by reflexivity.
    pose proof (pool_copy_block_cases a buffer (MmCopy.ptr X (FromAddress a + copied))
                  (MmCopy.ptr X (ToAddress a + copied)) bs st1 Hp1) as Hblock.
    cbv zeta in Hblock.
    destruct (MmCopy.pool_copy_block X a buffer (MmCopy.ptr X (FromAddress a + copied))
                (MmCopy.ptr X (ToAddress a + copied)) bs st1) as [[] st2 | r st2].
    + destruct Hblock as [Hp2 Hc2].
      set (st3 := MmCopy.detach X st2).
      assert (Hp3 : probing st3 = false) by exact Hp2.
      assert (Hc3 : cev st3 = cev st2 ++ [EvDetach]) by reflexivity.
      assert (Hu : u32 (BufferLength a - copied - bs) = BufferLength a - (copied + bs)).
      { unfold u32. rewrite Z.mod_small by lia. lia. }
      rewrite Hu, !ptr_add, <- !Z.add_assoc.
      destruct (IH bs (copied + bs) st3) as (status & st' & evs & Hrun & Hcev & Hat & Hpool
                                             & Hfit & Hout & Hplan);
        [lia | lia | lia | exact Hp3 | lia |].
      set (pr := (MmCopy.ptr X (FromAddress a + copied) =? FromAddress a)
                 && negb (AccessMode a =? KernelMode X)) in *.
      set (pw := (MmCopy.ptr X (ToAddress a + copied) =? ToAddress a)
                 && negb (AccessMode a =? KernelMode X)) in *.
      set (src := MmCopy.ptr X (FromAddress a + copied)) in *.
      set (tgt := MmCopy.ptr X (ToAddress a + copied)) in *.
      set (round := [EvAttach (FromProcess a)]
                    ++ ((if pr then [EvProbeForRead src (BufferLength a) None] else [])
                        ++ [EvMemcpy buffer src bs None; EvDetach; EvAttach (ToProcess a)])
                    ++ (if pw then [EvProbeForWrite tgt (BufferLength a) None] else [])
                    ++ [EvMemcpy tgt buffer bs None] ++ [EvDetach]).
      exists status, st', (round ++ evs).
      split; [exact Hrun |].
      split.
      { rewrite Hcev, Hc3, Hc2, Hc1. subst round. rewrite <- !app_assoc. reflexivity. }
      split.
      { rewrite attach_protocol_app.
        replace (attach_protocol (FromProcess a) (ToProcess a) None round) with (Some (@None Z));
          [exact Hat |].
        subst round. destruct pr, pw; cbn; rewrite ?Z.eqb_refl; reflexivity. }
      split.
      { rewrite pool_protocol_app.
        replace (pool_protocol (if buffer =? stackBuffer then None else Some buffer) round)
          with (Some (if buffer =? stackBuffer then None else Some buffer));
          [exact Hpool |].
        subst round. destruct pr, pw, (buffer =? stackBuffer); reflexivity. }
      split.
      { apply Forall_app. split; [| exact Hfit].
        subst round. destruct pr, pw; cbn [app]; repeat constructor; auto; lia. }
      assert (Hff : first_fault (round ++ evs) = first_fault evs).
      { rewrite first_fault_app. subst round. destruct pr, pw; reflexivity. }
      assert (Hsl : stored_length (round ++ evs) = stored_length evs).
      { rewrite stored_length_app. destruct (stored_length evs); [reflexivity |].
        subst round. destruct pr, pw; reflexivity. }
      split.
      { rewrite Hff, Hsl.
        destruct (first_fault evs) as [[| | | | ? ? [r |] | ? ? [r |] | d s n [r |] | | | | |] |];
          try exact Hout.
        destruct Hout as [Hs (c & Hcb & Hcase)].
        split; [exact Hs |]. exists c. split; [lia | exact Hcase]. }
      { rewrite Hff. intros Hnone. destruct (Hplan Hnone) as (sizes & Hm & Hfs & Hsum).
        exists (bs :: sizes). split.
        - rewrite memcpys_app, Hm. subst round. destruct pr, pw; reflexivity.
        - split; [constructor; [lia | exact Hfs] |].
          cbn [fold_right]. lia. }
    + pose proof (pool_copy_handler_events a stackBuffer buffer
                    (MmCopy.ptr X (FromAddress a + copied)) (BufferLength a - copied)
                    r bad st2) as [Hst Hev].
      cbv zeta in Hst, Hev.
      assert (Hu : u32 (BufferLength a - (BufferLength a - copied)) = copied).
      { unfold u32. rewrite Z.mod_small by lia. lia. }
      rewrite Hu in Hev.
      set (res := MmCopy.pool_copy_handler X a stackBuffer buffer
                    (MmCopy.ptr X (FromAddress a + copied)) (BufferLength a - copied)
                    r bad st2) in *.
      set (pr := (MmCopy.ptr X (FromAddress a + copied) =? FromAddress a)
                 && negb (AccessMode a =? KernelMode X)) in *.
      set (pw := (MmCopy.ptr X (ToAddress a + copied) =? ToAddress a)
                 && negb (AccessMode a =? KernelMode X)) in *.
      set (src := MmCopy.ptr X (FromAddress a + copied)) in *.
      set (tgt := MmCopy.ptr X (ToAddress a + copied)) in *.
      set (known := snd (fst (MmCopy.MiGetExceptionInfo X r bad))) in *.
      exists (fst res), (snd res).
      destruct Hblock as [(Hpr & Hp2 & Hc2) | [(Hp2 & Hcp2 & Hc2) | [(Hpw & Hp2 & Hc2)
                                                                    | (Hp2 & Hcp2 & Hc2)]]];
        rewrite Hp2 in Hst, Hev; try rewrite Hcp2 in Hev; try rewrite Hcp1 in Hev;
        cbn [andb] in Hev; rewrite Hc2, Hc1, <- ?app_assoc in Hev; cbn [app] in Hev;
        eexists; (split; [rewrite <- surjective_pairing; reflexivity |]);
        (split; [exact Hev |]); rewrite Hst; clear Hev Hst;
        try rewrite Hpr; try rewrite Hpw.
      all: subst known.
      all: destruct pr, pw, (buffer =? stackBuffer) eqn:Eb,
             (snd (fst (MmCopy.MiGetExceptionInfo X r bad))) eqn:Ek; try discriminate.
      all: cbn [app].
      all: split; [cbn; rewrite ?Z.eqb_refl; reflexivity |].
      all: split; [cbn; rewrite ?Z.eqb_refl; reflexivity |].
      all: split; [repeat constructor; auto; lia |].
      all: (split; [| intros Hnone; discriminate Hnone]).
      all: cbn; rewrite ?Ek.
      all: try (split; reflexivity).
      all: split; [reflexivity |]; exists copied; (split; [lia |]).
      all: try (left; repeat split; reflexivity).
      all: right; repeat split; reflexivity.
Qed.

Lemma allocations_are_neutral from to attached evs :
  Forall (fun e => exists n b, e = EvAlloc n b) evs ->
  attach_protocol from to attached evs = Some attached
  /\ first_fault evs = None /\ stored_length evs = None /\ memcpys evs = []
  /\ forall P : CopyEvent -> Prop, (forall n b, P (EvAlloc n b)) -> Forall P evs.
Proof.
  induction 1 as [| e evs (n & b & ->) _ (IH1 & IH2 & IH3 & IH4 & IH5)].
  - repeat split; try reflexivity. intros; constructor.
  - split; [exact IH1 |]. split; [exact IH2 |].
    split; [change (EvAlloc n b :: evs) with ([EvAlloc n b] ++ evs);
            rewrite stored_length_app, IH3; reflexivity |].
    split; [exact IH4 |]. intros P HP. constructor; [apply HP | apply IH5, HP].
Qed.

Lemma pool_buffer_run stackBuffer :
  0 < MI_COPY_STACK_SIZE X ->
  forall fuel allocSize (st : CopyState K),
    MI_COPY_STACK_SIZE X < allocSize < 2 ^ Z.of_nat fuel ->
    exists buffer size st' evs,
      MmCopy.pool_buffer X fuel stackBuffer allocSize st = Some (buffer, size, st')
      /\ cev st' = cev st ++ evs /\ probing st' = probing st
      /\ 0 < size <= allocSize
      /\ Forall (fun e => exists n b, e = EvAlloc n b) evs
      /\ ((buffer = stackBuffer /\ size <= MI_COPY_STACK_SIZE X
           /\ pool_protocol None evs = Some None)
          \/ (buffer <> 0 /\ In (EvAlloc size buffer) evs
              /\ pool_protocol None evs = Some (Some buffer)
              /\ exists k', buffer = fst (ExAllocatePoolWithTag X size k'))).
Proof.
  intros Hstack. induction fuel as [| fuel IH]; intros allocSize st Ha.
  - cbn in Ha. lia.
  - cbn [MmCopy.pool_buffer]. cbv zeta.
    set (r := ExAllocatePoolWithTag X allocSize (ck st)).
    set (st1 := MmCopy.record (EvAlloc allocSize (fst r)) (snd r) st).
    assert (Hc1 : cev st1 = cev st ++ [EvAlloc allocSize (fst r)]) by reflexivity.
    assert (Hp1 : probing st1 = probing st) by reflexivity.
    destruct (fst r =? 0) eqn:Er; cbn [negb].
    + apply Z.eqb_eq in Er.
      assert (Hhalf : 0 < allocSize / 2 <= allocSize /\ allocSize / 2 < 2 ^ Z.of_nat fuel).
      { rewrite Nat2Z.inj_succ, Z.pow_succ_r in Ha by lia.
        split; [split; [apply Z.div_str_pos; lia | apply Z.div_le_upper_bound; lia] |].
        apply Z.div_lt_upper_bound; lia. }
      destruct (allocSize / 2 <=? MI_COPY_STACK_SIZE X) eqn:El.
      * apply Z.leb_le in El.
        exists stackBuffer, (allocSize / 2), st1, [EvAlloc allocSize (fst r)].
        split; [reflexivity |]. split; [exact Hc1 |]. split; [exact Hp1 |].
        split; [lia |]. split; [repeat constructor; eauto |].
        left. split; [reflexivity |]. split; [exact El |].
        cbn. rewrite Er. reflexivity.
      * apply Z.leb_gt in El.
        destruct (IH (allocSize / 2) st1) as (buffer & size & st' & evs & Hrun & Hcev & Hp
                                              & Hsize & Hall & Hcase); [lia |].
        exists buffer, size, st', (EvAlloc allocSize (fst r) :: evs).
        split; [exact Hrun |].
        split; [rewrite Hcev, Hc1, <- app_assoc; reflexivity |].
        split; [rewrite Hp; exact Hp1 |]. split; [lia |].
        split; [constructor; eauto |].
        destruct Hcase as [(Hb & Hs & Hpool) | (Hb & Hin & Hpool & Hk)].
        -- left. split; [exact Hb |]. split; [exact Hs |].
           cbn. rewrite Er. exact Hpool.
        -- right. split; [exact Hb |]. split; [right; exact Hin |].
           split; [cbn; rewrite Er; exact Hpool | exact Hk].
    + apply Z.eqb_neq in Er.
      exists (fst r), allocSize, st1, [EvAlloc allocSize (fst r)].
      split; [reflexivity |]. split; [exact Hc1 |]. split; [exact Hp1 |].
      split; [lia |]. split; [repeat constructor; eauto |].
      right. split; [exact Er |]. split; [left; reflexivity |].
      split; [| exists (ck st); reflexivity].
      cbn. apply Z.eqb_neq in Er. rewrite Er. reflexivity.
Qed.

Lemma MiDoPoolCopy_run fuel a stackBuffer bad (k : K) ev :
  0 < MI_COPY_STACK_SIZE X < MI_MAX_TRANSFER_SIZE X ->
  0 <= BufferLength a < 2 ^ 32 ->
  0 <= FromAddress a < 2 ^ pointer_bits X ->
  0 <= ToAddress a < 2 ^ pointer_bits X ->
  (Z.to_nat (BufferLength a) + 32 < fuel)%nat ->
  exists status st evs buffer capacity,
    MmCopy.MiDoPoolCopy E X fuel a stackBuffer bad k ev = Some (status, st)
    /\ cev st = ev ++ evs
    /\ ((buffer = stackBuffer /\ capacity = MI_COPY_STACK_SIZE X)
        \/ (buffer <> 0 /\ In (EvAlloc capacity buffer) evs))
    /\ Forall (fun e => match e with
                        | EvMemcpy d s n _ =>
                            (d = buffer \/ s = buffer) /\ 0 < n <= capacity
                        | _ => True
                        end) evs
    /\ attach_protocol (FromProcess a) (ToProcess a) None evs = Some None
    /\ ((forall n k', fst (ExAllocatePoolWithTag X n k') <> stackBuffer) ->
        pool_protocol None evs = Some None)
    /\ match first_fault evs with
       | None => status = STATUS_SUCCESS E /\ stored_length evs = Some (BufferLength a)
       | Some (EvProbeForRead _ _ (Some r)) | Some (EvProbeForWrite _ _ (Some r)) =>
           status = ExceptionCode r /\ stored_length evs = None
       | Some (EvMemcpy d s n (Some r)) =>
           status = STATUS_PARTIAL_COPY X
           /\ exists c,
               0 <= c < BufferLength a
               /\ ((d = buffer /\ s = MmCopy.ptr X (FromAddress a + c)
                    /\ stored_length evs = Some c)
                   \/ (s = buffer /\ d = MmCopy.ptr X (ToAddress a + c)
                       /\ stored_length evs
                          = Some (if snd (fst (MmCopy.MiGetExceptionInfo X r bad))
                                  then u32 (MmCopy.ptr X
                                              (snd (MmCopy.MiGetExceptionInfo X r bad)
                                               - MmCopy.ptr X (FromAddress a + c)))
                                  else c)))
       | Some _ => False
       end
    /\ (first_fault evs = None ->
        exists sizes,
          memcpys evs
          = copy_plan (pointer_bits X) (FromAddress a) (ToAddress a) buffer 0 sizes
          /\ Forall (fun n => 0 < n <= capacity) sizes
          /\ fold_right Z.add 0 sizes = BufferLength a).
Proof.
  intros Hconst HBL Hfrom Hto Hfuel.
  unfold MmCopy.MiDoPoolCopy. cbv zeta.
  set (st0 := mkCopyState k ev false false false false 0).
  set (alloc0 := if MI_MAX_TRANSFER_SIZE X >? BufferLength a then BufferLength a
                 else MI_MAX_TRANSFER_SIZE X).
  assert (Ha0 : alloc0 <= BufferLength a /\ alloc0 <= MI_MAX_TRANSFER_SIZE X
                /\ (0 < BufferLength a -> 0 < alloc0)
                /\ (MI_COPY_STACK_SIZE X < BufferLength a -> MI_COPY_STACK_SIZE X < alloc0)).
  { subst alloc0. destruct (MI_MAX_TRANSFER_SIZE X >? BufferLength a) eqn:Em;
      [apply Z.gtb_lt in Em | rewrite Z.gtb_ltb in Em; apply Z.ltb_ge in Em]; lia. }
  assert (Hsrc : FromAddress a = MmCopy.ptr X (FromAddress a + 0)).
  { unfold MmCopy.ptr. rewrite Z.add_0_r, Z.mod_small; [reflexivity | exact Hfrom]. }
  assert (Htgt : ToAddress a = MmCopy.ptr X (ToAddress a + 0)).
  { unfold MmCopy.ptr. rewrite Z.add_0_r, Z.mod_small; [reflexivity | exact Hto]. }
  destruct (BufferLength a <=? MI_COPY_STACK_SIZE X) eqn:Es.
  - apply Z.leb_le in Es.
    destruct (pool_copy_loop_run a stackBuffer stackBuffer (MI_COPY_STACK_SIZE X) bad HBL
                fuel alloc0 0 st0)
      as (status & st' & evs & Hrun & Hcev & Hat & Hpool & Hfit & Hout & Hplan);
      [lia | lia | lia | reflexivity | lia |].
    rewrite <- Hsrc, <- Htgt, Z.sub_0_r in Hrun.
    exists status, st', evs, stackBuffer, (MI_COPY_STACK_SIZE X).
    rewrite Z.eqb_refl in Hpool.
    split; [exact Hrun |]. split; [exact Hcev |]. split; [left; split; reflexivity |].
    split; [exact Hfit |]. split; [exact Hat |]. split; [intros _; exact Hpool |].
    split; [exact Hout | exact Hplan].
  - apply Z.leb_gt in Es.
    destruct (pool_buffer_run stackBuffer (proj1 Hconst) fuel alloc0 st0)
      as (buffer & size & st1 & evsA & HrunA & HcevA & HpA & Hsize & Hall & Hcase).
    { split; [lia |].
      apply Z.le_lt_trans with (BufferLength a); [lia |].
      apply Z.lt_le_trans with (2 ^ 32); [lia |].
      apply Z.pow_le_mono_r; lia. }
    rewrite HrunA.
    destruct (allocations_are_neutral (FromProcess a) (ToProcess a) None evsA Hall)
      as (NA & NF & NS & NM & NP).
    destruct (pool_copy_loop_run a stackBuffer buffer size bad HBL fuel size 0 st1)
      as (status & st' & evs & Hrun & Hcev & Hat & Hpool & Hfit & Hout & Hplan);
      [lia | lia | lia | exact HpA | lia |].
    rewrite <- Hsrc, <- Htgt, Z.sub_0_r in Hrun.
    assert (Hff : first_fault (evsA ++ evs) = first_fault evs).
    { rewrite first_fault_app, NF. reflexivity. }
    assert (Hsl : stored_length (evsA ++ evs) = stored_length evs).
    { rewrite stored_length_app, NS. destruct (stored_length evs); reflexivity. }
    assert (Hmc : memcpys (evsA ++ evs) = memcpys evs).
    { rewrite memcpys_app, NM. reflexivity. }
    destruct Hcase as [(Hb & Hs & HpoolA) | (Hb & Hin & HpoolA & k' & Hk)].
    + exists status, st', (evsA ++ evs), buffer, (MI_COPY_STACK_SIZE X).
      split; [exact Hrun |].
      split; [rewrite Hcev, HcevA, <- app_assoc; reflexivity |].
      split; [left; split; [exact Hb | reflexivity] |].
      split.
      { apply Forall_app. split; [apply NP; exact (fun _ _ => I) |].
        eapply Forall_impl; [exact Hfit |]. intros [] He; try exact I.
        split; [apply He | lia]. }
      split; [rewrite attach_protocol_app, NA; exact Hat |].
      split.
      { intros _. rewrite pool_protocol_app, HpoolA.
        rewrite Hb, Z.eqb_refl in Hpool. exact Hpool. }
      rewrite Hff, Hsl, Hmc. split; [exact Hout |].
      intros Hnone. destruct (Hplan Hnone) as (sizes & Hm & Hfs & Hsum).
      exists sizes. split; [exact Hm |]. split; [| lia].
      eapply Forall_impl; [exact Hfs |]. intros n Hn. cbn in Hn. lia.
    + exists status, st', (evsA ++ evs), buffer, size.
      split; [exact Hrun |].
      split; [rewrite Hcev, HcevA, <- app_assoc; reflexivity |].
      split; [right; split; [exact Hb | apply in_or_app; left; exact Hin] |].
      split; [apply Forall_app; split; [apply NP; exact (fun _ _ => I) | exact Hfit] |].
      split; [rewrite attach_protocol_app, NA; exact Hat |].
      split.
      { intros Hne. rewrite pool_protocol_app, HpoolA.
        assert (Eb : (buffer =? stackBuffer) = false).
        { apply Z.eqb_neq. rewrite Hk. apply Hne. }
        rewrite Eb in Hpool. exact Hpool. }
      rewrite Hff, Hsl, Hmc. split; [exact Hout |].
      intros Hnone. destruct (Hplan Hnone) as (sizes & Hm & Hfs & Hsum).
      exists sizes. split; [exact Hm |]. split; [exact Hfs | lia].
Qed.

(** X20.  MiDoPoolCopy returns, and it never overruns the buffer it copies
    through: the buffer is the stack buffer of MI_COPY_STACK_SIZE bytes
    or a pool allocation it made, every memcpy has that buffer on one
    side, and no memcpy is of more bytes than the buffer has (nor of
    none). *)
Theorem MiDoPoolCopy_stays_within_buffer fuel a stackBuffer bad (k : K) ev :
  0 < MI_COPY_STACK_SIZE X < MI_MAX_TRANSFER_SIZE X ->
  0 <= BufferLength a < 2 ^ 32 ->
  0 <= FromAddress a < 2 ^ pointer_bits X ->
  0 <= ToAddress a < 2 ^ pointer_bits X ->
  (Z.to_nat (BufferLength a) + 32 < fuel)%nat ->
  exists status st evs buffer capacity,
    MmCopy.MiDoPoolCopy E X fuel a stackBuffer bad k ev = Some (status, st)
    /\ cev st = ev ++ evs
    /\ ((buffer = stackBuffer /\ capacity = MI_COPY_STACK_SIZE X)
        \/ (buffer <> 0 /\ In (EvAlloc capacity buffer) evs))
    /\ Forall (fun e => match e with
                        | EvMemcpy d s n _ =>
                            (d = buffer \/ s = buffer) /\ 0 < n <= capacity
                        | _ => True
                        end) evs.
Proof.
  intros Hconst HBL Hfrom Hto Hfuel.
  destruct (MiDoPoolCopy_run fuel a stackBuffer bad k ev Hconst HBL Hfrom Hto Hfuel)
    as (status & st & evs & buffer & capacity & Hrun & Hcev & Hbuf & Hfit & _).
  exists status, st, evs, buffer, capacity. auto.
Qed.

(** X21.  On every path MiDoPoolCopy returns detached and without a pool
    buffer: it attaches only when detached, probes and copies only while
    attached (the source range is probed in FromProcess, the target
    range in ToProcess), detaches before it returns, and frees the one
    buffer it may have allocated, once. *)
Theorem MiDoPoolCopy_detaches_and_frees fuel a stackBuffer bad (k : K) ev :
  0 < MI_COPY_STACK_SIZE X < MI_MAX_TRANSFER_SIZE X ->
  0 <= BufferLength a < 2 ^ 32 ->
  0 <= FromAddress a < 2 ^ pointer_bits X ->
  0 <= ToAddress a < 2 ^ pointer_bits X ->
  (forall n k', fst (ExAllocatePoolWithTag X n k') <> stackBuffer) ->
  (Z.to_nat (BufferLength a) + 32 < fuel)%nat ->
  exists status st evs,
    MmCopy.MiDoPoolCopy E X fuel a stackBuffer bad k ev = Some (status, st)
    /\ cev st = ev ++ evs
    /\ attach_protocol (FromProcess a) (ToProcess a) None evs = Some None
    /\ pool_protocol None evs = Some None.
Proof.
  intros Hconst HBL Hfrom Hto Hne Hfuel.
  destruct (MiDoPoolCopy_run fuel a stackBuffer bad k ev Hconst HBL Hfrom Hto Hfuel)
    as (status & st & evs & buffer & capacity & Hrun & Hcev & _ & _ & Hat & Hpool & _).
  exists status, st, evs. auto.
Qed.

(** X22.  When no call raises, MiDoPoolCopy returns STATUS_SUCCESS with
    BufferLength stored through ReturnLength, and it has copied the
    whole range in order: block after block is read at FromAddress plus
    the bytes copied so far into the buffer and written from the buffer
    at ToAddress plus the same offset, the sizes of the blocks adding up
    to BufferLength. *)
Theorem MiDoPoolCopy_copies_whole_range fuel a stackBuffer bad (k : K) ev :
  0 < MI_COPY_STACK_SIZE X < MI_MAX_TRANSFER_SIZE X ->
  0 <= BufferLength a < 2 ^ 32 ->
  0 <= FromAddress a < 2 ^ pointer_bits X ->
  0 <= ToAddress a < 2 ^ pointer_bits X ->
  (Z.to_nat (BufferLength a) + 32 < fuel)%nat ->
  exists status st evs,
    MmCopy.MiDoPoolCopy E X fuel a stackBuffer bad k ev = Some (status, st)
    /\ cev st = ev ++ evs
    /\ (first_fault evs = None ->
        status = STATUS_SUCCESS E
        /\ stored_length evs = Some (BufferLength a)
        /\ exists buffer sizes,
             memcpys evs
             = copy_plan (pointer_bits X) (FromAddress a) (ToAddress a) buffer 0 sizes
             /\ Forall (fun n => 0 < n) sizes
             /\ fold_right Z.add 0 sizes = BufferLength a).
Proof.
  intros Hconst HBL Hfrom Hto Hfuel.
  destruct (MiDoPoolCopy_run fuel a stackBuffer bad k ev Hconst HBL Hfrom Hto Hfuel)
    as (status & st & evs & buffer & capacity & Hrun & Hcev & _ & _ & _ & _ & Hout & Hplan).
  exists status, st, evs. split; [exact Hrun |]. split; [exact Hcev |].
  intros Hnone. rewrite Hnone in Hout. destruct Hout as [Hs Hl].
  split; [exact Hs |]. split; [exact Hl |].
  destruct (Hplan Hnone) as (sizes & Hm & Hfs & Hsum).
  exists buffer, sizes. split; [exact Hm |]. split; [| exact Hsum].
  eapply Forall_impl; [exact Hfs |]. intros n Hn. cbn in Hn. lia.
Qed.

(** X23.  The first call that raises decides what MiDoPoolCopy reports.
    A probe that raises makes it return the code of the exception and
    leave ReturnLength alone.  A memcpy that raises makes it return
    STATUS_PARTIAL_COPY; it has then copied [c] bytes in whole blocks,
    and it stores [c] through ReturnLength, unless the memcpy that
    raised was the one to the target and the exception tells the bad
    address: then it stores the bad address minus the address of the
    current block in the source range, as a ULONG. *)
Theorem MiDoPoolCopy_reports_first_fault fuel a stackBuffer bad (k : K) ev :
  0 < MI_COPY_STACK_SIZE X < MI_MAX_TRANSFER_SIZE X ->
  0 <= BufferLength a < 2 ^ 32 ->
  0 <= FromAddress a < 2 ^ pointer_bits X ->
  0 <= ToAddress a < 2 ^ pointer_bits X ->
  (Z.to_nat (BufferLength a) + 32 < fuel)%nat ->
  exists status st evs buffer,
    MmCopy.MiDoPoolCopy E X fuel a stackBuffer bad k ev = Some (status, st)
    /\ cev st = ev ++ evs
    /\ match first_fault evs with
       | None => True
       | Some (EvProbeForRead _ _ (Some r)) | Some (EvProbeForWrite _ _ (Some r)) =>
           status = ExceptionCode r /\ stored_length evs = None
       | Some (EvMemcpy d s n (Some r)) =>
           status = STATUS_PARTIAL_COPY X
           /\ exists c,
               0 <= c < BufferLength a
               /\ ((d = buffer /\ s = MmCopy.ptr X (FromAddress a + c)
                    /\ stored_length evs = Some c)
                   \/ (s = buffer /\ d = MmCopy.ptr X (ToAddress a + c)
                       /\ stored_length evs
                          = Some (if snd (fst (MmCopy.MiGetExceptionInfo X r bad))
                                  then u32 (MmCopy.ptr X
                                              (snd (MmCopy.MiGetExceptionInfo X r bad)
                                               - MmCopy.ptr X (FromAddress a + c)))
                                  else c)))
       | Some _ => False
       end.
Proof.
  intros Hconst HBL Hfrom Hto Hfuel.
  destruct (MiDoPoolCopy_run fuel a stackBuffer bad k ev Hconst HBL Hfrom Hto Hfuel)
    as (status & st & evs & buffer & capacity & Hrun & Hcev & _ & _ & _ & _ & Hout & _).
  exists status, st, evs, buffer. split; [exact Hrun |]. split; [exact Hcev |].
  destruct (first_fault evs) as [[| | | | ? ? [r |] | ? ? [r |] | d s n [r |] | | | | |] |];
    try exact Hout; exact I.
Qed.

End PoolCopy.

(** A user-mode copy of 1000 bytes from process 4 to process 8: more
    than the stack buffer holds, so that the pool is used. *)
Lemma MiDoPoolCopy_stays_within_buffer_witness :
  let a := mkCopyArgs 4 0x10000 8 0x20000 1000 1 0x80000200 in
  exists status st evs buffer capacity,
    MmCopy.MiDoPoolCopy (sample_externs 4) sample_copy_externs 1100 a 0x80000300 0
      ([], 0) [] = Some (status, st)
    /\ cev st = [] ++ evs
    /\ ((buffer = 0x80000300 /\ capacity = 512)
        \/ (buffer <> 0 /\ In (EvAlloc capacity buffer) evs))
    /\ Forall (fun e => match e with
                        | EvMemcpy d s n _ =>
                            (d = buffer \/ s = buffer) /\ 0 < n <= capacity
                        | _ => True
                        end) evs.
Proof.
  apply (MiDoPoolCopy_stays_within_buffer (sample_externs 4) sample_copy_externs 1100
           (mkCopyArgs 4 0x10000 8 0x20000 1000 1 0x80000200) 0x80000300 0 ([], 0) []);
    simpl; lia.
Defined.

Lemma MiDoPoolCopy_detaches_and_frees_witness :
  let a := mkCopyArgs 4 0x10000 8 0x20000 1000 1 0x80000200 in
  exists status st evs,
    MmCopy.MiDoPoolCopy (sample_externs 4) sample_copy_externs 1100 a 0x80000300 0
      ([], 0) [] = Some (status, st)
    /\ cev st = [] ++ evs
    /\ attach_protocol 4 8 None evs = Some None
    /\ pool_protocol None evs = Some None.
Proof.
  apply (MiDoPoolCopy_detaches_and_frees (sample_externs 4) sample_copy_externs 1100
           (mkCopyArgs 4 0x10000 8 0x20000 1000 1 0x80000200) 0x80000300 0 ([], 0) []);
    simpl; lia.
Defined.

Lemma MiDoPoolCopy_copies_whole_range_witness :
  let a := mkCopyArgs 4 0x10000 8 0x20000 1000 1 0x80000200 in
  exists status st evs,
    MmCopy.MiDoPoolCopy (sample_externs 4) sample_copy_externs 1100 a 0x80000300 0
      ([], 0) [] = Some (status, st)
    /\ cev st = [] ++ evs
    /\ (first_fault evs = None ->
        status = 0
        /\ stored_length evs = Some 1000
        /\ exists buffer sizes,
             memcpys evs = copy_plan 32 0x10000 0x20000 buffer 0 sizes
             /\ Forall (fun n => 0 < n) sizes
             /\ fold_right Z.add 0 sizes = 1000).
Proof.
  apply (MiDoPoolCopy_copies_whole_range (sample_externs 4) sample_copy_externs 1100
           (mkCopyArgs 4 0x10000 8 0x20000 1000 1 0x80000200) 0x80000300 0 ([], 0) []);
    simpl; lia.
Defined.

(** A kernel-mode copy of 16 bytes to 0x20000, where the target can be
    written up to 0x20008 only. *)
Lemma MiDoPoolCopy_reports_first_fault_witness :
  let a := mkCopyArgs 4 0x10000 8 0x20000 16 0 0x80000200 in
  let X := faulting_copy_externs 0x20008 in
  exists status st evs buffer,
    MmCopy.MiDoPoolCopy (sample_externs 4) X 100 a 0x80000300 0 ([], 0) []
    = Some (status, st)
    /\ cev st = [] ++ evs
    /\ match first_fault evs with
       | None => True
       | Some (EvProbeForRead _ _ (Some r)) | Some (EvProbeForWrite _ _ (Some r)) =>
           status = ExceptionCode r /\ stored_length evs = None
       | Some (EvMemcpy d s n (Some r)) =>
           status = STATUS_PARTIAL_COPY X
           /\ exists c,
               0 <= c < 16
               /\ ((d = buffer /\ s = MmCopy.ptr X (0x10000 + c)
                    /\ stored_length evs = Some c)
                   \/ (s = buffer /\ d = MmCopy.ptr X (0x20000 + c)
                       /\ stored_length evs
                          = Some (if snd (fst (MmCopy.MiGetExceptionInfo X r 0))
                                  then u32 (MmCopy.ptr X
                                              (snd (MmCopy.MiGetExceptionInfo X r 0)
                                               - MmCopy.ptr X (0x10000 + c)))
                                  else c)))
       | Some _ => False
       end.
Proof.
  apply (MiDoPoolCopy_reports_first_fault (sample_externs 4) (faulting_copy_externs 0x20008)
           100 (mkCopyArgs 4 0x10000 8 0x20000 16 0 0x80000200) 0x80000300 0 ([], 0) []);
    simpl; lia.
Defined.
Lemma first_failure_app l1 l2 :
  first_failure (l1 ++ l2)
  = match first_failure l1 with
    | Some e => Some e
    | None => first_failure l2
    end.
Proof.
  unfold first_failure. induction l1 as [| e l1 IH]; cbn [app find]; [reflexivity |].
  destruct (is_failure e); [reflexivity | exact IH].
Qed.

Lemma locked_ranges_app l1 l2 : locked_ranges (l1 ++ l2) = locked_ranges l1 ++ locked_ranges l2.
Proof. unfold locked_ranges. apply flat_map_app. Qed.

Lemma written_ranges_app l1 l2 :
  written_ranges (l1 ++ l2) = written_ranges l1 ++ written_ranges l2.
Proof. unfold written_ranges. apply flat_map_app. Qed.

Section MappedCopy.

Context {K : Type} (E : Externs K) (X : CopyExterns K).

Lemma mapped_copy_block_cases a src tgt n (st : CopyState K) :
  probing st = false -> mapping st = false -> pagesLocked st = false ->
  mappedAddress st = 0 ->
  let pr := (src =? FromAddress a) && negb (AccessMode a =? KernelMode X) in
  let pw := (tgt =? ToAddress a) && negb (AccessMode a =? KernelMode X) in
  let evR := if pr then [EvProbeForRead src (BufferLength a) None] else [] in
  let evW := if pw then [EvProbeForWrite tgt (BufferLength a) None] else [] in
  let half m := evR ++ [EvLockPages src n None; EvMapPages m; EvDetach;
                        EvAttach (ToProcess a)] in
  match MmCopy.mapped_copy_block X a src tgt n st with
  | Normal _ st' =>
      probing st' = false /\ mapping st' = false /\ (mappedAddress st' =? 0) = false
      /\ cev st' = cev st ++ half (mappedAddress st') ++ evW
                   ++ [EvMemcpy tgt (mappedAddress st') n None]
  | Raised r st' =>
      (pr = true /\ probing st' = true /\ pagesLocked st' = false /\ mappedAddress st' = 0
       /\ cev st' = cev st ++ [EvProbeForRead src (BufferLength a) (Some r)])
      \/ (probing st' = false /\ mapping st' = false /\ copying st' = copying st
          /\ pagesLocked st' = false /\ mappedAddress st' = 0
          /\ cev st' = cev st ++ evR ++ [EvLockPages src n (Some r)])
      \/ (probing st' = false /\ mapping st' = true /\ pagesLocked st' = true
          /\ mappedAddress st' = 0
          /\ ExceptionCode r = STATUS_INSUFFICIENT_RESOURCES X
          /\ cev st' = cev st ++ evR ++ [EvLockPages src n None; EvMapPages 0])
      \/ (pw = true /\ probing st' = true /\ pagesLocked st' = true
          /\ (mappedAddress st' =? 0) = false
          /\ cev st' = cev st ++ half (mappedAddress st')
                       ++ [EvProbeForWrite tgt (BufferLength a) (Some r)])
      \/ (probing st' = false /\ mapping st' = false /\ copying st' = true
          /\ pagesLocked st' = true /\ (mappedAddress st' =? 0) = false
          /\ cev st' = cev st ++ half (mappedAddress st') ++ evW
                       ++ [EvMemcpy tgt (mappedAddress st') n (Some r)])
  end.
Proof.
  intros Hp Hm Hl Ha pr pw evR evW half. subst half evR evW.
  unfold MmCopy.mapped_copy_block, MmCopy.try_bind.
  fold pr. fold pw.
  unfold MmCopy.probe_for_read, MmCopy.probe_for_write, MmCopy.copy_memory,
    MmCopy.lock_pages, MmCopy.attach, MmCopy.detach, MmCopy.record, MmCopy.set_probing,
    MmCopy.set_copying, MmCopy.set_mapping, MmCopy.set_pagesLocked,
    MmCopy.set_mappedAddress.
  cbn [ck cev probing copying mapping pagesLocked mappedAddress].
  destruct pr, pw;
    repeat match goal with
      | _ => progress cbn [ck cev probing copying mapping pagesLocked mappedAddress]
      | |- context [match ProbeForRead X ?a ?n ?k with _ => _ end] =>
          destruct (ProbeForRead X a n k)
      | |- context [match ProbeForWrite X ?a ?n ?k with _ => _ end] =>
          destruct (ProbeForWrite X a n k)
      | |- context [match memcpy X ?d ?s ?n ?k with _ => _ end] =>
          destruct (memcpy X d s n k) as [[?|] ?]
      | |- context [match MmProbeAndLockPages X ?d ?s ?n ?k with _ => _ end] =>
          destruct (MmProbeAndLockPages X d s n k) as [[?|] ?]
      | |- context [fst (MmMapLockedPagesSpecifyCache X ?s ?n ?k) =? 0] =>
          destruct (fst (MmMapLockedPagesSpecifyCache X s n k) =? 0) eqn:?
      end;
    rewrite <- ?app_assoc; cbn [app]; try discriminate;
    try (repeat split; assumption || reflexivity);
    try (left; repeat split; assumption || reflexivity);
    try (right; left; repeat split; assumption || reflexivity);
    try (right; right; left; repeat split;
         first [assumption | reflexivity
               | match goal with H : (_ =? 0) = true |- _ =>
                   apply Z.eqb_eq in H; rewrite ?H; reflexivity end]);
    try (right; right; right; left; repeat split; assumption || reflexivity);
    try (right; right; right; right; repeat split; assumption || reflexivity).
Qed.

Lemma mapped_copy_handler_events a src still r bad (st : CopyState K) :
  let res := MmCopy.mapped_copy_handler X a src still r bad st in
  let info := MmCopy.MiGetExceptionInfo X r bad in
  fst res = (if probing st || mapping st then ExceptionCode r else STATUS_PARTIAL_COPY X)
  /\ cev (snd res)
     = cev st ++ [EvDetach]
       ++ (if mappedAddress st =? 0 then [] else [EvUnmapPages (mappedAddress st)])
       ++ (if pagesLocked st then [EvUnlockPages] else [])
       ++ (if probing st || mapping st then []
           else EvReturnLength (u32 (BufferLength a - still))
                  :: (if copying st && snd (fst info)
                      then [EvReturnLength (u32 (MmCopy.ptr X (snd info - src)))]
                      else [])).
Proof.
  intros res info. subst res. unfold MmCopy.mapped_copy_handler. fold info.
  unfold MmCopy.detach, MmCopy.unmap_pages, MmCopy.unlock_pages, MmCopy.return_length,
    MmCopy.record.
  cbn [ck cev probing copying mapping pagesLocked mappedAddress].
  destruct (mappedAddress st =? 0), (pagesLocked st) eqn:Hl, (probing st) eqn:Hp,
    (mapping st) eqn:Hm, (copying st) eqn:Hc, (snd (fst info));
    cbn [negb andb orb ck cev probing copying mapping pagesLocked mappedAddress fst snd];
    rewrite ?Hp, ?Hc, ?Hl, ?Hm;
    cbn [negb andb orb ck cev probing copying mapping pagesLocked mappedAddress fst snd];
    rewrite ?Hp, ?Hc, ?Hl, ?Hm;
    cbn [negb andb orb ck cev probing copying mapping pagesLocked mappedAddress fst snd];
    rewrite <- ?app_assoc; split; reflexivity.
Qed.

Lemma mapped_copy_loop_S fuel a blockSize stillToCopy src tgt bad (st : CopyState K) :
  MmCopy.mapped_copy_loop E X (S fuel) a blockSize stillToCopy src tgt bad st
  = if stillToCopy =? 0 then
      Some (STATUS_SUCCESS E,
            MmCopy.return_length X (ReturnLength a) (BufferLength a) st)
    else
      let blockSize := if stillToCopy <? blockSize then stillToCopy else blockSize in
      match MmCopy.mapped_copy_block X a src tgt blockSize
              (MmCopy.attach X (FromProcess a)
                 (MmCopy.set_copying false
                    (MmCopy.set_pagesLocked false (MmCopy.set_mappedAddress 0 st)))) with
      | Raised r st' => Some (MmCopy.mapped_copy_handler X a src stillToCopy r bad st')
      | Normal _ st' =>
          MmCopy.mapped_copy_loop E X fuel a blockSize
            (u32 (stillToCopy - blockSize)) (MmCopy.ptr X (src + blockSize))
            (MmCopy.ptr X (tgt + blockSize)) bad
            (MmCopy.unlock_pages X (MmCopy.unmap_pages X (MmCopy.detach X st')))
      end.
Proof. reflexivity. Qed.

Lemma mapped_copy_loop_run a capacity bad :
  0 <= BufferLength a < 2 ^ 32 ->
  forall fuel blockSize copied (st : CopyState K),
    0 <= copied <= BufferLength a ->
    (copied < BufferLength a -> 0 < blockSize) -> blockSize <= capacity ->
    probing st = false -> mapping st = false ->
    (Z.to_nat (BufferLength a - copied) < fuel)%nat ->
    exists status st' evs,
      MmCopy.mapped_copy_loop E X fuel a blockSize
        (BufferLength a - copied) (MmCopy.ptr X (FromAddress a + copied))
        (MmCopy.ptr X (ToAddress a + copied)) bad st = Some (status, st')
      /\ cev st' = cev st ++ evs
      /\ attach_protocol (FromProcess a) (ToProcess a) None evs = Some None
      /\ pages_protocol (None, 0) evs = Some (None, 0)
      /\ Forall (fun e => match e with
                          | EvLockPages _ n _ => 0 < n <= capacity
                          | _ => True
                          end) evs
      /\ match first_failure evs with
         | None => status = STATUS_SUCCESS E /\ stored_length evs = Some (BufferLength a)
         | Some (EvProbeForRead _ _ (Some r)) | Some (EvProbeForWrite _ _ (Some r)) =>
             status = ExceptionCode r /\ stored_length evs = None
         | Some (EvMapPages _) =>
             status = STATUS_INSUFFICIENT_RESOURCES X /\ stored_length evs = None
         | Some (EvLockPages address n (Some r)) =>
             status = STATUS_PARTIAL_COPY X
             /\ exists c,
                 copied <= c < BufferLength a
                 /\ address = MmCopy.ptr X (FromAddress a + c)
                 /\ stored_length evs = Some c
         | Some (EvMemcpy d s n (Some r)) =>
             status = STATUS_PARTIAL_COPY X
             /\ exists c,
                 copied <= c < BufferLength a
                 /\ d = MmCopy.ptr X (ToAddress a + c)
                 /\ stored_length evs
                    = Some (if snd (fst (MmCopy.MiGetExceptionInfo X r bad))
                            then u32 (MmCopy.ptr X
                                        (snd (MmCopy.MiGetExceptionInfo X r bad)
                                         - MmCopy.ptr X (FromAddress a + c)))
                            else c)
         | Some _ => False
         end
      /\ (first_failure evs = None ->
          exists sizes,
            locked_ranges evs = range_plan (pointer_bits X) (FromAddress a) copied sizes
            /\ written_ranges evs = range_plan (pointer_bits X) (ToAddress a) copied sizes
            /\ Forall (fun n => 0 < n <= capacity) sizes
            /\ copied + fold_right Z.add 0 sizes = BufferLength a).
Proof.
  intros HBL. induction fuel as [| fuel IH];
    intros blockSize copied st Hc Hb0 Hb1 Hp Hmp Hf; [lia |].
  rewrite mapped_copy_loop_S.
  destruct (BufferLength a - copied =? 0) eqn:E0.
  - apply Z.eqb_eq in E0.
    exists (STATUS_SUCCESS E),
      (MmCopy.return_length X (ReturnLength a) (BufferLength a) st),
      [EvReturnLength (BufferLength a)].
    split; [reflexivity |]. split; [reflexivity |]. split; [reflexivity |].
    split; [reflexivity |]. split; [repeat constructor |].
    split; [cbn; split; reflexivity |].
    intros _; exists []; cbn. split; [reflexivity |]. split; [reflexivity |].
    split; [constructor | lia].
  - apply Z.eqb_neq in E0. cbv zeta.
    set (bs := if BufferLength a - copied <? blockSize then BufferLength a - copied
               else blockSize).
    assert (Hbs : 0 < bs <= capacity /\ bs <= BufferLength a - copied).
    { subst bs. destruct (BufferLength a - copied <? blockSize) eqn:El;
        [apply Z.ltb_lt in El | apply Z.ltb_ge in El]; lia. }
    set (st1 := MmCopy.attach X (FromProcess a)
                  (MmCopy.set_copying false
                     (MmCopy.set_pagesLocked false (MmCopy.set_mappedAddress 0 st)))).
    assert (Hp1 : probing st1 = false) by exact Hp.
    assert (Hm1 : mapping st1 = false) by exact Hmp.
    assert (Hc1 : cev st1 = cev st ++ [EvAttach (FromProcess a)]) by reflexivity.
    assert (Hcp1 : copying st1 = false) by reflexivity.
    pose proof (mapped_copy_block_cases a (MmCopy.ptr X (FromAddress a + copied))
                  (MmCopy.ptr X (ToAddress a + copied)) bs st1 Hp1 Hm1 eq_refl eq_refl)
      as Hblock.
    cbv zeta in Hblock.
    destruct (MmCopy.mapped_copy_block X a (MmCopy.ptr X (FromAddress a + copied))
                (MmCopy.ptr X (ToAddress a + copied)) bs st1) as [[] st2 | r st2].
    + destruct Hblock as (Hp2 & Hm2 & Ha2 & Hc2).
      set (st3 := MmCopy.unlock_pages X (MmCopy.unmap_pages X (MmCopy.detach X st2))).
      assert (Hp3 : probing st3 = false) by exact Hp2.
      assert (Hm3 : mapping st3 = false) by exact Hm2.
      assert (Hc3 : cev st3 = cev st2 ++ [EvDetach; EvUnmapPages (mappedAddress st2);
                                          EvUnlockPages]).
      { subst st3. unfold MmCopy.unlock_pages, MmCopy.unmap_pages, MmCopy.detach,
          MmCopy.record. cbn [ck cev probing copying mapping pagesLocked mappedAddress].
        rewrite <- !app_assoc. reflexivity. }
      assert (Hu : u32 (BufferLength a - copied - bs) = BufferLength a - (copied + bs)).
      { unfold u32. rewrite Z.mod_small by lia. lia. }
      rewrite Hu, !ptr_add, <- !Z.add_assoc.
      destruct (IH bs (copied + bs) st3) as (status & st' & evs & Hrun & Hcev & Hat & Hpages
                                             & Hfit & Hout & Hplan);
        [lia | lia | lia | exact Hp3 | exact Hm3 | lia |].
      set (pr := (MmCopy.ptr X (FromAddress a + copied) =? FromAddress a)
                 && negb (AccessMode a =? KernelMode X)) in *.
      set (pw := (MmCopy.ptr X (ToAddress a + copied) =? ToAddress a)
                 && negb (AccessMode a =? KernelMode X)) in *.
      set (src := MmCopy.ptr X (FromAddress a + copied)) in *.
      set (tgt := MmCopy.ptr X (ToAddress a + copied)) in *.
      set (m := mappedAddress st2) in *.
      set (round := [EvAttach (FromProcess a)]
                    ++ ((if pr then [EvProbeForRead src (BufferLength a) None] else [])
                        ++ [EvLockPages src bs None; EvMapPages m; EvDetach;
                            EvAttach (ToProcess a)])
                    ++ (if pw then [EvProbeForWrite tgt (BufferLength a) None] else [])
                    ++ [EvMemcpy tgt m bs None]
                    ++ [EvDetach; EvUnmapPages m; EvUnlockPages]).
      exists status, st', (round ++ evs).
      split; [exact Hrun |].
      split.
      { rewrite Hcev, Hc3, Hc2, Hc1. subst round. rewrite <- !app_assoc. reflexivity. }
      split.
      { rewrite attach_protocol_app.
        replace (attach_protocol (FromProcess a) (ToProcess a) None round) with (Some (@None Z));
          [exact Hat |].
        subst round. destruct pr, pw; cbn; rewrite ?Z.eqb_refl; reflexivity. }
      split.
      { rewrite pages_protocol_app.
        replace (pages_protocol (None, 0) round) with (Some (@None Z, 0)); [exact Hpages |].
        subst round.
        destruct pr, pw; cbn; rewrite ?Ha2, ?Z.eqb_refl, ?Z.leb_refl; cbn;
          rewrite ?Ha2, ?Z.eqb_refl; reflexivity. }
      split.
      { apply Forall_app. split; [| exact Hfit].
        subst round. destruct pr, pw; cbn [app]; repeat constructor; auto; lia. }
      assert (Hff : first_failure (round ++ evs) = first_failure evs).
      { rewrite first_failure_app. subst round.
        destruct pr, pw; cbn; rewrite ?Ha2; reflexivity. }
      assert (Hsl : stored_length (round ++ evs) = stored_length evs).
      { rewrite stored_length_app. destruct (stored_length evs); [reflexivity |].
        subst round. destruct pr, pw; reflexivity. }
      split.
      { rewrite Hff, Hsl.
        destruct (first_failure evs)
          as [[| | | | ? ? [r |] | ? ? [r |] | d s n [r |] | ? n [r |] | | | |] |];
          try exact Hout.
        - destruct Hout as [Hs (c & Hcb & Hcase)].
          split; [exact Hs |]. exists c. split; [lia | exact Hcase].
        - destruct Hout as [Hs (c & Hcb & Hcase)].
          split; [exact Hs |]. exists c. split; [lia | exact Hcase]. }
      { rewrite Hff. intros Hnone. destruct (Hplan Hnone) as (sizes & Hl & Hw & Hfs & Hsum).
        exists (bs :: sizes). split.
        - rewrite locked_ranges_app, Hl. subst round. destruct pr, pw; reflexivity.
        - split.
          + rewrite written_ranges_app, Hw. subst round. destruct pr, pw; reflexivity.
          + split; [constructor; [lia | exact Hfs] |].
            cbn [fold_right]. lia. }
    + pose proof (mapped_copy_handler_events a (MmCopy.ptr X (FromAddress a + copied))
                    (BufferLength a - copied) r bad st2) as [Hst Hev].
      cbv zeta in Hst, Hev.
      assert (Hu : u32 (BufferLength a - (BufferLength a - copied)) = copied).
      { unfold u32. rewrite Z.mod_small by lia. lia. }
      rewrite Hu in Hev.
      set (res := MmCopy.mapped_copy_handler X a (MmCopy.ptr X (FromAddress a + copied))
                    (BufferLength a - copied) r bad st2) in *.
      set (pr := (MmCopy.ptr X (FromAddress a + copied) =? FromAddress a)
                 && negb (AccessMode a =? KernelMode X)) in *.
      set (pw := (MmCopy.ptr X (ToAddress a + copied) =? ToAddress a)
                 && negb (AccessMode a =? KernelMode X)) in *.
      set (src := MmCopy.ptr X (FromAddress a + copied)) in *.
      set (tgt := MmCopy.ptr X (ToAddress a + copied)) in *.
      set (m := mappedAddress st2) in *.
      exists (fst res), (snd res).
      destruct Hblock as [(Hpr & Hp2 & Hl2 & Ha2 & Hc2)
                         | [(Hp2 & Hm2 & Hcp2 & Hl2 & Ha2 & Hc2)
                           | [(Hp2 & Hm2 & Hl2 & Ha2 & Hcode & Hc2)
                             | [(Hpw & Hp2 & Hl2 & Ha2 & Hc2)
                               | (Hp2 & Hm2 & Hcp2 & Hl2 & Ha2 & Hc2)]]]];
        rewrite Hp2, Hl2, Ha2 in Hev; rewrite Hp2 in Hst;
        try rewrite Hm2 in Hev; try rewrite Hm2 in Hst;
        try rewrite Hcp2 in Hev; try rewrite Hcp1 in Hev;
        cbn [andb orb Z.eqb] in Hev, Hst; rewrite Hc2, Hc1, <- ?app_assoc in Hev;
        cbn [app] in Hev;
        eexists; (split; [rewrite <- surjective_pairing; reflexivity |]);
        (split; [exact Hev |]); rewrite Hst; clear Hev Hst;
        try rewrite Hpr; try rewrite Hpw; try rewrite Hcode.
      all: destruct pr, pw,
             (snd (fst (MmCopy.MiGetExceptionInfo X r bad))) eqn:Ek; try discriminate.
      all: cbn [app].
      all: split; [cbn; rewrite ?Z.eqb_refl; reflexivity |].
      all: split; [cbn; rewrite ?Ha2, ?Z.eqb_refl, ?Z.leb_refl; cbn;
                   rewrite ?Ha2, ?Z.eqb_refl; reflexivity |].
      all: split; [repeat constructor; auto; lia |].
      all: (split; [| cbn; rewrite ?Ha2; intros Hnone; discriminate Hnone]).
      all: cbn; rewrite ?Ha2, ?Ek; cbn.
      all: try (split; reflexivity).
      all: split; [reflexivity |]; exists copied; (split; [lia |]).
      all: split; reflexivity.
Qed.

Lemma MiDoMappedCopy_run fuel a bad (k : K) ev :
  0 < (MI_MAPPED_COPY_PAGES X - 2) * PAGE_SIZE X < 2 ^ 32 ->
  0 <= BufferLength a < 2 ^ 32 ->
  0 <= FromAddress a < 2 ^ pointer_bits X ->
  0 <= ToAddress a < 2 ^ pointer_bits X ->
  (Z.to_nat (BufferLength a) < fuel)%nat ->
  exists status st evs,
    MmCopy.MiDoMappedCopy E X fuel a bad k ev = Some (status, st)
    /\ cev st = ev ++ evs
    /\ attach_protocol (FromProcess a) (ToProcess a) None evs = Some None
    /\ pages_protocol (None, 0) evs = Some (None, 0)
    /\ Forall (fun e => match e with
                        | EvLockPages _ n _ =>
                            0 < n <= (MI_MAPPED_COPY_PAGES X - 2) * PAGE_SIZE X
                        | _ => True
                        end) evs
    /\ match first_failure evs with
       | None => status = STATUS_SUCCESS E /\ stored_length evs = Some (BufferLength a)
       | Some (EvProbeForRead _ _ (Some r)) | Some (EvProbeForWrite _ _ (Some r)) =>
           status = ExceptionCode r /\ stored_length evs = None
       | Some (EvMapPages _) =>
           status = STATUS_INSUFFICIENT_RESOURCES X /\ stored_length evs = None
       | Some (EvLockPages address n (Some r)) =>
           status = STATUS_PARTIAL_COPY X
           /\ exists c,
               0 <= c < BufferLength a
               /\ address = MmCopy.ptr X (FromAddress a + c)
               /\ stored_length evs = Some c
       | Some (EvMemcpy d s n (Some r)) =>
           status = STATUS_PARTIAL_COPY X
           /\ exists c,
               0 <= c < BufferLength a
               /\ d = MmCopy.ptr X (ToAddress a + c)
               /\ stored_length evs
                  = Some (if snd (fst (MmCopy.MiGetExceptionInfo X r bad))
                          then u32 (MmCopy.ptr X
                                      (snd (MmCopy.MiGetExceptionInfo X r bad)
                                       - MmCopy.ptr X (FromAddress a + c)))
                          else c)
       | Some _ => False
       end
    /\ (first_failure evs = None ->
        exists sizes,
          locked_ranges evs = range_plan (pointer_bits X) (FromAddress a) 0 sizes
          /\ written_ranges evs = range_plan (pointer_bits X) (ToAddress a) 0 sizes
          /\ Forall (fun n => 0 < n <= (MI_MAPPED_COPY_PAGES X - 2) * PAGE_SIZE X) sizes
          /\ fold_right Z.add 0 sizes = BufferLength a).
Proof.
  intros Hconst HBL Hfrom Hto Hfuel.
  unfold MmCopy.MiDoMappedCopy. cbv zeta.
  set (st0 := mkCopyState k ev false false false false 0).
  assert (Hu : u32 ((MI_MAPPED_COPY_PAGES X - 2) * PAGE_SIZE X)
               = (MI_MAPPED_COPY_PAGES X - 2) * PAGE_SIZE X).
  { unfold u32. apply Z.mod_small. lia. }
  rewrite Hu.
  set (limit := (MI_MAPPED_COPY_PAGES X - 2) * PAGE_SIZE X) in *.
  set (total := if BufferLength a <=? limit then BufferLength a else limit).
  assert (Ht : total <= limit /\ (0 < BufferLength a -> 0 < total)).
  { subst total. destruct (BufferLength a <=? limit) eqn:El;
      [apply Z.leb_le in El | apply Z.leb_gt in El]; lia. }
  assert (Hsrc : FromAddress a = MmCopy.ptr X (FromAddress a + 0)).
  { unfold MmCopy.ptr. rewrite Z.add_0_r, Z.mod_small; [reflexivity | exact Hfrom]. }
  assert (Htgt : ToAddress a = MmCopy.ptr X (ToAddress a + 0)).
  { unfold MmCopy.ptr. rewrite Z.add_0_r, Z.mod_small; [reflexivity | exact Hto]. }
  destruct (mapped_copy_loop_run a limit bad HBL fuel total 0 st0)
    as (status & st' & evs & Hrun & Hcev & Hat & Hpages & Hfit & Hout & Hplan);
    [lia | lia | lia | reflexivity | reflexivity | lia |].
  rewrite <- Hsrc, <- Htgt, Z.sub_0_r in Hrun.
  exists status, st', evs.
  split; [exact Hrun |]. split; [exact Hcev |]. split; [exact Hat |].
  split; [exact Hpages |]. split; [exact Hfit |]. split; [exact Hout |].
  intros Hnone. destruct (Hplan Hnone) as (sizes & Hl & Hw & Hfs & Hsum).
  exists sizes. split; [exact Hl |]. split; [exact Hw |]. split; [exact Hfs | lia].
Qed.

(** X24.  On every path MiDoMappedCopy returns detached, with nothing
    mapped and nothing locked: what it locks it maps, copies from the
    mapping no more bytes than it locked, unmaps and unlocks, also when
    a call raises or the mapping fails.  It never locks more than
    (MI_MAPPED_COPY_PAGES - 2) * PAGE_SIZE bytes at a time. *)
Theorem MiDoMappedCopy_unmaps_and_unlocks fuel a bad (k : K) ev :
  0 < (MI_MAPPED_COPY_PAGES X - 2) * PAGE_SIZE X < 2 ^ 32 ->
  0 <= BufferLength a < 2 ^ 32 ->
  0 <= FromAddress a < 2 ^ pointer_bits X ->
  0 <= ToAddress a < 2 ^ pointer_bits X ->
  (Z.to_nat (BufferLength a) < fuel)%nat ->
  exists status st evs,
    MmCopy.MiDoMappedCopy E X fuel a bad k ev = Some (status, st)
    /\ cev st = ev ++ evs
    /\ attach_protocol (FromProcess a) (ToProcess a) None evs = Some None
    /\ pages_protocol (None, 0) evs = Some (None, 0)
    /\ Forall (fun e => match e with
                        | EvLockPages _ n _ =>
                            0 < n <= (MI_MAPPED_COPY_PAGES X - 2) * PAGE_SIZE X
                        | _ => True
                        end) evs.
Proof.
  intros Hconst HBL Hfrom Hto Hfuel.
  destruct (MiDoMappedCopy_run fuel a bad k ev Hconst HBL Hfrom Hto Hfuel)
    as (status & st & evs & Hrun & Hcev & Hat & Hpages & Hfit & _).
  exists status, st, evs. auto.
Qed.

(** X25.  When no call raises and no mapping fails, MiDoMappedCopy
    returns STATUS_SUCCESS with BufferLength stored through
    ReturnLength, and it has copied the whole range in order: the
    blocks it locked tile the source range from FromAddress, the blocks
    it wrote tile the target range from ToAddress, block by block of the
    same size, the sizes adding up to BufferLength. *)
Theorem MiDoMappedCopy_copies_whole_range fuel a bad (k : K) ev :
  0 < (MI_MAPPED_COPY_PAGES X - 2) * PAGE_SIZE X < 2 ^ 32 ->
  0 <= BufferLength a < 2 ^ 32 ->
  0 <= FromAddress a < 2 ^ pointer_bits X ->
  0 <= ToAddress a < 2 ^ pointer_bits X ->
  (Z.to_nat (BufferLength a) < fuel)%nat ->
  exists status st evs,
    MmCopy.MiDoMappedCopy E X fuel a bad k ev = Some (status, st)
    /\ cev st = ev ++ evs
    /\ (first_failure evs = None ->
        status = STATUS_SUCCESS E
        /\ stored_length evs = Some (BufferLength a)
        /\ exists sizes,
             locked_ranges evs = range_plan (pointer_bits X) (FromAddress a) 0 sizes
             /\ written_ranges evs = range_plan (pointer_bits X) (ToAddress a) 0 sizes
             /\ Forall (fun n => 0 < n) sizes
             /\ fold_right Z.add 0 sizes = BufferLength a).
Proof.
  intros Hconst HBL Hfrom Hto Hfuel.
  destruct (MiDoMappedCopy_run fuel a bad k ev Hconst HBL Hfrom Hto Hfuel)
    as (status & st & evs & Hrun & Hcev & _ & _ & _ & Hout & Hplan).
  exists status, st, evs. split; [exact Hrun |]. split; [exact Hcev |].
  intros Hnone. rewrite Hnone in Hout. destruct Hout as [Hs Hl].
  split; [exact Hs |]. split; [exact Hl |].
  destruct (Hplan Hnone) as (sizes & Hlr & Hwr & Hfs & Hsum).
  exists sizes. split; [exact Hlr |]. split; [exact Hwr |]. split; [| exact Hsum].
  eapply Forall_impl; [exact Hfs |]. intros n Hn. cbn in Hn. lia.
Qed.

(** X26.  The first call that fails decides what MiDoMappedCopy reports.
    A probe that raises makes it return the code of the exception, a
    mapping that fails STATUS_INSUFFICIENT_RESOURCES, and ReturnLength
    is left alone in both cases.  A lock or a memcpy that raises makes
    it return STATUS_PARTIAL_COPY; it has then copied [c] bytes in whole
    blocks, and it stores [c] through ReturnLength, unless it was the
    memcpy and the exception tells the bad address: then it stores the
    bad address minus the address of the current block in the source
    range, as a ULONG. *)
Theorem MiDoMappedCopy_reports_first_failure fuel a bad (k : K) ev :
  0 < (MI_MAPPED_COPY_PAGES X - 2) * PAGE_SIZE X < 2 ^ 32 ->
  0 <= BufferLength a < 2 ^ 32 ->
  0 <= FromAddress a < 2 ^ pointer_bits X ->
  0 <= ToAddress a < 2 ^ pointer_bits X ->
  (Z.to_nat (BufferLength a) < fuel)%nat ->
  exists status st evs,
    MmCopy.MiDoMappedCopy E X fuel a bad k ev = Some (status, st)
    /\ cev st = ev ++ evs
    /\ match first_failure evs with
       | None => True
       | Some (EvProbeForRead _ _ (Some r)) | Some (EvProbeForWrite _ _ (Some r)) =>
           status = ExceptionCode r /\ stored_length evs = None
       | Some (EvMapPages _) =>
           status = STATUS_INSUFFICIENT_RESOURCES X /\ stored_length evs = None
       | Some (EvLockPages address n (Some r)) =>
           status = STATUS_PARTIAL_COPY X
           /\ exists c,
               0 <= c < BufferLength a
               /\ address = MmCopy.ptr X (FromAddress a + c)
               /\ stored_length evs = Some c
       | Some (EvMemcpy d s n (Some r)) =>
           status = STATUS_PARTIAL_COPY X
           /\ exists c,
               0 <= c < BufferLength a
               /\ d = MmCopy.ptr X (ToAddress a + c)
               /\ stored_length evs
                  = Some (if snd (fst (MmCopy.MiGetExceptionInfo X r bad))
                          then u32 (MmCopy.ptr X
                                      (snd (MmCopy.MiGetExceptionInfo X r bad)
                                       - MmCopy.ptr X (FromAddress a + c)))
                          else c)
       | Some _ => False
       end.
Proof.
  intros Hconst HBL Hfrom Hto Hfuel.
  destruct (MiDoMappedCopy_run fuel a bad k ev Hconst HBL Hfrom Hto Hfuel)
    as (status & st & evs & Hrun & Hcev & _ & _ & _ & Hout & _).
  exists status, st, evs. split; [exact Hrun |]. split; [exact Hcev |].
  destruct (first_failure evs)
    as [[| | | | ? ? [r |] | ? ? [r |] | d s n [r |] | ? n [r |] | | | |] |];
    try exact Hout; exact I.
Qed.

End MappedCopy.

(** A kernel-mode copy of 60000 bytes from process 4 to process 8: two
    blocks. *)
Lemma MiDoMappedCopy_unmaps_and_unlocks_witness :
  let a := mkCopyArgs 4 0x10000 8 0x20000 60000 0 0x80000200 in
  exists status st evs,
    MmCopy.MiDoMappedCopy (sample_externs 4) sample_copy_externs (Z.to_nat 60001) a 0
      ([], 0) [] = Some (status, st)
    /\ cev st = [] ++ evs
    /\ attach_protocol 4 8 None evs = Some None
    /\ pages_protocol (None, 0) evs = Some (None, 0)
    /\ Forall (fun e => match e with
                        | EvLockPages _ n _ => 0 < n <= (14 - 2) * 4096
                        | _ => True
                        end) evs.
Proof.
  apply (MiDoMappedCopy_unmaps_and_unlocks (sample_externs 4) sample_copy_externs
           (Z.to_nat 60001) (mkCopyArgs 4 0x10000 8 0x20000 60000 0 0x80000200) 0
           ([], 0) []);
    cbn [MI_MAPPED_COPY_PAGES PAGE_SIZE pointer_bits sample_copy_externs BufferLength
           FromAddress ToAddress]; lia.
Defined.

Lemma MiDoMappedCopy_copies_whole_range_witness :
  let a := mkCopyArgs 4 0x10000 8 0x20000 60000 0 0x80000200 in
  exists status st evs,
    MmCopy.MiDoMappedCopy (sample_externs 4) sample_copy_externs (Z.to_nat 60001) a 0
      ([], 0) [] = Some (status, st)
    /\ cev st = [] ++ evs
    /\ (first_failure evs = None ->
        status = 0
        /\ stored_length evs = Some 60000
        /\ exists sizes,
             locked_ranges evs = range_plan 32 0x10000 0 sizes
             /\ written_ranges evs = range_plan 32 0x20000 0 sizes
             /\ Forall (fun n => 0 < n) sizes
             /\ fold_right Z.add 0 sizes = 60000).
Proof.
  apply (MiDoMappedCopy_copies_whole_range (sample_externs 4) sample_copy_externs
           (Z.to_nat 60001) (mkCopyArgs 4 0x10000 8 0x20000 60000 0 0x80000200) 0
           ([], 0) []);
    cbn [MI_MAPPED_COPY_PAGES PAGE_SIZE pointer_bits sample_copy_externs BufferLength
           FromAddress ToAddress]; lia.
Defined.

(** The same copy, where the target can be written up to 0x2c008 only:
    the second block cannot be written. *)
Lemma MiDoMappedCopy_reports_first_failure_witness :
  let a := mkCopyArgs 4 0x10000 8 0x20000 60000 0 0x80000200 in
  let X := faulting_copy_externs 0x2c008 in
  exists status st evs,
    MmCopy.MiDoMappedCopy (sample_externs 4) X (Z.to_nat 60001) a 0 ([], 0) []
    = Some (status, st)
    /\ cev st = [] ++ evs
    /\ match first_failure evs with
       | None => True
       | Some (EvProbeForRead _ _ (Some r)) | Some (EvProbeForWrite _ _ (Some r)) =>
           status = ExceptionCode r /\ stored_length evs = None
       | Some (EvMapPages _) =>
           status = STATUS_INSUFFICIENT_RESOURCES X /\ stored_length evs = None
       | Some (EvLockPages address n (Some r)) =>
           status = STATUS_PARTIAL_COPY X
           /\ exists c,
               0 <= c < 60000
               /\ address = MmCopy.ptr X (0x10000 + c)
               /\ stored_length evs = Some c
       | Some (EvMemcpy d s n (Some r)) =>
           status = STATUS_PARTIAL_COPY X
           /\ exists c,
               0 <= c < 60000
               /\ d = MmCopy.ptr X (0x20000 + c)
               /\ stored_length evs
                  = Some (if snd (fst (MmCopy.MiGetExceptionInfo X r 0))
                          then u32 (MmCopy.ptr X
                                      (snd (MmCopy.MiGetExceptionInfo X r 0)
                                       - MmCopy.ptr X (0x10000 + c)))
                          else c)
       | Some _ => False
       end.
Proof.
  apply (MiDoMappedCopy_reports_first_failure (sample_externs 4)
           (faulting_copy_externs 0x2c008) (Z.to_nat 60001)
           (mkCopyArgs 4 0x10000 8 0x20000 60000 0 0x80000200) 0 ([], 0) []);
    cbn [MI_MAPPED_COPY_PAGES PAGE_SIZE pointer_bits faulting_copy_externs BufferLength
           FromAddress ToAddress]; lia.
Defined.
(** ** GetObjectName *)

Lemma FILE_OBJECT_chain_ind (P : ObjectName.FILE_OBJECT -> Prop) :
  (forall d n b, P (ObjectName.mkFILE_OBJECT d n b None)) ->
  (forall d n b r, P r -> P (ObjectName.mkFILE_OBJECT d n b (Some r))) ->
  forall f, P f.
Proof.
  intros Hnone Hsome.
  fix IH 1. intros [d n b [r |]].
  - apply Hsome, IH.
  - apply Hnone.
Qed.

Lemma layout_app bits base offset l1 l2 :
  ObjectName.layout bits base offset (l1 ++ l2)
  = ObjectName.layout bits base offset l1
    ++ ObjectName.layout bits base (offset + fold_right Z.add 0 (map snd l1)) l2.
Proof.
  revert offset. induction l1 as [| [src n] l1 IH]; intros offset; cbn.
  - rewrite Z.add_0_r. reflexivity.
  - rewrite IH. do 3 f_equal. lia.
Qed.

Lemma layout_congr bits base1 base2 offset l :
  base1 mod 2 ^ bits = base2 mod 2 ^ bits ->
  ObjectName.layout bits base1 offset l = ObjectName.layout bits base2 offset l.
Proof.
  intros Hb. revert offset. induction l as [| [src n] l IH]; intros offset; cbn.
  - reflexivity.
  - rewrite IH. f_equal. f_equal.
    rewrite <- (Zplus_mod_idemp_l base1), <- (Zplus_mod_idemp_l base2), Hb. reflexivity.
Qed.

Lemma layout_within bits base offset l :
  Forall (fun p => 0 <= snd p) l ->
  0 <= base + offset ->
  base + offset + fold_right Z.add 0 (map snd l) < 2 ^ bits ->
  Forall (fun e => match e with
                   | ObjectName.NevMemcpy d _ n =>
                       base + offset <= d
                       /\ d + n <= base + offset + fold_right Z.add 0 (map snd l)
                   | _ => False
                   end) (ObjectName.layout bits base offset l).
Proof.
  revert offset. induction l as [| [src n] l IH]; intros offset Hl H0 Hs; cbn in *.
  - constructor.
  - apply List.Forall_cons_iff in Hl as [Hn Hl]. cbn in Hn.
    assert (Hsum : 0 <= fold_right Z.add 0 (map snd l)).
    { clear -Hl. induction Hl as [| p l Hp _ IHl]; cbn; lia. }
    constructor.
    + rewrite Z.mod_small by lia. lia.
    + eapply Forall_impl; [apply (IH (offset + n) Hl); lia |].
      intros [] He; try contradiction. cbn in He. lia.
Qed.

Section GetObjectName.

Context {K : Type} (X : ObjectName.NameExterns K).

Lemma names_total_nonneg f :
  Forall (fun p => 0 <= snd p < 65536) (ObjectName.names f) ->
  0 <= fold_right Z.add 0 (map snd (ObjectName.names f)).
Proof.
  generalize (ObjectName.names f). intros l Hl.
  induction Hl as [| p l Hp _ IHl]; cbn; lia.
Qed.

Lemma name_length_total f :
  Forall (fun p => 0 <= snd p < 65536) (ObjectName.names f) ->
  forall acc,
    0 <= acc ->
    acc + fold_right Z.add 0 (map snd (ObjectName.names f)) < 2 ^ 32 ->
    ObjectName.name_length f acc
    = acc + fold_right Z.add 0 (map snd (ObjectName.names f)).
Proof.
  induction f as [d n b | d n b r IH] using FILE_OBJECT_chain_ind; intros Hl acc Ha Hs;
    cbn [ObjectName.name_length ObjectName.names] in *.
  - cbn in *. apply List.Forall_cons_iff in Hl as [Hn _]. cbn in Hn.
    unfold u32. rewrite Z.mod_small by lia. lia.
  - apply Forall_app in Hl as [Hr Hn].
    apply List.Forall_cons_iff in Hn as [Hn _]. cbn in Hn.
    pose proof (names_total_nonneg r Hr) as Hnn.
    rewrite map_app, fold_right_app in Hs |- *. cbn in Hs |- *.
    assert (Hsplit : forall l z, fold_right Z.add z l = fold_right Z.add 0 l + z).
    { clear. induction l as [| x l IHl]; intros z; cbn; [lia | rewrite IHl; lia]. }
    rewrite Hsplit in Hs |- *.
    assert (Hu : u32 (acc + n) = acc + n).
    { unfold u32. apply Z.mod_small. lia. }
    rewrite Hu, IH; [lia | exact Hr | lia | lia].
Qed.

Lemma copy_names_events f :
  forall name (st : ObjectName.NameState K),
    ObjectName.nev (ObjectName.copy_names X f name st)
    = ObjectName.nev st
      ++ rev (ObjectName.layout (ObjectName.pointer_bits X)
                (name - fold_right Z.add 0 (map snd (ObjectName.names f))) 0
                (ObjectName.names f)).
Proof.
  assert (Hsplit : forall l z, fold_right Z.add z l = fold_right Z.add 0 l + z).
  { clear. induction l as [| x l IHl]; intros z; cbn; [lia | rewrite IHl; lia]. }
  induction f as [d n b | d n b r IH] using FILE_OBJECT_chain_ind; intros name st;
    cbn [ObjectName.copy_names ObjectName.names].
  - cbn. unfold ObjectName.ptr. do 4 f_equal. lia.
  - rewrite IH. cbn [ObjectName.record ObjectName.nev].
    rewrite layout_app, rev_app_distr. cbn [ObjectName.layout rev app].
    rewrite map_app, fold_right_app. cbn [map fold_right snd].
    rewrite !(Hsplit _ (n + 0)), <- app_assoc. cbn [app]. f_equal. f_equal.
    + unfold ObjectName.ptr. do 2 f_equal. lia.
    + f_equal. apply layout_congr. unfold ObjectName.ptr.
      rewrite Zminus_mod_idemp_l. f_equal. lia.
Qed.

Lemma ptr_ptr_add z n :
  ObjectName.ptr X (ObjectName.ptr X z + n) = ObjectName.ptr X (z + n).
Proof. unfold ObjectName.ptr. apply Zplus_mod_idemp_l. Qed.

Lemma GetObjectName_run FileObject Buffer BufferLength ReturnLength
    (st : ObjectName.NameState K) :
  let queried := negb (ObjectName.DeviceObject FileObject =? 0) in
  let k1 := if queried
            then ObjectName.ObQueryNameString X (ObjectName.DeviceObject FileObject)
                   Buffer BufferLength ReturnLength (ObjectName.nk st)
            else ObjectName.nk st in
  let pre := if queried
             then [ObjectName.NevQueryName (ObjectName.DeviceObject FileObject) Buffer
                     BufferLength]
             else [] in
  let u := ObjectName.used X FileObject Buffer BufferLength ReturnLength
             (ObjectName.nk st) in
  let total := fold_right Z.add 0 (map snd (ObjectName.names FileObject)) in
  let value := u32 (ObjectName.load_ulong X ReturnLength k1 + total) in
  let r := ObjectName.GetObjectName X FileObject Buffer BufferLength ReturnLength st in
  Forall (fun p => 0 <= snd p < 65536) (ObjectName.names FileObject) ->
  total < 2 ^ 32 ->
  if ObjectName.FileName_Buffer FileObject =? 0 then
    fst r = ObjectName.STATUS_SUCCESS X
    /\ ObjectName.nev (snd r) = ObjectName.nev st ++ pre
  else if total <=? u32 (BufferLength - u) then
    fst r = ObjectName.STATUS_SUCCESS X
    /\ ObjectName.nev (snd r)
       = ObjectName.nev st ++ pre
         ++ [ObjectName.NevReturnLength value;
             ObjectName.NevTerminator (ObjectName.ptr X (Buffer + u + total))]
         ++ rev (ObjectName.layout (ObjectName.pointer_bits X) (Buffer + u) 0
                   (ObjectName.names FileObject))
  else
    fst r = ObjectName.STATUS_BUFFER_TOO_SMALL X
    /\ ObjectName.nev (snd r)
       = ObjectName.nev st ++ pre ++ [ObjectName.NevReturnLength value].
Proof.
  intros queried k1 pre u total value r Hl Ht.
  pose proof (names_total_nonneg FileObject Hl) as Hnn. fold total in Hnn.
  assert (Hlen : ObjectName.name_length FileObject 0 = total).
  { rewrite name_length_total; [reflexivity | exact Hl | lia | exact Ht]. }
  subst r. unfold ObjectName.GetObjectName, ObjectName.record. cbv zeta.
  subst value pre k1 u. unfold ObjectName.used. fold queried.
  destruct queried; cbn [negb ObjectName.record ObjectName.nk ObjectName.nev].
  all: destruct (ObjectName.FileName_Buffer FileObject =? 0);
    [split; [reflexivity | rewrite ?app_nil_r; reflexivity] |].
  all: rewrite Hlen, Z.gtb_ltb, Z.ltb_antisym.
  all: destruct (total <=? u32 _); cbn [negb fst snd ObjectName.nev].
  all: try (split; [reflexivity | rewrite <- ?app_assoc; cbn [app]; reflexivity]).
  all: split; [reflexivity |].
  all: rewrite copy_names_events; cbn [ObjectName.nev]; fold total.
  all: rewrite <- ?app_assoc; cbn [app].
  all: rewrite !ptr_ptr_add.
  all: erewrite layout_congr; [reflexivity |].
  all: unfold ObjectName.ptr; rewrite Zminus_mod_idemp_l; f_equal; lia.
Qed.

(** X27.  What GetObjectName does for a file object with a name.  It
    adds the length of the names of the file object and of the file
    objects it is related to, to what ReturnLength holds, also when the
    buffer is too small.  If the names fit the room it takes to be
    left, it lays them out one after the other behind the device name,
    the outermost related file object first and the file object itself
    last, and writes the terminator behind them; if not, it returns
    STATUS_BUFFER_TOO_SMALL and writes nothing.  Without a name it
    returns STATUS_SUCCESS with nothing more than the device name. *)
Theorem GetObjectName_lays_names_out FileObject Buffer BufferLength ReturnLength
    (st : ObjectName.NameState K) :
  let queried := negb (ObjectName.DeviceObject FileObject =? 0) in
  let k1 := if queried
            then ObjectName.ObQueryNameString X (ObjectName.DeviceObject FileObject)
                   Buffer BufferLength ReturnLength (ObjectName.nk st)
            else ObjectName.nk st in
  let pre := if queried
             then [ObjectName.NevQueryName (ObjectName.DeviceObject FileObject) Buffer
                     BufferLength]
             else [] in
  let u := ObjectName.used X FileObject Buffer BufferLength ReturnLength
             (ObjectName.nk st) in
  let total := fold_right Z.add 0 (map snd (ObjectName.names FileObject)) in
  let value := u32 (ObjectName.load_ulong X ReturnLength k1 + total) in
  let r := ObjectName.GetObjectName X FileObject Buffer BufferLength ReturnLength st in
  Forall (fun p => 0 <= snd p < 65536) (ObjectName.names FileObject) ->
  total < 2 ^ 32 ->
  if ObjectName.FileName_Buffer FileObject =? 0 then
    fst r = ObjectName.STATUS_SUCCESS X
    /\ ObjectName.nev (snd r) = ObjectName.nev st ++ pre
  else if total <=? u32 (BufferLength - u) then
    fst r = ObjectName.STATUS_SUCCESS X
    /\ ObjectName.nev (snd r)
       = ObjectName.nev st ++ pre
         ++ [ObjectName.NevReturnLength value;
             ObjectName.NevTerminator (ObjectName.ptr X (Buffer + u + total))]
         ++ rev (ObjectName.layout (ObjectName.pointer_bits X) (Buffer + u) 0
                   (ObjectName.names FileObject))
  else
    fst r = ObjectName.STATUS_BUFFER_TOO_SMALL X
    /\ ObjectName.nev (snd r)
       = ObjectName.nev st ++ pre ++ [ObjectName.NevReturnLength value].
Proof. exact (GetObjectName_run FileObject Buffer BufferLength ReturnLength st). Qed.

(** X28.  When what precedes the names (the device name without its
    terminator, or the four bytes of a UNICODE_STRING header) fits the
    buffer, GetObjectName copies no name outside the buffer.  The
    terminator, two bytes, is written right behind the names, at or
    before the end of the buffer. *)
Theorem GetObjectName_copies_inside_buffer FileObject Buffer BufferLength ReturnLength
    (st : ObjectName.NameState K) :
  let u := ObjectName.used X FileObject Buffer BufferLength ReturnLength
             (ObjectName.nk st) in
  let total := fold_right Z.add 0 (map snd (ObjectName.names FileObject)) in
  let r := ObjectName.GetObjectName X FileObject Buffer BufferLength ReturnLength st in
  Forall (fun p => 0 <= snd p < 65536) (ObjectName.names FileObject) ->
  total < 2 ^ 32 ->
  0 <= Buffer -> Buffer + BufferLength < 2 ^ ObjectName.pointer_bits X ->
  BufferLength < 2 ^ 32 ->
  u <= BufferLength ->
  exists evs,
    ObjectName.nev (snd r) = ObjectName.nev st ++ evs
    /\ Forall (fun e => match e with
                        | ObjectName.NevMemcpy d _ n =>
                            Buffer <= d /\ d + n <= Buffer + BufferLength
                        | ObjectName.NevTerminator address =>
                            address = Buffer + u + total
                            /\ address <= Buffer + BufferLength
                        | _ => True
                        end) evs.
Proof.
  intros u total r Hl Ht HB Hend HBL Hu.
  pose proof (GetObjectName_run FileObject Buffer BufferLength ReturnLength st Hl Ht)
    as Hrun.
  cbv zeta in Hrun. fold u total r in Hrun.
  pose proof (names_total_nonneg FileObject Hl) as Hnn. fold total in Hnn.
  assert (Hu0 : 0 <= u).
  { subst u. unfold ObjectName.used.
    destruct (negb (ObjectName.DeviceObject FileObject =? 0)); [| lia].
    unfold u32. apply Z.mod_pos_bound. lia. }
  assert (Hrem : u32 (BufferLength - u) = BufferLength - u).
  { unfold u32. apply Z.mod_small. lia. }
  rewrite Hrem in Hrun.
  destruct (ObjectName.FileName_Buffer FileObject =? 0).
  - destruct Hrun as [_ Hev]. eexists. split; [exact Hev |].
    destruct (negb (ObjectName.DeviceObject FileObject =? 0)); repeat constructor.
  - destruct (total <=? BufferLength - u) eqn:Efit.
    + apply Z.leb_le in Efit. destruct Hrun as [_ Hev].
      eexists. split; [exact Hev |].
      apply Forall_app. split.
      { destruct (negb (ObjectName.DeviceObject FileObject =? 0)); repeat constructor. }
      constructor; [exact I |]. constructor.
      { unfold ObjectName.ptr. rewrite Z.mod_small by lia. lia. }
      apply Forall_rev.
      eapply Forall_impl.
      * apply (layout_within (ObjectName.pointer_bits X) (Buffer + u) 0).
        -- eapply Forall_impl; [exact Hl |]. intros p Hp. cbn in Hp. lia.
        -- lia.
        -- fold total. lia.
      * intros [] He; try contradiction. cbn in He. fold total in He. lia.
    + destruct Hrun as [_ Hev]. eexists. split; [exact Hev |].
      apply Forall_app. split.
      { destruct (negb (ObjectName.DeviceObject FileObject =? 0)); repeat constructor. }
      repeat constructor.
Qed.

End GetObjectName.

(** The name of [sample_file], into a buffer of 100 bytes. *)
Lemma GetObjectName_lays_names_out_witness :
  let X := ObjectName.sample_name_externs in
  let r := ObjectName.GetObjectName X ObjectName.sample_file 0x83000000 100 0x83001000
             (ObjectName.mkNameState 0 []) in
  fst r = 0
  /\ ObjectName.nev (snd r)
     = [ObjectName.NevQueryName 0x81000000 0x83000000 100;
        ObjectName.NevReturnLength 42;
        ObjectName.NevTerminator (0x83000000 + 22 + 18);
        ObjectName.NevMemcpy (0x83000000 + 22 + 8) 0x82000000 10;
        ObjectName.NevMemcpy (0x83000000 + 22) 0x82000100 8].
Proof.
  apply (GetObjectName_lays_names_out ObjectName.sample_name_externs ObjectName.sample_file
           0x83000000 100 0x83001000 (ObjectName.mkNameState 0 [])).
  - repeat constructor; simpl; lia.
  - reflexivity.
Defined.

Lemma GetObjectName_copies_inside_buffer_witness :
  let X := ObjectName.sample_name_externs in
  let r := ObjectName.GetObjectName X ObjectName.sample_file 0x83000000 100 0x83001000
             (ObjectName.mkNameState 0 []) in
  exists evs,
    ObjectName.nev (snd r) = [] ++ evs
    /\ Forall (fun e => match e with
                        | ObjectName.NevMemcpy d _ n =>
                            0x83000000 <= d /\ d + n <= 0x83000000 + 100
                        | ObjectName.NevTerminator address =>
                            address = 0x83000000 + 22 + 18
                            /\ address <= 0x83000000 + 100
                        | _ => True
                        end) evs.
Proof.
  apply (GetObjectName_copies_inside_buffer ObjectName.sample_name_externs
           ObjectName.sample_file 0x83000000 100 0x83001000 (ObjectName.mkNameState 0 [])).
  - repeat constructor; simpl; lia.
  - reflexivity.
  - lia.
  - reflexivity.
  - reflexivity.
  - vm_compute. discriminate.
Defined.
